(** * QCO MoreUtils: a shallow embedding of the utilities and their properties

    The repository is a set of independent command-line programs.  Each
    module below embeds the part of one program that a property is stated
    about: [Ping] (the ICMP checksum), [Yes], [No], [Tee], [Stat],
    [ConfConvert], [Whois] and [Tree].  [CStr] and [Regex] model the pieces
    of the C and C++ libraries those programs lean on (std::string,
    <cctype>, std::regex in its default ECMAScript grammar).

    Conventions:
    - a w-bit integer is a [Z] and its wrap-around is written out;
    - a std::string is a list of characters ([CStr.str]);
    - what the operating system answers (system-call results, file contents,
      network replies) is an explicit argument of the model;
    - a thrown C++ exception is a [None] or an [Exn] result. *)

From Stdlib Require Import ZArith NArith List Lia Bool String Ascii Sorted.
From Stdlib Require Import DecimalString.
From Stdlib Require DecimalNat DecimalFacts.
From Stdlib.Strings Require Import Byte.
Import ListNotations.
Open Scope Z_scope.

(* ================================================================== *)
(** * Part I: the embedding *)
(* ================================================================== *)

(** ** Strings as the C and C++ libraries see them *)

Module CStr.
Definition str := list ascii.
Definition lit (s : string) : str := list_ascii_of_string s.

Definition dquote : ascii := "034".
Definition backslash : ascii := "092".
Definition newline : ascii := "010".
Definition cr : ascii := "013".
Definition tab : ascii := "009".

Definition code (c : ascii) : N := N_of_ascii c.
Definition in_range (lo hi : N) (c : ascii) : bool :=
  (lo <=? code c)%N && (code c <=? hi)%N.

(** <cctype> in the C locale, the only one these programs run in. *)
Definition isspace (c : ascii) : bool := (code c =? 32)%N || in_range 9 13 c.
Definition isdigit (c : ascii) : bool := in_range 48 57 c.
Definition tolower (c : ascii) : ascii :=
  if in_range 65 90 c then ascii_of_N (code c + 32) else c.
Definition toupper (c : ascii) : ascii :=
  if in_range 97 122 c then ascii_of_N (code c - 32) else c.

Fixpoint str_eqb (a b : str) : bool :=
  match a, b with
  | [], [] => true
  | x :: a', y :: b' => Ascii.eqb x y && str_eqb a' b'
  | _, _ => false
  end.

(** std::string operator<: lexicographic on unsigned char. *)
Fixpoint str_ltb (a b : str) : bool :=
  match a, b with
  | _, [] => false
  | [], _ :: _ => true
  | x :: a', y :: b' =>
      if (code x <? code y)%N then true
      else if (code y <? code x)%N then false
      else str_ltb a' b'
  end.

Definition mem (c : ascii) (set : str) : bool := existsb (Ascii.eqb c) set.

(** size_t is 64 bits wide; npos is its largest value. *)
Definition size_t (z : Z) : Z := z mod 2 ^ 64.
Definition npos : Z := 2 ^ 64 - 1.
Definition size (s : str) : Z := Z.of_nat (List.length s).

Fixpoint find_first_not_of_from (s set : str) (i : Z) : Z :=
  match s with
  | [] => npos
  | c :: s' => if mem c set then find_first_not_of_from s' set (i + 1) else i
  end.
Definition find_first_not_of (s set : str) : Z := find_first_not_of_from s set 0.

Fixpoint find_last_not_of_from (s set : str) (i : Z) : Z :=
  match s with
  | [] => npos
  | c :: s' =>
      let later := find_last_not_of_from s' set (i + 1) in
      if later =? npos then (if mem c set then npos else i) else later
  end.
Definition find_last_not_of (s set : str) : Z := find_last_not_of_from s set 0.

(** std::string::erase(pos, n); [None] stands for std::out_of_range. *)
Definition erase (s : str) (pos n : Z) : option str :=
  if size s <? pos then None
  else
    let n' := Z.min n (size s - pos) in
    Some (firstn (Z.to_nat pos) s ++ skipn (Z.to_nat (pos + n')) s).

(** The lines std::getline extracts from a stream that holds [s]. *)
Fixpoint getlines_aux (cur : str) (s : str) : list str :=
  match s with
  | [] => match cur with [] => [] | _ => [rev cur] end
  | c :: s' =>
      if Ascii.eqb c newline then rev cur :: getlines_aux [] s'
      else getlines_aux (c :: cur) s'
  end.
Definition getlines (s : str) : list str := getlines_aux [] s.

(** Decimal text of a count, as operator<< and std::to_string print it. *)
Definition dec (n : nat) : str := lit (NilEmpty.string_of_uint (Nat.to_uint n)).

(** The set of the trimming calls of conf-convert and whois: a blank and a
    tab. *)
Definition blanks : str := [" "%char; tab].

(** [s.erase(0, s.find_first_not_of(blanks));
    s.erase(s.find_last_not_of(blanks) + 1);]
    The sum is a size_t: npos + 1 is 0. *)
Definition trim (s : str) : option str :=
  match erase s 0 (find_first_not_of s blanks) with
  | None => None
  | Some s1 => erase s1 (size_t (find_last_not_of s1 blanks + 1)) npos
  end.

Fixpoint is_prefix (p s : str) : bool :=
  match p, s with
  | [], _ => true
  | x :: p', y :: s' => Ascii.eqb x y && is_prefix p' s'
  | _ :: _, [] => false
  end.

(** s.find(sub): where [sub] first occurs in [s], npos when nowhere. *)
Fixpoint str_find_from (s sub : str) (i : Z) : Z :=
  if is_prefix sub s then i
  else
    match s with
    | [] => npos
    | _ :: s' => str_find_from s' sub (i + 1)
    end.
Definition str_find (s sub : str) : Z := str_find_from s sub 0.
Definition find_char (s : str) (c : ascii) : Z := str_find s [c].

(** s.substr(pos, n); [None] stands for std::out_of_range. *)
Definition substr (s : str) (pos n : Z) : option str :=
  if size s <? pos then None
  else Some (firstn (Z.to_nat (Z.min n (size s - pos))) (skipn (Z.to_nat pos) s)).

(** The helpers startsWith and endsWith of the converter. *)
Definition startsWith (s prefix : str) : bool :=
  if size s <? size prefix then false
  else str_eqb (firstn (List.length prefix) s) prefix.
Definition endsWith (s suffix : str) : bool :=
  if size s <? size suffix then false
  else str_eqb (skipn (List.length s - List.length suffix) s) suffix.
End CStr.

(** ** Exceptions and the numeric conversions of the C and C++ libraries *)

Module Cxx.
Import CStr.

(** A result, or the std::exception that was thrown, with its what(). *)
Inductive result (A : Type) :=
| Ok (a : A)
| Exn (what : str).
Arguments Ok {A} a.
Arguments Exn {A} what.

Definition bind {A B} (r : result A) (k : A -> result B) : result B :=
  match r with
  | Ok a => k a
  | Exn e => Exn e
  end.
Notation "x <- r ;; k" := (bind r (fun x => k))
  (at level 61, r at next level, right associativity).

(** A std::string member function that may throw std::out_of_range. *)
Definition checked (what : string) (o : option str) : result str :=
  match o with
  | Some x => Ok x
  | None => Exn (lit what)
  end.

(** std::map with std::string keys: entries in key order, keys unique. *)
Definition omap (V : Type) := list (str * V).
Definition smap := omap str.

(** [mp[k] = v] *)
Fixpoint map_set {V} (k : str) (v : V) (mp : omap V) : omap V :=
  match mp with
  | [] => [(k, v)]
  | (k', v') :: mp' =>
      if str_ltb k k' then (k, v) :: mp
      else if str_ltb k' k then (k', v') :: map_set k v mp'
      else (k', v) :: mp'
  end.
Fixpoint map_find {V} (k : str) (mp : omap V) : option V :=
  match mp with
  | [] => None
  | (k', v') :: mp' => if str_eqb k k' then Some v' else map_find k mp'
  end.
Definition map_count {V} (k : str) (mp : omap V) : bool :=
  match map_find k mp with Some _ => true | None => false end.
Definition map_erase {V} (k : str) (mp : omap V) : omap V :=
  filter (fun '(k', _) => negb (str_eqb k k')) mp.

(** Decimal text of an int, as operator<< and printf with percent d
    print it. *)
Definition dec_int (z : Z) : str :=
  (if z <? 0 then lit "-" else []) ++ dec (Z.abs_nat z).

Definition INT_MIN : Z := - 2 ^ 31.
Definition INT_MAX : Z := 2 ^ 31 - 1.
Definition LONG_MIN : Z := - 2 ^ 63.
Definition LONG_MAX : Z := 2 ^ 63 - 1.

Definition digit_val (c : ascii) : Z := Z.of_N (code c) - 48.

(** The digits at the head of [s], as a number on top of [acc], and what
    follows them. *)
Fixpoint digits_value (s : str) (acc : Z) : Z * str :=
  match s with
  | c :: s' =>
      if isdigit c then digits_value s' (10 * acc + digit_val c) else (acc, s)
  | [] => (acc, [])
  end.

Fixpoint skip_space (s : str) : str :=
  match s with
  | c :: s' => if isspace c then skip_space s' else s
  | [] => []
  end.

(** The subject sequence of strtol in base 10: white space, an optional
    sign, digits.  [None] when there is no digit to convert. *)
Definition scan_integer (s : str) : option (Z * str) :=
  let s1 := skip_space s in
  let '(neg, s2) :=
    match s1 with
    | c :: r =>
        if Ascii.eqb c "-" then (true, r)
        else if Ascii.eqb c "+" then (false, r)
        else (false, s1)
    | [] => (false, s1)
    end in
  match s2 with
  | c :: _ =>
      if isdigit c then
        let '(v, rest) := digits_value s2 0 in
        Some (if neg then - v else v, rest)
      else None
  | [] => None
  end.

(** strtol(s, &end, 10): the value, clamped to long, and [end]. *)
Definition strtol (s : str) : Z * str :=
  match scan_integer s with
  | None => (0, s)
  | Some (v, rest) => (Z.max LONG_MIN (Z.min LONG_MAX v), rest)
  end.

(** atoll(s); [None] where the C standard leaves the behaviour undefined
    (a value that does not fit a long long). *)
Definition atoll (s : str) : option Z :=
  match scan_integer s with
  | None => Some 0
  | Some (v, _) =>
      if (LONG_MIN <=? v) && (v <=? LONG_MAX) then Some v else None
  end.

(** std::stoi(s): throws std::invalid_argument when nothing converts and
    std::out_of_range when the value does not fit an int. *)
Definition stoi (s : str) : result Z :=
  match scan_integer s with
  | None => Exn (lit "stoi")
  | Some (v, _) =>
      if (INT_MIN <=? v) && (v <=? INT_MAX) then Ok v else Exn (lit "stoi")
  end.
End Cxx.

(** ** std::regex, ECMAScript grammar, for the constructs the programs use

    The matcher is the backtracking one of the library: it returns the
    states in which a pattern can stop, first choice first.  Unbounded
    repetition is only needed, and only offered, on single-character
    atoms. *)

Module Regex.
Import CStr.

Inductive citem :=
| CChar (c : ascii)
| CRange (lo hi : ascii)
| CSpace
| CDigit.

Inductive atom :=
| AChar (c : ascii)
| ASet (neg : bool) (items : list citem)
| AAny.

Inductive regex :=
| Bol
| Eol
| Atom (a : atom)
| Rep (a : atom) (min : nat) (max : option nat)
| Seq (r1 r2 : regex)
| Alt (r1 r2 : regex)
| Group (i : nat) (r : regex)
| Opt (r : regex)
| Times (n : nat) (r : regex).

(** [pre] is what has been consumed, last character first. *)
Record mstate := MState { pre : str; rest : str; caps : list (nat * str) }.

Section Matcher.
Variable icase : bool.

Definition char_match (p c : ascii) : bool :=
  if icase then Ascii.eqb (tolower c) (tolower p) else Ascii.eqb c p.

Definition item_match (it : citem) (c : ascii) : bool :=
  match it with
  | CChar p => char_match p c
  | CRange lo hi =>
      if icase
      then in_range (code lo) (code hi) (tolower c)
           || in_range (code lo) (code hi) (toupper c)
      else in_range (code lo) (code hi) c
  | CSpace => isspace c
  | CDigit => isdigit c
  end.

Definition atom_match (a : atom) (c : ascii) : bool :=
  match a with
  | AChar p => char_match p c
  | ASet neg items => xorb neg (existsb (fun it => item_match it c) items)
  | AAny => negb (Ascii.eqb c newline || Ascii.eqb c cr)
  end.

Definition room (max : option nat) : bool :=
  match max with Some O => false | _ => true end.
Definition less (max : option nat) : option nat :=
  match max with Some n => Some (Nat.pred n) | None => None end.

(** Where a greedy repetition of [a] can stop, longest first, each
    with the number of characters taken. *)
Fixpoint rep_states (a : atom) (max : option nat) (k : nat)
         (pre rest : str) : list (nat * (str * str)) :=
  match rest with
  | c :: rest' =>
      if atom_match a c && room max
      then rep_states a (less max) (S k) (c :: pre) rest' ++ [(k, (pre, rest))]
      else [(k, (pre, rest))]
  | [] => [(k, (pre, rest))]
  end.

Definition captured (before after : mstate) : str :=
  rev (firstn (List.length (pre after) - List.length (pre before)) (pre after)).

Fixpoint times {A} (n : nat) (f : A -> list A) (x : A) : list A :=
  match n with
  | O => [x]
  | S n' => flat_map (times n' f) (f x)
  end.

Fixpoint m (r : regex) (st : mstate) : list mstate :=
  match r with
  | Bol => match pre st with [] => [st] | _ => [] end
  | Eol => match rest st with [] => [st] | _ => [] end
  | Atom a =>
      match rest st with
      | c :: rest' =>
          if atom_match a c then [MState (c :: pre st) rest' (caps st)] else []
      | [] => []
      end
  | Rep a min max =>
      map (fun '(_, (p, q)) => MState p q (caps st))
          (filter (fun '(k, _) => (min <=? k)%nat)
                  (rep_states a max 0 (pre st) (rest st)))
  | Seq r1 r2 => flat_map (m r2) (m r1 st)
  | Alt r1 r2 => m r1 st ++ m r2 st
  | Group i r =>
      map (fun st' =>
             MState (pre st') (rest st') ((i, captured st st') :: caps st'))
          (m r st)
  | Opt r => m r st ++ [st]
  | Times n r => times n (m r) st
  end.

(** match[i].str(): the text of group [i], empty when it took no part. *)
Definition sub_match (i : nat) (cs : list (nat * str)) : str :=
  match find (fun '(j, _) => (j =? i)%nat) cs with
  | Some (_, s) => s
  | None => []
  end.

Definition at_end (st : mstate) : bool :=
  match rest st with [] => true | _ => false end.

(** std::regex_match: the first way to stop that uses the whole input. *)
Definition regex_match (r : regex) (s : str) : option (list (nat * str)) :=
  match find at_end (m r (MState [] s [])) with
  | Some st => Some (caps st)
  | None => None
  end.

(** std::regex_search: the leftmost start that matches, first choice there. *)
Fixpoint search_from (r : regex) (pre rest : str) : option (list (nat * str)) :=
  match m r (MState pre rest []) with
  | st :: _ => Some (caps st)
  | [] =>
      match rest with
      | c :: rest' => search_from r (c :: pre) rest'
      | [] => None
      end
  end.
Definition regex_search (r : regex) (s : str) : option (list (nat * str)) :=
  search_from r [] s.

(** The same search, returning the state the match stops in. *)
Fixpoint search_state (r : regex) (pre rest : str) : option mstate :=
  match m r (MState pre rest []) with
  | st :: _ => Some st
  | [] =>
      match rest with
      | c :: rest' => search_state r (c :: pre) rest'
      | [] => None
      end
  end.

(** std::sregex_iterator: the successive matches, each search starting
    where the previous match ended.  After an empty match the iterator
    first asks for a non-empty match at the same place and otherwise moves
    one character on.  [fuel] bounds the number of matches. *)
Fixpoint match_all (fuel : nat) (r : regex) (pre rest : str)
  : list (list (nat * str)) :=
  match fuel with
  | O => []
  | S fuel' =>
      match search_state r pre rest with
      | None => []
      | Some st =>
          caps st ::
          match Nat.eqb (List.length (Regex.rest st)) (List.length rest) with
          | false => match_all fuel' r (Regex.pre st) (Regex.rest st)
          | true =>
              match find (fun st' =>
                            negb (Nat.eqb (List.length (Regex.rest st'))
                                          (List.length rest)))
                         (m r (MState pre rest [])) with
              | Some st' => caps st' :: match_all fuel' r (Regex.pre st') (Regex.rest st')
              | None =>
                  match rest with
                  | c :: rest' => match_all fuel' r (c :: pre) rest'
                  | [] => []
                  end
              end
          end
      end
  end.
Definition regex_iterate (r : regex) (s : str) : list (list (nat * str)) :=
  match_all (S (S (List.length s))) r [] s.
End Matcher.

Fixpoint cat (rs : list regex) : regex :=
  match rs with
  | [] => Times 0 Bol
  | [r] => r
  | r :: rs' => Seq r (cat rs')
  end.
Definition chars (s : string) : regex :=
  cat (map (fun c => Atom (AChar c)) (lit s)).
Definition star (a : atom) : regex := Rep a 0 None.
Definition plus (a : atom) : regex := Rep a 1 None.
Definition between (lo hi : nat) (a : atom) : regex := Rep a lo (Some hi).
Definition space : atom := ASet false [CSpace].
Definition nonspace : atom := ASet true [CSpace].
Definition digit : atom := ASet false [CDigit].
End Regex.

(** ** Processes, signals and exit *)

Module Proc.
Import CStr.

Definition SIGINT : Z := 2.
Definition SIGKILL : Z := 9.
Definition SIGTERM : Z := 15.
Definition SIGXFSZ : Z := 25.
Definition EXIT_SUCCESS : Z := 0.
Definition EXIT_FAILURE : Z := 1.

(** What running a signal handler leads to: it returns and the interrupted
    code goes on in state [s], or it ends the process itself. *)
Inductive handler_effect (S : Type) :=
| Resumes (s : S)
| Terminates (code : Z) (s : S).
Arguments Resumes {S} s.
Arguments Terminates {S} code s.

(** How main ends: it returns or calls exit with a status, it calls
    abort(), it runs into behaviour the language leaves undefined, a signal
    whose action is to end the process is delivered to it, or the model's
    fuel runs out before it ends. *)
Inductive ending :=
| Exit (code : Z)
| Abort
| Undefined
| OutOfFuel
| Signaled (sig : Z).

(** Signal deliveries as the loops see them: [sigs n] tells whether a
    handled signal has arrived since the previous evaluation of the loop
    condition, [n] being the number of evaluations so far. *)
Definition schedule := nat -> bool.
Definition no_signal : schedule := fun _ => false.
End Proc.

(** ** yes *)

Module Yes.
Import CStr Cxx Proc.

Definition BUFFER_SIZE : Z := 8192.

(** What getopt_long hands to the switch, in command-line order. *)
Inductive option_t :=
| OptHelp
| OptVersion
| OptNewline
| OptLimit (optarg : str)
| OptUnknown.

(** The global flag, the locals of main that live across the loop, and the
    two output streams. *)
Record state := {
  keep_running : Z;
  add_newline : bool;
  limit : Z;
  count : Z;
  stdout : str;
  stderr : str
}.

Definition initial : state :=
  {| keep_running := 1; add_newline := true; limit := -1; count := 0;
     stdout := []; stderr := [] |}.

(** [void handle_signal(int sig) { keep_running = 0; }] *)
Definition handle_signal (sig : Z) (st : state) : state :=
  {| keep_running := 0; add_newline := add_newline st; limit := limit st;
     count := count st; stdout := stdout st; stderr := stderr st |}.

(** main installs it for both signals before anything else. *)
Definition handled_signals : list Z := [SIGINT; SIGTERM].

Definition print (text : str) (st : state) : state :=
  {| keep_running := keep_running st; add_newline := add_newline st;
     limit := limit st; count := count st;
     stdout := stdout st ++ text; stderr := stderr st |}.
Definition eprint (text : str) (st : state) : state :=
  {| keep_running := keep_running st; add_newline := add_newline st;
     limit := limit st; count := count st;
     stdout := stdout st; stderr := stderr st ++ text |}.
Definition set_newline (b : bool) (st : state) : state :=
  {| keep_running := keep_running st; add_newline := b;
     limit := limit st; count := count st;
     stdout := stdout st; stderr := stderr st |}.
Definition set_limit (l : Z) (st : state) : state :=
  {| keep_running := keep_running st; add_newline := add_newline st;
     limit := l; count := count st;
     stdout := stdout st; stderr := stderr st |}.
Definition bump (st : state) : state :=
  {| keep_running := keep_running st; add_newline := add_newline st;
     limit := limit st; count := count st + 1;
     stdout := stdout st; stderr := stderr st |}.

Section Main.
(** The texts of --help and --version. *)
Variable help_text : str -> str.
Variable version_text : str.

(** The getopt_long loop: [inl] when main goes on, [inr] when it ends. *)
Fixpoint options_loop (program_name : str) (opts : list option_t) (st : state)
  : state + (ending * state) :=
  match opts with
  | [] => inl st
  | OptHelp :: _ => inr (Exit 0, print (help_text program_name) st)
  | OptVersion :: _ => inr (Exit 0, print version_text st)
  | OptNewline :: opts' => options_loop program_name opts' (set_newline false st)
  | OptLimit optarg :: opts' =>
      match atoll optarg with
      | None => inr (Undefined, st)
      | Some l =>
          if l <? 0 then
            inr (Exit 1,
                 eprint (lit "Error: Limit must be a non-negative number"
                         ++ [newline]) st)
          else options_loop program_name opts' (set_limit l st)
      end
  | OptUnknown :: _ => inr (Exit 1, st)
  end.

(** The strcat loop over the remaining arguments; [None] when the text
    and its terminator do not fit the 8192 bytes of [buffer]. *)
Fixpoint join_args (started : bool) (args : list str) (buffer : str)
  : option str :=
  match args with
  | [] => Some buffer
  | arg :: args' =>
      let buffer := (if started then buffer ++ lit " " else buffer) ++ arg in
      if BUFFER_SIZE <=? size buffer then None
      else if BUFFER_SIZE - 100 <? size buffer then Some buffer
      else join_args true args' buffer
  end.

(** The condition of the main output loop and its body. *)
Definition guard (st : state) : bool :=
  negb (keep_running st =? 0) && ((limit st <? 0) || (count st <? limit st)).
Definition body (output : str) (st : state) : state :=
  bump (print (if add_newline st then output ++ [newline] else output) st).

(** The main output loop: the condition is evaluated, and the flag read,
    before every iteration.  count is a long long and would overflow only
    after 2^63 iterations. *)
Fixpoint main_loop (fuel : nat) (sigs : schedule) (n : nat) (output : str)
         (st : state) : ending * state :=
  match fuel with
  | O => (OutOfFuel, st)
  | S fuel' =>
      let st := if sigs n then handle_signal SIGINT st else st in
      if guard st then main_loop fuel' sigs (S n) output (body output st)
      else (Exit 0, st)
  end.

(** What is printed: y, or the arguments joined by blanks. *)
Definition output_of (args : list str) : option str :=
  match args with
  | [] => Some (lit "y")
  | _ => join_args false args []
  end.

Definition main (fuel : nat) (sigs : schedule) (program_name : str)
           (opts : list option_t) (args : list str) : ending * state :=
  match options_loop program_name opts initial with
  | inr ended => ended
  | inl st =>
      match output_of args with
      | None => (Undefined, st)
      | Some output => main_loop fuel sigs 0 output st
      end
  end.
End Main.
End Yes.

(** ** no *)

Module No.
Import CStr Cxx Proc.

(** The data members of class NoUtility. *)
Record NoUtility := {
  output_text : str;
  delay_ms : Z;
  count : Z;
  uppercase : bool;
  enthusiastic : bool;
  polite : bool;
  sarcastic : bool;
  quiet : bool;
  running : bool
}.

Definition fresh : NoUtility :=
  {| output_text := lit "no"; delay_ms := 0; count := -1; uppercase := false;
     enthusiastic := false; polite := false; sarcastic := false;
     quiet := false; running := true |}.

Definition setOutputText (t : str) (u : NoUtility) : NoUtility :=
  {| output_text := t; delay_ms := delay_ms u; count := count u;
     uppercase := uppercase u; enthusiastic := enthusiastic u;
     polite := polite u; sarcastic := sarcastic u; quiet := quiet u;
     running := running u |}.
Definition setDelay (d : Z) (u : NoUtility) : NoUtility :=
  {| output_text := output_text u; delay_ms := d; count := count u;
     uppercase := uppercase u; enthusiastic := enthusiastic u;
     polite := polite u; sarcastic := sarcastic u; quiet := quiet u;
     running := running u |}.
Definition setCount (c : Z) (u : NoUtility) : NoUtility :=
  {| output_text := output_text u; delay_ms := delay_ms u; count := c;
     uppercase := uppercase u; enthusiastic := enthusiastic u;
     polite := polite u; sarcastic := sarcastic u; quiet := quiet u;
     running := running u |}.
Definition setUppercase (b : bool) (u : NoUtility) : NoUtility :=
  {| output_text := output_text u; delay_ms := delay_ms u; count := count u;
     uppercase := b; enthusiastic := enthusiastic u;
     polite := polite u; sarcastic := sarcastic u; quiet := quiet u;
     running := running u |}.
Definition setEnthusiastic (b : bool) (u : NoUtility) : NoUtility :=
  {| output_text := output_text u; delay_ms := delay_ms u; count := count u;
     uppercase := uppercase u; enthusiastic := b;
     polite := polite u; sarcastic := sarcastic u; quiet := quiet u;
     running := running u |}.
Definition setPolite (b : bool) (u : NoUtility) : NoUtility :=
  {| output_text := output_text u; delay_ms := delay_ms u; count := count u;
     uppercase := uppercase u; enthusiastic := enthusiastic u;
     polite := b; sarcastic := sarcastic u; quiet := quiet u;
     running := running u |}.
Definition setSarcastic (b : bool) (u : NoUtility) : NoUtility :=
  {| output_text := output_text u; delay_ms := delay_ms u; count := count u;
     uppercase := uppercase u; enthusiastic := enthusiastic u;
     polite := polite u; sarcastic := b; quiet := quiet u;
     running := running u |}.
Definition setQuiet (b : bool) (u : NoUtility) : NoUtility :=
  {| output_text := output_text u; delay_ms := delay_ms u; count := count u;
     uppercase := uppercase u; enthusiastic := enthusiastic u;
     polite := polite u; sarcastic := sarcastic u; quiet := b;
     running := running u |}.
Definition setRunning (r : bool) (u : NoUtility) : NoUtility :=
  {| output_text := output_text u; delay_ms := delay_ms u; count := count u;
     uppercase := uppercase u; enthusiastic := enthusiastic u;
     polite := polite u; sarcastic := sarcastic u; quiet := quiet u;
     running := r |}.

(** The process: the object of main, the global pointer to it (null until
    main sets it), the two streams and the sleeps taken, in milliseconds. *)
Record process := {
  no_util : NoUtility;
  global_no : bool;
  cout : str;
  cerr : str;
  slept : list Z
}.

Definition with_util (f : NoUtility -> NoUtility) (p : process) : process :=
  {| no_util := f (no_util p); global_no := global_no p;
     cout := cout p; cerr := cerr p; slept := slept p |}.
Definition print (text : str) (p : process) : process :=
  {| no_util := no_util p; global_no := global_no p;
     cout := cout p ++ text; cerr := cerr p; slept := slept p |}.
Definition eprint (text : str) (p : process) : process :=
  {| no_util := no_util p; global_no := global_no p;
     cout := cout p; cerr := cerr p ++ text; slept := slept p |}.
Definition sleep_for (ms : Z) (p : process) : process :=
  {| no_util := no_util p; global_no := global_no p;
     cout := cout p; cerr := cerr p; slept := slept p ++ [ms] |}.

(** [if (global_no) global_no->setRunning(false);] *)
Definition signalHandler (signal : Z) (p : process) : process :=
  if global_no p then with_util (setRunning false) p else p.

Definition handled_signals : list Z := [SIGINT; SIGTERM].

(** [NoUtility no_util; global_no = &no_util;] *)
Definition started : process :=
  {| no_util := fresh; global_no := true; cout := []; cerr := []; slept := [] |}.

Definition formatOutput (u : NoUtility) : str :=
  let result :=
    if polite u then lit "No, thank you"
    else if enthusiastic u then lit "NO!"
    else if sarcastic u then lit "no... obviously"
    else output_text u in
  if uppercase u && negb (enthusiastic u) && negb (polite u) && negb (sarcastic u)
  then map toupper result
  else result.

Definition deliver (sigs : schedule) (n : nat) (p : process) : process :=
  if sigs n then signalHandler SIGINT p else p.

(** [while (running) { ... }] *)
Fixpoint infinite_loop (fuel : nat) (sigs : schedule) (n : nat)
         (formatted : str) (p : process) : ending * process :=
  match fuel with
  | O => (OutOfFuel, p)
  | S fuel' =>
      let p := deliver sigs n p in
      if running (no_util p) then
        let p := print (formatted ++ [newline]) p in
        let p := if 0 <? delay_ms (no_util p)
                 then sleep_for (delay_ms (no_util p)) p else p in
        infinite_loop fuel' sigs (S n) formatted p
      else (Exit 0, p)
  end.

(** [for (int i = 0; i < count && running; ++i) { ... }] *)
Fixpoint limited_loop (fuel : nat) (sigs : schedule) (n : nat) (i : Z)
         (formatted : str) (p : process) : ending * process :=
  match fuel with
  | O => (OutOfFuel, p)
  | S fuel' =>
      let p := deliver sigs n p in
      if (i <? count (no_util p)) && running (no_util p) then
        let p := print (formatted ++ [newline]) p in
        let p := if (0 <? delay_ms (no_util p)) && (i <? count (no_util p) - 1)
                 then sleep_for (delay_ms (no_util p)) p else p in
        limited_loop fuel' sigs (S n) (i + 1) formatted p
      else (Exit 0, p)
  end.

(** NoUtility::run, its return value as the exit status. *)
Definition run (fuel : nat) (sigs : schedule) (p : process) : ending * process :=
  if negb (quiet (no_util p)) then
    let formatted := formatOutput (no_util p) in
    if count (no_util p) =? -1
    then infinite_loop fuel sigs 0 formatted p
    else limited_loop fuel sigs 0 0 formatted p
  else (Exit 0, p).

Inductive option_t :=
| OptDelay (optarg : str)
| OptCount (optarg : str)
| OptUppercase
| OptEnthusiastic
| OptPolite
| OptSarcastic
| OptQuiet
| OptHelp
| OptVersion
| OptEasterEgg
| OptUnknown.

Section Main.
(** The texts of --help, --version and --easter-egg. *)
Variable usage_text : str -> str.
Variables version_text easter_egg_text : str.

Fixpoint options_loop (program_name : str) (opts : list option_t) (p : process)
  : process + (ending * process) :=
  match opts with
  | [] => inl p
  | OptDelay optarg :: opts' =>
      match stoi optarg with
      | Ok d => options_loop program_name opts' (with_util (setDelay d) p)
      | Exn _ =>
          inr (Exit 1, eprint (lit "no: invalid delay value: " ++ optarg
                               ++ [newline]) p)
      end
  | OptCount optarg :: opts' =>
      match stoi optarg with
      | Ok c =>
          if c <? 0 then
            inr (Exit 1, eprint (lit "no: count cannot be negative" ++ [newline]) p)
          else options_loop program_name opts' (with_util (setCount c) p)
      | Exn _ =>
          inr (Exit 1, eprint (lit "no: invalid count value: " ++ optarg
                               ++ [newline]) p)
      end
  | OptUppercase :: opts' =>
      options_loop program_name opts' (with_util (setUppercase true) p)
  | OptEnthusiastic :: opts' =>
      options_loop program_name opts' (with_util (setEnthusiastic true) p)
  | OptPolite :: opts' =>
      options_loop program_name opts' (with_util (setPolite true) p)
  | OptSarcastic :: opts' =>
      options_loop program_name opts' (with_util (setSarcastic true) p)
  | OptQuiet :: opts' =>
      options_loop program_name opts' (with_util (setQuiet true) p)
  | OptHelp :: _ => inr (Exit 0, print (usage_text program_name) p)
  | OptVersion :: _ => inr (Exit 0, print version_text p)
  | OptEasterEgg :: _ => inr (Exit 0, print easter_egg_text p)
  | OptUnknown :: _ =>
      inr (Exit 1, eprint (lit "Try '" ++ program_name
                           ++ lit " --help' for more information." ++ [newline]) p)
  end.

Definition main (fuel : nat) (sigs : schedule) (program_name : str)
           (opts : list option_t) (args : list str) : ending * process :=
  match options_loop program_name opts started with
  | inr ended => ended
  | inl p =>
      let p :=
        match args with
        | arg :: _ => with_util (setOutputText arg) p
        | [] => p
        end in
      run fuel sigs p
  end.
End Main.
End No.

(** ** tee *)

Module Tee.
Import CStr Proc.

Definition BUFFER_SIZE : Z := 4096.
Definition STDOUT_FILENO : Z := 1.

(** <fcntl.h> on Linux. *)
Definition O_WRONLY : Z := 1.
Definition O_CREAT : Z := 64.
Definition O_TRUNC : Z := 512.
Definition O_APPEND : Z := 1024.
Definition ENOMEM : Z := 12.

(** The four static flags; each is an int that is only ever 0 or 1. *)
Record flags_t := {
  append_flag : bool;
  ignore_interrupts : bool;
  output_linebuffered : bool;
  verbose_mode : bool
}.

Inductive option_t :=
| OptAppend
| OptIgnoreInterrupts
| OptLineBuffered
| OptVerbose
| OptHelp
| OptVersion
| OptUnknown.

(** What a descriptor written to belongs to. *)
Inductive target :=
| ToStdout
| ToFile (i : nat).

Inductive disposition :=
| SigIgn
| SigHandler.

(** The system calls of a run; [who] names the call site of a write.
    [SysWriteRaises] is a write that does not return: it raises a signal
    that ends the process. *)
Inductive syscall :=
| SysSignal (sig : Z) (d : disposition)
| SysOpen (i : nat) (path : str) (flags mode : Z) (ret : Z)
| SysRead (ret : Z)
| SysWrite (who : target) (fd : Z) (data : list byte) (count : Z) (ret : Z)
| SysClose (i : nat) (fd : Z) (ret : Z)
| SysWriteRaises (who : target) (fd : Z) (count : Z) (sig : Z).

(** One read from standard input: the bytes delivered (none at end of
    input), or a failure and the errno it leaves. *)
Inductive read_result :=
| ReadData (data : list byte)
| ReadError (errno : Z).

(** What the operating system answers.  A pair is a return value and the
    errno the call leaves when it fails.  Opens and closes are told apart
    by the index of the named file, reads by the iteration of the main
    loop, writes by the iteration and the call site.  Standard input is an
    unending sequence of answers: at its end every read delivers no byte.

    [write_signal] is the signal a write raises instead of returning:
    SIGPIPE when the descriptor is a pipe or a socket that nobody reads any
    more, SIGXFSZ past the file size limit.  tee installs a handler for
    SIGINT only, so either ends the process on the spot.  (A process that
    inherited the signal as ignored gets -1 from write instead, with EPIPE
    or EFBIG: that is an answer of [write_result].) *)
Record world := {
  malloc_ok : bool;
  open_result : nat -> Z * Z;
  reads : nat -> read_result;
  write_result : nat -> target -> Z -> Z * Z;
  write_signal : nat -> target -> Z -> option Z;
  close_result : nat -> Z * Z
}.

(** errno, the buffer of main, standard error line by line, and the calls
    made so far. *)
Record state := {
  errno : Z;
  buffer : list byte;
  stderr : list str;
  trace : list syscall
}.

Definition initial : state :=
  {| errno := 0; buffer := []; stderr := []; trace := [] |}.

Definition call (c : syscall) (st : state) : state :=
  {| errno := errno st; buffer := buffer st; stderr := stderr st;
     trace := trace st ++ [c] |}.
Definition set_errno (ret e : Z) (st : state) : state :=
  {| errno := if ret =? -1 then e else errno st; buffer := buffer st;
     stderr := stderr st; trace := trace st |}.
Definition set_buffer (b : list byte) (st : state) : state :=
  {| errno := errno st; buffer := b; stderr := stderr st; trace := trace st |}.
Definition eprint (line : str) (st : state) : state :=
  {| errno := errno st; buffer := buffer st; stderr := stderr st ++ [line];
     trace := trace st |}.

(** bytes_read is a size_t; what read and write return is converted to it
    before every comparison. *)
Definition to_size_t (z : Z) : Z := z mod 2 ^ 64.

Section Main.
(** strerror of <string.h>; the texts of --help and --version. *)
Variable strerror : Z -> str.

Definition perror (s : string) (st : state) : state :=
  eprint (lit s ++ lit ": " ++ strerror (errno st) ++ [newline]) st.

(** [fprintf(stderr, "tee: %s: %s\n", name, strerror(errno))] *)
Definition report (name : str) (st : state) : state :=
  eprint (lit "tee: " ++ name ++ lit ": " ++ strerror (errno st) ++ [newline]) st.

(** [static void signal_handler(int sig)]: the message under -v, then
    exit(EXIT_SUCCESS). *)
Definition signal_handler (f : flags_t) (sig : Z) (st : state)
  : handler_effect state :=
  Terminates EXIT_SUCCESS
    (if verbose_mode f
     then eprint (lit "Received signal " ++ dec (Z.to_nat sig) ++ [newline]) st
     else st).

Definition open_flags (f : flags_t) : Z :=
  Z.lor (Z.lor O_WRONLY O_CREAT) (if append_flag f then O_APPEND else O_TRUNC).

(** The loop that opens the files: the descriptors, in order. *)
Fixpoint open_files (w : world) (f : flags_t) (i : nat) (names : list str)
         (st : state) : list Z * state :=
  match names with
  | [] => ([], st)
  | name :: names' =>
      let '(ret, e) := open_result w i in
      let st := set_errno ret e (call (SysOpen i name (open_flags f) 438 ret) st) in
      let st :=
        if ret =? -1 then report name st
        else if verbose_mode f then
          eprint (lit "Opened file: " ++ name ++ lit " (fd: "
                  ++ (if ret <? 0 then lit "-" else [])
                  ++ dec (Z.abs_nat ret) ++ lit ", mode: "
                  ++ (if append_flag f then lit "append" else lit "overwrite")
                  ++ lit ")" ++ [newline]) st
        else st in
      let '(fds, st) := open_files w f (S i) names' st in
      (ret :: fds, st)
  end.

(** [write(fd, buffer, bytes_read)] at call site [who]: what it returns,
    or the signal that ends the process in it. *)
Inductive write_end :=
| Wrote (ret : Z)
| Raised (sig : Z).

Definition do_write (w : world) (iter : nat) (who : target) (fd bytes_read : Z)
           (st : state) : write_end * state :=
  match write_signal w iter who bytes_read with
  | Some sig => (Raised sig, call (SysWriteRaises who fd bytes_read sig) st)
  | None =>
      let '(ret, e) := write_result w iter who bytes_read in
      (Wrote ret,
       set_errno ret e
         (call (SysWrite who fd (firstn (Z.to_nat bytes_read) (buffer st))
                         bytes_read ret) st))
  end.

(** The loop that writes the buffer to every file still valid: the signal
    that ended the process in it, if any, the descriptors and the state. *)
Fixpoint write_files (w : world) (iter : nat) (bytes_read : Z) (i : nat)
         (names : list str) (fds : list Z) (st : state)
  : option Z * list Z * state :=
  match names, fds with
  | name :: names', fd :: fds' =>
      let '(raised, fd, st) :=
        if negb (fd =? -1) then
          match do_write w iter (ToFile i) fd bytes_read st with
          | (Raised sig, st) => (Some sig, fd, st)
          | (Wrote ret, st) =>
              if negb (to_size_t ret =? bytes_read) then
                let st := report name st in
                let '(cret, ce) := close_result w i in
                (None, -1, set_errno cret ce (call (SysClose i fd cret) st))
              else (None, fd, st)
          end
        else (None, fd, st) in
      match raised with
      | Some sig => (Some sig, fd :: fds', st)
      | None =>
          let '(raised, fds, st) :=
            write_files w iter bytes_read (S i) names' fds' st in
          (raised, fd :: fds, st)
      end
  | _, _ => (None, [], st)
  end.

(** [read(STDIN_FILENO, buffer, BUFFER_SIZE)]: at most BUFFER_SIZE bytes
    land at the start of the buffer. *)
Definition do_read (r : read_result) (st : state) : Z * state :=
  match r with
  | ReadData data =>
      let data := firstn (Z.to_nat BUFFER_SIZE) data in
      let ret := Z.of_nat (List.length data) in
      (ret, set_buffer (data ++ skipn (List.length data) (buffer st))
              (call (SysRead ret) st))
  | ReadError e => (-1, set_errno (-1) e (call (SysRead (-1)) st))
  end.

(** How the main loop stops: it is left with some value of bytes_read, a
    write raises a signal that ends the process, or the fuel of the model
    runs out while the loop is still going. *)
Inductive loop_end :=
| LoopLeft (bytes_read : Z)
| LoopKilled (sig : Z)
| LoopRunning.

(** The main read/write loop, for at most [fuel] iterations.  Nothing but
    a read of no byte or a write to standard output that is not whole makes
    the loop end. *)
Fixpoint main_loop (fuel : nat) (w : world) (iter : nat)
         (names : list str) (fds : list Z) (st : state)
  : loop_end * list Z * state :=
  match fuel with
  | O => (LoopRunning, fds, st)
  | S fuel' =>
      let '(ret, st) := do_read (reads w iter) st in
      let bytes_read := to_size_t ret in
      if 0 <? bytes_read then
        match do_write w iter ToStdout STDOUT_FILENO bytes_read st with
        | (Raised sig, st) => (LoopKilled sig, fds, st)
        | (Wrote wret, st) =>
            if negb (to_size_t wret =? bytes_read) then
              (LoopLeft bytes_read, fds,
               perror "Error writing to standard output" st)
            else
              match write_files w iter bytes_read 0 names fds st with
              | (Some sig, fds, st) => (LoopKilled sig, fds, st)
              | (None, fds, st) => main_loop fuel' w (S iter) names fds st
              end
        end
      else (LoopLeft bytes_read, fds, st)
  end.

(** The loop that closes what is still open. *)
Fixpoint close_files (w : world) (i : nat) (fds : list Z) (st : state) : state :=
  match fds with
  | [] => st
  | fd :: fds' =>
      let st :=
        if negb (fd =? -1) then
          let '(cret, ce) := close_result w i in
          let st := set_errno cret ce (call (SysClose i fd cret) st) in
          if cret =? -1 then
            eprint (lit "Error closing file: " ++ strerror (errno st) ++ [newline]) st
          else st
        else st in
      close_files w (S i) fds' st
  end.

Fixpoint parse_options (opts : list option_t) (f : flags_t)
  : flags_t + (ending * list str) :=
  match opts with
  | [] => inl f
  | OptAppend :: opts' =>
      parse_options opts'
        {| append_flag := true; ignore_interrupts := ignore_interrupts f;
           output_linebuffered := output_linebuffered f;
           verbose_mode := verbose_mode f |}
  | OptIgnoreInterrupts :: opts' =>
      parse_options opts'
        {| append_flag := append_flag f; ignore_interrupts := true;
           output_linebuffered := output_linebuffered f;
           verbose_mode := verbose_mode f |}
  | OptLineBuffered :: opts' =>
      parse_options opts'
        {| append_flag := append_flag f; ignore_interrupts := ignore_interrupts f;
           output_linebuffered := true; verbose_mode := verbose_mode f |}
  | OptVerbose :: opts' =>
      parse_options opts'
        {| append_flag := append_flag f; ignore_interrupts := ignore_interrupts f;
           output_linebuffered := output_linebuffered f; verbose_mode := true |}
  | OptHelp :: _ => inr (Exit EXIT_SUCCESS, [])
  | OptVersion :: _ => inr (Exit EXIT_SUCCESS, [])
  | OptUnknown :: _ =>
      inr (Exit EXIT_FAILURE,
           [lit "Try 'tee --help' for more information." ++ [newline]])
  end.

Definition no_flags : flags_t :=
  {| append_flag := false; ignore_interrupts := false;
     output_linebuffered := false; verbose_mode := false |}.

(** main, from the options getopt_long found and the file names left
    after them: how it ends, the descriptors at that point, the state.
    What --help and --version print on standard output is left out.  The
    fuel bounds the iterations of the main loop. *)
Definition main (fuel : nat) (w : world) (opts : list option_t)
           (names : list str) : ending * list Z * state :=
  match parse_options opts no_flags with
  | inr (e, lines) =>
      (e, [], {| errno := 0; buffer := []; stderr := lines; trace := [] |})
  | inl f =>
      let st :=
        call (SysSignal SIGINT (if ignore_interrupts f then SigIgn else SigHandler))
             initial in
      if match names with [] => false | _ => negb (malloc_ok w) end then
        (Exit EXIT_FAILURE, [],
         perror "Memory allocation error" (set_errno (-1) ENOMEM st))
      else
        let '(fds, st) := open_files w f 0 names st in
        match main_loop fuel w 0 names fds st with
        | (LoopRunning, fds, st) => (OutOfFuel, fds, st)
        | (LoopKilled sig, fds, st) => (Signaled sig, fds, st)
        | (LoopLeft bytes_read, fds, st) =>
            let st :=
              if bytes_read =? to_size_t (-1) then perror "Read error" st
              else st in
            let st := close_files w 0 fds st in
            (Exit EXIT_SUCCESS, fds, st)
        end
  end.
End Main.
End Tee.

(** ** stat *)

Module Stat.
Import CStr Proc.

Definition FORMAT_DEFAULT : Z := 0.
Definition FORMAT_TERSE : Z := 1.
Definition FORMAT_CUSTOM : Z := 2.
Definition TIME_NORMAL : Z := 0.

Record options_t := {
  format_type : Z;
  time_format : Z;
  dereference : bool;
  file_system : bool;
  custom_format : option str
}.

Inductive option_t :=
| OptDereference
| OptFileSystem
| OptFormat (optarg : str)
| OptTerse
| OptHelp
| OptVersion
| OptUnknown.

Record state := {
  stdout : str;
  stderr : str
}.

Definition print (text : str) (st : state) : state :=
  {| stdout := stdout st ++ text; stderr := stderr st |}.
Definition eprint (text : str) (st : state) : state :=
  {| stdout := stdout st; stderr := stderr st ++ text |}.

Section Main.
(** struct stat, and the three things the program gets from the C
    library: strerror, the text printf, strftime, getpwuid and getgrgid
    make of a struct stat, and the texts of --help and --version. *)
Variable stat_buf : Type.
Variable strerror : Z -> str.
Variable file_stat_text : options_t -> str -> stat_buf -> str.
Variables help_text version_text : str.

(** What stat(2) and lstat(2) answer for a path: the buffer they fill, or
    the errno they fail with. *)
Record world := {
  sys_stat : str -> stat_buf + Z;
  sys_lstat : str -> stat_buf + Z
}.

Definition print_fs_stat (path : str) (st : state) : state :=
  print (lit "File system statistics for " ++ path ++ lit " not yet implemented."
         ++ [newline]) st.

Definition print_stat (w : world) (path : str) (opts : options_t) (st : state)
  : state :=
  let status := if dereference opts then sys_stat w path else sys_lstat w path in
  match status with
  | inr errno =>
      eprint (lit "stat: cannot stat '" ++ path ++ lit "': " ++ strerror errno
              ++ [newline]) st
  | inl sb =>
      if file_system opts then print_fs_stat path st
      else print (file_stat_text opts path sb) st
  end.

Fixpoint parse_options (os : list option_t) (opts : options_t)
  : options_t + (Z * state) :=
  match os with
  | [] => inl opts
  | OptDereference :: os' =>
      parse_options os'
        {| format_type := format_type opts; time_format := time_format opts;
           dereference := true; file_system := file_system opts;
           custom_format := custom_format opts |}
  | OptFileSystem :: os' =>
      parse_options os'
        {| format_type := format_type opts; time_format := time_format opts;
           dereference := dereference opts; file_system := true;
           custom_format := custom_format opts |}
  | OptFormat optarg :: os' =>
      parse_options os'
        {| format_type := FORMAT_CUSTOM; time_format := time_format opts;
           dereference := dereference opts; file_system := file_system opts;
           custom_format := Some optarg |}
  | OptTerse :: os' =>
      parse_options os'
        {| format_type := FORMAT_TERSE; time_format := time_format opts;
           dereference := dereference opts; file_system := file_system opts;
           custom_format := custom_format opts |}
  | OptHelp :: _ => inr (0, {| stdout := help_text; stderr := [] |})
  | OptVersion :: _ => inr (0, {| stdout := version_text; stderr := [] |})
  | OptUnknown :: _ =>
      inr (1, {| stdout := [];
                 stderr := lit "Try 'stat --help' for more information."
                           ++ [newline] |})
  end.

(** The loop over the operands; [several] is [argc - optind > 1]. *)
Fixpoint each_file (w : world) (opts : options_t) (several : bool)
         (paths : list str) (st : state) : state :=
  match paths with
  | [] => st
  | path :: paths' =>
      let st := if several
                then print (lit "File: " ++ path ++ [newline]) st else st in
      let st := print_stat w path opts st in
      let st := match paths' with [] => st | _ => print [newline] st end in
      each_file w opts several paths' st
  end.

(** main: the value it returns and what it wrote.  [exit_status] is set
    to 0 before the loop and returned after it; nothing in between
    assigns to it. *)
Definition main (w : world) (os : list option_t) (paths : list str) : Z * state :=
  match parse_options os
          {| format_type := FORMAT_DEFAULT; time_format := TIME_NORMAL;
             dereference := false; file_system := false;
             custom_format := None |} with
  | inr ended => ended
  | inl opts =>
      match paths with
      | [] =>
          (1, {| stdout := [];
                 stderr := lit "stat: missing operand" ++ [newline]
                           ++ lit "Try 'stat --help' for more information."
                           ++ [newline] |})
      | _ =>
          let exit_status := 0 in
          let st :=
            each_file w opts (1 <? Z.of_nat (List.length paths)) paths
                      {| stdout := []; stderr := [] |} in
          (exit_status, st)
      end
  end.
End Main.
End Stat.

(** ** stat: file_type and format_permissions *)

Module StatFormat.
Import CStr.

(** <sys/stat.h> on Linux, in octal there. *)
Definition S_IFMT : Z := 61440.
Definition S_IFSOCK : Z := 49152.
Definition S_IFLNK : Z := 40960.
Definition S_IFREG : Z := 32768.
Definition S_IFBLK : Z := 24576.
Definition S_IFDIR : Z := 16384.
Definition S_IFCHR : Z := 8192.
Definition S_IFIFO : Z := 4096.
Definition S_ISUID : Z := 2048.
Definition S_ISGID : Z := 1024.
Definition S_ISVTX : Z := 512.
Definition S_IRUSR : Z := 256.
Definition S_IWUSR : Z := 128.
Definition S_IXUSR : Z := 64.
Definition S_IRGRP : Z := 32.
Definition S_IWGRP : Z := 16.
Definition S_IXGRP : Z := 8.
Definition S_IROTH : Z := 4.
Definition S_IWOTH : Z := 2.
Definition S_IXOTH : Z := 1.

(** [S_ISxxx(mode)] and [mode & bit] as a condition. *)
Definition is_type (fmt mode : Z) : bool := Z.land mode S_IFMT =? fmt.
Definition has (mode bit : Z) : bool := negb (Z.land mode bit =? 0).

Definition file_type (mode : Z) : str :=
  if is_type S_IFREG mode then lit "regular file"
  else if is_type S_IFDIR mode then lit "directory"
  else if is_type S_IFCHR mode then lit "character special file"
  else if is_type S_IFBLK mode then lit "block special file"
  else if is_type S_IFIFO mode then lit "fifo"
  else if is_type S_IFLNK mode then lit "symbolic link"
  else if is_type S_IFSOCK mode then lit "socket"
  else lit "unknown".

(** [perms[i] = c] on the static array. *)
Fixpoint store (i : nat) (c : ascii) (perms : str) : str :=
  match perms, i with
  | [], _ => []
  | _ :: rest, O => c :: rest
  | x :: rest, S i' => x :: store i' c rest
  end.

(** [(perms[i] == 'x') ? lower : upper] *)
Definition special (i : nat) (lower upper : ascii) (perms : str) : ascii :=
  if Ascii.eqb (nth i perms "000"%char) "x" then lower else upper.

(** format_permissions: the ten characters before the terminator. *)
Definition format_permissions (mode : Z) : str :=
  let perms : str :=
    [ if is_type S_IFDIR mode then "d"%char
      else if is_type S_IFLNK mode then "l"%char else "-"%char;
      if has mode S_IRUSR then "r"%char else "-"%char;
      if has mode S_IWUSR then "w"%char else "-"%char;
      if has mode S_IXUSR then "x"%char else "-"%char;
      if has mode S_IRGRP then "r"%char else "-"%char;
      if has mode S_IWGRP then "w"%char else "-"%char;
      if has mode S_IXGRP then "x"%char else "-"%char;
      if has mode S_IROTH then "r"%char else "-"%char;
      if has mode S_IWOTH then "w"%char else "-"%char;
      if has mode S_IXOTH then "x"%char else "-"%char ] in
  let perms := if has mode S_ISUID then store 3 (special 3 "s" "S" perms) perms
               else perms in
  let perms := if has mode S_ISGID then store 6 (special 6 "s" "S" perms) perms
               else perms in
  let perms := if has mode S_ISVTX then store 9 (special 9 "t" "T" perms) perms
               else perms in
  perms.
End StatFormat.

(** ** whois *)

Module Whois.
Import CStr Cxx Regex.

(** The data members of class WhoisClient that the options set. *)
Record WhoisClient := {
  server : str;
  port : Z;
  follow_referrals : bool;
  raw_output : bool;
  json_output : bool;
  verbose : bool;
  quiet : bool;
  timeout : Z;
  output_file : str
}.

Definition fresh : WhoisClient :=
  {| server := []; port := 43; follow_referrals := true; raw_output := false;
     json_output := false; verbose := false; quiet := false; timeout := 30;
     output_file := [] |}.

Definition tld_servers : omap str :=
  fold_left (fun mp '(k, v) => map_set (lit k) (lit v) mp)
    [("com", "whois.verisign-grs.com"); ("net", "whois.verisign-grs.com");
     ("org", "whois.pir.org"); ("info", "whois.afilias.net");
     ("biz", "whois.neulevel.biz"); ("us", "whois.nic.us");
     ("uk", "whois.nic.uk"); ("de", "whois.denic.de"); ("fr", "whois.afnic.fr");
     ("jp", "whois.jprs.jp"); ("cn", "whois.cnnic.cn"); ("ru", "whois.tcinet.ru");
     ("br", "whois.registro.br"); ("au", "whois.auda.org.au");
     ("ca", "whois.cira.ca"); ("edu", "whois.educause.edu");
     ("gov", "whois.dotgov.gov"); ("mil", "whois.nic.mil");
     ("int", "whois.iana.org")]%string [].

Definition dec_digit : atom := ASet false [CRange "0" "9"].
Definition hex_digit : atom :=
  ASet false [CRange "0" "9"; CRange "a" "f"; CRange "A" "F"].

(** The two patterns of isIPAddress: four groups of one to three digits
    between dots; eight groups of one to four hex digits between colons. *)
Definition ipv4_pattern : regex :=
  cat [Bol; Times 3 (Seq (between 1 3 dec_digit) (Atom (AChar ".")));
       between 1 3 dec_digit; Eol].
Definition ipv6_pattern : regex :=
  cat [Bol; Times 7 (Seq (between 1 4 hex_digit) (Atom (AChar ":")));
       between 1 4 hex_digit; Eol].

Definition matches (r : regex) (s : str) : bool :=
  match regex_match false r s with Some _ => true | None => false end.

Definition isIPAddress (query : str) : bool :=
  matches ipv4_pattern query || matches ipv6_pattern query.

(** domain.find_last_of('.') *)
Fixpoint find_last_of_from (s : str) (c : ascii) (i : Z) : Z :=
  match s with
  | [] => npos
  | x :: s' =>
      let later := find_last_of_from s' c (i + 1) in
      if later =? npos then (if Ascii.eqb x c then i else npos) else later
  end.
Definition find_last_of (s : str) (c : ascii) : Z := find_last_of_from s c 0.

Definition extractTLD (domain : str) : result str :=
  let last_dot := find_last_of domain "." in
  if negb (last_dot =? npos) && (last_dot <? size_t (size domain - 1))
  then checked "basic_string::substr" (substr domain (size_t (last_dot + 1)) npos)
  else Ok [].

Definition selectServer (c : WhoisClient) (query : str) : result str :=
  match server c with
  | _ :: _ => Ok (server c)
  | [] =>
      if isIPAddress query then Ok (lit "whois.arin.net")
      else
        tld <- extractTLD query ;;
        match map_find (map tolower tld) tld_servers with
        | Some srv => Ok srv
        | None => Ok (lit "whois.internic.net")
        end
  end.

(** What the network answers to one call of performQuery: the results of
    socket, gethostbyname, connect and send, and what the successive recv
    calls deliver until one returns zero or less. *)
Record exchange := {
  socket_ret : Z;
  host_found : bool;
  connect_ret : Z;
  send_ret : Z;
  received : list str
}.

(** The network: the exchange that the [n]-th call of performQuery, made
    to a given server with a given query, runs into. *)
Definition network := nat -> str -> str -> exchange.

(** A round-trip, as the log of a run records it: a query line sent to a
    server over a connection, the reply being read from it afterwards. *)
Record round_trip := {
  rt_server : str;
  rt_query : str
}.

(** The two streams, the number of calls of performQuery so far, and the
    round-trips made. *)
Record state := {
  cout : str;
  cerr : str;
  calls : nat;
  log : list round_trip
}.

Definition print (text : str) (st : state) : state :=
  {| cout := cout st ++ text; cerr := cerr st; calls := calls st;
     log := log st |}.
Definition eprint (text : str) (st : state) : state :=
  {| cout := cout st; cerr := cerr st ++ text; calls := calls st;
     log := log st |}.
Definition count_call (st : state) : state :=
  {| cout := cout st; cerr := cerr st; calls := S (calls st);
     log := log st |}.
Definition record_trip (t : round_trip) (st : state) : state :=
  {| cout := cout st; cerr := cerr st; calls := calls st;
     log := log st ++ [t] |}.

(** [buffer[bytes_received] = 0; response += buffer;] appends up to the
    first zero byte. *)
Fixpoint c_string (chunk : str) : str :=
  match chunk with
  | [] => []
  | c :: chunk' => if Ascii.eqb c "000" then [] else c :: c_string chunk'
  end.

Definition performQuery (net : network) (c : WhoisClient) (query whois_server : str)
           (st : state) : result str * state :=
  let st :=
    if verbose c && negb (quiet c)
    then eprint (lit "Querying " ++ whois_server ++ lit " for: " ++ query
                 ++ [newline]) st
    else st in
  let x := net (calls st) whois_server query in
  let st := count_call st in
  if socket_ret x <? 0 then (Exn (lit "Failed to create socket"), st)
  else if negb (host_found x)
  then (Exn (lit "Failed to resolve WHOIS server: " ++ whois_server), st)
  else if connect_ret x <? 0
  then (Exn (lit "Failed to connect to WHOIS server: " ++ whois_server), st)
  else if send_ret x <? 0 then (Exn (lit "Failed to send query"), st)
  else
    let st := record_trip {| rt_server := whois_server; rt_query := query |} st in
    let response := flat_map c_string (received x) in
    match response with
    | [] => (Exn (lit "No response from WHOIS server"), st)
    | _ => (Ok response, st)
    end.

(** The four patterns of extractReferralServer, matched case-blind. *)
Definition referral_patterns : list regex :=
  [cat [chars "ReferralServer:"; star space; chars "whois://";
        Group 1 (plus nonspace)];
   cat [chars "Whois Server:"; star space; Group 1 (plus nonspace)];
   cat [chars "whois:"; star space; Group 1 (plus nonspace)];
   cat [chars "refer:"; star space; Group 1 (plus nonspace)]].

Fixpoint first_referral (patterns : list regex) (response : str) : str :=
  match patterns with
  | [] => []
  | pattern :: patterns' =>
      match regex_search true pattern response with
      | Some mt => sub_match 1 mt
      | None => first_referral patterns' response
      end
  end.
Definition extractReferralServer (response : str) : str :=
  first_referral referral_patterns response.

(** parseResponse: the key and value of every line that has a colon. *)
Definition parse_line (data : result (omap str)) (line : str)
  : result (omap str) :=
  data <- data ;;
  let line :=
    match rev line with
    | c :: r => if Ascii.eqb c cr then rev r else line
    | [] => line
    end in
  match line with
  | [] => Ok data
  | c :: _ =>
      if Ascii.eqb c "%" || Ascii.eqb c "#" then Ok data
      else
        let colon_pos := find_char line ":" in
        if colon_pos =? npos then Ok data
        else
          key <- checked "basic_string::substr" (substr line 0 colon_pos) ;;
          value <- checked "basic_string::substr"
                     (substr line (size_t (colon_pos + 1)) npos) ;;
          key <- checked "basic_string::erase" (trim key) ;;
          value <- checked "basic_string::erase" (trim value) ;;
          match key, value with
          | _ :: _, _ :: _ => Ok (map_set key value data)
          | _, _ => Ok data
          end
  end.

Definition parseResponse (response : str) : result (omap str) :=
  fold_left parse_line (getlines response) (Ok []).

Definition escapeJSON (s : str) : str :=
  flat_map (fun c =>
    if Ascii.eqb c dquote then [backslash; dquote]
    else if Ascii.eqb c backslash then [backslash; backslash]
    else if Ascii.eqb c newline then [backslash; "n"%char]
    else if Ascii.eqb c cr then [backslash; "r"%char]
    else if Ascii.eqb c tab then [backslash; "t"%char]
    else [c]) s.

Fixpoint json_pairs (first : bool) (data : omap str) : str :=
  match data with
  | [] => []
  | (k, v) :: data' =>
      (if first then [] else lit "," ++ [newline])
      ++ lit "    " ++ [dquote] ++ k ++ [dquote] ++ lit ": " ++ [dquote] ++ v
      ++ [dquote] ++ json_pairs false data'
  end.

Definition outputJSON (query response server_used : str) (st : state)
  : result state :=
  parsed_data <- parseResponse response ;;
  Ok (print (lit "{" ++ [newline]
             ++ lit "  " ++ [dquote] ++ lit "query" ++ [dquote] ++ lit ": "
             ++ [dquote] ++ query ++ [dquote] ++ lit "," ++ [newline]
             ++ lit "  " ++ [dquote] ++ lit "server" ++ [dquote] ++ lit ": "
             ++ [dquote] ++ server_used ++ [dquote] ++ lit "," ++ [newline]
             ++ lit "  " ++ [dquote] ++ lit "data" ++ [dquote] ++ lit ": {"
             ++ [newline]
             ++ json_pairs true parsed_data
             ++ [newline] ++ lit "  }," ++ [newline]
             ++ lit "  " ++ [dquote] ++ lit "raw_response" ++ [dquote] ++ lit ": "
             ++ [dquote] ++ escapeJSON response ++ [dquote] ++ [newline]
             ++ lit "}" ++ [newline]) st).

Definition important_fields : list str :=
  map lit
    ["Domain Name"; "domain"; "domain_name"; "Registrar"; "registrar";
     "Registration Date"; "Created"; "created"; "Creation Date";
     "Expiration Date"; "Expires"; "expires"; "Registry Expiry Date";
     "Status"; "status"; "Domain Status";
     "Name Server"; "name_server"; "Name Servers";
     "Organization"; "org"; "Organization Name";
     "Country"; "country"; "Country Code";
     "Updated Date"; "updated"; "Last Updated"]%string.

Definition outputSummary (response : str) (st : state) : result state :=
  data <- parseResponse response ;;
  Ok (print (lit "WHOIS Summary:" ++ [newline] ++ lit "==============" ++ [newline]
             ++ [newline]
             ++ flat_map (fun field =>
                            match map_find field data with
                            | Some v => field ++ lit ": " ++ v ++ [newline]
                            | None => []
                            end) important_fields) st).

(** The try block of query: the state it reaches, and the exception that
    leaves it, if any. *)
Definition query_body (net : network) (c : WhoisClient) (target : str)
           (st : state) : result unit * state :=
  match selectServer c target with
  | Exn e => (Exn e, st)
  | Ok whois_server =>
      match performQuery net c target whois_server st with
      | (Exn e, st) => (Exn e, st)
      | (Ok response, st) =>
          let referral_server := extractReferralServer response in
          let follow :=
            follow_referrals c && negb (isIPAddress target)
            && match referral_server with [] => false | _ => true end
            && negb (str_eqb referral_server whois_server) in
          let st :=
            if follow && verbose c && negb (quiet c)
            then eprint (lit "Following referral to: " ++ referral_server
                         ++ [newline]) st
            else st in
          let '(second, st) :=
            if follow then performQuery net c target referral_server st
            else (Ok response, st) in
          match second with
          | Exn e => (Exn e, st)
          | Ok response =>
              let whois_server := if follow then referral_server else whois_server in
              let printed :=
                if json_output c then outputJSON target response whois_server st
                else if raw_output c then Ok (print response st)
                else
                  st <- outputSummary response st ;;
                  Ok (if verbose c
                      then print (lit "Full Response:" ++ [newline]
                                  ++ lit "==============" ++ [newline]
                                  ++ response)
                                 (print [newline] st)
                      else st) in
              match printed with
              | Ok st => (Ok tt, st)
              | Exn e => (Exn e, st)
              end
          end
      end
  end.

(** query: the value it returns and the state it leaves. *)
Definition query (net : network) (c : WhoisClient) (target : str) : Z * state :=
  match query_body net c target
          {| cout := []; cerr := []; calls := 0; log := [] |} with
  | (Ok _, st) => (0, st)
  | (Exn e, st) =>
      (1, if negb (quiet c)
          then eprint (lit "whois: error: " ++ e ++ [newline]) st
          else st)
  end.
End Whois.

(** ** kill: parse_signal *)

Module Kill.
Import CStr Cxx.

Definition MAX_SIGNALS : Z := 32.

(** [const char *signals[MAX_SIGNALS]] with its 31 initialisers; the
    32nd element is a null pointer. *)
Definition signals : list (option str) :=
  map (fun n => Some (lit n))
    ["HUP"; "INT"; "QUIT"; "ILL"; "TRAP"; "ABRT"; "BUS"; "FPE";
     "KILL"; "USR1"; "SEGV"; "USR2"; "PIPE"; "ALRM"; "TERM"; "STKFLT";
     "CHLD"; "CONT"; "STOP"; "TSTP"; "TTIN"; "TTOU"; "URG"; "XCPU";
     "XFSZ"; "VTALRM"; "PROF"; "WINCH"; "POLL"; "PWR"; "SYS"]%string
  ++ [None].

(** [strcasecmp(a, b) == 0]; [None] when [b] is the null pointer, which
    strcasecmp must not be given. *)
Definition strcasecmp_eq (a : str) (b : option str) : option bool :=
  match b with
  | None => None
  | Some b => Some (str_eqb (map tolower a) (map tolower b))
  end.

(** The loop over the table from index [i]: [Some (Some n)] when it
    returns [n], [Some None] when it ends without a match, [None] when it
    runs into undefined behaviour. *)
Fixpoint table_loop (sig : str) (i : Z) (table : list (option str))
  : option (option Z) :=
  match table with
  | [] => Some None
  | entry :: table' =>
      match strcasecmp_eq sig entry with
      | None => None
      | Some true => Some (Some (i + 1))
      | Some false =>
          match sig with
          | c :: sig1 =>
              if Ascii.eqb c "-" then
                match strcasecmp_eq sig1 entry with
                | None => None
                | Some true => Some (Some (i + 1))
                | Some false => table_loop sig (i + 1) table'
                end
              else table_loop sig (i + 1) table'
          | [] => table_loop sig (i + 1) table'
          end
      end
  end.

(** What follows the loop: strtol and the range test. *)
Definition numeric_signal (sig : str) : Z :=
  let '(num, rest) := strtol sig in
  match rest with
  | [] => if (0 <? num) && (num <=? MAX_SIGNALS) then num else -1
  | _ => -1
  end.

(** parse_signal; [None] is undefined behaviour. *)
Definition parse_signal (sig : str) : option Z :=
  match table_loop sig 0 signals with
  | None => None
  | Some (Some n) => Some n
  | Some None => Some (numeric_signal sig)
  end.
End Kill.

(** ** tree *)

Module Tree.
Import CStr Cxx Proc.

(** struct Options *)
Record Options := {
  showHidden : bool;
  showPermissions : bool;
  showFileSize : bool;
  colorOutput : bool;
  onlyDirs : bool;
  onlyFiles : bool;
  maxDepth : Z;
  indentChars : str;
  branchChars : str;
  lastBranchChars : str;
  patterns : list str
}.

(** The box-drawing characters of the defaults, as their UTF-8 bytes. *)
Definition bar : str := ["226"; "148"; "130"]%char.
Definition tee_right : str := ["226"; "148"; "156"]%char.
Definition dash : str := ["226"; "148"; "128"]%char.
Definition corner : str := ["226"; "148"; "148"]%char.

Definition default_options : Options :=
  {| showHidden := false; showPermissions := false; showFileSize := false;
     colorOutput := true; onlyDirs := false; onlyFiles := false; maxDepth := -1;
     indentChars := bar ++ lit "   ";
     branchChars := tee_right ++ dash ++ dash ++ lit " ";
     lastBranchChars := corner ++ dash ++ dash ++ lit " ";
     patterns := [] |}.

Definition esc : ascii := "027".
Definition COLOR_RESET : str := esc :: lit "[0m".
Definition COLOR_BLUE : str := esc :: lit "[1;34m".
Definition COLOR_GREEN : str := esc :: lit "[1;32m".
Definition COLOR_YELLOW : str := esc :: lit "[1;33m".
Definition COLOR_RED : str := esc :: lit "[1;31m".

(** What the file system says about one path other than its name: what
    fs::is_symlink and fs::status(path).permissions() return, and what
    getHumanReadableSize makes of fs::file_size, when that does not
    throw. *)
Record attrs := {
  is_symlink : bool;
  owner_read : bool;
  owner_write : bool;
  owner_exec : bool;
  size_text : option str
}.

(** A path as the walk meets it: something fs::is_directory says no to; a
    directory with the entries directory_iterator yields; a directory the
    iterator throws on; a path fs::status itself throws on.  [what] is the
    what() of the exception. *)
#[warnings="-register-all"]
Inductive node :=
| File (name : str) (a : attrs)
| Dir (name : str) (a : attrs) (entries : list node)
| DirUnreadable (name : str) (a : attrs) (what : str)
| Broken (name : str) (what : str).

Definition filename (n : node) : str :=
  match n with
  | File name _ | Dir name _ _ | DirUnreadable name _ _ | Broken name _ => name
  end.

(** fs::is_directory(path), which throws where fs::status does. *)
Definition is_directory (n : node) : result bool :=
  match n with
  | File _ _ => Ok false
  | Dir _ _ _ | DirUnreadable _ _ _ => Ok true
  | Broken _ what => Exn what
  end.

Definition node_attrs (n : node) : result attrs :=
  match n with
  | File _ a | Dir _ a _ | DirUnreadable _ a _ => Ok a
  | Broken _ what => Exn what
  end.

(** One line of standard output: an entry of the tree, with the path it
    is for and what fs::is_directory said of it, or any other line. *)
Inductive line :=
| EntryLine (text : str) (name : str) (isDirectory : bool)
| OtherLine (text : str).

Definition line_text (l : line) : str :=
  match l with
  | EntryLine text _ _ => text
  | OtherLine text => text
  end.

(** The two counters, which are ints, and standard output. *)
Record state := {
  dirCount : Z;
  fileCount : Z;
  cout : list line
}.

Definition emit (l : line) (st : state) : state :=
  {| dirCount := dirCount st; fileCount := fileCount st; cout := cout st ++ [l] |}.

(** [dirCount++] and [fileCount++]: on an int that holds INT_MAX the
    increment overflows, which the language leaves undefined. *)
Definition count_dir (st : state) : option state :=
  if dirCount st <? INT_MAX
  then Some {| dirCount := dirCount st + 1; fileCount := fileCount st;
               cout := cout st |}
  else None.
Definition count_file (st : state) : option state :=
  if fileCount st <? INT_MAX
  then Some {| dirCount := dirCount st; fileCount := fileCount st + 1;
               cout := cout st |}
  else None.

Definition ends_with (s suffix : str) : bool :=
  (List.length suffix <=? List.length s)%nat
  && str_eqb (skipn (List.length s - List.length suffix) s) suffix.

(** One round of the loop of matchesPattern.  An empty pattern is not
    looked into: [pattern[0]] of an empty std::string is its terminator,
    and [pattern[pattern.size() - 1]] is out of bounds. *)
Definition pattern_matches (name pattern : str) : option bool :=
  match pattern with
  | [] => None
  | c :: suffix =>
      if Ascii.eqb c "*" then Some (ends_with name suffix)
      else
        match rev pattern with
        | l :: rprefix =>
            if Ascii.eqb l "*"
            then Some (str_eqb (firstn (List.length rprefix) name) (rev rprefix))
            else Some (str_eqb name pattern)
        | [] => Some false
        end
  end.

Fixpoint any_pattern (name : str) (ps : list str) : option bool :=
  match ps with
  | [] => Some false
  | pattern :: ps' =>
      match pattern_matches name pattern with
      | None => None
      | Some true => Some true
      | Some false => any_pattern name ps'
      end
  end.

(** matchesPattern; [None] is undefined behaviour. *)
Definition matchesPattern (o : Options) (n : node) : option bool :=
  match patterns o with
  | [] => Some true
  | ps => any_pattern (filename n) ps
  end.

Definition printWithColor (o : Options) (text color : str) : str :=
  if colorOutput o then color ++ text ++ COLOR_RESET else text.

(** std::sort on the paths of one directory: by file name.  Each path
    comes with what is to be done for it. *)
Fixpoint insert_sorted {A} (x : str * A) (l : list (str * A)) : list (str * A) :=
  match l with
  | [] => [x]
  | y :: l' =>
      if str_ltb (fst y) (fst x) then y :: insert_sorted x l'
      else x :: l
  end.
Definition sort_paths {A} (l : list (str * A)) : list (str * A) :=
  fold_right insert_sorted [] l.

(** How a call of printTree ends. *)
Inductive flow :=
| Returned
| Thrown (what : str)
| Undef.

Definition is_last {A} (l : list A) : bool :=
  match l with [] => true | _ => false end.

(** The text of an entry line, up to the name. *)
Definition entry_head (o : Options) (prefix : str) (isLast isDirectory : bool)
           (a : attrs) : str :=
  prefix ++ (if isLast then lastBranchChars o else branchChars o)
  ++ (if showFileSize o && negb isDirectory then
        match size_text a with
        | Some t => lit "[" ++ t ++ lit "] "
        | None => lit "[???] "
        end
      else [])
  ++ (if showPermissions o then
        lit "[" ++ (if owner_read a then lit "r" else lit "-")
        ++ (if owner_write a then lit "w" else lit "-")
        ++ (if owner_exec a then lit "x" else lit "-") ++ lit "] "
      else []).

(** The part of printTree that prints the entry itself; it says whether
    the entry was printed. *)
Definition print_entry (o : Options) (n : node) (prefix : str) (isLast : bool)
           (depth : Z) (st : state) : flow * bool * state :=
  if negb (maxDepth o =? -1) && (maxDepth o <? depth) then (Returned, false, st)
  else if negb (showHidden o)
          && match filename n with c :: _ => Ascii.eqb c "." | [] => false end
  then (Returned, false, st)
  else
    match is_directory n, node_attrs n with
    | Exn what, _ | _, Exn what => (Thrown what, false, st)
    | Ok isDirectory, Ok a =>
        if (onlyDirs o && negb isDirectory) || (onlyFiles o && isDirectory)
        then (Returned, false, st)
        else
          match matchesPattern o n with
          | None => (Undef, false, st)
          | Some false => (Returned, false, st)
          | Some true =>
              let head := entry_head o prefix isLast isDirectory a in
              let '(color, counted) :=
                if isDirectory then (COLOR_BLUE, count_dir st)
                else if is_symlink a then (COLOR_YELLOW, count_file st)
                else if owner_exec a then (COLOR_GREEN, count_file st)
                else (COLOR_RESET, count_file st) in
              match counted with
              | None => (Undef, false, st)
              | Some st =>
                  (Returned, true,
                   emit (EntryLine (head ++ printWithColor o (filename n) color)
                                   (filename n) isDirectory) st)
              end
          end
    end.

(** The line the catch block of printTree prints. *)
Definition error_line (o : Options) (prefix : str) (isLast : bool) (what : str)
  : line :=
  OtherLine (prefix ++ (if isLast then lit "    " else indentChars o)
             ++ lastBranchChars o
             ++ printWithColor o (lit "Error: " ++ what) COLOR_RED).

(** A call of printTree that still waits for its prefix, isLast, depth
    and the state. *)
Definition walker := str -> bool -> Z -> state -> flow * state.

(** The loop over the sorted paths of a directory; it stops at the first
    call that does not return. *)
Fixpoint each (ws : list (str * walker)) (inner : str) (depth : Z) (st : state)
  : flow * state :=
  match ws with
  | [] => (Returned, st)
  | (_, walk) :: ws' =>
      match walk inner (is_last ws') depth st with
      | (Returned, st) => each ws' inner depth st
      | ended => ended
      end
  end.

(** printTree.  The calls for the entries of a directory are paired with
    the entries before the sort, which keeps the recursion on the tree. *)
Fixpoint printTree (o : Options) (n : node) (prefix : str) (isLast : bool)
         (depth : Z) (st : state) {struct n} : flow * state :=
  match print_entry o n prefix isLast depth st with
  | (Returned, true, st) =>
      let inner := prefix ++ (if isLast then lit "    " else indentChars o) in
      match n with
      | Dir _ _ entries =>
          match each (sort_paths (map (fun c => (filename c, printTree o c)) entries))
                     inner (depth + 1) st with
          | (Thrown what, st) =>
              (Returned, emit (error_line o prefix isLast what) st)
          | other => other
          end
      | DirUnreadable _ _ what =>
          (Returned, emit (error_line o prefix isLast what) st)
      | _ => (Returned, st)
      end
  | (f, _, st) => (f, st)
  end.

(** operator<< on a path: std::quoted. *)
Definition quoted (s : str) : str :=
  [dquote]
  ++ flat_map (fun c => if Ascii.eqb c dquote || Ascii.eqb c backslash
                        then [backslash; c] else [c]) s
  ++ [dquote].

(** What run is started on: the text of the absolute path, and what is
    there, if anything. *)
Record world := {
  rootPath : str;
  root : option node
}.

Record outcome := {
  ending : Proc.ending;
  final : state;
  cerr : str
}.

(** TreeUtil::run followed by the return of main.  An exception that
    leaves run is caught nowhere: the process is aborted. *)
Definition run (o : Options) (w : world) : outcome :=
  let st := {| dirCount := 0; fileCount := 0; cout := [] |} in
  match root w with
  | None =>
      {| ending := Exit 0; final := st;
         cerr := lit "Error: Path does not exist: " ++ quoted (rootPath w)
                 ++ [newline] |}
  | Some (Broken _ _) => {| ending := Abort; final := st; cerr := [] |}
  | Some n =>
      let st := emit (OtherLine (rootPath w)) st in
      match n with
      | Dir _ _ entries =>
          match each (sort_paths (map (fun c => (filename c, printTree o c)) entries))
                     [] 0 st with
          | (Returned, st) =>
              {| ending := Exit 0;
                 final :=
                   emit (OtherLine (Cxx.dec_int (dirCount st) ++ lit " directories, "
                                    ++ Cxx.dec_int (fileCount st) ++ lit " files"))
                        (emit (OtherLine []) st);
                 cerr := [] |}
          | (Thrown _, st) => {| ending := Abort; final := st; cerr := [] |}
          | (Undef, st) => {| ending := Undefined; final := st; cerr := [] |}
          end
      | DirUnreadable _ _ _ => {| ending := Abort; final := st; cerr := [] |}
      | _ =>
          {| ending := Exit 0; final := st;
             cerr := lit "Error: Path is not a directory: " ++ quoted (rootPath w)
                     ++ [newline] |}
      end
  end.

(** Induction on a path and, below a directory, on all its entries. *)
Section NodeInduction.
Variable P : node -> Prop.
Hypothesis HFile : forall name a, P (File name a).
Hypothesis HDir : forall name a entries, Forall P entries -> P (Dir name a entries).
Hypothesis HUnreadable : forall name a what, P (DirUnreadable name a what).
Hypothesis HBroken : forall name what, P (Broken name what).

Fixpoint node_induction (n : node) : P n :=
  match n as x return P x with
  | File name a => HFile name a
  | Dir name a entries =>
      HDir name a entries
        ((fix all (l : list node) : Forall P l :=
            match l as x return Forall P x with
            | [] => Forall_nil P
            | c :: l' => Forall_cons c (node_induction c) (all l')
            end) entries)
  | DirUnreadable name a what => HUnreadable name a what
  | Broken name what => HBroken name what
  end.
End NodeInduction.
End Tree.

(** ** ping: the ICMP checksum (PingUtility::calculateChecksum) and the
    loop of PingUtility::run *)

Module Ping.
Import CStr Proc.

(** The data members of class PingUtility that the loop of run reads. *)
Record PingUtility := {
  targets : list str;
  count : Z;
  interval : Z;
  continuous : bool;
  flood_mode : bool;
  running : bool
}.

(** What the loop does, in order: a probe of a target with its sequence
    number (pingHost and printPingResult), or a sleep in milliseconds. *)
Inductive event :=
| Probe (target : str) (sequence : Z)
| Sleep (ms : Z).

(** The process: the object of main, the global pointer to it (null until
    main sets it), and what has happened. *)
Record process := {
  ping : PingUtility;
  global_ping : bool;
  events : list event
}.

Definition setRunning (r : bool) (u : PingUtility) : PingUtility :=
  {| targets := targets u; count := count u; interval := interval u;
     continuous := continuous u; flood_mode := flood_mode u; running := r |}.

(** [if (global_ping) global_ping->setRunning(false);] *)
Definition signalHandler (signal : Z) (p : process) : process :=
  if global_ping p
  then {| ping := setRunning false (ping p); global_ping := global_ping p;
          events := events p |}
  else p.

Definition handled_signals : list Z := [SIGINT; SIGTERM].

Definition happen (e : event) (p : process) : process :=
  {| ping := ping p; global_ping := global_ping p; events := events p ++ [e] |}.

Definition deliver (sigs : schedule) (n : nat) (p : process) : process :=
  if sigs n then signalHandler SIGINT p else p.

(** The for loop over the targets; [n] counts the reads of the flag. *)
Fixpoint each_target (sigs : schedule) (n : nat) (ts : list str) (sequence : Z)
         (p : process) : nat * Z * process :=
  match ts with
  | [] => (n, sequence, p)
  | target :: ts' =>
      let p := deliver sigs n p in
      if negb (running (ping p)) then (S n, sequence, p)
      else
        let p := happen (Probe target sequence) p in
        let p := if negb (continuous (ping p)) && negb (flood_mode (ping p))
                 then happen (Sleep (interval (ping p))) p else p in
        each_target sigs (S n) ts' (sequence + 1) p
  end.

(** The while loop of run. *)
Fixpoint rounds (fuel : nat) (sigs : schedule) (n : nat)
         (sequence completed_pings : Z) (p : process) : ending * process :=
  match fuel with
  | O => (OutOfFuel, p)
  | S fuel' =>
      let p := deliver sigs n p in
      if running (ping p)
         && (continuous (ping p) || (completed_pings <? count (ping p)))
      then
        let '(n, sequence, p) :=
          each_target sigs (S n) (targets (ping p)) sequence p in
        let completed_pings := completed_pings + 1 in
        if negb (continuous (ping p)) && (count (ping p) <=? completed_pings)
        then (Exit 0, p)
        else
          let p := if flood_mode (ping p) then happen (Sleep 10) p
                   else if continuous (ping p)
                   then happen (Sleep (interval (ping p))) p
                   else p in
          rounds fuel' sigs n sequence completed_pings p
      else (Exit 0, p)
  end.

(** The loop of run, entered with at least one target. *)
Definition run_loop (fuel : nat) (sigs : schedule) (p : process)
  : ending * process :=
  rounds fuel sigs 0 1 0 p.
Definition byte_val (b : byte) : Z := Z.of_N (Byte.to_N b).

Section Checksum.
(** [*ptr++] on a uint16_t pointer reads two bytes in host order. *)
Variable big_endian : bool.

Definition load16 (b0 b1 : byte) : Z :=
  if big_endian then 256 * byte_val b0 + byte_val b1
  else byte_val b0 + 256 * byte_val b1.

(** [sum] is a uint32_t. *)
Definition u32 (z : Z) : Z := z mod 2 ^ 32.

(** [while (len > 1) { sum += *ptr++; len -= 2; }
    if (len == 1) sum += *(uint8_t* )ptr;]
    over the [len] bytes at [data]. *)
Fixpoint sum_loop (ptr : list byte) (sum : Z) : Z :=
  match ptr with
  | b0 :: b1 :: rest => sum_loop rest (u32 (sum + load16 b0 b1))
  | [b0] => u32 (sum + byte_val b0)
  | [] => sum
  end.

(** [while (sum >> 16) sum = (sum & 0xFFFF) + (sum >> 16);] *)
Fixpoint fold_loop (fuel : nat) (sum : Z) : Z :=
  match fuel with
  | O => sum
  | S k =>
      if Z.shiftr sum 16 =? 0 then sum
      else fold_loop k (u32 (Z.land sum 0xFFFF + Z.shiftr sum 16))
  end.

(** [return ~sum;] converted to uint16_t. *)
Definition calculateChecksum (data : list byte) : Z :=
  let sum := sum_loop data 0 in
  let sum := fold_loop 32 sum in
  Z.land (Z.lnot sum) 0xFFFF.
End Checksum.
End Ping.

(** ** conf-convert: the INI reader, the JSON writer and convert() *)

Module ConfConvert.
Import CStr Cxx Regex.

(** The data members of class ConfigConverter. *)
Record ConfigConverter := {
  input_format : str;
  output_format : str;
  input_file : str;
  output_file : str;
  pretty_print : bool;
  validate_only : bool;
  show_stats : bool;
  preserve_comments : bool;
  indent_size : Z;
  root_key : str;
  exclude_keys : list str;
  include_keys : list str;
  sort_keys : bool;
  minify : bool;
  config_data : smap;
  comments : list str
}.

(** The member initialisers: what [ConfigConverter converter;] holds. *)
Definition default_converter : ConfigConverter := {|
  input_format := lit "auto";
  output_format := lit "json";
  input_file := [];
  output_file := [];
  pretty_print := true;
  validate_only := false;
  show_stats := false;
  preserve_comments := false;
  indent_size := 2;
  root_key := [];
  exclude_keys := [];
  include_keys := [];
  sort_keys := false;
  minify := false;
  config_data := [];
  comments := []
|}.

Definition setInputFormat (f : str) (c : ConfigConverter) : ConfigConverter :=
  {| input_format := f; output_format := output_format c;
     input_file := input_file c; output_file := output_file c;
     pretty_print := pretty_print c; validate_only := validate_only c;
     show_stats := show_stats c; preserve_comments := preserve_comments c;
     indent_size := indent_size c; root_key := root_key c;
     exclude_keys := exclude_keys c; include_keys := include_keys c;
     sort_keys := sort_keys c; minify := minify c;
     config_data := config_data c; comments := comments c |}.
Definition setOutputFormat (f : str) (c : ConfigConverter) : ConfigConverter :=
  {| input_format := input_format c; output_format := f;
     input_file := input_file c; output_file := output_file c;
     pretty_print := pretty_print c; validate_only := validate_only c;
     show_stats := show_stats c; preserve_comments := preserve_comments c;
     indent_size := indent_size c; root_key := root_key c;
     exclude_keys := exclude_keys c; include_keys := include_keys c;
     sort_keys := sort_keys c; minify := minify c;
     config_data := config_data c; comments := comments c |}.
Definition setInputFile (f : str) (c : ConfigConverter) : ConfigConverter :=
  {| input_format := input_format c; output_format := output_format c;
     input_file := f; output_file := output_file c;
     pretty_print := pretty_print c; validate_only := validate_only c;
     show_stats := show_stats c; preserve_comments := preserve_comments c;
     indent_size := indent_size c; root_key := root_key c;
     exclude_keys := exclude_keys c; include_keys := include_keys c;
     sort_keys := sort_keys c; minify := minify c;
     config_data := config_data c; comments := comments c |}.
(** Assignment to the two members the parsers and filters write. *)
Definition set_data (d : smap) (cm : list str) (c : ConfigConverter)
  : ConfigConverter :=
  {| input_format := input_format c; output_format := output_format c;
     input_file := input_file c; output_file := output_file c;
     pretty_print := pretty_print c; validate_only := validate_only c;
     show_stats := show_stats c; preserve_comments := preserve_comments c;
     indent_size := indent_size c; root_key := root_key c;
     exclude_keys := exclude_keys c; include_keys := include_keys c;
     sort_keys := sort_keys c; minify := minify c;
     config_data := d; comments := cm |}.

(** The three patterns of parseINI: section_pattern is
    ^\s*\[([^\]]+)\]\s*$ , keyvalue_pattern is ^\s*([^=]+)=(.* )$ and
    comment_pattern is ^\s*[;#](.* )$ (written here with a blank before
    each closing parenthesis that follows a star). *)
Definition section_pattern : regex :=
  cat [Bol; star space; Atom (AChar "["); Group 1 (plus (ASet true [CChar "]"]));
       Atom (AChar "]"); star space; Eol].
Definition keyvalue_pattern : regex :=
  cat [Bol; star space; Group 1 (plus (ASet true [CChar "="])); Atom (AChar "=");
       Group 2 (star AAny); Eol].
Definition comment_pattern : regex :=
  cat [Bol; star space; Atom (ASet false [CChar ";"; CChar "#"]);
       Group 1 (star AAny); Eol].

(** The locals of parseINI that live across lines, with the two members
    it updates. *)
Record ini_state := {
  current_section : str;
  data : smap;
  cmts : list str
}.

(** The body of the getline loop; [None] is an exception on its way to
    the catch-all handler. *)
Definition parseINI_line (preserve : bool) (st : ini_state) (line : str)
  : option ini_state :=
  match regex_match false comment_pattern line with
  | Some mt =>
      Some {| current_section := current_section st; data := data st;
              cmts := if preserve then cmts st ++ [sub_match 1 mt] else cmts st |}
  | None =>
      match regex_match false section_pattern line with
      | Some mt =>
          Some {| current_section := sub_match 1 mt; data := data st;
                  cmts := cmts st |}
      | None =>
          match regex_match false keyvalue_pattern line with
          | Some mt =>
              match trim (sub_match 1 mt), trim (sub_match 2 mt) with
              | Some key, Some value =>
                  let full_key :=
                    match current_section st with
                    | [] => key
                    | sec => sec ++ lit "." ++ key
                    end in
                  Some {| current_section := current_section st;
                          data := map_set full_key value (data st);
                          cmts := cmts st |}
              | _, _ => None
              end
          | None => Some st
          end
      end
  end.

(** The loop; on an exception what was stored so far stays stored. *)
Fixpoint parseINI_lines (preserve : bool) (st : ini_state) (lines : list str)
  : bool * ini_state :=
  match lines with
  | [] => (true, st)
  | line :: lines' =>
      match parseINI_line preserve st line with
      | Some st' => parseINI_lines preserve st' lines'
      | None => (false, st)
      end
  end.

Definition parseINI (c : ConfigConverter) (content : str)
  : bool * ConfigConverter :=
  let '(ok, st) :=
    parseINI_lines (preserve_comments c)
      {| current_section := []; data := config_data c; cmts := comments c |}
      (getlines content) in
  (ok, set_data (data st) (cmts st) c).

Definition escapeJsonString (s : str) : str :=
  flat_map (fun c =>
    if Ascii.eqb c dquote then [backslash; dquote]
    else if Ascii.eqb c backslash then [backslash; backslash]
    else if Ascii.eqb c newline then [backslash; "n"%char]
    else if Ascii.eqb c cr then [backslash; "r"%char]
    else if Ascii.eqb c tab then [backslash; "t"%char]
    else [c]) s.

(** number_pattern of isNumber: ^-?\d+(?:\.\d+)?$ *)
Definition number_pattern : regex :=
  cat [Bol; Opt (Atom (AChar "-")); plus digit;
       Opt (Seq (Atom (AChar ".")) (plus digit)); Eol].

Definition isNumber (s : str) : bool :=
  match s with
  | [] => false
  | _ =>
      match regex_match false number_pattern s with
      | Some _ => true
      | None => false
      end
  end.
Definition isBoolean (s : str) : bool :=
  str_eqb s (lit "true") || str_eqb s (lit "false").

(** What generateJSON writes for a value, the same in both layouts. *)
Definition json_value (v : str) : str :=
  if isNumber v then v
  else if isBoolean v then v
  else [dquote] ++ escapeJsonString v ++ [dquote].

(** The loop over config_data; [first] is the flag of that name and [sep]
    what is written between two entries. *)
Fixpoint json_entries (sep lead colon : str) (first : bool) (mp : smap) : str :=
  match mp with
  | [] => []
  | (k, v) :: mp' =>
      (if first then [] else sep)
      ++ lead ++ [dquote] ++ escapeJsonString k ++ [dquote] ++ colon
      ++ json_value v
      ++ json_entries sep lead colon false mp'
  end.

(** [std::string indent(indent_size, ' ')]: the int becomes a size_t, and
    a count above max_size() throws std::length_error. *)
Definition make_indent (n : Z) : result str :=
  if n <? 0 then Exn (lit "basic_string::_M_create")
  else Ok (repeat " "%char (Z.to_nat n)).

Definition generateJSON (c : ConfigConverter) : result str :=
  if minify c then
    Ok (lit "{" ++ json_entries (lit ",") [] (lit ":") true (config_data c)
        ++ lit "}")
  else
    match make_indent (indent_size c) with
    | Exn e => Exn e
    | Ok indent =>
        Ok (lit "{" ++ [newline]
            ++ json_entries (lit "," ++ [newline]) indent (lit ": ") true
                 (config_data c)
            ++ [newline] ++ lit "}")
    end.

(** *** The other readers: parseJSON, parseYAML, parseENV *)

(** The three patterns of parseJSON: a quoted key, a colon, and a quoted
    string, a number, or true or false. *)
Definition json_key : list regex :=
  [Atom (AChar dquote); Group 1 (plus (ASet true [CChar dquote]));
   Atom (AChar dquote); star space; Atom (AChar ":"); star space].
Definition json_pattern : regex :=
  cat (json_key ++ [Atom (AChar dquote); Group 2 (star (ASet true [CChar dquote]));
                    Atom (AChar dquote)]).
Definition json_number_pattern : regex :=
  cat (json_key ++ [Group 2 (Seq (plus digit)
                                 (Opt (Seq (Atom (AChar ".")) (plus digit))))]).
Definition json_bool_pattern : regex :=
  cat (json_key ++ [Group 2 (Alt (chars "true") (chars "false"))]).

(** One loop over a std::sregex_iterator: [config_data[key] = value]. *)
Definition store_matches (r : regex) (content : str) (d : smap) : smap :=
  fold_left (fun d mt => map_set (sub_match 1 mt) (sub_match 2 mt) d)
            (regex_iterate false r content) d.

Definition parseJSON (c : ConfigConverter) (content : str)
  : bool * ConfigConverter :=
  let d := store_matches json_pattern content (config_data c) in
  let d := store_matches json_number_pattern content d in
  let d := store_matches json_bool_pattern content d in
  (true, set_data d (comments c) c).

(** The quote stripping shared by parseYAML and parseENV:
    [value.substr(1, value.length() - 2)], the length a size_t. *)
Definition unquote (value : str) : option str :=
  if (startsWith value [dquote] && endsWith value [dquote])
     || (startsWith value (lit "'") && endsWith value (lit "'"))
  then substr value 1 (size_t (size value - 2))
  else Some value.

(** The patterns of parseYAML: a key up to the first colon and the rest of
    the line; a hash comment. *)
Definition yaml_pattern : regex :=
  cat [Bol; star space; Group 1 (plus (ASet true [CChar ":"])); Atom (AChar ":");
       star space; Group 2 (star AAny); Eol].
Definition hash_comment_pattern : regex :=
  cat [Bol; star space; Atom (AChar "#"); Group 1 (star AAny); Eol].

(** The state of a line loop that has no section: the two members. *)
Definition flat_state := (smap * list str)%type.

Definition parseYAML_line (preserve : bool) (st : flat_state) (line : str)
  : option flat_state :=
  let '(d, cm) := st in
  match regex_match false hash_comment_pattern line with
  | Some mt => Some (d, if preserve then cm ++ [sub_match 1 mt] else cm)
  | None =>
      match regex_match false yaml_pattern line with
      | Some mt =>
          match trim (sub_match 1 mt), trim (sub_match 2 mt) with
          | Some key, Some value =>
              match unquote value with
              | Some value => Some (map_set key value d, cm)
              | None => None
              end
          | _, _ => None
          end
      | None => Some st
      end
  end.

(** The pattern of parseENV: an identifier, an equals sign, the rest. *)
Definition env_pattern : regex :=
  cat [Bol; star space;
       Group 1 (Seq (Atom (ASet false [CRange "A" "Z"; CRange "a" "z"; CChar "_"]))
                    (star (ASet false [CRange "A" "Z"; CRange "a" "z";
                                       CRange "0" "9"; CChar "_"])));
       Atom (AChar "="); Group 2 (star AAny); Eol].

Definition parseENV_line (preserve : bool) (st : flat_state) (line : str)
  : option flat_state :=
  let '(d, cm) := st in
  match regex_match false hash_comment_pattern line with
  | Some mt => Some (d, if preserve then cm ++ [sub_match 1 mt] else cm)
  | None =>
      match regex_match false env_pattern line with
      | Some mt =>
          match unquote (sub_match 2 mt) with
          | Some value => Some (map_set (sub_match 1 mt) value d, cm)
          | None => None
          end
      | None => Some st
      end
  end.

(** A getline loop inside try and catch-all, over either line body. *)
Fixpoint line_loop (body : flat_state -> str -> option flat_state)
         (st : flat_state) (lines : list str) : bool * flat_state :=
  match lines with
  | [] => (true, st)
  | line :: lines' =>
      match body st line with
      | Some st' => line_loop body st' lines'
      | None => (false, st)
      end
  end.

Definition parseYAML (c : ConfigConverter) (content : str)
  : bool * ConfigConverter :=
  let '(ok, (d, cm)) :=
    line_loop (parseYAML_line (preserve_comments c))
              (config_data c, comments c) (getlines content) in
  (ok, set_data d cm c).

Definition parseENV (c : ConfigConverter) (content : str)
  : bool * ConfigConverter :=
  let '(ok, (d, cm)) :=
    line_loop (parseENV_line (preserve_comments c))
              (config_data c, comments c) (getlines content) in
  (ok, set_data d cm c).

(** *** The other writers: generateYAML, generateINI, generateENV *)

Definition found (pos : Z) : bool := negb (pos =? npos).

(** The comment block the three writers start with. *)
Definition comment_block (lead : string) (c : ConfigConverter) : str :=
  if preserve_comments c then
    flat_map (fun cm => lit lead ++ cm ++ [newline]) (comments c)
    ++ match comments c with [] => [] | _ => [newline] end
  else [].

Definition yaml_entry (kv : str * str) : str :=
  let '(key, value) := kv in
  key ++ lit ": "
  ++ (if found (find_char value ":") || found (find_char value "#")
         || found (find_char value "[") || found (find_char value "]")
         || (find_char value " " =? 0)
         || (find_char value " " =? size_t (size value - 1))
      then [dquote] ++ value ++ [dquote]
      else value)
  ++ [newline].

Definition generateYAML (c : ConfigConverter) : result str :=
  Ok (comment_block "# " c ++ flat_map yaml_entry (config_data c)).

(** The grouping loop of generateINI: [sections[section][section_key]]. *)
Definition group_entry (secs : result (omap smap)) (kv : str * str)
  : result (omap smap) :=
  secs <- secs ;;
  let '(key, value) := kv in
  let dot_pos := find_char key "." in
  let inner name := match map_find name secs with Some e => e | None => [] end in
  if found dot_pos then
    section <- checked "basic_string::substr" (substr key 0 dot_pos) ;;
    section_key <- checked "basic_string::substr"
                     (substr key (size_t (dot_pos + 1)) npos) ;;
    Ok (map_set section (map_set section_key value (inner section)) secs)
  else
    Ok (map_set [] (map_set key value (inner [])) secs).

Definition ini_entry (kv : str * str) : str :=
  let '(key, value) := kv in key ++ lit " = " ++ value ++ [newline].

Definition ini_section (sec : str * smap) : str :=
  let '(name, entries) := sec in
  match name with
  | [] => []
  | _ => lit "[" ++ name ++ lit "]" ++ [newline]
         ++ flat_map ini_entry entries ++ [newline]
  end.

Definition generateINI (c : ConfigConverter) : result str :=
  sections <- fold_left group_entry (config_data c) (Ok []) ;;
  Ok (comment_block "; " c
      ++ match map_find [] sections with
         | Some entries => flat_map ini_entry entries ++ [newline]
         | None => []
         end
      ++ flat_map ini_section sections).

(** The name generateENV writes for a key: upper case, dots to underscores. *)
Definition env_key (key : str) : str :=
  map (fun ch => if Ascii.eqb ch "." then "_"%char else ch) (map toupper key).

Definition env_entry (kv : str * str) : str :=
  let '(key, value) := kv in
  env_key key ++ lit "="
  ++ (if found (find_char value " ") || found (find_char value tab)
         || found (find_char value "#") || found (find_char value "$")
      then [dquote] ++ value ++ [dquote]
      else value)
  ++ [newline].

Definition generateENV (c : ConfigConverter) : result str :=
  Ok (comment_block "# " c ++ flat_map env_entry (config_data c)).

(** *** detectFormat *)

Definition has_ext (filename : str) (e : string) : bool := endsWith filename (lit e).
Definition starts (s : str) (p : string) : bool := startsWith s (lit p).
Definition has (s : str) (p : str) : bool := found (str_find s p).

Definition detectFormat (content filename : str) : result str :=
  let by_name : option string :=
    match filename with
    | [] => None
    | _ =>
        if has_ext filename ".json" then Some "json"%string
        else if has_ext filename ".yaml" || has_ext filename ".yml"
        then Some "yaml"%string
        else if has_ext filename ".toml" then Some "toml"%string
        else if has_ext filename ".xml" then Some "xml"%string
        else if has_ext filename ".ini" || has_ext filename ".conf"
        then Some "ini"%string
        else if has_ext filename ".env" then Some "env"%string
        else None
    end in
  match by_name with
  | Some fmt => Ok (lit fmt)
  | None =>
      trimmed <- checked "basic_string::erase"
                   (erase content 0
                      (find_first_not_of content [" "%char; tab; newline; cr])) ;;
      if starts trimmed "{" || starts trimmed "[" then Ok (lit "json")
      else if starts trimmed "<?xml" || starts trimmed "<" then Ok (lit "xml")
      else if has trimmed (lit "---") || has trimmed (lit ":") then Ok (lit "yaml")
      else if has trimmed (lit "[") && has trimmed (lit "=") then Ok (lit "ini")
      else if has trimmed (lit "=") && has trimmed [newline] then Ok (lit "env")
      else Ok (lit "json")
  end.

(** filterKeys *)
Definition filterKeys (c : ConfigConverter) : ConfigConverter :=
  let kept :=
    match include_keys c with
    | [] => config_data c
    | keys =>
        fold_left (fun filtered key =>
                     match map_find key (config_data c) with
                     | Some v => map_set key v filtered
                     | None => filtered
                     end) keys []
    end in
  set_data (fold_left (fun d key => map_erase key d) (exclude_keys c) kept)
           (comments c) c.

(** [std::map sorted_data(config_data.begin(), config_data.end())] *)
Definition sorted_copy (mp : smap) : smap :=
  fold_left (fun acc '(k, v) =>
               if map_count k acc then acc else map_set k v acc) mp [].

(** One counter of printStatistics over the store, from [n] on.  The
    counter is an int: [++] on INT_MAX overflows, which the language leaves
    undefined; [None] then. *)
Fixpoint count_if (p : str -> bool) (mp : smap) (n : Z) : option Z :=
  match mp with
  | [] => Some n
  | (_, v) :: mp' =>
      if p v then
        if n <? INT_MAX then count_if p mp' (n + 1) else None
      else count_if p mp' n
  end.

(** printStatistics: what goes to std::cout; [None] when a counter
    overflows. *)
Definition printStatistics (c : ConfigConverter) : option str :=
  if negb (show_stats c) then Some []
  else
    match count_if (fun v => negb (isNumber v) && negb (isBoolean v))
                   (config_data c) 0,
          count_if isNumber (config_data c) 0,
          count_if (fun v => negb (isNumber v) && isBoolean v)
                   (config_data c) 0 with
    | Some strings, Some numbers, Some booleans =>
        Some
          ([newline] ++ lit "--- Conversion Statistics ---" ++ [newline]
           ++ lit "Total keys: " ++ dec (List.length (config_data c)) ++ [newline]
           ++ lit "Comments preserved: " ++ dec (List.length (comments c))
           ++ [newline]
           ++ lit "Input format: " ++ input_format c ++ [newline]
           ++ lit "Output format: " ++ output_format c ++ [newline]
           ++ lit "Value types - Strings: " ++ dec_int strings
           ++ lit ", Numbers: " ++ dec_int numbers
           ++ lit ", Booleans: " ++ dec_int booleans ++ [newline])
    | _, _, _ => None
    end.

(** What the process is started in: the text on standard input, the
    files that can be read, the files that can be created. *)
Record world := {
  stdin : str;
  read_file : str -> option str;
  can_create : str -> bool
}.

(** What a run leaves behind.  [undefined] tells that the run went
    through behaviour the language leaves undefined, the overflow of a
    counter of printStatistics; the other fields then say what had happened
    before, and nothing about what follows. *)
Record outcome := {
  exit_code : Z;
  cout : str;
  cerr : str;
  written : list (str * str);
  undefined : bool
}.

Definition fail (msg : str) : outcome :=
  {| exit_code := 1; cout := []; cerr := msg; written := [];
     undefined := false |}.

(** [printStatistics(); return 0;] after what has been written so far. *)
Definition finish (c : ConfigConverter) (cout : str) (written : list (str * str))
  : outcome :=
  match printStatistics c with
  | Some statistics =>
      {| exit_code := 0; cout := cout ++ statistics; cerr := [];
         written := written; undefined := false |}
  | None =>
      {| exit_code := 0; cout := cout; cerr := []; written := written;
         undefined := true |}
  end.

(** [while (std::getline(std::cin, line))] appends each line and a
    newline to [content]. *)
Definition read_stdin (w : world) : str :=
  flat_map (fun line => line ++ [newline]) (getlines (stdin w)).

Definition fmt_is (s : str) (l : string) : bool := str_eqb s (lit l).

Definition convert (c : ConfigConverter) (w : world) : outcome :=
  let input :=
    if match input_file c with [] => true | _ => false end
       || fmt_is (input_file c) "-"
    then Some (read_stdin w)
    else read_file w (input_file c) in
  match input with
  | None =>
      fail (lit "conf-convert: cannot open input file '" ++ input_file c
            ++ lit "'" ++ [newline])
  | Some content =>
      let detected :=
        if fmt_is (input_format c) "auto"
        then fmt <- detectFormat content (input_file c) ;; Ok (setInputFormat fmt c)
        else Ok c in
      match detected with
      | Exn e => fail (lit "conf-convert: error: " ++ e ++ [newline])
      | Ok c =>
          let parsed :=
            if fmt_is (input_format c) "json" then Some (parseJSON c content)
            else if fmt_is (input_format c) "yaml" || fmt_is (input_format c) "yml"
            then Some (parseYAML c content)
            else if fmt_is (input_format c) "ini" || fmt_is (input_format c) "conf"
            then Some (parseINI c content)
            else if fmt_is (input_format c) "env" then Some (parseENV c content)
            else None in
          match parsed with
          | None =>
              fail (lit "conf-convert: unsupported input format '"
                    ++ input_format c ++ lit "'" ++ [newline])
          | Some (false, _) =>
              fail (lit "conf-convert: failed to parse input as "
                    ++ input_format c ++ [newline])
          | Some (true, c) =>
              if validate_only c then
                finish c (lit "Input file is valid " ++ input_format c
                          ++ [newline]) []
              else
                let c := filterKeys c in
                let c :=
                  if sort_keys c
                  then set_data (sorted_copy (config_data c)) (comments c) c
                  else c in
                let generated :=
                  if fmt_is (output_format c) "json" then Some (generateJSON c)
                  else if fmt_is (output_format c) "yaml"
                          || fmt_is (output_format c) "yml"
                  then Some (generateYAML c)
                  else if fmt_is (output_format c) "ini"
                          || fmt_is (output_format c) "conf"
                  then Some (generateINI c)
                  else if fmt_is (output_format c) "env" then Some (generateENV c)
                  else None in
                match generated with
                | None =>
                    fail (lit "conf-convert: unsupported output format '"
                          ++ output_format c ++ lit "'" ++ [newline])
                | Some (Exn e) =>
                    fail (lit "conf-convert: error: " ++ e ++ [newline])
                | Some (Ok output) =>
                    if match output_file c with [] => true | _ => false end
                       || fmt_is (output_file c) "-"
                    then finish c output []
                    else if can_create w (output_file c)
                    then finish c [] [(output_file c, output)]
                    else
                      fail (lit "conf-convert: cannot create output file '"
                            ++ output_file c ++ lit "'" ++ [newline])
                end
          end
      end
  end.
End ConfConvert.

(* ================================================================== *)
(** * Part II: what the specification says, as definitions *)
(* ================================================================== *)

(** ** The Internet checksum of RFC 1071, in the words of the specification *)

Module Rfc1071.
Import Ping.

Section Words.
Variable big_endian : bool.

(** The buffer's 16-bit words; a trailing odd byte counts as itself. *)
Fixpoint words16 (data : list byte) : list Z :=
  match data with
  | b0 :: b1 :: rest => load16 big_endian b0 b1 :: words16 rest
  | [b0] => [byte_val b0]
  | [] => []
  end.
End Words.

(** Ones'-complement addition of two 16-bit values: the carry out of
    bit 15 comes back in at bit 0. *)
Definition oc_add16 (a b : Z) : Z :=
  let s := a + b in if s <? 2 ^ 16 then s else s - 2 ^ 16 + 1.

Definition rfc1071_checksum (big_endian : bool) (data : list byte) : Z :=
  Z.land (Z.lnot (fold_left oc_add16 (words16 big_endian data) 0)) 0xFFFF.
End Rfc1071.

(** ** conf-convert: an INI text of two key=value lines and the JSON object
    the specification expects for it *)

Module IniJson.
Import CStr ConfConvert.

(** Blanks and tabs, the characters the source trims. *)
Definition is_blank (c : ascii) : bool := Ascii.eqb c " " || Ascii.eqb c tab.

Fixpoint lstrip (s : str) : str :=
  match s with
  | c :: s' => if is_blank c then lstrip s' else s
  | [] => []
  end.
Fixpoint rstrip (s : str) : str :=
  match s with
  | [] => []
  | c :: s' =>
      match rstrip s' with
      | [] => if is_blank c then [] else [c]
      | t => c :: t
      end
  end.
Definition strip (s : str) : str := rstrip (lstrip s).

(** What a key=value line is made of: leading whitespace, a key that is
    not empty, holds no equals sign and does not start with whitespace,
    a semicolon, a hash or an opening bracket, and a value on the same
    line without a carriage return. *)
Definition indent_ok (ind : str) : bool :=
  forallb (fun c => isspace c && negb (Ascii.eqb c newline)) ind.
Definition key_ok (k : str) : bool :=
  match k with
  | [] => false
  | c :: _ =>
      negb (isspace c) && negb (mem c (lit ";#["))
      && forallb (fun c => negb (Ascii.eqb c "=") && negb (Ascii.eqb c newline)) k
  end.
Definition value_ok (v : str) : bool :=
  forallb (fun c => negb (Ascii.eqb c newline) && negb (Ascii.eqb c cr)) v.
Definition pair_line (ind k v : str) : str := ind ++ k ++ lit "=" ++ v.

(** An INI text of exactly two key=value lines, the last one with or
    without its newline. *)
Definition two_pair_text (ind1 k1 v1 ind2 k2 v2 : str) (final_newline : bool)
  : str :=
  pair_line ind1 k1 v1 ++ [newline] ++ pair_line ind2 k2 v2
  ++ (if final_newline then [newline] else []).

(** Where convert() takes its text from. *)
Definition from_stdin (f : str) : bool :=
  match f with [] => true | _ => false end || str_eqb f (lit "-").
Definition input_text (w : world) (f : str) : option str :=
  if from_stdin f then Some (stdin w) else read_file w f.

(** A value as the amended claim has it: bare when it reads as a number
    or as true or false, a double-quoted escaped string otherwise. *)
Definition json_scalar (v : str) : str :=
  if isNumber v || isBoolean v then v
  else [dquote] ++ escapeJsonString v ++ [dquote].
Definition json_member (k v : str) : str :=
  lit "  " ++ [dquote] ++ escapeJsonString k ++ [dquote] ++ lit ": "
  ++ json_scalar v.
Definition json_object2 (a b : str * str) : str :=
  let '(x, y) := if str_ltb (fst b) (fst a) then (b, a) else (a, b) in
  lit "{" ++ [newline] ++ json_member (fst x) (snd x) ++ lit "," ++ [newline]
  ++ json_member (fst y) (snd y) ++ [newline] ++ lit "}".

(** The object the claim expects: every value a double-quoted string. *)
Definition json_string_member (k v : str) : str :=
  lit "  " ++ [dquote] ++ escapeJsonString k ++ [dquote] ++ lit ": "
  ++ [dquote] ++ escapeJsonString v ++ [dquote].
Definition json_string_object2 (a b : str * str) : str :=
  let '(x, y) := if str_ltb (fst b) (fst a) then (b, a) else (a, b) in
  lit "{" ++ [newline] ++ json_string_member (fst x) (snd x) ++ lit ","
  ++ [newline] ++ json_string_member (fst y) (snd y) ++ [newline] ++ lit "}".

(** The converter main() builds for [conf-convert -f ini -t json] on
    input file [f] (empty: standard input). *)
Definition ini_to_json (f : str) : ConfigConverter :=
  setInputFile f
    (setOutputFormat (lit "json") (setInputFormat (lit "ini") default_converter)).
End IniJson.

(** The runs of the examples. *)
Module ConfConvertRuns.
Import CStr ConfConvert IniJson.

Definition run (f : str) (w : world) : outcome := convert (ini_to_json f) w.

Definition on_stdin (text : str) : world :=
  {| stdin := text; read_file := fun _ => None; can_create := fun _ => false |}.

(** The two lines [name = x y] and [ b=true] on standard input. *)
Definition mixed_world : world :=
  on_stdin (two_pair_text [] (lit "name ") (lit " x y")
                          (lit " ") (lit "b") (lit "true") true).

(** The two lines [a=1] and [b=2] on standard input. *)
Definition numbers_world : world :=
  on_stdin (two_pair_text [] (lit "a") (lit "1") [] (lit "b") (lit "2") true).
End ConfConvertRuns.

(** ** What the specification says about the print loops *)

Module PrintLoop.
Import CStr.

(** [n] lines of [text]. *)
Definition lines (text : str) (n : nat) : str :=
  List.concat (repeat (text ++ [newline]) n).

(** The string no prints: its first argument, or no. *)
Definition no_text (args : list str) : str :=
  match args with
  | arg :: _ => arg
  | [] => lit "no"
  end.
End PrintLoop.

(** ** What the specification says about the signal handlers *)

Module Cancellation.
Import Proc.

(** A handler that returns, as an effect. *)
Definition returning {S} (h : Z -> S -> S) : Z -> S -> handler_effect S :=
  fun sig s => Resumes (h sig s).

(** The handler does nothing but lower a flag: it returns, and the state
    it returns to is [lower s]. *)
Definition only_sets_flag {S} (handler : Z -> S -> handler_effect S)
           (lower : S -> S) : Prop :=
  forall sig s, handler sig s = Resumes (lower s).

Definition yes_lower (st : Yes.state) : Yes.state :=
  {| Yes.keep_running := 0; Yes.add_newline := Yes.add_newline st;
     Yes.limit := Yes.limit st; Yes.count := Yes.count st;
     Yes.stdout := Yes.stdout st; Yes.stderr := Yes.stderr st |}.

Definition no_lower (p : No.process) : No.process :=
  if No.global_no p then No.with_util (No.setRunning false) p else p.

Definition ping_lower (p : Ping.process) : Ping.process :=
  if Ping.global_ping p
  then {| Ping.ping := Ping.setRunning false (Ping.ping p);
          Ping.global_ping := Ping.global_ping p; Ping.events := Ping.events p |}
  else p.

(** A signal that comes first in a schedule. *)
Definition signal_first : schedule := fun n => Nat.eqb n 0.
End Cancellation.

(** ** What the specification says about tree -d *)

Module DirsOnly.
Import CStr Tree.

(** No plain file has been listed or counted. *)
Definition dirs_only (st : state) : Prop :=
  fileCount st = 0 /\
  forall text name isDirectory,
    In (EntryLine text name isDirectory) (cout st) -> isDirectory = true.

(** -d and nothing else. *)
Definition option_d : Options :=
  {| showHidden := showHidden default_options;
     showPermissions := showPermissions default_options;
     showFileSize := showFileSize default_options;
     colorOutput := colorOutput default_options;
     onlyDirs := true;
     onlyFiles := onlyFiles default_options;
     maxDepth := maxDepth default_options;
     indentChars := indentChars default_options;
     branchChars := branchChars default_options;
     lastBranchChars := lastBranchChars default_options;
     patterns := patterns default_options |}.

Definition plain : attrs :=
  {| is_symlink := false; owner_read := true; owner_write := true;
     owner_exec := false; size_text := Some (lit "12B") |}.

(** A directory with two files and a subdirectory that holds one more. *)
Definition project : world :=
  {| rootPath := lit "/home/user/project";
     root := Some (Dir (lit "project") plain
                     [File (lit "README.md") plain;
                      Dir (lit "src") plain [File (lit "main.c") plain];
                      File (lit "Makefile") plain]) |}.

(** A call of printTree that lists and counts no plain file if none was
    before. *)
Definition keeps_dirs_only (walk : walker) : Prop :=
  forall prefix isLast depth st,
    dirs_only st -> dirs_only (snd (walk prefix isLast depth st)).
End DirsOnly.

(** ** Where a pattern stops *)

Module Reach.
Import CStr Regex.


End Reach.

(** ** What the specification says about the round-trips of whois *)

Module Referral.
Import CStr Cxx Whois.

Definition start : state := {| cout := []; cerr := []; calls := 0; log := [] |}.







(** A registry that refers to a registrar, and a network that answers
    every query with the registry's text. *)
Definition registry_text : str :=
  lit "Domain Name: EXAMPLE.COM" ++ [newline]
  ++ lit "Registrar WHOIS Server: whois.registrar.example" ++ [newline].
Definition registry : network :=
  fun _ _ _ =>
    {| socket_ret := 3; host_found := true; connect_ret := 0; send_ret := 13;
       received := [registry_text] |}.

End Referral.

(** ** What the specification says about the files of tee *)

Module TeeStory.
Import CStr Proc Tee.

Definition target_eqb (a b : target) : bool :=
  match a, b with
  | ToStdout, ToStdout => true
  | ToFile i, ToFile j => Nat.eqb i j
  | _, _ => false
  end.

(** The calls that concern one target: the open and the close of a file,
    and the writes to it. *)
Definition about (t : target) (c : syscall) : bool :=
  match c with
  | SysOpen j _ _ _ _ => target_eqb t (ToFile j)
  | SysClose j _ _ => target_eqb t (ToFile j)
  | SysWrite who _ _ _ _ => target_eqb t who
  | SysWriteRaises who _ _ _ => target_eqb t who
  | _ => false
  end.
Definition calls_about (t : target) (st : state) : list syscall :=
  filter (about t) (trace st).

(** A chunk of standard input that reached standard output whole. *)
Record chunk := {
  iteration : nat;
  bytes_read : Z;
  data : list byte
}.

(** What a read returns and leaves in the buffer. *)
Definition after_read (r : read_result) (buffer : list byte) : Z * list byte :=
  match r with
  | ReadData d =>
      let d := firstn (Z.to_nat BUFFER_SIZE) d in
      (Z.of_nat (List.length d), d ++ skipn (List.length d) buffer)
  | ReadError _ => (-1, buffer)
  end.

(** No write raises a signal. *)
Definition no_write_signal (w : world) : Prop :=
  forall iter who n, write_signal w iter who n = None.

(** The writes to standard output in the first [fuel] iterations from
    iteration [iter] on, up to the first that is not whole: they depend on
    standard input and on standard output alone. *)
Fixpoint stdout_story (w : world) (fuel iter : nat) (buffer : list byte)
  : list syscall :=
  match fuel with
  | O => []
  | S fuel' =>
      let '(ret, buffer) := after_read (reads w iter) buffer in
      let n := to_size_t ret in
      if 0 <? n then
        let wret := fst (write_result w iter ToStdout n) in
        SysWrite ToStdout STDOUT_FILENO (firstn (Z.to_nat n) buffer) n wret
        :: (if to_size_t wret =? n then stdout_story w fuel' (S iter) buffer
            else [])
      else []
  end.

(** The chunks that reached standard output whole in those iterations. *)
Fixpoint chunks (w : world) (fuel iter : nat) (buffer : list byte)
  : list chunk :=
  match fuel with
  | O => []
  | S fuel' =>
      let '(ret, buffer) := after_read (reads w iter) buffer in
      let n := to_size_t ret in
      if (0 <? n) && (to_size_t (fst (write_result w iter ToStdout n)) =? n)
      then {| iteration := iter; bytes_read := n;
              data := firstn (Z.to_nat n) buffer |}
           :: chunks w fuel' (S iter) buffer
      else []
  end.

(** Whether the copying is over within those iterations: a read delivered
    no byte, or a write to standard output was not whole. *)
Fixpoint finished (w : world) (fuel iter : nat) (buffer : list byte) : bool :=
  match fuel with
  | O => false
  | S fuel' =>
      let '(ret, buffer) := after_read (reads w iter) buffer in
      let n := to_size_t ret in
      if (0 <? n) && (to_size_t (fst (write_result w iter ToStdout n)) =? n)
      then finished w fuel' (S iter) buffer
      else true
  end.

(** What happens to file [i], open on [fd], as the chunks come: every
    chunk is written to it until a write is not whole; it is closed then
    and its descriptor made invalid.  The calls and the descriptor left. *)
Fixpoint file_run (w : world) (i : nat) (fd : Z) (cs : list chunk)
  : list syscall * Z :=
  match cs with
  | [] => ([], fd)
  | c :: cs' =>
      if fd =? -1 then ([], fd)
      else
        let ret := fst (write_result w (iteration c) (ToFile i) (bytes_read c)) in
        let call := SysWrite (ToFile i) fd (data c) (bytes_read c) ret in
        if to_size_t ret =? bytes_read c then
          let '(calls, fd') := file_run w i fd cs' in (call :: calls, fd')
        else ([call; SysClose i fd (fst (close_result w i))], -1)
  end.

(** The answer to the first write to file [i] that is not whole, if there
    is one: what it returned and the errno it left. *)
Fixpoint failed_write (w : world) (i : nat) (cs : list chunk) : option (Z * Z) :=
  match cs with
  | [] => None
  | c :: cs' =>
      let r := write_result w (iteration c) (ToFile i) (bytes_read c) in
      if to_size_t (fst r) =? bytes_read c then failed_write w i cs'
      else Some r
  end.

(** All the calls that concern file [i]: it is opened, for append under
    -a and for truncation otherwise; if that fails nothing more is done
    with it; once the copying is [over] it is closed if still valid. *)
Definition file_story (w : world) (append : bool) (i : nat) (name : str)
           (cs : list chunk) (over : bool) : list syscall :=
  let fd := fst (open_result w i) in
  let '(calls, fd') := file_run w i fd cs in
  SysOpen i name
          (Z.lor (Z.lor O_WRONLY O_CREAT) (if append then O_APPEND else O_TRUNC))
          438 fd
  :: calls
  ++ (if negb over || (fd' =? -1) then []
      else [SysClose i fd' (fst (close_result w i))]).

(** [tee: name: reason] *)
Definition error_line (strerror : Z -> str) (name : str) (e : Z) : str :=
  lit "tee: " ++ name ++ lit ": " ++ strerror e ++ [newline].

(** The element of a list that belongs to file [j] when the head of the
    list belongs to file [i0]. *)
Definition at_index {A} (l : list A) (i0 j : nat) : option A :=
  if (i0 <=? j)%nat then nth_error l (j - i0) else None.

(** The open of file [j]. *)
Definition open_call (w : world) (f : flags_t) (j : nat) (name : str) : syscall :=
  SysOpen j name (open_flags f) 438 (fst (open_result w j)).

(** The chunk of one iteration of the main loop. *)
Definition chunk_of (iter : nat) (n : Z) (st : state) : chunk :=
  {| iteration := iter; bytes_read := n;
     data := firstn (Z.to_nat n) (buffer st) |}.
End TeeStory.

(** ** What the specification says about the reporting of errors *)

Module Reporting.
Import CStr Proc.


(** strerror for the errors of the examples. *)
Definition strerror_text (e : Z) : str :=
  if e =? 2 then lit "No such file or directory"
  else if e =? 5 then lit "Input/output error"
  else if e =? 13 then lit "Permission denied"
  else if e =? 28 then lit "No space left on device"
  else lit "Unknown error " ++ Cxx.dec_int e.



(** tee on a standard input every read of which fails, the writes of
    (size_t) -1 bytes failing as well; tee on an empty standard input and a
    file that cannot be opened. *)
Definition broken_input : Tee.world :=
  {| Tee.malloc_ok := true;
     Tee.open_result := fun _ => (3, 0);
     Tee.reads := fun _ => Tee.ReadError 5;
     Tee.write_result := fun _ _ _ => (-1, 14);
     Tee.write_signal := fun _ _ _ => None;
     Tee.close_result := fun _ => (0, 0) |}.


End Reporting.

(** ** What the specification says about the order of the keys *)

Module KeyOrder.
Import CStr Cxx Regex ConfConvert.

(** The order of std::map on its entries, and a store in that order. *)
Definition key_lt {V} (a b : str * V) : Prop := str_ltb (fst a) (fst b) = true.
Definition ascending {V} (mp : omap V) : Prop := StronglySorted key_lt mp.

(** Every key of the store is below [k]; every key is above it. *)
Definition below {V} (k : str) (mp : omap V) : Prop :=
  Forall (fun e => str_ltb (fst e) k = true) mp.
Definition above {V} (k : str) (mp : omap V) : Prop :=
  Forall (fun e => str_ltb k (fst e) = true) mp.

(** One text comes before another in a third. *)
Definition precedes (text first second : str) : Prop :=
  exists x y z, text = x ++ first ++ y ++ second ++ z.

(** What generateJSON writes for one entry, up to the colon. *)
Definition json_name (k : str) : str :=
  [dquote] ++ escapeJsonString k ++ [dquote].

(** Storing a pair, and the pairs one pattern finds in a text, in the
    order in which the iterator comes to them. *)
Definition store (d : smap) (kv : str * str) : smap :=
  map_set (fst kv) (snd kv) d.
Definition pass (r : regex) (content : str) : list (str * str) :=
  map (fun mt => (sub_match 1 mt, sub_match 2 mt))
      (regex_iterate false r content).

(** No key of the store holds a dot. *)
Definition no_dot (mp : smap) : Prop :=
  forall k v, In (k, v) mp -> ~ In "."%char k.

(** --sort, or not. *)
Definition with_sort (b : bool) (c : ConfigConverter) : ConfigConverter :=
  {| input_format := input_format c; output_format := output_format c;
     input_file := input_file c; output_file := output_file c;
     pretty_print := pretty_print c; validate_only := validate_only c;
     show_stats := show_stats c; preserve_comments := preserve_comments c;
     indent_size := indent_size c; root_key := root_key c;
     exclude_keys := exclude_keys c; include_keys := include_keys c;
     sort_keys := b; minify := minify c;
     config_data := config_data c; comments := comments c |}.

(** The stages of convert: the choice of the reader, what follows a
    successful read, and the writing. *)
Definition parse_stage (c : ConfigConverter) (content : str)
  : option (bool * ConfigConverter) :=
  if fmt_is (input_format c) "json" then Some (parseJSON c content)
  else if fmt_is (input_format c) "yaml" || fmt_is (input_format c) "yml"
  then Some (parseYAML c content)
  else if fmt_is (input_format c) "ini" || fmt_is (input_format c) "conf"
  then Some (parseINI c content)
  else if fmt_is (input_format c) "env" then Some (parseENV c content)
  else None.

Definition generate_stage (c : ConfigConverter) : option (result str) :=
  if fmt_is (output_format c) "json" then Some (generateJSON c)
  else if fmt_is (output_format c) "yaml" || fmt_is (output_format c) "yml"
  then Some (generateYAML c)
  else if fmt_is (output_format c) "ini" || fmt_is (output_format c) "conf"
  then Some (generateINI c)
  else if fmt_is (output_format c) "env" then Some (generateENV c)
  else None.

Definition emit_stage (c : ConfigConverter) (w : world) : outcome :=
  match generate_stage c with
  | None =>
      fail (lit "conf-convert: unsupported output format '"
            ++ output_format c ++ lit "'" ++ [newline])
  | Some (Exn e) => fail (lit "conf-convert: error: " ++ e ++ [newline])
  | Some (Ok output) =>
      if match output_file c with [] => true | _ => false end
         || fmt_is (output_file c) "-"
      then finish c output []
      else if can_create w (output_file c)
      then finish c [] [(output_file c, output)]
      else
        fail (lit "conf-convert: cannot create output file '"
              ++ output_file c ++ lit "'" ++ [newline])
  end.

Definition after_parse (c : ConfigConverter) (w : world) : outcome :=
  if validate_only c then
    finish c (lit "Input file is valid " ++ input_format c ++ [newline]) []
  else
    let c := filterKeys c in
    let c :=
      if sort_keys c
      then set_data (sorted_copy (config_data c)) (comments c) c
      else c in
    emit_stage c w.

Definition read_stage (c : ConfigConverter) (w : world) : option str :=
  if match input_file c with [] => true | _ => false end
     || fmt_is (input_file c) "-"
  then Some (read_stdin w)
  else read_file w (input_file c).

Definition detect_stage (c : ConfigConverter) (content : str)
  : result ConfigConverter :=
  if fmt_is (input_format c) "auto"
  then fmt <- detectFormat content (input_file c) ;; Ok (setInputFormat fmt c)
  else Ok c.

(** Two runs: INI to INI on the three lines [b = 1], [[a]], [x = 2]; JSON
    to JSON on an object that gives the key a the number 5 and then the
    string x. *)
Definition ini_to_ini : ConfigConverter :=
  setOutputFormat (lit "ini") (setInputFormat (lit "ini") default_converter).
Definition json_to_json : ConfigConverter :=
  setOutputFormat (lit "json") (setInputFormat (lit "json") default_converter).
Definition sections_text : str :=
  lit "b = 1" ++ [newline] ++ lit "[a]" ++ [newline] ++ lit "x = 2" ++ [newline].
Definition twice_text : str :=
  lit "{" ++ [dquote] ++ lit "a" ++ [dquote] ++ lit ": 5, "
  ++ [dquote] ++ lit "a" ++ [dquote] ++ lit ": " ++ [dquote] ++ lit "x" ++ [dquote]
  ++ lit "}".
End KeyOrder.

(** ** Definitions for the further properties *)

Module Listing.
Import CStr Cxx Tree.

(** The name starts with a dot. *)
Definition hidden (name : str) : bool :=
  match name with
  | c :: _ => Ascii.eqb c "."
  | [] => false
  end.

(** The name matches one of the patterns given, if any was given. *)
Definition wanted (o : Options) (name : str) : Prop :=
  match patterns o with
  | [] => True
  | ps => any_pattern name ps = Some true
  end.

(** What the options allow an entry line to be. *)
Definition allowed (o : Options) (l : line) : Prop :=
  match l with
  | EntryLine _ name isDirectory =>
      (showHidden o = false -> hidden name = false) /\
      (onlyDirs o = true -> isDirectory = true) /\
      (onlyFiles o = true -> isDirectory = false) /\
      wanted o name
  | OtherLine _ => True
  end.

Definition is_entry (directory : bool) (l : line) : bool :=
  match l with
  | EntryLine _ _ d => Bool.eqb d directory
  | OtherLine _ => false
  end.

(** The entry lines for directories, and those for anything else. *)
Definition listed (directory : bool) (st : state) : Z :=
  Z.of_nat (List.length (filter (is_entry directory) (cout st))).

(** The names on the entry lines. *)
Definition names (st : state) : list str :=
  flat_map (fun l => match l with EntryLine _ name _ => [name] | OtherLine _ => [] end)
           (cout st).

Definition start : state := {| dirCount := 0; fileCount := 0; cout := [] |}.

(** The number of paths at and below a path, and below the root. *)
Fixpoint paths_at (n : node) : nat :=
  match n with
  | Dir _ _ entries => S (list_sum (map paths_at entries))
  | _ => 1
  end.
Definition paths_below (w : world) : nat :=
  match root w with
  | Some (Dir _ _ entries) => list_sum (map paths_at entries)
  | _ => 0
  end.

(** Both counters together; a state whose counters are not negative. *)
Definition total (st : state) : Z := dirCount st + fileCount st.
Definition counted (st : state) : Prop := 0 <= dirCount st /\ 0 <= fileCount st.

(** A call of printTree that meets at most [k] paths: when the counters
    leave room for them it stays within defined behaviour and counts at
    most that many. *)
Definition bounded (k : nat) (walk : walker) : Prop :=
  forall prefix isLast depth st,
    counted st -> total st + Z.of_nat k <= INT_MAX ->
    fst (walk prefix isLast depth st) <> Undef /\
    counted (snd (walk prefix isLast depth st)) /\
    total (snd (walk prefix isLast depth st)) <= total st + Z.of_nat k.

(** -f, without colours and with empty branch strings. *)
Definition option_f : Options :=
  {| showHidden := false; showPermissions := false; showFileSize := false;
     colorOutput := false; onlyDirs := false; onlyFiles := true; maxDepth := -1;
     indentChars := []; branchChars := []; lastBranchChars := [];
     patterns := [] |}.
End Listing.

Module ReferralMore.
Import CStr Whois.
(** --quiet and --verbose together. *)
Definition quiet_client : WhoisClient :=
  {| server := []; port := 43; follow_referrals := true; raw_output := false;
     json_output := false; verbose := true; quiet := true; timeout := 30;
     output_file := [] |}.
End ReferralMore.

Module Escaping.
Import CStr.

(** The character an escape letter stands for. *)
Definition unescape_char (x : ascii) : ascii :=
  if Ascii.eqb x "n" then newline
  else if Ascii.eqb x "r" then cr
  else if Ascii.eqb x "t" then tab
  else x.

(** Reading an escaped text back. *)
Fixpoint unescape (s : str) : str :=
  match s with
  | [] => []
  | c :: r =>
      if Ascii.eqb c backslash then
        match r with
        | [] => [c]
        | x :: r' => unescape_char x :: unescape r'
        end
      else c :: unescape r
  end.

(** A lower-case letter of the C locale. *)
Definition islower (c : ascii) : bool := in_range 97 122 c.
End Escaping.

Module Filtering.
Import CStr Cxx ConfConvert.
(** A store with the keys a and b, --include a,b, --exclude b and
    --stats. *)
Definition both : ConfigConverter :=
  {| input_format := lit "auto"; output_format := lit "json";
     input_file := []; output_file := []; pretty_print := true;
     validate_only := false; show_stats := true; preserve_comments := false;
     indent_size := 2; root_key := [];
     exclude_keys := [lit "b"]; include_keys := [lit "a"; lit "b"];
     sort_keys := false; minify := false;
     config_data := [(lit "a", lit "1"); (lit "b", lit "x")]; comments := [] |}.

(** What filterKeys leaves under a key: what the store held under it,
    if the key is not excluded and, when keys to include are given, is one
    of them; nothing otherwise. *)
Definition kept_value (c : ConfigConverter) (k : str) : option str :=
  if existsb (fun key => str_eqb key k) (exclude_keys c) then None
  else
    match include_keys c with
    | [] => map_find k (config_data c)
    | keys =>
        if existsb (fun key => str_eqb key k) keys
        then map_find k (config_data c) else None
    end.
End Filtering.

Module Interrupted.
Import CStr Proc.

(** The first handled signal arrives before the evaluation of the loop
    condition numbered [k], none before. *)
Definition first_at (k : nat) (sigs : schedule) : Prop :=
  (forall i, (i < k)%nat -> sigs i = false) /\ sigs k = true.

Definition at_check (k : nat) : schedule := fun n => Nat.eqb n k.

(** The arguments of yes with single blanks between them. *)
Fixpoint joined (args : list str) : str :=
  match args with
  | [] => []
  | [a] => a
  | a :: rest => a ++ lit " " ++ joined rest
  end.
End Interrupted.

Module Rounds.
Import CStr Proc Ping.

(** The probes among the events, in order. *)
Definition probes (es : list event) : list (str * Z) :=
  flat_map (fun e => match e with Probe t s => [(t, s)] | Sleep _ => [] end) es.
Definition sleeps (es : list event) : list Z :=
  flat_map (fun e => match e with Probe _ _ => [] | Sleep ms => [ms] end) es.

(** Targets numbered from [s] on. *)
Fixpoint numbered (s : Z) (ts : list str) : list (str * Z) :=
  match ts with
  | [] => []
  | t :: ts' => (t, s) :: numbered (s + 1) ts'
  end.

(** [c] rounds over the targets. *)
Definition round_robin (c : nat) (ts : list str) : list str :=
  List.concat (repeat ts c).

(** What one round adds to the events, and what [c] rounds add. *)
Definition round_events (u : PingUtility) (s : Z) : list event :=
  flat_map (fun '(t, i) =>
              Probe t i :: (if negb (continuous u) && negb (flood_mode u)
                            then [Sleep (interval u)] else []))
           (numbered s (targets u)).
Fixpoint rounds_events (u : PingUtility) (s : Z) (c : nat) : list event :=
  match c with
  | O => []
  | S c' =>
      round_events u s
      ++ match c' with
         | O => []
         | _ => (if flood_mode u then [Sleep 10] else [])
                ++ rounds_events u (s + Z.of_nat (List.length (targets u))) c'
         end
  end.

(** ping -c 2 on two hosts, one probe every second. *)
Definition two_hosts : process :=
  {| ping := {| targets := [lit "a"; lit "b"]; count := 2; interval := 1000;
                continuous := false; flood_mode := false; running := true |};
     global_ping := true; events := [] |}.
End Rounds.

Module SignalNames.
Import CStr Cxx Kill.

(** The initialisers of the table, in order. *)
Definition signal_names : list str :=
  map lit
    ["HUP"; "INT"; "QUIT"; "ILL"; "TRAP"; "ABRT"; "BUS"; "FPE";
     "KILL"; "USR1"; "SEGV"; "USR2"; "PIPE"; "ALRM"; "TERM"; "STKFLT";
     "CHLD"; "CONT"; "STOP"; "TSTP"; "TTIN"; "TTOU"; "URG"; "XCPU";
     "XFSZ"; "VTALRM"; "PROF"; "WINCH"; "POLL"; "PWR"; "SYS"]%string.

Definition lower (s : str) : str := map tolower s.

(** The first index at which a list of keys holds [k]. *)
Fixpoint find_index (k : str) (keys : list str) : option nat :=
  match keys with
  | [] => None
  | k' :: keys' =>
      if str_eqb k k' then Some O
      else match find_index k keys' with
           | Some j => Some (S j)
           | None => None
           end
  end.

Definition starts_with_dash (s : str) : bool :=
  match s with
  | c :: _ => Ascii.eqb c "-"
  | [] => false
  end.
End SignalNames.

Module PermText.
Import CStr StatFormat.

(** The bits one character of the text stands for: [plain] for the
    letter r, w or x, [extra] for the set-id or sticky bit. *)
Definition char_bits (plain extra : Z) (c : ascii) : Z :=
  if Ascii.eqb c "-" then 0
  else if Ascii.eqb c "S" || Ascii.eqb c "T" then extra
  else if Ascii.eqb c "s" || Ascii.eqb c "t" then plain + extra
  else plain.

(** The twelve permission bits a text of ten characters stands for. *)
Definition perm_bits (perms : str) : Z :=
  match perms with
  | [_; ur; uw; ux; gr; gw; gx; or; ow; ox] =>
      char_bits S_IRUSR 0 ur + char_bits S_IWUSR 0 uw + char_bits S_IXUSR S_ISUID ux
      + char_bits S_IRGRP 0 gr + char_bits S_IWGRP 0 gw + char_bits S_IXGRP S_ISGID gx
      + char_bits S_IROTH 0 or + char_bits S_IWOTH 0 ow + char_bits S_IXOTH S_ISVTX ox
  | _ => -1
  end.
End PermText.

Module Copy.
Import CStr Proc Tee.

(** The bytes handed to write, call after call. *)
Definition written (calls : list syscall) : list byte :=
  flat_map (fun c => match c with
                     | SysWrite _ _ data _ _ => data
                     | _ => []
                     end) calls.

(** What a read can deliver: at least one byte, at most BUFFER_SIZE. *)
Definition deliverable (d : list byte) : bool :=
  (0 <? Z.of_nat (List.length d)) && (Z.of_nat (List.length d) <=? BUFFER_SIZE).

(** A standard input that delivers [ds], read after read, and is at its
    end then. *)
Definition delivers (ds : list (list byte)) (n : nat) : read_result :=
  ReadData (nth n ds []).

(** A world in which standard input delivers [ds] and then ends, every
    open gives a descriptor and every write is whole. *)
Definition healthy (ds : list (list byte)) : world :=
  {| malloc_ok := true;
     open_result := fun i => (Z.of_nat i + 3, 0);
     reads := delivers ds;
     write_result := fun _ _ n => (n, 0);
     write_signal := fun _ _ _ => None;
     close_result := fun _ => (0, 0) |}.
End Copy.

Module Outcome.
Import CStr ConfConvert.

(** A run that fails: status 1, a message, and nothing else. *)
Definition failed (r : outcome) : Prop :=
  exit_code r = 1 /\ cerr r <> [] /\ cout r = [] /\ written r = [].
Definition succeeded (r : outcome) : Prop :=
  exit_code r = 0 /\ cerr r = [].
End Outcome.

Module Packet.
Import Ping.

(** Conversion to uint8_t. *)
Definition u8 (z : Z) : byte :=
  match Byte.of_N (Z.to_N (z mod 256)) with
  | Some b => b
  | None => Byte.x00
  end.

Section Layout.
Variable big_endian : bool.

(** A uint16_t in memory, in host order. *)
Definition store16 (v : Z) : list byte :=
  if big_endian then [u8 (v / 256); u8 v] else [u8 v; u8 (v / 256)].

(** struct icmp of <netinet/ip_icmp.h>, 28 bytes: icmp_type, icmp_code,
    icmp_cksum, then icmp_id and icmp_seq (the two halves of the union
    icmp_hun), then the 20 bytes of the union icmp_dun. *)
Record icmp := {
  icmp_type : Z;
  icmp_code : Z;
  icmp_cksum : Z;
  icmp_id : Z;
  icmp_seq : Z;
  icmp_dun : list byte
}.

(** The object as sendto and calculateChecksum see it. *)
Definition bytes_of (h : icmp) : list byte :=
  [u8 (icmp_type h); u8 (icmp_code h)] ++ store16 (icmp_cksum h)
  ++ store16 (icmp_id h) ++ store16 (icmp_seq h) ++ icmp_dun h.

Definition ICMP_ECHO : Z := 8.
Definition u16 (z : Z) : Z := z mod 2 ^ 16.

(** The packet of pingHost: icmp_hdr is a local that is not initialised,
    so icmp_dun holds whatever was there, [dun]; the five assignments, and
    then the checksum over sizeof(icmp_hdr) bytes put in its field. *)
Definition pingHost_packet (pid packets_sent : Z) (dun : list byte) : icmp :=
  let icmp_hdr :=
    {| icmp_type := ICMP_ECHO; icmp_code := 0; icmp_cksum := 0;
       icmp_id := u16 pid; icmp_seq := u16 packets_sent; icmp_dun := dun |} in
  {| icmp_type := icmp_type icmp_hdr; icmp_code := icmp_code icmp_hdr;
     icmp_cksum := calculateChecksum big_endian (bytes_of icmp_hdr);
     icmp_id := icmp_id icmp_hdr; icmp_seq := icmp_seq icmp_hdr;
     icmp_dun := icmp_dun icmp_hdr |}.
End Layout.
End Packet.

Module IniDoc.
Import CStr Cxx Regex ConfConvert IniJson.

(** The lines of an INI text that parseINI tells apart: a comment, a
    section header, a key=value line, and a line of whitespace only. *)
Inductive item :=
| Comment (ind : str) (mark : ascii) (text : str)
| Header (ind name trail : str)
| Pair (ind k v : str)
| Blank (ws : str).

Definition line_of (it : item) : str :=
  match it with
  | Comment ind mark text => ind ++ [mark] ++ text
  | Header ind name trail => ind ++ lit "[" ++ name ++ lit "]" ++ trail
  | Pair ind k v => pair_line ind k v
  | Blank ws => ws
  end.

(** A section name: not empty, without a closing bracket. *)
Definition name_ok (name : str) : bool :=
  match name with
  | [] => false
  | _ => forallb (fun c => negb (Ascii.eqb c "]") && negb (Ascii.eqb c newline))
                 name
  end.

Definition item_ok (it : item) : bool :=
  match it with
  | Comment ind mark text =>
      indent_ok ind && (Ascii.eqb mark ";" || Ascii.eqb mark "#") && value_ok text
  | Header ind name trail => indent_ok ind && name_ok name && indent_ok trail
  | Pair ind k v => indent_ok ind && key_ok k && value_ok v
  | Blank ws => indent_ok ws
  end.

(** The text: every line with its newline. *)
Definition text_of (doc : list item) : str :=
  flat_map (fun it => line_of it ++ [newline]) doc.

(** The key a pair is stored under. *)
Definition full_key (section key : str) : str :=
  match section with
  | [] => key
  | _ => section ++ lit "." ++ key
  end.

(** What a line means for the section, the store and the comments. *)
Definition meaning (preserve : bool) (st : ini_state) (it : item) : ini_state :=
  match it with
  | Comment _ _ text =>
      {| current_section := current_section st; data := data st;
         cmts := if preserve then cmts st ++ [text] else cmts st |}
  | Header _ name _ =>
      {| current_section := name; data := data st; cmts := cmts st |}
  | Pair _ k v =>
      {| current_section := current_section st;
         data := map_set (full_key (current_section st) (strip k)) (strip v)
                         (data st);
         cmts := cmts st |}
  | Blank _ => st
  end.

Definition read_document (c : ConfigConverter) (doc : list item) : ini_state :=
  fold_left (meaning (preserve_comments c)) doc
            {| current_section := []; data := config_data c;
               cmts := comments c |}.

(** A comment, a pair before any header, a header, a pair under it, and a
    blank line. *)
Definition sample : list item :=
  [Comment [] ";" (lit " settings"); Pair [] (lit "name ") (lit " demo");
   Header [] (lit "db") []; Pair (lit "  ") (lit "host") (lit "localhost");
   Blank []].
End IniDoc.

Module Crlf.
Import CStr.

(** A text whose lines all end in carriage return and line feed. *)
Definition one_line (l : str) : bool :=
  forallb (fun c => negb (Ascii.eqb c newline)) l.
Definition crlf_text (ls : list str) : str :=
  flat_map (fun l => l ++ [cr; newline]) ls.
(** What is left of a line that ends in a carriage return: nothing, or
    something that ends in it. *)
Definition left_of_cr (s : str) : Prop := s = [] \/ exists l, s = l ++ [cr].

Definition sample : list str := [lit "[db]"; lit "host=localhost"].
End Crlf.

Module EnvRound.
Import CStr Cxx ConfConvert.

(** A key generateENV turns into an identifier: letters, digits,
    underscores and dots, not empty and not starting with a digit. *)
Definition name_char (c : ascii) : bool :=
  in_range 65 90 c || in_range 97 122 c || isdigit c
  || Ascii.eqb c "_" || Ascii.eqb c ".".
Definition name_key (k : str) : bool :=
  match k with
  | [] => false
  | c :: _ => negb (isdigit c) && forallb name_char k
  end.

(** A value on one line that does not start with a quote. *)
Definition plain_value (v : str) : bool :=
  forallb (fun c => negb (Ascii.eqb c newline) && negb (Ascii.eqb c cr)) v
  && match v with
     | c :: _ => negb (Ascii.eqb c dquote) && negb (Ascii.eqb c "'")
     | [] => true
     end.

Definition entry_ok (kv : str * str) : bool :=
  name_key (fst kv) && plain_value (snd kv).

(** The store after [config_data[env_key(key)] = value] for each entry. *)
Definition renamed (entries : smap) (d : smap) : smap :=
  fold_left (fun d kv => map_set (env_key (fst kv)) (snd kv) d) entries d.

(** The keys that generateENV writes as they are. *)
Definition shell_names (entries : smap) : bool :=
  forallb (fun kv => str_eqb (env_key (fst kv)) (fst kv)) entries.
(** The two character classes of env_pattern. *)
Definition env_first : Regex.atom :=
  Regex.ASet false [Regex.CRange "A" "Z"; Regex.CRange "a" "z"; Regex.CChar "_"].
Definition env_next : Regex.atom :=
  Regex.ASet false [Regex.CRange "A" "Z"; Regex.CRange "a" "z";
                    Regex.CRange "0" "9"; Regex.CChar "_"].

(** One character of a key, as generateENV writes it. *)
Definition env_char (ch : ascii) : ascii :=
  if Ascii.eqb (toupper ch) "." then "_"%char else toupper ch.

(** What generateENV writes after the equals sign. *)
Definition written_value (value : str) : str :=
  if found (find_char value " ") || found (find_char value tab)
     || found (find_char value "#") || found (find_char value "$")
  then [dquote] ++ value ++ [dquote]
  else value.

(** A store with a value that is written in quotes and one that is not. *)
Definition sample : ConfigConverter :=
  set_data [(lit "DB_HOST", lit "local host"); (lit "PORT", lit "8080")] []
           default_converter.
End EnvRound.

Module Levels.
Import CStr Tree.

(** The options without -L. *)
Definition unlimited (o : Options) : Options :=
  {| showHidden := showHidden o; showPermissions := showPermissions o;
     showFileSize := showFileSize o; colorOutput := colorOutput o;
     onlyDirs := onlyDirs o; onlyFiles := onlyFiles o; maxDepth := -1;
     indentChars := indentChars o; branchChars := branchChars o;
     lastBranchChars := lastBranchChars o; patterns := patterns o |}.

(** A path with everything more than [k] directories below it taken
    away. *)
Fixpoint prune (k : nat) (n : node) {struct k} : node :=
  match n with
  | Dir name a entries =>
      Dir name a (match k with
                  | O => []
                  | S k' => map (prune k') entries
                  end)
  | other => other
  end.

(** The same for what run is started on: the entries of the root are at
    depth 0. *)
Definition prune_world (k : nat) (w : world) : world :=
  {| rootPath := rootPath w;
     root := match root w with
             | Some (Dir name a entries) => Some (Dir name a (map (prune k) entries))
             | r => r
             end |}.

(** Two lists of calls with the same names that do the same at one
    depth. *)
Definition same_at (depth : Z) (p q : str * walker) : Prop :=
  fst p = fst q /\
  forall inner isLast st, snd p inner isLast depth st = snd q inner isLast depth st.

(** Three levels of directories with a file in each. *)
Definition plain_attrs : attrs :=
  {| is_symlink := false; owner_read := true; owner_write := true;
     owner_exec := false; size_text := None |}.
Definition deep : world :=
  {| rootPath := lit "/srv";
     root := Some (Dir (lit "srv") plain_attrs
                     [File (lit "a") plain_attrs;
                      Dir (lit "b") plain_attrs
                        [File (lit "c") plain_attrs;
                         Dir (lit "d") plain_attrs [File (lit "e") plain_attrs]]]) |}.
Definition level_1 : Options :=
  {| showHidden := false; showPermissions := false; showFileSize := false;
     colorOutput := false; onlyDirs := false; onlyFiles := false; maxDepth := 1;
     indentChars := lit "|   "; branchChars := lit "|-- ";
     lastBranchChars := lit "`-- "; patterns := [] |}.
End Levels.

Module Fields.
Import CStr Cxx IniJson.

(** A line of a WHOIS response that carries a field: the name up to the
    first colon, the value after it, and the carriage return that the
    servers end their lines with. *)
Definition field_line (k v : str) (crlf : bool) : str :=
  k ++ lit ":" ++ v ++ (if crlf then [cr] else []).

(** The name has no colon and does not mark a comment; the value is on the
    line; neither is blank. *)
Definition field_ok (k v : str) : bool :=
  forallb (fun c => negb (Ascii.eqb c ":") && negb (Ascii.eqb c newline)) k
  && match k with
     | c :: _ => negb (Ascii.eqb c "%") && negb (Ascii.eqb c "#")
     | [] => false
     end
  && forallb (fun c => negb (Ascii.eqb c newline) && negb (Ascii.eqb c cr)) v
  && match strip k with [] => false | _ => true end
  && match strip v with [] => false | _ => true end.

(** The carriage return at the end of a line is taken off. *)
Definition chomp (line : str) : str :=
  match rev line with
  | c :: r => if Ascii.eqb c cr then rev r else line
  | [] => line
  end.

(** A response: lines, each with its line feed. *)
Definition lines_text (ls : list str) : str :=
  flat_map (fun l => l ++ [newline]) ls.

Definition two_servers : list str :=
  [lit "% registry"; lit "Name Server: ns1.example.net" ++ [cr]].

Definition name_server : str := lit "Name Server".
Definition second_server : str := lit " ns2.example.net".
End Fields.

Module YamlRound.
Import CStr Cxx ConfConvert IniJson.

(** A key the YAML reader takes as it is: not empty, without a colon,
    not starting with whitespace or a hash, and without a blank or a tab
    at its end. *)
Definition yaml_key (k : str) : bool :=
  match k with
  | [] => false
  | c :: _ => negb (isspace c) && negb (Ascii.eqb c "#")
  end
  && forallb (fun c => negb (Ascii.eqb c ":") && negb (Ascii.eqb c newline)) k
  && str_eqb (strip k) k.

(** When generateYAML puts a value in double quotes. *)
Definition yaml_quoted (value : str) : bool :=
  found (find_char value ":") || found (find_char value "#")
  || found (find_char value "[") || found (find_char value "]")
  || (find_char value " " =? 0)
  || (find_char value " " =? size_t (size value - 1)).

(** What generateYAML writes after the colon and the blank. *)
Definition yaml_written (value : str) : str :=
  if yaml_quoted value then [dquote] ++ value ++ [dquote] else value.

(** A value on one line that, when the writer does not quote it, starts
    with neither whitespace nor a quote and ends with neither a blank nor
    a tab. *)
Definition yaml_value (v : str) : bool :=
  forallb (fun c => negb (Ascii.eqb c newline) && negb (Ascii.eqb c cr)) v
  && (yaml_quoted v
      || (str_eqb (strip v) v
          && match v with
             | c :: _ => negb (isspace c) && negb (Ascii.eqb c dquote)
                         && negb (Ascii.eqb c "'")
             | [] => true
             end)).

Definition entry_ok (kv : str * str) : bool :=
  yaml_key (fst kv) && yaml_value (snd kv).

(** The store after [config_data[key] = value] for each entry. *)
Definition stored (entries : smap) (d : smap) : smap :=
  fold_left (fun d kv => map_set (fst kv) (snd kv) d) entries d.

(** A value the writer quotes for its colon, one it quotes for the blank
    it starts with, and one it writes as it is. *)
Definition sample : ConfigConverter :=
  set_data [(lit "greeting", lit " hello"); (lit "port", lit "8080");
            (lit "url", lit "http://example.net")] []
           default_converter.
End YamlRound.

(** *** kill: main and the search of /proc *)

Module KillMain.
Import CStr Cxx Proc Kill.

(** struct Criteria; a null pointer is [None]. *)
Record Criteria := {
  signal : option str;
  exact_name : option str;
  contains_str : option str;
  username : option str;
  uid : Z;
  newest : Z;
  oldest : Z
}.

(** [Criteria crit = {0};] *)
Definition zero_criteria : Criteria :=
  {| signal := None; exact_name := None; contains_str := None;
     username := None; uid := 0; newest := 0; oldest := 0 |}.

Record ProcessInfo := {
  pid : Z;
  start_time : Z
}.

(** The three files of /proc/<pid> the program opens: cmdline, status
    and stat. *)
Inductive proc_file :=
| Cmdline
| Status
| Stat.

(** What readdir returns: whether d_type is DT_DIR, and d_name. *)
Record dirent := {
  is_dir : bool;
  d_name : str
}.

(** What the program gets from the system: getpwnam (the pw_uid of a
    user that exists), the entries of /proc (none when opendir fails),
    the bytes of a file of a process (none when fopen fails), what sscanf
    with the unsigned conversion reads, what the sscanf for the start time
    leaves in start_time, the errno kill fails with (none when it returns
    0), and strerror.  Nothing keeps the program's own process out of the
    list: [ends_sender] tells that kill(pid, sig) reaches the program itself
    with a signal whose action there is to end the process, so that the
    call does not return. *)
Record world := {
  getpwnam : str -> option Z;
  proc_entries : option (list dirent);
  proc_read : Z -> proc_file -> option str;
  scan_uid : str -> option Z;
  scan_start_time : str -> Z;
  sys_kill : Z -> Z -> option Z;
  ends_sender : Z -> Z -> bool;
  strerror : Z -> str
}.

(** The string an array of char holds: up to its first null character. *)
Definition NUL : ascii := "000".
Fixpoint c_str (buf : str) : str :=
  match buf with
  | [] => []
  | c :: buf' => if Ascii.eqb c NUL then [] else c :: c_str buf'
  end.

(** read_proc_file into a buffer of [size] bytes: fread takes at most
    size - 1 bytes and a null character is put after them.  [None] is the
    return of -1. *)
Definition read_proc_file (w : world) (p : Z) (filename : proc_file) (size : nat)
  : option str :=
  match proc_read w p filename with
  | None => None
  | Some bytes => Some (c_str (firstn (size - 1) bytes))
  end.

(** [strrchr(s, c) + 1]: what follows the last [c] of [s]; [None] when
    strrchr returns a null pointer. *)
Fixpoint after_last (c : ascii) (s : str) : option str :=
  match s with
  | [] => None
  | x :: s' =>
      match after_last c s' with
      | Some r => Some r
      | None => if Ascii.eqb x c then Some s' else None
      end
  end.

(** The test on the process name.  strtok with no delimiters returns the
    string itself, and a null pointer when the string is empty, which
    strrchr is then given: [None] is that undefined behaviour. *)
Definition name_matches (cmdline : str) (crit : Criteria) : option bool :=
  match exact_name crit with
  | None => Some true
  | Some wanted =>
      match cmdline with
      | [] => None
      | _ =>
          let name := match after_last "/" cmdline with
                      | Some r => r
                      | None => cmdline
                      end in
          Some (str_eqb name wanted)
      end
  end.

(** [crit->contains_str && !strstr(cmdline, crit->contains_str)] *)
Definition lacks_substring (cmdline : str) (crit : Criteria) : bool :=
  match contains_str crit with
  | None => false
  | Some s => str_find cmdline s =? npos
  end.

(** The test on the owner.  [None]: uid_line + 5 is past the end of the
    string, or uid is compared without sscanf having set it. *)
Definition user_matches (w : world) (p : Z) (crit : Criteria) : option bool :=
  match username crit with
  | None => Some true
  | Some _ =>
      match read_proc_file w p Status 4096 with
      | None => Some false
      | Some status =>
          let pos := str_find status (lit "Uid:") in
          if pos =? npos then Some false
          else
            let uid_line := skipn (Z.to_nat pos) status in
            if (List.length uid_line <? 5)%nat then None
            else
              match scan_uid w (skipn 5 uid_line) with
              | None => None
              | Some u => Some (u =? uid crit)
              end
      end
  end.

(** [sscanf(strrchr(stat, ')') + 2, ..., &start_time)]; [None] when
    strrchr returns a null pointer or the sum points past the end of the
    string. *)
Definition read_start_time (w : world) (stat : str) : option Z :=
  match after_last ")" stat with
  | None => None
  | Some [] => None
  | Some (_ :: text) => Some (scan_start_time w text)
  end.

(** get_process_info: [Some None] is the return of 0, [Some (Some info)]
    the return of 1 with [*info] filled, [None] undefined behaviour. *)
Definition get_process_info (w : world) (p : Z) (crit : Criteria)
  : option (option ProcessInfo) :=
  match read_proc_file w p Cmdline 4096 with
  | None => Some None
  | Some cmdline =>
      match name_matches cmdline crit with
      | None => None
      | Some false => Some None
      | Some true =>
          if lacks_substring cmdline crit then Some None
          else
            match user_matches w p crit with
            | None => None
            | Some false => Some None
            | Some true =>
                match read_proc_file w p Stat 1024 with
                | None => Some None
                | Some stat =>
                    match read_start_time w stat with
                    | None => None
                    | Some t => Some (Some {| pid := p; start_time := t |})
                    end
                end
            end
      end
  end.

(** atoi; [None] where the value does not fit an int. *)
Definition atoi (s : str) : option Z :=
  match scan_integer s with
  | None => Some 0
  | Some (v, _) => if (INT_MIN <=? v) && (v <=? INT_MAX) then Some v else None
  end.

(** The readdir loop of find_processes; realloc is taken to succeed. *)
Fixpoint scan_entries (w : world) (crit : Criteria) (entries : list dirent)
         (found : list ProcessInfo) : option (list ProcessInfo) :=
  match entries with
  | [] => Some found
  | entry :: entries' =>
      if negb (is_dir entry) then scan_entries w crit entries' found
      else
        match atoi (d_name entry) with
        | None => None
        | Some p =>
            if p <=? 0 then scan_entries w crit entries' found
            else
              match get_process_info w p crit with
              | None => None
              | Some None => scan_entries w crit entries' found
              | Some (Some info) => scan_entries w crit entries' (found ++ [info])
              end
        end
  end.

(** find_processes: [Some None] is the return of -1. *)
Definition find_processes (w : world) (crit : Criteria)
  : option (option (list ProcessInfo)) :=
  match proc_entries w with
  | None => Some None
  | Some entries =>
      match scan_entries w crit entries [] with
      | None => None
      | Some found => Some (Some found)
      end
  end.

(** The options getopt hands to main, in order; for an option it does
    not know, with the message getopt itself writes. *)
Inductive option_t :=
| OptL
| OptS (optarg : str)
| OptN (optarg : str)
| OptO (optarg : str)
| OptE (optarg : str)
| OptU (optarg : str)
| OptC (optarg : str)
| OptUnknown (message : str).

(** The locals of main that the option loop sets. *)
Record locals := {
  crit : Criteria;
  list_mode : bool;
  signum : str
}.

Record outcome := {
  ending : Proc.ending;
  stderr : str;
  kills : list (Z * Z)
}.

Definition failure (message : str) : outcome :=
  {| ending := Exit EXIT_FAILURE; stderr := message; kills := [] |}.
Definition undefined : outcome :=
  {| ending := Undefined; stderr := []; kills := [] |}.

Definition set_exact_name (s : str) (c : Criteria) : Criteria :=
  {| signal := signal c; exact_name := Some s; contains_str := contains_str c;
     username := username c; uid := uid c; newest := newest c;
     oldest := oldest c |}.
Definition set_contains_str (s : str) (c : Criteria) : Criteria :=
  {| signal := signal c; exact_name := exact_name c; contains_str := Some s;
     username := username c; uid := uid c; newest := newest c;
     oldest := oldest c |}.
Definition set_uid (u : Z) (c : Criteria) : Criteria :=
  {| signal := signal c; exact_name := exact_name c;
     contains_str := contains_str c; username := username c; uid := u;
     newest := newest c; oldest := oldest c |}.

(** The getopt loop. *)
Fixpoint parse_options (w : world) (os : list option_t) (l : locals)
  : locals + outcome :=
  match os with
  | [] => inl l
  | OptL :: os' =>
      parse_options w os'
        {| crit := crit l; list_mode := true; signum := signum l |}
  | OptS optarg :: os' =>
      parse_options w os'
        {| crit := crit l; list_mode := list_mode l; signum := optarg |}
  | OptN optarg :: os' | OptE optarg :: os' =>
      parse_options w os'
        {| crit := set_exact_name optarg (crit l); list_mode := list_mode l;
           signum := signum l |}
  | OptO optarg :: os' | OptC optarg :: os' =>
      parse_options w os'
        {| crit := set_contains_str optarg (crit l); list_mode := list_mode l;
           signum := signum l |}
  | OptU optarg :: os' =>
      match getpwnam w optarg with
      | None => inr (failure (lit "Unknown user: " ++ optarg ++ [newline]))
      | Some u =>
          parse_options w os'
            {| crit := set_uid u (crit l); list_mode := list_mode l;
               signum := signum l |}
      end
  | OptUnknown message :: _ => inr (failure message)
  end.

(** The block under [if (crit.newest || crit.oldest)]; [None]: it reads
    processes[0] of an empty list. *)
Definition time_filter (c : Criteria) (processes : list ProcessInfo)
  : option (list ProcessInfo) :=
  if negb (newest c =? 0) || negb (oldest c =? 0) then
    match processes with
    | [] => None
    | first :: others =>
        let selected :=
          fold_left (fun selected p =>
                       if (negb (newest c =? 0)
                           && (start_time selected <? start_time p))
                          || (negb (oldest c =? 0)
                              && (start_time p <? start_time selected))
                       then p else selected) others first in
        Some (selected :: others)
    end
  else Some processes.

(** How many of them the sending loop visits: [count]. *)
Definition visited (c : Criteria) (processes : list ProcessInfo)
  : list ProcessInfo :=
  if negb (newest c =? 0) || negb (oldest c =? 0) then firstn 1 processes
  else processes.

(** The loop that sends the signal; it goes no further than a call of
    kill that ends the program itself. *)
Fixpoint send (w : world) (sig : Z) (processes : list ProcessInfo)
         (out : outcome) : outcome :=
  match processes with
  | [] => out
  | p :: processes' =>
      if ends_sender w (pid p) sig then
        {| ending := Signaled sig; stderr := stderr out;
           kills := kills out ++ [(pid p, sig)] |}
      else
        let out :=
          {| ending := ending out;
             stderr :=
               match sys_kill w (pid p) sig with
               | None => stderr out
               | Some errno =>
                   stderr out ++ lit "Error sending signal to PID "
                   ++ dec_int (pid p) ++ lit ": " ++ strerror w errno
                   ++ [newline]
               end;
             kills := kills out ++ [(pid p, sig)] |} in
        send w sig processes' out
  end.

(** main.  With -l it calls list_signals, which gives printf the null
    pointer that ends the table: undefined behaviour. *)
Definition main (w : world) (os : list option_t) : outcome :=
  match parse_options w os
          {| crit := zero_criteria; list_mode := false; signum := lit "TERM" |} with
  | inr out => out
  | inl l =>
      if list_mode l then undefined
      else
        match parse_signal (signum l) with
        | None => undefined
        | Some sig =>
            if sig <=? 0
            then failure (lit "Invalid signal: " ++ signum l ++ [newline])
            else
              match find_processes w (crit l) with
              | None => undefined
              | Some None => failure (lit "Error searching processes" ++ [newline])
              | Some (Some processes) =>
                  match time_filter (crit l) processes with
                  | None => undefined
                  | Some processes =>
                      send w sig (visited (crit l) processes)
                           {| ending := Exit 0; stderr := []; kills := [] |}
                  end
              end
        end
  end.
End KillMain.

Module KillFacts.
Import CStr Cxx Proc Kill KillMain.

(** The options without every -u. *)
Definition without_u (os : list option_t) : list option_t :=
  filter (fun o => match o with OptU _ => false | _ => true end) os.

(** No option that selects by name or by command line, and no -l. *)
Definition no_filter (os : list option_t) : bool :=
  forallb (fun o => match o with OptS _ | OptU _ => true | _ => false end) os.

(** The argument of the last -s, TERM when there is none. *)
Definition signum_of (os : list option_t) : str :=
  fold_left (fun s o => match o with OptS optarg => optarg | _ => s end)
            os (lit "TERM").

Definition opened {A} (o : option A) : bool :=
  match o with Some _ => true | None => false end.

(** The processes of /proc whose two files can be read: the entries that
    are directories with a positive number for a name. *)
Definition readable_pids (w : world) (entries : list dirent) : list Z :=
  flat_map (fun entry =>
              if is_dir entry then
                match atoi (d_name entry) with
                | Some p =>
                    if (0 <? p) && opened (proc_read w p Cmdline)
                       && opened (proc_read w p Stat)
                    then [p] else []
                | None => []
                end
              else []) entries.

(** The rest of main, after the options. *)
Definition after_options (w : world) (l : locals) : outcome :=
  if list_mode l then undefined
  else
    match parse_signal (signum l) with
    | None => undefined
    | Some sig =>
        if sig <=? 0
        then failure (lit "Invalid signal: " ++ signum l ++ [newline])
        else
          match find_processes w (crit l) with
          | None => undefined
          | Some None => failure (lit "Error searching processes" ++ [newline])
          | Some (Some processes) =>
              match time_filter (crit l) processes with
              | None => undefined
              | Some processes =>
                  send w sig (visited (crit l) processes)
                       {| ending := Exit 0; stderr := []; kills := [] |}
              end
          end
    end.

(** A system with init, the program itself, and two entries of /proc
    that are no processes. *)
Definition busy : world :=
  {| getpwnam := fun _ => Some 1000;
     proc_entries :=
       Some [ {| is_dir := true; d_name := lit "1" |};
              {| is_dir := true; d_name := lit "self" |};
              {| is_dir := false; d_name := lit "uptime" |};
              {| is_dir := true; d_name := lit "42" |} ];
     proc_read := fun _ f =>
       match f with
       | Cmdline => Some (lit "/sbin/init")
       | Status => Some (lit "Uid:" ++ [tab] ++ lit "0")
       | Stat => Some (lit "1 (init) S 0 1 1")
       end;
     scan_uid := fun _ => Some 0;
     scan_start_time := fun _ => 0;
     sys_kill := fun _ _ => None;
     ends_sender := fun _ _ => false;
     strerror := fun _ => lit "Operation not permitted" |}.
End KillFacts.

(* ================================================================== *)
(** * Part III: the properties *)
(* ================================================================== *)

(** ** ping *)

Section PingProofs.
Import Ping Rfc1071.
Variable big_endian : bool.

Lemma byte_val_range b : 0 <= byte_val b < 256.
Proof.
  unfold byte_val. pose proof (Byte.to_N_bounded b). lia.
Qed.

Lemma load16_range b0 b1 : 0 <= load16 big_endian b0 b1 < 65536.
Proof.
  pose proof (byte_val_range b0). pose proof (byte_val_range b1).
  unfold load16. destruct big_endian; lia.
Qed.

Lemma list_pair_ind (A : Type) (P : list A -> Prop) :
  P [] -> (forall a, P [a]) ->
  (forall a b l, P l -> P (a :: b :: l)) -> forall l, P l.
Proof.
  intros H0 H1 H2.
  assert (H : forall l, P l /\ forall a, P (a :: l)).
  { induction l as [|x l [IH1 IH2]]; split; auto. }
  intro l. apply H.
Qed.

Definition total (ws : list Z) : Z := fold_right Z.add 0 ws.

Lemma words16_range data :
  Forall (fun w => 0 <= w < 65536) (words16 big_endian data).
Proof.
  induction data as [|a|a b l IH] using list_pair_ind; simpl.
  - constructor.
  - constructor; [|constructor]. pose proof (byte_val_range a). lia.
  - constructor; [apply load16_range | exact IH].
Qed.

Lemma words16_total_bound data :
  0 <= total (words16 big_endian data) /\
  exists q r, Z.of_nat (List.length data) = 2 * q + r /\ 0 <= q /\
    (r = 0 \/ r = 1) /\
    total (words16 big_endian data) <= 65535 * q + 255 * r.
Proof.
  induction data as [|a|a b l IH] using list_pair_ind.
  - split; [cbn; lia|]. exists 0, 0. cbn. lia.
  - pose proof (byte_val_range a). split; [cbn; lia|].
    exists 0, 1. cbn [words16 total fold_right List.length]. lia.
  - pose proof (load16_range a b).
    change (total (words16 big_endian (a :: b :: l)))
      with (load16 big_endian a b + total (words16 big_endian l)).
    change (List.length (a :: b :: l)) with (S (S (List.length l))).
    destruct IH as [IH0 [q [r [E [Hq [Hr Hb]]]]]].
    split; [lia|]. exists (q + 1), r. lia.
Qed.

(** As long as the 32-bit accumulator does not wrap, the first loop
    leaves the plain sum of the words in it. *)
Lemma sum_loop_exact data : forall sum,
  0 <= sum -> sum + total (words16 big_endian data) < 2 ^ 32 ->
  sum_loop big_endian data sum = sum + total (words16 big_endian data).
Proof.
  induction data as [|a|a b l IH] using list_pair_ind; intros sum Hs Hb.
  - simpl. lia.
  - pose proof (byte_val_range a). simpl in *. unfold u32.
    rewrite Z.mod_small; lia.
  - pose proof (load16_range a b).
    pose proof (words16_total_bound l) as [Ht _].
    change (total (words16 big_endian (a :: b :: l)))
      with (load16 big_endian a b + total (words16 big_endian l)) in *.
    change (sum_loop big_endian (a :: b :: l) sum)
      with (sum_loop big_endian l (u32 (sum + load16 big_endian a b))).
    unfold u32. rewrite Z.mod_small by lia. rewrite IH; lia.
Qed.

Lemma fold_step_eqs s :
  0 <= s ->
  Z.shiftr s 16 = s / 65536 /\ Z.land s 0xFFFF = s mod 65536.
Proof.
  intros Hs. split.
  - rewrite Z.shiftr_div_pow2 by lia. reflexivity.
  - change 0xFFFF with (Z.ones 16). rewrite Z.land_ones by lia. reflexivity.
Qed.

(** The folding loop stops within its fuel (its result has no bits above
    bit 15), takes off a multiple of 0xFFFF, and keeps a non-zero sum
    non-zero. *)
Lemma fold_loop_spec fuel s :
  (2 <= fuel)%nat -> 0 <= s < 2 ^ 32 ->
  exists k, 0 <= k /\ fold_loop fuel s = s - 65535 * k /\
    0 <= fold_loop fuel s < 65536 /\
    (0 < s -> 0 < fold_loop fuel s).
Proof.
  intros Hf Hs.
  destruct fuel as [|[|fuel]]; try lia.
  cbn [fold_loop].
  destruct (fold_step_eqs s) as [E1 E2]; [lia|]. rewrite E1, E2.
  destruct (Z.eqb_spec (s / 65536) 0) as [Hq|Hq].
  - exists 0. assert (s < 65536) by (apply Z.div_small_iff in Hq; lia). lia.
  - set (s1 := u32 (s mod 65536 + s / 65536)).
    assert (Hs1 : s1 = s mod 65536 + s / 65536).
    { unfold s1, u32. apply Z.mod_small.
      pose proof (Z.mod_pos_bound s 65536).
      assert (s / 65536 < 65536) by (apply Z.div_lt_upper_bound; lia).
      assert (0 <= s / 65536) by (apply Z.div_pos; lia). lia. }
    assert (Hq1 : 1 <= s / 65536).
    { assert (0 <= s / 65536) by (apply Z.div_pos; lia). lia. }
    assert (Hq2 : s / 65536 < 65536) by (apply Z.div_lt_upper_bound; lia).
    pose proof (Z.mod_pos_bound s 65536 ltac:(lia)) as Hm.
    pose proof (Z.div_mod s 65536 ltac:(lia)) as Hdm.
    destruct (fold_step_eqs s1) as [F1 F2]; [lia|]. rewrite F1, F2.
    destruct (Z.eqb_spec (s1 / 65536) 0) as [Hr|Hr].
    + exists (s / 65536).
      assert (s1 < 65536) by (apply Z.div_small_iff in Hr; lia). lia.
    + assert (Hs1b : 65536 <= s1 < 131072).
      { split; [|lia]. destruct (Z_lt_le_dec s1 65536) as [Hlt|]; [|lia].
        exfalso. apply Hr. apply Z.div_small. lia. }
      assert (Hd : s1 / 65536 = 1).
      { symmetry. apply Z.div_unique with (r := s1 - 65536); lia. }
      assert (Hmm : s1 mod 65536 = s1 - 65536).
      { symmetry. apply Z.mod_unique with (q := 1); lia. }
      set (s2 := u32 (s1 mod 65536 + s1 / 65536)).
      assert (Hs2 : s2 = s1 - 65535).
      { unfold s2, u32. rewrite Hd, Hmm. rewrite Z.mod_small; lia. }
      assert (Hfin : fold_loop fuel s2 = s2).
      { destruct fuel; [reflexivity|]. cbn [fold_loop].
        destruct (fold_step_eqs s2) as [G1 _]; [lia|]. rewrite G1.
        rewrite Z.div_small by lia. reflexivity. }
      rewrite Hfin. exists (s / 65536 + 1). lia.
Qed.

Lemma oc_add16_spec a w :
  0 <= a < 65536 -> 0 <= w < 65536 ->
  0 <= oc_add16 a w < 65536 /\
  (oc_add16 a w = a + w \/ oc_add16 a w = a + w - 65535) /\
  (0 < a + w -> 0 < oc_add16 a w).
Proof.
  intros Ha Hw. unfold oc_add16. cbv zeta.
  change (2 ^ 16) with 65536.
  destruct (Z.ltb_spec (a + w) 65536); lia.
Qed.

Lemma total_nonneg ws :
  Forall (fun w => 0 <= w < 65536) ws -> 0 <= total ws.
Proof. induction 1; simpl; lia. Qed.

Lemma oc_fold_spec ws : forall acc,
  Forall (fun w => 0 <= w < 65536) ws -> 0 <= acc < 65536 ->
  exists k, 0 <= k /\ fold_left oc_add16 ws acc = acc + total ws - 65535 * k /\
    0 <= fold_left oc_add16 ws acc < 65536 /\
    (0 < acc + total ws -> 0 < fold_left oc_add16 ws acc).
Proof.
  induction ws as [|w ws IH]; intros acc Hws Hacc.
  - exists 0. simpl. lia.
  - inversion Hws as [|? ? Hw Hws']; subst.
    pose proof (total_nonneg ws Hws') as Hws0.
    destruct (oc_add16_spec acc w Hacc Hw) as [Hr [He Hp]].
    cbn [fold_left total fold_right].
    change (fold_right Z.add 0 ws) with (total ws).
    destruct (IH (oc_add16 acc w) Hws' Hr) as [k [Hk [E [B P]]]].
    destruct He as [He|He].
    + exists k. lia.
    + exists (k + 1). lia.
Qed.

(** C5, as amended.  For every buffer of at most 131074 bytes (65537
    sixteen-bit words, the most a 32-bit accumulator can add up without
    wrapping), in either byte order, calculateChecksum returns the bitwise
    complement of the end-around-carry ones'-complement sum of the
    buffer's 16-bit words, a trailing odd byte counting as a single
    byte. *)
Theorem calculateChecksum_is_rfc1071 data :
  Z.of_nat (List.length data) <= 131074 ->
  calculateChecksum big_endian data = rfc1071_checksum big_endian data.
Proof.
  intros Hlen. unfold calculateChecksum, rfc1071_checksum.
  pose proof (words16_total_bound data) as [Ht0 [q [r [E0 [Hq [Hr Htb]]]]]].
  assert (Hlt : total (words16 big_endian data) < 2 ^ 32).
  { change (2 ^ 32) with 4294967296. destruct Hr; subst r; lia. }
  rewrite sum_loop_exact by lia. rewrite Z.add_0_l.
  destruct (fold_loop_spec 32 (total (words16 big_endian data))
              ltac:(lia) ltac:(lia)) as [k [Hk [E [B P]]]].
  destruct (oc_fold_spec (words16 big_endian data) 0 (words16_range data)
              ltac:(lia)) as [k' [Hk' [E' [B' P']]]].
  f_equal. f_equal.
  assert (k = k' \/ k + 1 <= k' \/ k' + 1 <= k) as [Hc|[Hc|Hc]] by lia; lia.
Qed.
End PingProofs.

(** An ICMP echo header of the kind pingHost builds: type 8, code 0,
    checksum 0, id 0x1234, sequence 1. *)
Definition echo_header : list byte :=
  [Byte.x08; Byte.x00; Byte.x00; Byte.x00; Byte.x34; Byte.x12; Byte.x01; Byte.x00].

Lemma calculateChecksum_is_rfc1071_witness :
  Z.of_nat (List.length echo_header) <= 131074 /\
  Ping.calculateChecksum false echo_header
  = Rfc1071.rfc1071_checksum false echo_header.
Proof.
  split.
  - simpl. lia.
  - apply (calculateChecksum_is_rfc1071 false echo_header). simpl. lia.
Defined.

(** 65538 words of 0xFFFF: the 32-bit accumulator wraps once. *)
Definition wrapping_buffer : list byte := repeat Byte.xff (Z.to_nat 131076).

(** C5 as stated fails on a long buffer: the ones'-complement sum of 65538
    words 0xFFFF is 0xFFFF, whose complement is 0, and the code returns 1. *)
Lemma calculateChecksum_wraps :
  Ping.calculateChecksum false wrapping_buffer = 1 /\
  Rfc1071.rfc1071_checksum false wrapping_buffer = 0 /\
  Ping.calculateChecksum false wrapping_buffer
  <> Rfc1071.rfc1071_checksum false wrapping_buffer.
Proof.
  assert (H1 : Ping.calculateChecksum false wrapping_buffer = 1)
    by (vm_compute; reflexivity).
  assert (H2 : Rfc1071.rfc1071_checksum false wrapping_buffer = 0)
    by (vm_compute; reflexivity).
  split; [exact H1|]. split; [exact H2|].
  rewrite H1, H2. discriminate.
Qed.

(** ** The regex matcher *)

Section RegexFacts.
Import CStr Regex.
Variable icase : bool.

Fixpoint first_some {A B} (f : A -> option B) (l : list A) : option B :=
  match l with
  | [] => None
  | x :: l' => match f x with Some y => Some y | None => first_some f l' end
  end.

Lemma find_flat_map {A B} (p : B -> bool) (f : A -> list B) l :
  find p (flat_map f l) = first_some (fun x => find p (f x)) l.
Proof.
  induction l as [|x l IH]; simpl; [reflexivity|].
  rewrite <- IH. induction (f x) as [|y ys IHy]; simpl; [reflexivity|].
  destruct (p y); [reflexivity|exact IHy].
Qed.

Definition full (r : regex) (st : mstate) : option mstate :=
  find at_end (m icase r st).

Lemma full_seq r1 r2 st :
  full (Seq r1 r2) st = first_some (full r2) (m icase r1 st).
Proof. unfold full. simpl. apply find_flat_map. Qed.

Lemma full_seq_head r1 r2 st st1 tl res :
  m icase r1 st = st1 :: tl -> full r2 st1 = Some res ->
  full (Seq r1 r2) st = Some res.
Proof. intros H1 H2. rewrite full_seq, H1. simpl. rewrite H2. reflexivity. Qed.

Lemma full_seq_none r1 r2 st :
  (forall st1, In st1 (m icase r1 st) -> m icase r2 st1 = []) ->
  full (Seq r1 r2) st = None.
Proof.
  intros H. rewrite full_seq.
  induction (m icase r1 st) as [|x l IH]; simpl; [reflexivity|].
  unfold full at 1. rewrite (H x) by (left; reflexivity). simpl.
  apply IH. intros st1 Hin. apply H. right. exact Hin.
Qed.

Definition stops_at (a : atom) (rest : str) : Prop :=
  match rest with [] => True | c :: _ => atom_match icase a c = false end.

Lemma rep_states_greedy a xs : forall n pre rest,
  forallb (atom_match icase a) xs = true -> stops_at a rest ->
  exists tl, rep_states icase a None n pre (xs ++ rest)
             = (n + List.length xs, (rev xs ++ pre, rest))%nat :: tl.
Proof.
  induction xs as [|x xs IH]; intros n pre rest Hxs Hrest.
  - simpl. rewrite Nat.add_0_r. destruct rest as [|c rest']; simpl.
    + eexists; reflexivity.
    + simpl in Hrest. rewrite Hrest. simpl. eexists; reflexivity.
  - simpl in Hxs. apply andb_true_iff in Hxs as [Hx Hxs].
    simpl. rewrite Hx. simpl.
    destruct (IH (S n) (x :: pre) rest Hxs Hrest) as [tl Htl].
    rewrite Htl. rewrite <- app_assoc. simpl.
    replace (n + S (List.length xs))%nat with (S n + List.length xs)%nat by lia.
    eexists; reflexivity.
Qed.

(* head of m (Rep a min None) *)
Lemma m_rep_greedy a mn st xs rest' :
  rest st = xs ++ rest' ->
  forallb (atom_match icase a) xs = true -> stops_at a rest' ->
  (mn <= List.length xs)%nat ->
  exists tl, m icase (Rep a mn None) st
             = MState (rev xs ++ pre st) rest' (caps st) :: tl.
Proof.
  intros Hr Hxs Hstop Hmin. simpl. rewrite Hr.
  destruct (rep_states_greedy a xs 0 (pre st) rest' Hxs Hstop) as [tl Htl].
  rewrite Htl. simpl.
  destruct (Nat.leb_spec mn (List.length xs)); [|lia].
  simpl. eexists; reflexivity.
Qed.

Lemma captured_app st xs q cs :
  captured st (MState (rev xs ++ pre st) q cs) = xs.
Proof.
  unfold captured. simpl. rewrite length_app, length_rev.
  replace (List.length xs + List.length (pre st) - List.length (pre st))%nat
    with (List.length (rev xs)) by (rewrite length_rev; lia).
  rewrite firstn_app, firstn_all, Nat.sub_diag. simpl.
  rewrite app_nil_r. apply rev_involutive.
Qed.

Lemma m_group_rep_greedy i a mn st xs rest' :
  rest st = xs ++ rest' ->
  forallb (atom_match icase a) xs = true -> stops_at a rest' ->
  (mn <= List.length xs)%nat ->
  exists tl, m icase (Group i (Rep a mn None)) st
             = MState (rev xs ++ pre st) rest' ((i, xs) :: caps st) :: tl.
Proof.
  intros Hr Hxs Hstop Hmin.
  destruct (m_rep_greedy a mn st xs rest' Hr Hxs Hstop Hmin) as [tl Htl].
  change (m icase (Group i (Rep a mn None)) st)
    with (map (fun st' => MState (pre st') (rest st')
                            ((i, captured st st') :: caps st'))
              (m icase (Rep a mn None) st)).
  rewrite Htl. simpl. rewrite captured_app. eexists; reflexivity.
Qed.

(* every way a repetition of [a] can stop before [ys] leaves in front a
   character of [xs] or the head of [ys] *)
Lemma rep_states_heads a (bad : ascii -> Prop) xs : forall mx n pre y ys,
  Forall bad xs -> bad y -> atom_match icase a y = false ->
  forall k p q, In (k, (p, q)) (rep_states icase a mx n pre (xs ++ y :: ys)) ->
  exists c q', q = c :: q' /\ bad c.
Proof.
  induction xs as [|x xs IH]; intros mx n pre y ys Hxs Hy Hny k p q Hin.
  - simpl in Hin. rewrite Hny in Hin. simpl in Hin.
    destruct Hin as [Heq|[]]. inversion Heq; subst. eauto.
  - inversion Hxs as [|? ? Hx Hxs']; subst.
    simpl in Hin.
    destruct (atom_match icase a x && room mx).
    + apply in_app_or in Hin as [Hin|Hin].
      * exact (IH (less mx) (S n) (x :: pre) y ys Hxs' Hy Hny k p q Hin).
      * destruct Hin as [Heq|[]]. inversion Heq; subst. eauto.
    + destruct Hin as [Heq|[]]. inversion Heq; subst. eauto.
Qed.

Lemma m_rep_then_atom_nil a b mn mx st xs y ys :
  rest st = xs ++ y :: ys ->
  Forall (fun c => atom_match icase b c = false) xs ->
  atom_match icase b y = false -> atom_match icase a y = false ->
  forall st1, In st1 (m icase (Rep a mn mx) st) ->
  forall r, m icase (Seq (Atom b) r) st1 = [].
Proof.
  intros Hr Hxs Hy Hay st1 Hin r.
  simpl in Hin. rewrite Hr in Hin.
  apply in_map_iff in Hin as [[k [p q]] [Heq Hin]].
  apply filter_In in Hin as [Hin _].
  destruct (rep_states_heads a (fun c => atom_match icase b c = false)
              xs mx 0%nat (pre st) y ys Hxs Hy Hay k p q Hin)
    as [c [q' [Hq Hc]]].
  subst st1 q. simpl. rewrite Hc. reflexivity.
Qed.
End RegexFacts.

(** ** conf-convert *)

Section IniFacts.
Import CStr Cxx Regex ConfConvert IniJson.

Lemma size_nonneg s : 0 <= size s.
Proof. unfold size. lia. Qed.

Lemma mem_blanks c : mem c blanks = is_blank c.
Proof. unfold mem, blanks, is_blank. simpl. rewrite orb_false_r. reflexivity. Qed.

Lemma npos_val : npos = 18446744073709551615.
Proof. reflexivity. Qed.

Lemma ffno_spec s : forall i,
  (lstrip s = [] /\ find_first_not_of_from s blanks i = npos) \/
  (exists j, (j < List.length s)%nat /\ lstrip s = skipn j s /\
             find_first_not_of_from s blanks i = i + Z.of_nat j).
Proof.
  induction s as [|c s IH]; intros i; cbn [find_first_not_of_from lstrip].
  - left. auto.
  - rewrite mem_blanks. destruct (is_blank c).
    + destruct (IH (i + 1)) as [[H1 H2]|[j [Hj [H1 H2]]]].
      * left. auto.
      * right. exists (S j). simpl. split; [lia|]. split; [exact H1|].
        rewrite H2. lia.
    + right. exists 0%nat. simpl. split; [lia|]. split; [reflexivity|lia].
Qed.

Lemma erase_first s :
  size s < 2 ^ 64 ->
  erase s 0 (find_first_not_of s blanks) = Some (lstrip s).
Proof.
  intros Hs. unfold erase, find_first_not_of.
  pose proof (size_nonneg s) as H0.
  destruct (Z.ltb_spec (size s) 0); [lia|].
  destruct (ffno_spec s 0) as [[H1 H2]|[j [Hj [H1 H2]]]].
  - rewrite H2, H1. rewrite Z.sub_0_r.
    rewrite Z.min_r by (rewrite npos_val; change (2 ^ 64) with 18446744073709551616 in Hs; lia).
    simpl. unfold size. rewrite Nat2Z.id. rewrite skipn_all. reflexivity.
  - rewrite H2, H1. rewrite Z.sub_0_r.
    rewrite Z.min_l by (unfold size; lia).
    simpl. rewrite Nat2Z.id. reflexivity.
Qed.

Lemma rstrip_firstn c s j :
  rstrip s = firstn (S j) s -> (j < List.length s)%nat ->
  rstrip (c :: s) = firstn (S (S j)) (c :: s).
Proof.
  intros H Hj. simpl rstrip. rewrite H.
  destruct s as [|d s']; [simpl in Hj; lia|]. reflexivity.
Qed.

Lemma flno_spec s : forall i,
  0 <= i -> i + size s < 2 ^ 64 ->
  (rstrip s = [] /\ find_last_not_of_from s blanks i = npos) \/
  (exists j, (j < List.length s)%nat /\ rstrip s = firstn (S j) s /\
             find_last_not_of_from s blanks i = i + Z.of_nat j).
Proof.
  induction s as [|c s IH]; intros i Hi Hb.
  - left. auto.
  - assert (Hb' : (i + 1) + size s < 2 ^ 64).
    { unfold size in *. simpl List.length in Hb. lia. }
    cbn [find_last_not_of_from]. rewrite mem_blanks.
    destruct (IH (i + 1) ltac:(lia) Hb') as [[H1 H2]|[j [Hj [H1 H2]]]].
    + rewrite H2, Z.eqb_refl. simpl rstrip. rewrite H1.
      destruct (is_blank c).
      * left. auto.
      * right. exists 0%nat. simpl. repeat split; try lia.
    + rewrite H2.
      destruct (Z.eqb_spec (i + 1 + Z.of_nat j) npos) as [E|E].
      * exfalso. rewrite npos_val in E. unfold size in Hb'.
        change (2 ^ 64) with 18446744073709551616 in Hb'. lia.
      * right. exists (S j). repeat split.
        -- simpl. lia.
        -- apply rstrip_firstn; assumption.
        -- lia.
Qed.

Lemma erase_last s :
  size s < 2 ^ 64 ->
  erase s (size_t (find_last_not_of s blanks + 1)) npos = Some (rstrip s).
Proof.
  intros Hs. unfold find_last_not_of.
  pose proof (size_nonneg s) as H0.
  change (2 ^ 64) with 18446744073709551616 in Hs.
  destruct (flno_spec s 0 ltac:(lia) ltac:(simpl; exact Hs))
    as [[H1 H2]|[j [Hj [H1 H2]]]].
  - rewrite H2, H1. change (size_t (npos + 1)) with 0.
    unfold erase. destruct (Z.ltb_spec (size s) 0); [lia|].
    rewrite Z.sub_0_r, Z.min_r by (rewrite npos_val; lia).
    simpl. unfold size. rewrite Nat2Z.id, skipn_all. reflexivity.
  - rewrite H2, H1. unfold size_t.
    assert (Hj' : Z.of_nat j + 1 <= size s) by (unfold size; lia).
    rewrite Z.mod_small
      by (change (2 ^ 64) with 18446744073709551616; lia).
    unfold erase.
    destruct (Z.ltb_spec (size s) (0 + Z.of_nat j + 1)); [lia|].
    rewrite Z.min_r by (rewrite npos_val; lia).
    replace (0 + Z.of_nat j + 1 + (size s - (0 + Z.of_nat j + 1))) with (size s) by lia.
    unfold size. rewrite Nat2Z.id, skipn_all, app_nil_r.
    replace (Z.to_nat (0 + Z.of_nat j + 1)) with (S j) by lia. reflexivity.
Qed.

Lemma lstrip_size s : size (lstrip s) <= size s.
Proof.
  unfold size. induction s as [|c s IH]; simpl; [lia|].
  destruct (is_blank c); simpl; lia.
Qed.

(** The two erase calls of the source drop the blanks and tabs at both
    ends, and never throw. *)
Lemma trim_strip s : size s < 2 ^ 64 -> trim s = Some (strip s).
Proof.
  intros Hs. unfold trim. rewrite erase_first by exact Hs.
  apply erase_last. pose proof (lstrip_size s). lia.
Qed.
End IniFacts.

Section IniMatch.
Import CStr Cxx Regex ConfConvert IniJson.

Lemma space_neq c x :
  isspace c = true -> isspace x = false -> Ascii.eqb c x = false.
Proof.
  intros Hc Hx. destruct (Ascii.eqb_spec c x) as [E|E]; [|reflexivity].
  subst. congruence.
Qed.

Lemma space_facts c :
  isspace c = true ->
  Ascii.eqb c ";" = false /\ Ascii.eqb c "#" = false /\ Ascii.eqb c "[" = false
  /\ Ascii.eqb c "=" = false.
Proof.
  intros H. repeat split; apply space_neq; auto.
Qed.

Lemma indent_spaces ind :
  indent_ok ind = true -> forallb (atom_match false space) ind = true.
Proof.
  unfold indent_ok. intros H. apply forallb_forall. intros c Hc.
  rewrite forallb_forall in H. specialize (H c Hc).
  apply andb_true_iff in H as [H _].
  simpl. rewrite orb_false_r. exact H.
Qed.

Lemma key_parts k :
  key_ok k = true ->
  exists c k', k = c :: k' /\ isspace c = false /\
    Ascii.eqb c ";" = false /\ Ascii.eqb c "#" = false /\
    Ascii.eqb c "[" = false /\
    forallb (atom_match false (ASet true [CChar "="])) k = true.
Proof.
  destruct k as [|c k']; [discriminate|]. intros H. unfold key_ok in H.
  apply andb_true_iff in H as [H H3]. apply andb_true_iff in H as [H1 H2].
  exists c, k'. split; [reflexivity|].
  apply negb_true_iff in H1. split; [exact H1|].
  apply negb_true_iff in H2. unfold mem in H2. simpl in H2.
  rewrite orb_false_r in H2.
  apply orb_false_iff in H2 as [Ha H2]. apply orb_false_iff in H2 as [Hb Hc].
  repeat split; try assumption.
  apply forallb_forall. intros x Hx. rewrite forallb_forall in H3.
  specialize (H3 x Hx). apply andb_true_iff in H3 as [H3 _].
  simpl. unfold char_match. rewrite orb_false_r. exact H3.
Qed.

Lemma value_any v :
  value_ok v = true -> forallb (atom_match false AAny) v = true.
Proof.
  unfold value_ok. intros H. apply forallb_forall. intros c Hc.
  rewrite forallb_forall in H. specialize (H c Hc).
  apply andb_true_iff in H as [H1 H2].
  apply negb_true_iff in H1. apply negb_true_iff in H2.
  simpl. rewrite H1, H2. reflexivity.
Qed.

Lemma keyvalue_match ind k v :
  indent_ok ind = true -> key_ok k = true -> value_ok v = true ->
  regex_match false keyvalue_pattern (pair_line ind k v)
  = Some [(2%nat, v); (1%nat, k)].
Proof.
  intros Hi Hk Hv.
  destruct (key_parts k Hk) as [c [k' [Ek [Hc [_ [_ [_ Hkk]]]]]]].
  unfold regex_match.
  change (find at_end (m false keyvalue_pattern (MState [] (pair_line ind k v) [])))
    with (full false keyvalue_pattern (MState [] (pair_line ind k v) [])).
  assert (Hfull : full false keyvalue_pattern (MState [] (pair_line ind k v) [])
          = Some (MState (rev v ++ "="%char :: rev k ++ rev ind ++ []) []
                         [(2%nat, v); (1%nat, k)])).
  { unfold keyvalue_pattern. cbn [cat].
    eapply full_seq_head; [reflexivity|].
    destruct (m_rep_greedy false space 0 (MState [] (pair_line ind k v) [])
                ind (k ++ lit "=" ++ v)) as [tl1 H1];
      [reflexivity | apply indent_spaces; exact Hi
      | rewrite Ek; simpl; rewrite orb_false_r; exact Hc | lia |].
    eapply full_seq_head; [exact H1|]. cbn [pre rest caps].
    destruct (m_group_rep_greedy false 1 (ASet true [CChar "="]) 1
                (MState (rev ind ++ []) (k ++ lit "=" ++ v) [])
                k (lit "=" ++ v)) as [tl2 H2];
      [reflexivity | exact Hkk | reflexivity | rewrite Ek; simpl; lia |].
    eapply full_seq_head; [exact H2|]. cbn [pre rest caps].
    eapply full_seq_head; [reflexivity|].
    destruct (m_group_rep_greedy false 2 AAny 0
                (MState ("="%char :: rev k ++ rev ind ++ []) v [(1%nat, k)])
                v []) as [tl3 H3];
      [cbn [rest]; symmetry; apply app_nil_r | apply value_any; exact Hv
      | exact I | lia |].
    eapply full_seq_head; [exact H3|]. reflexivity. }
  rewrite Hfull. reflexivity.
Qed.

Lemma not_comment ind k v :
  indent_ok ind = true -> key_ok k = true ->
  regex_match false comment_pattern (pair_line ind k v) = None.
Proof.
  intros Hi Hk.
  destruct (key_parts k Hk) as [c [k' [Ek [Hc [Hc1 [Hc2 [Hc3 _]]]]]]].
  unfold regex_match.
  change (find at_end (m false comment_pattern (MState [] (pair_line ind k v) [])))
    with (full false comment_pattern (MState [] (pair_line ind k v) [])).
  assert (Hfull : full false comment_pattern (MState [] (pair_line ind k v) [])
                  = None).
  { unfold comment_pattern. cbn [cat].
    rewrite full_seq. cbn [m pre first_some].
    rewrite full_seq_none; [reflexivity|].
    intros st1 Hin.
    eapply (m_rep_then_atom_nil false space) with
      (xs := ind) (y := c) (ys := k' ++ lit "=" ++ v); [| | | |exact Hin].
    - cbn [rest]. unfold pair_line. rewrite Ek. reflexivity.
    - apply Forall_forall. intros x Hx. unfold indent_ok in Hi.
      rewrite forallb_forall in Hi. specialize (Hi x Hx).
      apply andb_true_iff in Hi as [Hs _].
      destruct (space_facts x Hs) as [A [B _]].
      simpl. unfold char_match. rewrite A, B. reflexivity.
    - simpl. unfold char_match. rewrite Hc1, Hc2. reflexivity.
    - simpl. rewrite orb_false_r. exact Hc. }
  rewrite Hfull. reflexivity.
Qed.

Lemma not_section ind k v :
  indent_ok ind = true -> key_ok k = true ->
  regex_match false section_pattern (pair_line ind k v) = None.
Proof.
  intros Hi Hk.
  destruct (key_parts k Hk) as [c [k' [Ek [Hc [Hc1 [Hc2 [Hc3 _]]]]]]].
  unfold regex_match.
  change (find at_end (m false section_pattern (MState [] (pair_line ind k v) [])))
    with (full false section_pattern (MState [] (pair_line ind k v) [])).
  assert (Hfull : full false section_pattern (MState [] (pair_line ind k v) [])
                  = None).
  { unfold section_pattern. cbn [cat].
    rewrite full_seq. cbn [m pre first_some].
    rewrite full_seq_none; [reflexivity|].
    intros st1 Hin.
    eapply (m_rep_then_atom_nil false space) with
      (xs := ind) (y := c) (ys := k' ++ lit "=" ++ v); [| | | |exact Hin].
    - cbn [rest]. unfold pair_line. rewrite Ek. reflexivity.
    - apply Forall_forall. intros x Hx. unfold indent_ok in Hi.
      rewrite forallb_forall in Hi. specialize (Hi x Hx).
      apply andb_true_iff in Hi as [Hs _].
      destruct (space_facts x Hs) as [_ [_ [C _]]].
      simpl. unfold char_match. exact C.
    - simpl. unfold char_match. exact Hc3.
    - simpl. rewrite orb_false_r. exact Hc. }
  rewrite Hfull. reflexivity.
Qed.
End IniMatch.

Section StrOrder.
Import CStr.

Lemma str_eqb_eq a : forall b, str_eqb a b = true <-> a = b.
Proof.
  induction a as [|x a IH]; intros [|y b]; simpl; split; intros H;
    try discriminate; try reflexivity.
  - apply andb_true_iff in H as [H1 H2].
    apply Ascii.eqb_eq in H1. apply IH in H2. subst. reflexivity.
  - inversion H; subst. rewrite Ascii.eqb_refl. simpl. apply IH. reflexivity.
Qed.

Lemma code_inj x y : code x = code y -> x = y.
Proof.
  unfold code. intros H.
  rewrite <- (ascii_N_embedding x), <- (ascii_N_embedding y), H. reflexivity.
Qed.

(** Two strings neither of which is below the other are the same string. *)
Lemma str_ltb_total a : forall b,
  str_ltb a b = false -> str_ltb b a = false -> a = b.
Proof.
  induction a as [|x a IH]; intros [|y b]; simpl; intros H1 H2;
    try discriminate; try reflexivity.
  destruct (N.ltb_spec (code x) (code y)); [discriminate|].
  destruct (N.ltb_spec (code y) (code x)); [discriminate|].
  assert (x = y) by (apply code_inj; lia). subst.
  f_equal. apply IH; assumption.
Qed.

Lemma str_ltb_irrefl a : str_ltb a a = false.
Proof.
  induction a as [|x a IH]; simpl; [reflexivity|].
  rewrite N.ltb_irrefl. exact IH.
Qed.
End StrOrder.

Section Lines.
Import CStr.

Definition no_newline (l : str) : Prop := Forall (fun c => c <> newline) l.

Lemma getlines_aux_line l : forall cur rest,
  no_newline l ->
  getlines_aux cur (l ++ newline :: rest) = (rev cur ++ l) :: getlines_aux [] rest.
Proof.
  induction l as [|c l IH]; intros cur rest Hl.
  - simpl. rewrite app_nil_r. reflexivity.
  - inversion Hl as [|? ? Hc Hl']; subst. simpl.
    destruct (Ascii.eqb_spec c newline) as [E|E]; [contradiction|].
    rewrite IH by exact Hl'. simpl. rewrite <- app_assoc. reflexivity.
Qed.

Lemma getlines_aux_last l : forall cur,
  no_newline l -> rev cur ++ l <> [] ->
  getlines_aux cur l = [rev cur ++ l].
Proof.
  induction l as [|c l IH]; intros cur Hl Hne.
  - simpl. rewrite app_nil_r in *. destruct cur as [|x cur]; [contradiction|].
    reflexivity.
  - inversion Hl as [|? ? Hc Hl']; subst. simpl.
    destruct (Ascii.eqb_spec c newline) as [E|E]; [contradiction|].
    rewrite IH; [|exact Hl'|].
    + simpl. rewrite <- app_assoc. reflexivity.
    + simpl. rewrite <- app_assoc. simpl. destruct (rev cur); discriminate.
Qed.

Lemma getlines_two l1 l2 (nl : bool) :
  no_newline l1 -> no_newline l2 -> l2 <> [] ->
  getlines (l1 ++ [newline] ++ l2 ++ (if nl then [newline] else []))
  = [l1; l2].
Proof.
  intros H1 H2 Hne. unfold getlines. simpl app.
  rewrite getlines_aux_line by exact H1. simpl rev. simpl app.
  destruct nl.
  - rewrite getlines_aux_line by exact H2. reflexivity.
  - rewrite app_nil_r. rewrite getlines_aux_last; auto.
Qed.
End Lines.

Section IniTheorem.
Import CStr Cxx Regex ConfConvert IniJson.

Lemma pair_line_no_newline ind k v :
  indent_ok ind = true -> key_ok k = true -> value_ok v = true ->
  no_newline (pair_line ind k v) /\ pair_line ind k v <> [].
Proof.
  intros Hi Hk Hv. split.
  - unfold pair_line, no_newline. repeat rewrite Forall_app. repeat split.
    + apply Forall_forall. intros c Hc. unfold indent_ok in Hi.
      rewrite forallb_forall in Hi. specialize (Hi c Hc).
      apply andb_true_iff in Hi as [_ Hn]. apply negb_true_iff in Hn.
      intros E. subst. discriminate.
    + destruct k as [|c0 k']; [discriminate|]. unfold key_ok in Hk.
      apply andb_true_iff in Hk as [_ Hk].
      apply Forall_forall. intros c Hc.
      rewrite forallb_forall in Hk. specialize (Hk c Hc).
      apply andb_true_iff in Hk as [_ Hn]. apply negb_true_iff in Hn.
      intros E. subst. discriminate.
    + repeat constructor. discriminate.
    + apply Forall_forall. intros c Hc. unfold value_ok in Hv.
      rewrite forallb_forall in Hv. specialize (Hv c Hc).
      apply andb_true_iff in Hv as [Hn _]. apply negb_true_iff in Hn.
      intros E. subst. discriminate.
  - unfold pair_line. destruct k as [|c0 k']; [discriminate|].
    destruct ind; discriminate.
Qed.

Lemma size_app a b : size (a ++ b) = size a + size b.
Proof. unfold size. rewrite length_app. lia. Qed.

Lemma size_le_app_l a b : size a <= size (a ++ b).
Proof. rewrite size_app. pose proof (size_nonneg b). lia. Qed.

Lemma size_le_app_r a b : size b <= size (a ++ b).
Proof. rewrite size_app. pose proof (size_nonneg a). lia. Qed.

Lemma parseINI_pair preserve st ind k v :
  indent_ok ind = true -> key_ok k = true -> value_ok v = true ->
  size (pair_line ind k v) < 2 ^ 64 ->
  current_section st = [] ->
  parseINI_line preserve st (pair_line ind k v)
  = Some {| current_section := []; data := map_set (strip k) (strip v) (data st);
            cmts := cmts st |}.
Proof.
  intros Hi Hk Hv Hs Hsec. unfold parseINI_line.
  rewrite not_comment, not_section, keyvalue_match by assumption.
  change (sub_match 1 [(2%nat, v); (1%nat, k)]) with k.
  change (sub_match 2 [(2%nat, v); (1%nat, k)]) with v.
  unfold pair_line in Hs. repeat rewrite size_app in Hs.
  pose proof (size_nonneg ind). pose proof (size_nonneg k).
  pose proof (size_nonneg v). pose proof (size_nonneg (lit "=")).
  rewrite !trim_strip by lia. rewrite Hsec. reflexivity.
Qed.

Lemma json_value_scalar v : json_value v = json_scalar v.
Proof.
  unfold json_value, json_scalar. destruct (isNumber v); reflexivity.
Qed.

Lemma map_set_two (k1 v1 k2 v2 : str) :
  k1 <> k2 ->
  map_set k2 v2 (map_set k1 v1 [])
  = if str_ltb k2 k1 then [(k2, v2); (k1, v1)] else [(k1, v1); (k2, v2)].
Proof.
  intros Hne. simpl.
  destruct (str_ltb k2 k1) eqn:E21; [reflexivity|].
  destruct (str_ltb k1 k2) eqn:E12; [reflexivity|].
  exfalso. apply Hne. apply str_ltb_total; assumption.
Qed.

(** C3, as amended.  For every INI text of exactly two key=value lines
    (optional leading whitespace; a key that is not empty, holds no equals
    sign and does not start with whitespace, a semicolon, a hash or an
    opening bracket; a value without carriage return) whose keys differ
    once trimmed, conf-convert from ini to json with its other options at
    their defaults exits with status 0 and prints a JSON object with
    exactly those two keys, trimmed and in key order, each mapped to its
    trimmed value: bare when the value reads as a number or as true or
    false, a double-quoted escaped string otherwise. *)
Theorem ini_two_pairs_to_json w f ind1 k1 v1 ind2 k2 v2 (final_newline : bool) :
  indent_ok ind1 = true -> key_ok k1 = true -> value_ok v1 = true ->
  indent_ok ind2 = true -> key_ok k2 = true -> value_ok v2 = true ->
  strip k1 <> strip k2 ->
  size (two_pair_text ind1 k1 v1 ind2 k2 v2 final_newline) < 2 ^ 64 ->
  input_text w f = Some (two_pair_text ind1 k1 v1 ind2 k2 v2 final_newline) ->
  convert (ini_to_json f) w
  = {| exit_code := 0;
       cout := json_object2 (strip k1, strip v1) (strip k2, strip v2);
       cerr := [];
       written := [];
       undefined := false |}.
Proof.
  intros Hi1 Hk1 Hv1 Hi2 Hk2 Hv2 Hne Hsize Hin.
  set (content := two_pair_text ind1 k1 v1 ind2 k2 v2 final_newline) in *.
  unfold two_pair_text in content.
  destruct (pair_line_no_newline ind1 k1 v1 Hi1 Hk1 Hv1) as [Hn1 _].
  destruct (pair_line_no_newline ind2 k2 v2 Hi2 Hk2 Hv2) as [Hn2 Hne2].
  assert (Hs1 : size (pair_line ind1 k1 v1) < 2 ^ 64).
  { unfold content in Hsize.
    match type of Hsize with size (?a ++ ?b) < _ =>
      pose proof (size_le_app_l a b) end. lia. }
  assert (Hs2 : size (pair_line ind2 k2 v2) < 2 ^ 64).
  { unfold content in Hsize.
    match type of Hsize with size (?a ++ ?b ++ ?c ++ ?d) < _ =>
      pose proof (size_le_app_r a (b ++ c ++ d));
      pose proof (size_le_app_r b (c ++ d));
      pose proof (size_le_app_l c d) end. lia. }
  (* the text convert() parses has the two lines *)
  assert (Hlines : exists text,
    (if match f with [] => true | _ => false end || fmt_is f "-"
     then Some (read_stdin w) else read_file w f) = Some text /\
    getlines text = [pair_line ind1 k1 v1; pair_line ind2 k2 v2]).
  { unfold input_text, from_stdin in Hin. unfold fmt_is.
    destruct (match f with [] => true | _ => false end || str_eqb f (lit "-")).
    - inversion Hin as [Hstd]. eexists. split; [reflexivity|].
      unfold read_stdin. rewrite Hstd. unfold content.
      rewrite getlines_two by assumption. simpl flat_map.
      rewrite app_nil_r.
      change (?a ++ [newline]) with (a ++ (if true then [newline] else [])).
      rewrite <- app_assoc.
      apply (getlines_two _ _ true); assumption.
    - exists content. split; [exact Hin|].
      apply getlines_two; assumption. }
  destruct Hlines as [text [Htext Hl]].
  unfold ini_to_json. set (c0 := setInputFile f _).
  assert (Ef : input_file c0 = f) by reflexivity.
  assert (Ei : input_format c0 = lit "ini") by reflexivity.
  unfold convert. rewrite Ef, Htext, Ei.
  change (fmt_is (lit "ini") "auto") with false.
  change (fmt_is (lit "ini") "json") with false.
  change (fmt_is (lit "ini") "yaml") with false.
  change (fmt_is (lit "ini") "yml") with false.
  change (fmt_is (lit "ini") "ini") with true.
  cbv iota. rewrite Ei.
  change (fmt_is (lit "ini") "json") with false.
  change (fmt_is (lit "ini") "yaml") with false.
  change (fmt_is (lit "ini") "yml") with false.
  change (fmt_is (lit "ini") "ini") with true.
  cbn [orb]. cbv iota.
  unfold parseINI. rewrite Hl.
  cbn [preserve_comments config_data comments parseINI_lines].
  rewrite (parseINI_pair _ _ ind1 k1 v1) by (assumption || reflexivity).
  rewrite (parseINI_pair _ _ ind2 k2 v2) by (assumption || reflexivity).
  unfold c0, generateJSON.
  cbn [data cmts set_data filterKeys fold_left
       setInputFile setOutputFormat setInputFormat default_converter
       input_format output_format input_file output_file pretty_print
       validate_only show_stats preserve_comments indent_size root_key
       exclude_keys include_keys sort_keys minify config_data comments].
  change (fmt_is (lit "json") "json") with true.
  change (make_indent 2) with (@Ok str (lit "  ")).
  cbv iota. cbn [orb]. unfold finish.
  rewrite map_set_two by exact Hne.
  match goal with
  | |- context [printStatistics ?x] =>
      change (printStatistics x) with (@Some str [])
  end.
  cbv iota.
  unfold json_object2, json_member. cbn [fst snd].
  rewrite app_nil_r.
  destruct (str_ltb (strip k2) (strip k1));
    cbn [json_entries fst snd]; rewrite !json_value_scalar;
    repeat rewrite <- app_assoc; reflexivity.
Qed.
End IniTheorem.

(** *** A run of each kind *)

Lemma ini_two_pairs_to_json_witness :
  IniJson.indent_ok [] = true /\
  IniJson.key_ok (CStr.lit "name ") = true /\
  IniJson.value_ok (CStr.lit " x y") = true /\
  IniJson.indent_ok (CStr.lit " ") = true /\
  IniJson.key_ok (CStr.lit "b") = true /\
  IniJson.value_ok (CStr.lit "true") = true /\
  IniJson.strip (CStr.lit "name ") <> IniJson.strip (CStr.lit "b") /\
  ConfConvert.cout (ConfConvertRuns.run [] ConfConvertRuns.mixed_world)
  = CStr.lit "{" ++ [CStr.newline]
    ++ CStr.lit "  " ++ [CStr.dquote] ++ CStr.lit "b" ++ [CStr.dquote]
    ++ CStr.lit ": true," ++ [CStr.newline]
    ++ CStr.lit "  " ++ [CStr.dquote] ++ CStr.lit "name" ++ [CStr.dquote]
    ++ CStr.lit ": " ++ [CStr.dquote] ++ CStr.lit "x y" ++ [CStr.dquote]
    ++ [CStr.newline] ++ CStr.lit "}".
Proof.
  assert (Hne : IniJson.strip (CStr.lit "name ") <> IniJson.strip (CStr.lit "b"))
    by (vm_compute; discriminate).
  repeat (split; [reflexivity || exact Hne|]).
  unfold ConfConvertRuns.run.
  rewrite (ini_two_pairs_to_json
             ConfConvertRuns.mixed_world [] [] (CStr.lit "name ") (CStr.lit " x y")
             (CStr.lit " ") (CStr.lit "b") (CStr.lit "true") true);
    try reflexivity; try exact Hne.
Defined.

(** C3 as stated fails on numeric values: for the text of the two lines
    a=1 and b=2 the run prints the object with the bare numbers 1 and 2,
    which is not the object with the strings 1 and 2. *)
Lemma ini_numbers_are_not_strings :
  ConfConvert.exit_code (ConfConvertRuns.run [] ConfConvertRuns.numbers_world) = 0 /\
  ConfConvert.cout (ConfConvertRuns.run [] ConfConvertRuns.numbers_world)
  = CStr.lit "{" ++ [CStr.newline]
    ++ CStr.lit "  " ++ [CStr.dquote] ++ CStr.lit "a" ++ [CStr.dquote]
    ++ CStr.lit ": 1," ++ [CStr.newline]
    ++ CStr.lit "  " ++ [CStr.dquote] ++ CStr.lit "b" ++ [CStr.dquote]
    ++ CStr.lit ": 2" ++ [CStr.newline] ++ CStr.lit "}" /\
  ConfConvert.cout (ConfConvertRuns.run [] ConfConvertRuns.numbers_world)
  <> IniJson.json_string_object2 (CStr.lit "a", CStr.lit "1")
                                 (CStr.lit "b", CStr.lit "2").
Proof.
  split; [vm_compute; reflexivity|]. split; [vm_compute; reflexivity|].
  vm_compute. discriminate.
Qed.

Section Decimal.
Import CStr Cxx.

Lemma digits_of_uint d : forall acc,
  0 <= acc ->
  digits_value (lit (NilEmpty.string_of_uint d)) acc
  = (Z.of_nat (Nat.of_uint_acc d (Z.to_nat acc)), []).
Proof.
  induction d as [|d IH|d IH|d IH|d IH|d IH|d IH|d IH|d IH|d IH|d IH];
    intros acc Hacc;
    [ cbn; rewrite Z2Nat.id by lia; reflexivity
    | cbn [NilEmpty.string_of_uint lit list_ascii_of_string digits_value
           Nat.of_uint_acc];
      match goal with
      | |- context [isdigit ?c] =>
          change (isdigit c) with true;
          let v := eval vm_compute in (digit_val c) in
          change (digit_val c) with v
      end;
      cbv iota; rewrite IH by lia;
      rewrite Nat.tail_mul_spec; do 3 f_equal; lia .. ].
Qed.

Lemma dec_head n : exists c s, dec n = c :: s /\ isdigit c = true.
Proof.
  unfold dec.
  assert (H : Nat.to_uint n <> Decimal.Nil).
  { rewrite <- (DecimalNat.Unsigned.of_to n) at 1. rewrite DecimalNat.Unsigned.to_of.
    apply DecimalFacts.unorm_nonnil. }
  destruct (Nat.to_uint n); try contradiction;
    cbn [NilEmpty.string_of_uint lit list_ascii_of_string];
    eexists; eexists; (split; [reflexivity|reflexivity]).
Qed.

Lemma digits_dec n : digits_value (dec n) 0 = (Z.of_nat n, []).
Proof.
  unfold dec. rewrite digits_of_uint by lia. cbn [Z.to_nat].
  change (Nat.of_uint_acc (Nat.to_uint n) 0) with (Nat.of_uint (Nat.to_uint n)).
  rewrite DecimalNat.Unsigned.of_to. reflexivity.
Qed.

Lemma digit_not_space c : isdigit c = true -> isspace c = false.
Proof.
  unfold isdigit, isspace, in_range. intros H.
  apply andb_true_iff in H as [H1 H2].
  apply N.leb_le in H1. apply N.leb_le in H2.
  apply orb_false_iff. split.
  - apply N.eqb_neq. lia.
  - apply andb_false_iff. right. apply N.leb_gt. lia.
Qed.

Lemma digit_not_sign c x :
  isdigit c = true -> isdigit x = false -> Ascii.eqb c x = false.
Proof.
  intros Hc Hx. destruct (Ascii.eqb_spec c x) as [E|E]; [|reflexivity].
  subst. congruence.
Qed.

(** strtol reads back what the decimal printer writes. *)
Lemma scan_dec_int z : scan_integer (dec_int z) = Some (z, []).
Proof.
  unfold dec_int, scan_integer.
  destruct (dec_head (Z.abs_nat z)) as [c [s [E Hc]]].
  destruct (Z.ltb_spec z 0) as [Hneg|Hpos].
  - cbn [app lit list_ascii_of_string skip_space].
    change (isspace "-") with false. cbv iota.
    change (Ascii.eqb "-" "-") with true. cbv iota.
    rewrite E. rewrite Hc. rewrite <- E. rewrite digits_dec.
    f_equal. f_equal. lia.
  - cbn [app]. rewrite E. cbn [skip_space].
    rewrite (digit_not_space c Hc).
    rewrite (digit_not_sign c "-" Hc eq_refl), (digit_not_sign c "+" Hc eq_refl).
    rewrite Hc. rewrite <- E. rewrite digits_dec. f_equal. f_equal. lia.
Qed.

Lemma stoi_dec_int z :
  INT_MIN <= z <= INT_MAX -> stoi (dec_int z) = Ok z.
Proof.
  intros H. unfold stoi. rewrite scan_dec_int.
  destruct (Z.leb_spec INT_MIN z); [|lia].
  destruct (Z.leb_spec z INT_MAX); [|lia]. reflexivity.
Qed.

Lemma atoll_dec_int z :
  LONG_MIN <= z <= LONG_MAX -> atoll (dec_int z) = Some z.
Proof.
  intros H. unfold atoll. rewrite scan_dec_int.
  destruct (Z.leb_spec LONG_MIN z); [|lia].
  destruct (Z.leb_spec z LONG_MAX); [|lia]. reflexivity.
Qed.
End Decimal.

(** ** kill *)

Section KillProofs.
Import CStr Cxx Kill.

Lemma table_loop_names sig names : forall i,
  table_loop sig i (map Some names ++ [None]) = None \/
  exists n, table_loop sig i (map Some names ++ [None]) = Some (Some n) /\
            i + 1 <= n <= i + Z.of_nat (List.length names).
Proof.
  induction names as [|name names IH]; intros i.
  - left. reflexivity.
  - cbn [map app table_loop strcasecmp_eq List.length].
    destruct (str_eqb (map tolower sig) (map tolower name)).
    + right. exists (i + 1). split; [reflexivity|lia].
    + assert (Hrest :
        table_loop sig (i + 1) (map Some names ++ [None]) = None \/
        exists n, table_loop sig (i + 1) (map Some names ++ [None]) = Some (Some n)
                  /\ i + 1 <= n <= i + Z.of_nat (S (List.length names))).
      { destruct (IH (i + 1)) as [H|[n [H Hn]]]; [left; exact H|].
        right. exists n. split; [exact H|lia]. }
      destruct sig as [|c sig1]; [exact Hrest|].
      destruct (Ascii.eqb c "-"); [|exact Hrest].
      destruct (str_eqb (map tolower sig1) (map tolower name)); [|exact Hrest].
      right. exists (i + 1). split; [reflexivity|lia].
Qed.

(** C10, on the code as it is.  No call of parse_signal reaches the
    numeric branch: a call either returns the number, between 1 and 31,
    of a name it found, or hands the null 32nd element of the table to
    strcasecmp; and the numeric branch itself accepts 32. *)
Theorem parse_signal_names_or_undefined sig :
  (parse_signal sig = None \/
   exists n, parse_signal sig = Some n /\ 1 <= n <= 31) /\
  parse_signal (lit "32") = None /\
  numeric_signal (lit "32") = 32.
Proof.
  split; [|split; reflexivity].
  unfold parse_signal, signals.
  match goal with
  | |- context [table_loop sig 0 (map ?f ?l ++ [None])] =>
      change (map f l) with (map Some (map lit l));
      destruct (table_loop_names sig (map lit l) 0) as [H|[n [H Hn]]]
  end.
  - left. rewrite H. reflexivity.
  - right. exists n. rewrite H. split; [reflexivity|].
    simpl in Hn. lia.
Qed.
End KillProofs.

(** ** yes and no *)

Section PrintLoopProofs.
Import CStr Cxx Proc PrintLoop.

Lemma lines_succ text n : lines text (S n) = (text ++ [newline]) ++ lines text n.
Proof. reflexivity. Qed.

Lemma no_limited_loop formatted k : forall fuel n i p,
  No.running (No.no_util p) = true ->
  No.count (No.no_util p) = i + Z.of_nat k ->
  (k < fuel)%nat ->
  exists p',
    No.limited_loop fuel no_signal n i formatted p = (Exit 0, p') /\
    No.cout p' = No.cout p ++ lines formatted k /\ No.cerr p' = No.cerr p.
Proof.
  induction k as [|k IH]; intros fuel n i p Hrun Hcount Hfuel.
  - destruct fuel as [|fuel]; [lia|]. cbn [No.limited_loop No.deliver no_signal].
    rewrite Hcount. replace (i <? i + Z.of_nat 0) with false
      by (symmetry; apply Z.ltb_ge; lia).
    exists p. cbn. rewrite app_nil_r. auto.
  - destruct fuel as [|fuel]; [lia|]. cbn [No.limited_loop No.deliver no_signal].
    rewrite Hcount, Hrun.
    replace (i <? i + Z.of_nat (S k)) with true
      by (symmetry; apply Z.ltb_lt; lia).
    cbn [andb].
    match goal with
    | |- context [No.limited_loop fuel no_signal (S n) (i + 1) formatted ?q] =>
        destruct (IH fuel (S n) (i + 1) q) as [p' [H1 [H2 H3]]]
    end.
    + destruct (_ && _); exact Hrun.
    + destruct (_ && _); cbn; lia.
    + lia.
    + exists p'. split; [exact H1|]. rewrite H2, H3.
      rewrite lines_succ.
      destruct (_ && _); cbn; rewrite <- !app_assoc; auto.
Qed.

Lemma yes_main_loop output k : forall fuel n st,
  Yes.keep_running st = 1 ->
  0 <= Yes.count st ->
  Yes.limit st = Yes.count st + Z.of_nat k ->
  (k < fuel)%nat ->
  exists st',
    Yes.main_loop fuel no_signal n output st = (Exit 0, st') /\
    Yes.stdout st'
    = Yes.stdout st
      ++ List.concat (repeat (if Yes.add_newline st then output ++ [newline] else output) k)
    /\ Yes.stderr st' = Yes.stderr st.
Proof.
  induction k as [|k IH]; intros fuel n st Hrun Hc Hlimit Hfuel.
  - destruct fuel as [|fuel]; [lia|].
    cbn [Yes.main_loop no_signal]. unfold Yes.guard. rewrite Hrun, Hlimit.
    replace (Yes.count st + Z.of_nat 0 <? 0) with false
      by (symmetry; apply Z.ltb_ge; lia).
    replace (Yes.count st <? Yes.count st + Z.of_nat 0) with false
      by (symmetry; apply Z.ltb_ge; lia).
    exists st. cbn. rewrite app_nil_r. auto.
  - destruct fuel as [|fuel]; [lia|].
    cbn [Yes.main_loop no_signal]. unfold Yes.guard. rewrite Hrun, Hlimit.
    replace (Yes.count st <? Yes.count st + Z.of_nat (S k)) with true
      by (symmetry; apply Z.ltb_lt; lia).
    rewrite orb_true_r. cbn [negb Z.eqb andb].
    destruct (IH fuel (S n) (Yes.body output st)) as [st' [H1 [H2 H3]]].
    + exact Hrun.
    + cbn. lia.
    + cbn. lia.
    + lia.
    + exists st'. split; [exact H1|]. rewrite H2, H3. cbn.
      rewrite <- !app_assoc. auto.
Qed.
End PrintLoopProofs.

Section PrintLoopTheorem.
Import CStr Cxx Proc PrintLoop.

(** The print loops, for any option argument that the conversion reads
    as N: absent any signal and given fuel for N iterations, N lines and
    status 0 when N is not negative, nothing and status 1 when it is. *)
Lemma print_loop_of_argument :
  (forall usage_text version_text easter_egg_text fuel program_name arg N args,
     stoi arg = Ok N -> (Z.to_nat N < fuel)%nat ->
     exists p,
       No.main usage_text version_text easter_egg_text fuel no_signal
               program_name [No.OptCount arg] args
       = (Exit (if N <? 0 then 1 else 0), p) /\
       No.cout p = (if N <? 0 then [] else lines (no_text args) (Z.to_nat N))) /\
  (forall help_text version_text fuel program_name arg N args output,
     atoll arg = Some N -> Yes.output_of args = Some output ->
     (Z.to_nat N < fuel)%nat ->
     exists st,
       Yes.main help_text version_text fuel no_signal program_name
                [Yes.OptLimit arg] args
       = (Exit (if N <? 0 then 1 else 0), st) /\
       Yes.stdout st = (if N <? 0 then [] else lines output (Z.to_nat N))).
Proof.
  split.
  - intros usage_text version_text easter_egg_text fuel program_name arg N args
           Hstoi Hfuel.
    unfold No.main. cbn [No.options_loop]. rewrite Hstoi.
    destruct (Z.ltb_spec N 0) as [Hneg|Hpos].
    + eexists. split; reflexivity.
    + unfold No.run.
      set (p0 := match args with
                 | arg0 :: _ => No.with_util (No.setOutputText arg0)
                                  (No.with_util (No.setCount N) No.started)
                 | [] => No.with_util (No.setCount N) No.started
                 end).
      assert (Hq : No.quiet (No.no_util p0) = false) by (destruct args; reflexivity).
      assert (Hc : No.count (No.no_util p0) = N) by (destruct args; reflexivity).
      assert (Hr : No.running (No.no_util p0) = true) by (destruct args; reflexivity).
      assert (Ho : No.cout p0 = []) by (destruct args; reflexivity).
      assert (Hf : No.formatOutput (No.no_util p0) = no_text args)
        by (destruct args; reflexivity).
      rewrite Hq, Hc, Hf. cbn [negb].
      replace (N =? -1) with false by (symmetry; apply Z.eqb_neq; lia).
      destruct (no_limited_loop (no_text args) (Z.to_nat N) fuel 0%nat 0 p0)
        as [p' [H1 [H2 _]]]; [exact Hr | rewrite Hc; lia | exact Hfuel |].
      exists p'. split; [exact H1|]. rewrite H2, Ho. reflexivity.
  - intros help_text version_text fuel program_name arg N args output
           Hatoll Hout Hfuel.
    unfold Yes.main. cbn [Yes.options_loop]. rewrite Hatoll.
    destruct (Z.ltb_spec N 0) as [Hneg|Hpos].
    + eexists. split; reflexivity.
    + rewrite Hout.
      destruct (yes_main_loop output (Z.to_nat N) fuel 0%nat
                  (Yes.set_limit N Yes.initial))
        as [st' [H1 [H2 _]]]; [reflexivity | cbn; lia | cbn; lia | exact Hfuel |].
      exists st'. split; [exact H1|]. rewrite H2. reflexivity.
Qed.

(** C8, as amended.  Absent any signal and given fuel for N iterations:
    for every N that fits an int, no with --count N prints its line
    exactly N times and ends with status 0 when N is not negative, and
    prints nothing and ends with status 1 when N is negative; the same
    holds of yes with --limit N for every N that fits a long long. *)
Theorem bounded_print_loop :
  (forall usage_text version_text easter_egg_text fuel program_name N args,
     INT_MIN <= N <= INT_MAX -> (Z.to_nat N < fuel)%nat ->
     exists p,
       No.main usage_text version_text easter_egg_text fuel no_signal
               program_name [No.OptCount (dec_int N)] args
       = (Exit (if N <? 0 then 1 else 0), p) /\
       No.cout p = (if N <? 0 then [] else lines (no_text args) (Z.to_nat N))) /\
  (forall help_text version_text fuel program_name N args output,
     LONG_MIN <= N <= LONG_MAX -> Yes.output_of args = Some output ->
     (Z.to_nat N < fuel)%nat ->
     exists st,
       Yes.main help_text version_text fuel no_signal program_name
                [Yes.OptLimit (dec_int N)] args
       = (Exit (if N <? 0 then 1 else 0), st) /\
       Yes.stdout st = (if N <? 0 then [] else lines output (Z.to_nat N))).
Proof.
  split.
  - intros usage_text version_text easter_egg_text fuel program_name N args
           Hrange Hfuel.
    apply (proj1 print_loop_of_argument); [apply stoi_dec_int; exact Hrange|].
    exact Hfuel.
  - intros help_text version_text fuel program_name N args output
           Hrange Hout Hfuel.
    apply (proj2 print_loop_of_argument);
      [apply atoll_dec_int; exact Hrange | exact Hout | exact Hfuel].
Qed.
End PrintLoopTheorem.

Lemma bounded_print_loop_witness :
  (Cxx.INT_MIN <= 3 <= Cxx.INT_MAX) /\
  (Z.to_nat 3 < 5)%nat /\
  (exists p,
     No.main (fun _ => []) [] [] 5 Proc.no_signal (CStr.lit "no")
             [No.OptCount (Cxx.dec_int 3)] []
     = (Proc.Exit 0, p) /\
     No.cout p = PrintLoop.lines (CStr.lit "no") 3) /\
  (Cxx.LONG_MIN <= 3 <= Cxx.LONG_MAX) /\
  Yes.output_of [] = Some (CStr.lit "y") /\
  (exists st,
     Yes.main (fun _ => []) [] 5 Proc.no_signal (CStr.lit "yes")
              [Yes.OptLimit (Cxx.dec_int 3)] []
     = (Proc.Exit 0, st) /\
     Yes.stdout st = PrintLoop.lines (CStr.lit "y") 3).
Proof.
  assert (H1 : Cxx.INT_MIN <= 3 <= Cxx.INT_MAX) by (vm_compute; split; discriminate).
  assert (H2 : (Z.to_nat 3 < 5)%nat) by (simpl; lia).
  assert (H3 : Cxx.LONG_MIN <= 3 <= Cxx.LONG_MAX)
    by (vm_compute; split; discriminate).
  assert (H4 : Yes.output_of [] = Some (CStr.lit "y")) by reflexivity.
  split; [exact H1|]. split; [exact H2|]. split.
  - exact (proj1 bounded_print_loop (fun _ => []) [] [] 5%nat (CStr.lit "no")
             3 [] H1 H2).
  - split; [exact H3|]. split; [exact H4|].
    exact (proj2 bounded_print_loop (fun _ => []) [] 5%nat (CStr.lit "yes")
             3 [] (CStr.lit "y") H3 H4 H2).
Defined.

(** C8 as stated fails on a count that does not fit an int: stoi throws,
    and no --count 2147483648 prints nothing and ends with status 1. *)
Lemma no_count_out_of_range :
  Cxx.stoi (CStr.lit "2147483648") = Cxx.Exn (CStr.lit "stoi") /\
  fst (No.main (fun _ => []) [] [] 5 Proc.no_signal (CStr.lit "no")
               [No.OptCount (CStr.lit "2147483648")] []) = Proc.Exit 1 /\
  No.cout (snd (No.main (fun _ => []) [] [] 5 Proc.no_signal (CStr.lit "no")
                        [No.OptCount (CStr.lit "2147483648")] [])) = [] /\
  No.cout (snd (No.main (fun _ => []) [] [] 5 Proc.no_signal (CStr.lit "no")
                        [No.OptCount (CStr.lit "2147483648")] []))
  <> PrintLoop.lines (CStr.lit "no") (Z.to_nat 2147483648).
Proof.
  split; [reflexivity|]. split; [reflexivity|]. split; [reflexivity|].
  cbn [No.main No.options_loop].
  change (Cxx.stoi (CStr.lit "2147483648")) with (@Cxx.Exn Z (CStr.lit "stoi")).
  cbn [snd No.cout No.eprint].
  assert (H : Z.to_nat 2147483648 = S (Z.to_nat 2147483647))
    by (rewrite <- Z2Nat.inj_succ by lia; reflexivity).
  rewrite H. discriminate.
Qed.

Section CancellationProofs.
Import CStr Proc Cancellation.

(** C2, as amended.  In yes, no and ping the handler of SIGINT and SIGTERM
    only lowers the flag and returns, and the loops read the flag before
    every iteration: a signal delivered before an evaluation of the loop
    condition ends the loop there, with nothing more printed or probed.
    tee has no flag: its SIGINT handler ends the process from inside the
    handler, with exit(EXIT_SUCCESS). *)
Theorem cooperative_cancellation :
  forall (sigs : schedule) (n : nat), sigs n = true ->
    (only_sets_flag (returning Yes.handle_signal) yes_lower /\
     forall fuel output st,
       Yes.main_loop (S fuel) sigs n output st = (Exit 0, yes_lower st)) /\
    (only_sets_flag (returning No.signalHandler) no_lower /\
     forall fuel i formatted p, No.global_no p = true ->
       No.infinite_loop (S fuel) sigs n formatted p = (Exit 0, no_lower p) /\
       No.limited_loop (S fuel) sigs n i formatted p = (Exit 0, no_lower p)) /\
    (only_sets_flag (returning Ping.signalHandler) ping_lower /\
     forall fuel sequence completed_pings target ts p, Ping.global_ping p = true ->
       Ping.rounds (S fuel) sigs n sequence completed_pings p
       = (Exit 0, ping_lower p) /\
       Ping.each_target sigs n (target :: ts) sequence p
       = (S n, sequence, ping_lower p)) /\
    (forall f sig st,
       Tee.signal_handler f sig st
       = Terminates EXIT_SUCCESS
           (if Tee.verbose_mode f
            then Tee.eprint (lit "Received signal " ++ dec (Z.to_nat sig)
                             ++ [newline]) st
            else st)).
Proof.
  intros sigs n Hsig.
  split; [split; [intros sig s; reflexivity|]|split; [split; [intros sig s; reflexivity|]|split; [split; [intros sig s; reflexivity|]|]]].
  - intros fuel output st. cbn [Yes.main_loop]. rewrite Hsig. reflexivity.
  - intros fuel i formatted p H. split.
    + cbn [No.infinite_loop]. unfold No.deliver. rewrite Hsig.
      unfold No.signalHandler, no_lower. rewrite H. reflexivity.
    + cbn [No.limited_loop]. unfold No.deliver. rewrite Hsig.
      unfold No.signalHandler, no_lower. rewrite H. cbn.
      rewrite andb_false_r. reflexivity.
  - intros fuel sequence completed_pings target ts p H. split.
    + cbn [Ping.rounds]. unfold Ping.deliver. rewrite Hsig.
      unfold Ping.signalHandler, ping_lower. rewrite H. reflexivity.
    + cbn [Ping.each_target]. unfold Ping.deliver. rewrite Hsig.
      unfold Ping.signalHandler, ping_lower. rewrite H. reflexivity.
  - reflexivity.
Qed.
End CancellationProofs.

Lemma cooperative_cancellation_witness :
  Cancellation.signal_first 0%nat = true /\
  Yes.main_loop 1%nat Cancellation.signal_first 0%nat (CStr.lit "y") Yes.initial
  = (Proc.Exit 0, Cancellation.yes_lower Yes.initial).
Proof.
  split; [reflexivity|].
  exact (proj2 (proj1 (cooperative_cancellation Cancellation.signal_first 0%nat eq_refl))
               0%nat (CStr.lit "y") Yes.initial).
Defined.

(** C2 as stated fails for tee: its handler does not return to a state
    with a flag lowered, it ends the process with status 0. *)
Lemma tee_handler_exits :
  Tee.signal_handler Tee.no_flags Proc.SIGINT Tee.initial
  = Proc.Terminates 0 Tee.initial /\
  ~ exists lower,
      Cancellation.only_sets_flag
        (Tee.signal_handler Tee.no_flags) lower.
Proof.
  split; [reflexivity|].
  intros [lower H]. specialize (H Proc.SIGINT Tee.initial). discriminate H.
Qed.

(** ** tree *)

Section TreeProofs.
Import CStr Cxx Proc Tree DirsOnly.

Lemma dirs_only_emit_other text st :
  dirs_only st -> dirs_only (emit (OtherLine text) st).
Proof.
  intros [Hc Hl]. split; [exact Hc|].
  intros t nm d Hin. cbn in Hin. apply in_app_or in Hin.
  destruct Hin as [Hin|[Hin|[]]]; [eauto|discriminate].
Qed.

Lemma dirs_only_emit_dir text name st st1 :
  count_dir st = Some st1 ->
  dirs_only st -> dirs_only (emit (EntryLine text name true) st1).
Proof.
  unfold count_dir. destruct (dirCount st <? INT_MAX); [|discriminate].
  intros E [Hc Hl]. injection E as <-. split; [exact Hc|].
  intros t nm d Hin. cbn in Hin. apply in_app_or in Hin.
  destruct Hin as [Hin|[Hin|[]]]; [eauto|congruence].
Qed.

Lemma print_entry_dirs_only o n prefix isLast depth st :
  onlyDirs o = true -> dirs_only st ->
  dirs_only (snd (print_entry o n prefix isLast depth st)).
Proof.
  intros Hd Hst. unfold print_entry. rewrite Hd.
  destruct (negb (maxDepth o =? -1) && (maxDepth o <? depth)); [exact Hst|].
  destruct (negb (showHidden o) && _); [exact Hst|].
  destruct (is_directory n) as [isDirectory|what]; [|exact Hst].
  destruct (node_attrs n) as [a|what]; [|exact Hst].
  destruct isDirectory; cbn [negb andb orb]; [|exact Hst].
  destruct (onlyFiles o); cbn [andb orb]; [exact Hst|].
  destruct (matchesPattern o n) as [[|]|]; try exact Hst.
  destruct (count_dir st) as [st1|] eqn:E; cbn [snd]; [|exact Hst].
  apply (dirs_only_emit_dir _ _ st st1 E Hst).
Qed.

Lemma insert_sorted_all {A} (Q : str * A -> Prop) x l :
  Q x -> Forall Q l -> Forall Q (insert_sorted x l).
Proof.
  intros Hx Hl. induction Hl as [|y l Hy Hl IH]; cbn.
  - constructor; [exact Hx|constructor].
  - destruct (str_ltb (fst y) (fst x)).
    + constructor; assumption.
    + constructor; [exact Hx|]. constructor; assumption.
Qed.

Lemma sort_paths_all {A} (Q : str * A -> Prop) l :
  Forall Q l -> Forall Q (sort_paths l).
Proof.
  intros Hl. induction Hl as [|y l Hy Hl IH]; cbn.
  - constructor.
  - apply insert_sorted_all; assumption.
Qed.

Lemma each_dirs_only ws :
  Forall (fun p : str * walker => keeps_dirs_only (snd p)) ws ->
  forall inner depth st,
    dirs_only st -> dirs_only (snd (each ws inner depth st)).
Proof.
  intros Hws. induction Hws as [|[nm walk] ws Hw Hws IH]; intros inner depth st Hst.
  - exact Hst.
  - cbn [each]. cbn [snd] in Hw.
    pose proof (Hw inner (is_last ws) depth st Hst) as H1.
    destruct (walk inner (is_last ws) depth st) as [[|what|] st1]; cbn [snd] in H1.
    + apply IH. exact H1.
    + exact H1.
    + exact H1.
Qed.

Lemma entries_dirs_only o entries :
  Forall (fun c => keeps_dirs_only (printTree o c)) entries ->
  forall inner depth st,
    dirs_only st ->
    dirs_only
      (snd (each (sort_paths (map (fun c => (filename c, printTree o c)) entries))
                 inner depth st)).
Proof.
  intros H. apply each_dirs_only. apply sort_paths_all.
  induction H; cbn; constructor; assumption.
Qed.

Lemma printTree_unfold o n prefix isLast depth st :
  printTree o n prefix isLast depth st
  = match print_entry o n prefix isLast depth st with
    | (Returned, true, st) =>
        let inner := prefix ++ (if isLast then lit "    " else indentChars o) in
        match n with
        | Dir _ _ entries =>
            match each (sort_paths (map (fun c => (filename c, printTree o c)) entries))
                       inner (depth + 1) st with
            | (Thrown what, st) =>
                (Returned, emit (error_line o prefix isLast what) st)
            | other => other
            end
        | DirUnreadable _ _ what =>
            (Returned, emit (error_line o prefix isLast what) st)
        | _ => (Returned, st)
        end
    | (f, _, st) => (f, st)
    end.
Proof. destruct n; reflexivity. Qed.

Lemma printTree_dirs_only o :
  onlyDirs o = true -> forall n, keeps_dirs_only (printTree o n).
Proof.
  intros Hd n. induction n as [name a|name a entries IH|name a what|name what]
    using node_induction; intros prefix isLast depth st Hst;
    rewrite printTree_unfold;
    match goal with
    | |- context [print_entry o ?x prefix isLast depth st] =>
        pose proof (print_entry_dirs_only o x prefix isLast depth st Hd Hst) as H1;
        destruct (print_entry o x prefix isLast depth st) as [[f printed] st1]
    end;
    cbn [snd] in H1;
    destruct f; try exact H1; destruct printed; try exact H1.
  - cbv zeta.
    pose proof (entries_dirs_only o entries IH
                  (prefix ++ (if isLast then lit "    " else indentChars o))
                  (depth + 1) st1 H1) as H2.
    destruct (each _ _ _ _) as [[|what|] st2]; cbn [snd] in H2 |- *.
    + exact H2.
    + apply dirs_only_emit_other. exact H2.
    + exact H2.
  - cbn [snd]. apply dirs_only_emit_other. exact H1.
Qed.

(** C7.  With -d, whatever the other options, whatever is at the path
    and however the run ends: every entry line on standard output is for
    a path fs::is_directory said yes to, and the file counter, which the
    summary line prints, is zero. *)
Theorem tree_d_lists_no_files (o : Options) (w : world) :
  onlyDirs o = true ->
  (forall text name isDirectory,
     In (EntryLine text name isDirectory) (cout (final (run o w))) ->
     isDirectory = true) /\
  fileCount (final (run o w)) = 0 /\
  (forall name a entries,
     root w = Some (Dir name a entries) -> ending (run o w) = Exit 0 ->
     exists dirs,
       last (cout (final (run o w))) (OtherLine [])
       = OtherLine (dec_int dirs ++ lit " directories, 0 files")).
Proof.
  intros Hd.
  assert (H0 : dirs_only {| dirCount := 0; fileCount := 0; cout := [] |}).
  { split; [reflexivity|]. intros t nm d []. }
  assert (Hall : forall entries,
             Forall (fun c => keeps_dirs_only (printTree o c)) entries).
  { intros entries. apply Forall_forall. intros c _.
    apply printTree_dirs_only. exact Hd. }
  assert (H : dirs_only (final (run o w))).
  { unfold run. destruct (root w) as [[name a|name a entries|name a what|name what]|];
      cbn [final]; try exact H0;
      try (apply dirs_only_emit_other; exact H0).
    pose proof (entries_dirs_only o entries (Hall entries) [] 0 _
                  (dirs_only_emit_other (rootPath w) _ H0)) as H2.
    destruct (each _ _ _ _) as [[|what|] st2]; cbn [snd final] in H2 |- *.
    - apply dirs_only_emit_other, dirs_only_emit_other. exact H2.
    - exact H2.
    - exact H2. }
  destruct H as [Hc Hl]. split; [exact Hl|]. split; [exact Hc|].
  intros name a entries Hroot. unfold run. rewrite Hroot.
  pose proof (entries_dirs_only o entries (Hall entries) [] 0 _
                (dirs_only_emit_other (rootPath w) _ H0)) as H2.
  destruct (each _ _ _ _) as [[|what|] st2]; cbn [snd final ending] in H2 |- *;
    try discriminate.
  intros _. exists (dirCount st2). cbn [emit cout]. rewrite last_last.
  destruct H2 as [H2 _]. rewrite H2. reflexivity.
Qed.
End TreeProofs.

Lemma tree_d_lists_no_files_witness :
  Tree.onlyDirs DirsOnly.option_d = true /\
  map Tree.line_text (Tree.cout (Tree.final (Tree.run DirsOnly.option_d DirsOnly.project)))
  = [CStr.lit "/home/user/project";
     Tree.corner ++ Tree.dash ++ Tree.dash ++ CStr.lit " "
       ++ Tree.COLOR_BLUE ++ CStr.lit "src" ++ Tree.COLOR_RESET;
     [];
     CStr.lit "1 directories, 0 files"] /\
  Tree.fileCount (Tree.final (Tree.run DirsOnly.option_d DirsOnly.project)) = 0.
Proof.
  split; [reflexivity|]. split; [vm_compute; reflexivity|].
  exact (proj1 (proj2 (tree_d_lists_no_files DirsOnly.option_d DirsOnly.project
                         eq_refl))).
Defined.

(** ** whois *)

Section AddressForm.
Import CStr Cxx Regex Whois Referral Reach.











End AddressForm.

Section WhoisProofs.
Import CStr Cxx Whois Referral.











End WhoisProofs.



(** ** tee and stat *)

Section TeeFrames.
Import CStr Proc Tee TeeStory.
Variable strerror : Z -> str.

Lemma calls_about_call t c st :
  calls_about t (call c st)
  = calls_about t st ++ (if about t c then [c] else []).
Proof. unfold calls_about. cbn [call trace]. rewrite filter_app. reflexivity. Qed.

Lemma do_read_spec r st :
  fst (do_read r st) = fst (after_read r (buffer st)) /\
  buffer (snd (do_read r st)) = snd (after_read r (buffer st)) /\
  stderr (snd (do_read r st)) = stderr st /\
  forall t, calls_about t (snd (do_read r st)) = calls_about t st.
Proof.
  destruct r as [d|e]; cbn; repeat split; intros t;
    unfold calls_about; cbn; rewrite filter_app; cbn; apply app_nil_r.
Qed.

(** A write that raises no signal returns what the world answers and
    leaves its errno when that is -1. *)
Lemma do_write_spec w iter who fd n st :
  write_signal w iter who n = None ->
  fst (do_write w iter who fd n st) = Wrote (fst (write_result w iter who n)) /\
  buffer (snd (do_write w iter who fd n st)) = buffer st /\
  stderr (snd (do_write w iter who fd n st)) = stderr st /\
  trace (snd (do_write w iter who fd n st))
  = trace st ++ [SysWrite who fd (firstn (Z.to_nat n) (buffer st)) n
                          (fst (write_result w iter who n))] /\
  (fst (write_result w iter who n) = -1 ->
   errno (snd (do_write w iter who fd n st)) = snd (write_result w iter who n)).
Proof.
  intros Hs. unfold do_write. rewrite Hs.
  destruct (write_result w iter who n) as [ret e].
  cbn. repeat split. intros ->. reflexivity.
Qed.

(** Whatever the world answers, a write leaves standard error alone. *)
Lemma do_write_stderr w iter who fd n st :
  stderr (snd (do_write w iter who fd n st)) = stderr st.
Proof.
  unfold do_write. destruct (write_signal w iter who n); [reflexivity|].
  destruct (write_result w iter who n). reflexivity.
Qed.

Lemma target_eqb_refl t : target_eqb t t = true.
Proof. destruct t; cbn; [reflexivity|apply Nat.eqb_refl]. Qed.

Lemma at_index_cons {A} (x : A) l i0 j :
  at_index (x :: l) i0 j = if Nat.eqb j i0 then Some x else at_index l (S i0) j.
Proof.
  unfold at_index.
  destruct (Nat.eqb_spec j i0) as [->|Hne].
  - rewrite Nat.leb_refl, Nat.sub_diag. reflexivity.
  - destruct (Nat.leb_spec i0 j) as [H|H].
    + destruct (Nat.leb_spec (S i0) j) as [H'|H']; [|lia].
      replace (j - i0)%nat with (S (j - S i0)) by lia. reflexivity.
    + destruct (Nat.leb_spec (S i0) j) as [H'|H']; [lia|reflexivity].
Qed.

Lemma at_index_nil {A} i0 j : at_index (@nil A) i0 j = None.
Proof. unfold at_index. destruct (i0 <=? j)%nat; [|reflexivity]. destruct (j - i0)%nat; reflexivity. Qed.

Lemma at_index_0 {A} (l : list A) j : at_index l 0 j = nth_error l j.
Proof. unfold at_index. cbn. rewrite Nat.sub_0_r. reflexivity. Qed.

Lemma about_file_eq j i : target_eqb (ToFile j) (ToFile i) = Nat.eqb j i.
Proof. reflexivity. Qed.

Lemma open_files_spec w f names : forall i0 st,
  buffer (snd (open_files strerror w f i0 names st)) = buffer st /\
  incl (stderr st) (stderr (snd (open_files strerror w f i0 names st))) /\
  calls_about ToStdout (snd (open_files strerror w f i0 names st)) = calls_about ToStdout st /\
  (forall j, calls_about (ToFile j) (snd (open_files strerror w f i0 names st))
             = calls_about (ToFile j) st
               ++ match at_index names i0 j with
                  | Some name => [open_call w f j name]
                  | None => []
                  end) /\
  (forall j, at_index (fst (open_files strerror w f i0 names st)) i0 j
             = match at_index names i0 j with
               | Some _ => Some (fst (open_result w j))
               | None => None
               end) /\
  (forall j name, at_index names i0 j = Some name ->
     fst (open_result w j) = -1 ->
     In (error_line strerror name (snd (open_result w j)))
        (stderr (snd (open_files strerror w f i0 names st)))).
Proof.
  induction names as [|name names IH]; intros i0 st.
  - cbn [open_files fst snd]. repeat split.
    + apply incl_refl.
    + intros j. rewrite at_index_nil, app_nil_r. reflexivity.
    + intros j. rewrite !at_index_nil. reflexivity.
    + intros j nm H. rewrite at_index_nil in H. discriminate H.
  - cbn [open_files]. destruct (open_result w i0) as [ret e] eqn:Ho.
    set (st1 := set_errno ret e (call (SysOpen i0 name (open_flags f) 438 ret) st)).
    set (st2 := if ret =? -1 then report strerror name st1 else _).
    assert (Hb : buffer st2 = buffer st)
      by (subst st2 st1; destruct (ret =? -1); [|destruct (verbose_mode f)]; reflexivity).
    assert (Ht : trace st2 = trace st ++ [SysOpen i0 name (open_flags f) 438 ret])
      by (subst st2 st1; destruct (ret =? -1); [|destruct (verbose_mode f)]; reflexivity).
    assert (Hs : incl (stderr st) (stderr st2)).
    { subst st2 st1. destruct (ret =? -1); [|destruct (verbose_mode f)];
        cbn; try apply incl_refl; apply incl_appl, incl_refl. }
    assert (He : ret = -1 -> In (error_line strerror name e) (stderr st2)).
    { intros ->. subst st2 st1. cbn. apply in_or_app. right. left. reflexivity. }
    specialize (IH (S i0) st2).
    destruct (open_files strerror w f (S i0) names st2) as [fds st3].
    cbn [fst snd] in *.
    destruct IH as (IHb & IHs & IHo & IHf & IHd & IHe).
    split; [congruence|].
    split; [eapply incl_tran; eassumption|].
    split.
    { rewrite IHo. unfold calls_about. rewrite Ht, filter_app. cbn.
      apply app_nil_r. }
    split.
    { intros j. rewrite IHf, at_index_cons. unfold calls_about at 1.
      rewrite Ht, filter_app. cbn [filter about]. rewrite about_file_eq.
      fold (calls_about (ToFile j) st). rewrite <- app_assoc.
      destruct (Nat.eqb_spec j i0) as [->|Hne].
      - unfold at_index. destruct (Nat.leb_spec (S i0) i0); [lia|].
        unfold open_call. rewrite Ho. reflexivity.
      - reflexivity. }
    split.
    { intros j. rewrite !at_index_cons, IHd.
      destruct (Nat.eqb_spec j i0) as [->|Hne]; [rewrite Ho|]; reflexivity. }
    intros j nm H Hfail. rewrite at_index_cons in H.
    destruct (Nat.eqb_spec j i0) as [->|Hne].
    + injection H as <-. rewrite Ho in Hfail |- *. cbn [fst snd] in *.
      apply IHs, He, Hfail.
    + apply IHe; assumption.
Qed.

Lemma file_run_about w t i : forall cs fd,
  filter (about t) (fst (file_run w i fd cs))
  = if target_eqb t (ToFile i) then fst (file_run w i fd cs) else [].
Proof.
  induction cs as [|c cs IH]; intros fd; cbn [file_run].
  - cbn. destruct (target_eqb t (ToFile i)); reflexivity.
  - destruct (fd =? -1); [cbn; destruct (target_eqb t (ToFile i)); reflexivity|].
    destruct (to_size_t _ =? bytes_read c).
    + specialize (IH fd). destruct (file_run w i fd cs) as [calls fd'].
      cbn [fst filter about] in *. rewrite IH.
      destruct (target_eqb t (ToFile i)); reflexivity.
    + cbn [fst filter about]. destruct (target_eqb t (ToFile i)); reflexivity.
Qed.

Lemma file_run_step w i c cs fd :
  file_run w i fd (c :: cs)
  = (fst (file_run w i fd [c]) ++ fst (file_run w i (snd (file_run w i fd [c])) cs),
     snd (file_run w i (snd (file_run w i fd [c])) cs)).
Proof.
  cbn [file_run]. destruct (fd =? -1) eqn:E.
  - cbn [fst snd]. destruct cs; cbn [file_run]; [reflexivity|]. rewrite E. reflexivity.
  - destruct (to_size_t _ =? bytes_read c).
    + cbn [fst snd app]. destruct (file_run w i fd cs); reflexivity.
    + cbn [fst snd]. destruct cs; reflexivity.
Qed.

Lemma file_run_invalid w i cs : file_run w i (-1) cs = ([], -1).
Proof. destruct cs; reflexivity. Qed.

(** The descriptor of a file is made invalid exactly by its first write
    that is not whole. *)
Lemma file_run_failed w i fd : forall cs,
  fd <> -1 ->
  snd (file_run w i fd cs)
  = match failed_write w i cs with Some _ => -1 | None => fd end.
Proof.
  intros cs Hfd. induction cs as [|c cs IH]; cbn [file_run failed_write];
    [reflexivity|].
  destruct (Z.eqb_spec fd (-1)); [contradiction|].
  destruct (to_size_t _ =? bytes_read c); [|reflexivity].
  destruct (file_run w i fd cs). exact IH.
Qed.

Lemma failed_write_step w j c cs :
  failed_write w j (c :: cs)
  = match failed_write w j [c] with
    | Some r => Some r
    | None => failed_write w j cs
    end.
Proof.
  cbn [failed_write]. destruct (to_size_t _ =? bytes_read c); reflexivity.
Qed.

(** One pass over the files when no write of the pass raises a signal. *)
Lemma write_files_spec w iter n names : forall fds i0 st,
  (forall who, write_signal w iter who n = None) ->
  List.length names = List.length fds ->
  fst (fst (write_files strerror w iter n i0 names fds st)) = None /\
  buffer (snd (write_files strerror w iter n i0 names fds st)) = buffer st /\
  incl (stderr st) (stderr (snd (write_files strerror w iter n i0 names fds st))) /\
  (forall t, calls_about t (snd (write_files strerror w iter n i0 names fds st))
     = calls_about t st
       ++ match t with
          | ToStdout => []
          | ToFile j =>
              match at_index fds i0 j with
              | Some fd => fst (file_run w j fd [chunk_of iter n st])
              | None => []
              end
          end) /\
  (forall j, at_index (snd (fst (write_files strerror w iter n i0 names fds st))) i0 j
             = match at_index fds i0 j with
               | Some fd => Some (snd (file_run w j fd [chunk_of iter n st]))
               | None => None
               end) /\
  List.length (snd (fst (write_files strerror w iter n i0 names fds st)))
  = List.length fds /\
  (forall j fd name ret e,
     at_index fds i0 j = Some fd -> at_index names i0 j = Some name ->
     fd <> -1 -> failed_write w j [chunk_of iter n st] = Some (ret, e) ->
     (exists e',
        In (error_line strerror name e')
           (stderr (snd (write_files strerror w iter n i0 names fds st)))) /\
     (ret = -1 ->
      In (error_line strerror name e)
         (stderr (snd (write_files strerror w iter n i0 names fds st))))).
Proof.
  induction names as [|name names IH]; intros [|fd fds] i0 st Hsig Hlen;
    try discriminate Hlen.
  - cbn [write_files fst snd]. repeat split.
    + apply incl_refl.
    + intros [|j]; [|rewrite at_index_nil]; rewrite app_nil_r; reflexivity.
    + intros j. rewrite !at_index_nil. reflexivity.
    + rewrite at_index_nil in H. discriminate H.
    + rewrite at_index_nil in H. discriminate H.
  - cbn [write_files].
    set (p := if negb (fd =? -1) then _ else (None, fd, st)).
    assert (Hp : fst (fst p) = None /\
                 snd (fst p) = snd (file_run w i0 fd [chunk_of iter n st]) /\
                 buffer (snd p) = buffer st /\
                 incl (stderr st) (stderr (snd p)) /\
                 trace (snd p)
                 = trace st ++ fst (file_run w i0 fd [chunk_of iter n st]) /\
                 (forall ret e, fd <> -1 ->
                  failed_write w i0 [chunk_of iter n st] = Some (ret, e) ->
                  (exists e', In (error_line strerror name e') (stderr (snd p))) /\
                  (ret = -1 -> In (error_line strerror name e) (stderr (snd p))))).
    { subst p. cbn [file_run failed_write chunk_of iteration bytes_read data].
      destruct (fd =? -1) eqn:Efd; cbn [negb].
      - cbn [fst snd]. rewrite app_nil_r. repeat split; try apply incl_refl;
          apply Z.eqb_eq in Efd; contradiction.
      - destruct (do_write_spec w iter (ToFile i0) fd n st (Hsig (ToFile i0)))
          as (W1 & W2 & W3 & W4 & W5).
        destruct (do_write w iter (ToFile i0) fd n st) as [we st1].
        cbn [fst snd] in W1, W2, W3, W4, W5. subst we.
        destruct (write_result w iter (ToFile i0) n) as [ret e] eqn:Ew.
        cbn [fst snd] in *.
        destruct (to_size_t ret =? n); cbn [negb].
        + cbn [fst snd]. repeat split; try discriminate.
          * exact W2.
          * rewrite W3. apply incl_refl.
          * exact W4.
        + destruct (close_result w i0) as [cret ce]. cbn [fst snd].
          split; [reflexivity|]. split; [reflexivity|].
          split; [exact W2|].
          split; [cbn; rewrite W3; apply incl_appl, incl_refl|].
          split; [cbn; rewrite W4, <- app_assoc; reflexivity|].
          intros ret0 e0 _ H. injection H as <- <-. split.
          * eexists. cbn. apply in_or_app. right. left. reflexivity.
          * intros Hr. cbn. apply in_or_app. right. left.
            unfold error_line. rewrite (W5 Hr). reflexivity. }
    destruct p as [[r1 fd1] st1]. cbn [fst snd] in Hp.
    destruct Hp as (-> & Hfd & Hb & Hs & Ht & He).
    assert (Hlen' : List.length names = List.length fds)
      by (cbn in Hlen; lia).
    specialize (IH fds (S i0) st1 Hsig Hlen').
    destruct (write_files strerror w iter n (S i0) names fds st1)
      as [[r2 fds2] st2].
    cbn [fst snd] in *.
    destruct IH as (IHr & IHb & IHs & IHc & IHd & IHl & IHe).
    assert (Hc : chunk_of iter n st1 = chunk_of iter n st)
      by (unfold chunk_of; rewrite Hb; reflexivity).
    rewrite Hc in *.
    split; [exact IHr|].
    split; [congruence|].
    split; [eapply incl_tran; eassumption|].
    split.
    { intros t. rewrite IHc. unfold calls_about at 1.
      rewrite Ht, filter_app, file_run_about. fold (calls_about t st).
      rewrite <- app_assoc. f_equal.
      destruct t as [|j]; [reflexivity|].
      rewrite about_file_eq, at_index_cons.
      destruct (Nat.eqb_spec j i0) as [->|Hne]; [|reflexivity].
      unfold at_index. destruct (Nat.leb_spec (S i0) i0); [lia|].
      apply app_nil_r. }
    split.
    { intros j. rewrite !at_index_cons, IHd.
      destruct (Nat.eqb_spec j i0) as [->|Hne]; [rewrite Hfd|]; reflexivity. }
    split; [cbn; lia|].
    intros j fd0 nm ret e H H' Hne Hfail.
    rewrite at_index_cons in H. rewrite at_index_cons in H'.
    destruct (Nat.eqb_spec j i0) as [->|Hj].
    + injection H as <-. injection H' as <-.
      destruct (He ret e Hne Hfail) as [[e' Hin] Hex]. split.
      * exists e'. apply IHs, Hin.
      * intros Hr. apply IHs, Hex, Hr.
    + eapply IHe; eassumption.
Qed.

(** Whatever the world answers, a pass over the files only adds to
    standard error. *)
Lemma write_files_stderr w iter n names : forall fds i0 st,
  incl (stderr st) (stderr (snd (write_files strerror w iter n i0 names fds st))).
Proof.
  induction names as [|name names IH]; intros [|fd fds] i0 st;
    cbn [write_files snd]; try apply incl_refl.
  set (p := if negb (fd =? -1) then _ else (None, fd, st)).
  assert (Hp : incl (stderr st) (stderr (snd p))).
  { subst p. destruct (negb (fd =? -1)); [|apply incl_refl].
    pose proof (do_write_stderr w iter (ToFile i0) fd n st) as Hw.
    destruct (do_write w iter (ToFile i0) fd n st) as [[ret|sig] st1];
      cbn [snd] in Hw.
    - destruct (negb (to_size_t ret =? n)).
      + destruct (close_result w i0) as [cret ce]. cbn. rewrite Hw.
        apply incl_appl, incl_refl.
      + cbn. rewrite Hw. apply incl_refl.
    - cbn. rewrite Hw. apply incl_refl. }
  destruct p as [[r1 fd1] st1]. cbn [snd] in Hp.
  destruct r1 as [sig|]; [exact Hp|].
  specialize (IH fds (S i0) st1).
  destruct (write_files strerror w iter n (S i0) names fds st1) as [[r2 fds2] st2].
  cbn [snd] in *. eapply incl_tran; eassumption.
Qed.

Lemma main_loop_stderr w names : forall fuel iter fds st,
  incl (stderr st) (stderr (snd (main_loop strerror fuel w iter names fds st))).
Proof.
  induction fuel as [|fuel IH]; intros iter fds st; cbn [main_loop];
    [apply incl_refl|].
  destruct (do_read_spec (reads w iter) st) as (_ & _ & Hr & _).
  destruct (do_read (reads w iter) st) as [ret st1]. cbn [snd] in Hr.
  destruct (0 <? to_size_t ret); [|cbn; rewrite Hr; apply incl_refl].
  pose proof (do_write_stderr w iter ToStdout STDOUT_FILENO (to_size_t ret) st1)
    as Hw.
  destruct (do_write w iter ToStdout STDOUT_FILENO (to_size_t ret) st1)
    as [[wret|sig] st2]; cbn [snd] in Hw.
  - destruct (negb (to_size_t wret =? to_size_t ret)).
    + cbn. rewrite Hw, Hr. apply incl_appl, incl_refl.
    + pose proof (write_files_stderr w iter (to_size_t ret) names fds 0%nat st2)
        as Hf.
      destruct (write_files strerror w iter (to_size_t ret) 0 names fds st2)
        as [[r fds3] st3]. cbn [snd] in Hf.
      rewrite Hw, Hr in Hf.
      destruct r as [sig|]; [exact Hf|].
      eapply incl_tran; [exact Hf|apply IH].
  - cbn. rewrite Hw, Hr. apply incl_refl.
Qed.

(** The main loop when no write raises a signal. *)
Lemma main_loop_spec w names :
  no_write_signal w ->
  forall fuel iter fds st,
  List.length names = List.length fds ->
  (exists n,
     fst (fst (main_loop strerror fuel w iter names fds st))
     = if finished w fuel iter (buffer st) then LoopLeft n else LoopRunning) /\
  (forall t, calls_about t (snd (main_loop strerror fuel w iter names fds st))
     = calls_about t st
       ++ match t with
          | ToStdout => stdout_story w fuel iter (buffer st)
          | ToFile j =>
              match at_index fds 0 j with
              | Some fd => fst (file_run w j fd (chunks w fuel iter (buffer st)))
              | None => []
              end
          end) /\
  (forall j, at_index (snd (fst (main_loop strerror fuel w iter names fds st))) 0 j
             = match at_index fds 0 j with
               | Some fd =>
                   Some (snd (file_run w j fd (chunks w fuel iter (buffer st))))
               | None => None
               end) /\
  (forall j fd name ret e,
     at_index fds 0 j = Some fd -> at_index names 0 j = Some name ->
     fd <> -1 ->
     failed_write w j (chunks w fuel iter (buffer st)) = Some (ret, e) ->
     (exists e',
        In (error_line strerror name e')
           (stderr (snd (main_loop strerror fuel w iter names fds st)))) /\
     (ret = -1 ->
      In (error_line strerror name e)
         (stderr (snd (main_loop strerror fuel w iter names fds st))))).
Proof.
  intros Hsig.
  induction fuel as [|fuel IH]; intros iter fds st Hlen.
  - cbn [main_loop stdout_story chunks finished file_run fst snd]. split.
    { exists 0. reflexivity. }
    split.
    { intros t. destruct t as [|j]; [|destruct (at_index fds 0 j)]; cbn [fst];
        rewrite app_nil_r; reflexivity. }
    split.
    { intros j. destruct (at_index fds 0 j); reflexivity. }
    intros j fd nm ret e _ _ _ H. discriminate H.
  - cbn [main_loop stdout_story chunks finished].
    destruct (do_read_spec (reads w iter) st) as (Hr1 & Hr2 & Hr3 & Hr4).
    destruct (do_read (reads w iter) st) as [ret st1].
    destruct (after_read (reads w iter) (buffer st)) as [ret' b1].
    cbn [fst snd] in Hr1, Hr2, Hr3, Hr4. subst ret' b1.
    destruct (0 <? to_size_t ret); cbn [andb].
    + destruct (do_write_spec w iter ToStdout STDOUT_FILENO (to_size_t ret) st1
                  (Hsig _ _ _)) as (Hw1 & Hw2 & Hw3 & Hw4 & _).
      destruct (do_write w iter ToStdout STDOUT_FILENO (to_size_t ret) st1)
        as [we st2].
      cbn [fst snd] in Hw1, Hw2, Hw3, Hw4. subst we.
      assert (Hc2 : forall t, calls_about t st2
                = calls_about t st
                  ++ match t with
                     | ToStdout =>
                         [SysWrite ToStdout STDOUT_FILENO
                            (firstn (Z.to_nat (to_size_t ret)) (buffer st1))
                            (to_size_t ret)
                            (fst (write_result w iter ToStdout (to_size_t ret)))]
                     | ToFile _ => []
                     end).
      { intros t. unfold calls_about at 1. rewrite Hw4, filter_app.
        fold (calls_about t st1). rewrite Hr4. f_equal.
        destruct t; reflexivity. }
      destruct (to_size_t (fst (write_result w iter ToStdout (to_size_t ret)))
                =? to_size_t ret); cbn [negb].
      * destruct (write_files_spec w iter (to_size_t ret) names fds 0 st2
                    (fun who => Hsig _ _ _) Hlen)
          as (Hf0 & Hf1 & Hf2 & Hf3 & Hf4 & Hf5 & Hf6).
        destruct (write_files strerror w iter (to_size_t ret) 0 names fds st2)
          as [[r3 fds3] st3].
        cbn [fst snd] in Hf0, Hf1, Hf2, Hf3, Hf4, Hf5, Hf6. subst r3.
        assert (Hlen3 : List.length names = List.length fds3) by congruence.
        specialize (IH (S iter) fds3 st3 Hlen3).
        pose proof (main_loop_stderr w names fuel (S iter) fds3 st3) as I1.
        destruct (main_loop strerror fuel w (S iter) names fds3 st3)
          as [[br fds4] st4].
        cbn [fst snd] in IH, I1 |- *.
        destruct IH as (I0 & I2 & I3 & I4).
        assert (Hch : chunk_of iter (to_size_t ret) st2
                      = {| iteration := iter; bytes_read := to_size_t ret;
                           data := firstn (Z.to_nat (to_size_t ret)) (buffer st1) |})
          by (unfold chunk_of; rewrite Hw2; reflexivity).
        rewrite Hch in *. clear Hch.
        set (c := {| iteration := iter; bytes_read := to_size_t ret;
                     data := firstn (Z.to_nat (to_size_t ret)) (buffer st1) |}) in *.
        assert (Hb3 : buffer st3 = buffer st1) by congruence.
        rewrite Hb3 in *.
        split; [exact I0|].
        split.
        { intros t. rewrite I2, Hf3, Hc2, <- !app_assoc. f_equal.
          destruct t as [|j]; [reflexivity|]. cbn [app].
          rewrite Hf4. destruct (at_index fds 0 j) as [fd|]; [|reflexivity].
          rewrite (file_run_step w j c (chunks w fuel (S iter) (buffer st1)) fd).
          reflexivity. }
        split.
        { intros j. rewrite I3, Hf4.
          destruct (at_index fds 0 j) as [fd|]; [|reflexivity].
          rewrite (file_run_step w j c (chunks w fuel (S iter) (buffer st1)) fd).
          reflexivity. }
        intros j fd nm ret0 e0 H H' Hne Hfail.
        rewrite failed_write_step in Hfail.
        destruct (failed_write w j [c]) as [[r1 e1]|] eqn:E1.
        -- injection Hfail as <- <-.
           destruct (Hf6 j fd nm r1 e1 H H' Hne E1) as [[e' Hin] Hex]. split.
           ++ exists e'. apply I1, Hin.
           ++ intros Hr. apply I1, Hex, Hr.
        -- apply (I4 j fd nm ret0 e0); try assumption.
           rewrite Hf4, H, (file_run_failed w j fd [c] Hne), E1. reflexivity.
      * cbn [fst snd perror eprint stderr]. split; [eexists; reflexivity|].
        split.
        { intros t. unfold calls_about at 1. cbn [trace eprint perror].
          fold (calls_about t st2). rewrite Hc2. f_equal.
          destruct t as [|j]; [reflexivity|].
          cbn [file_run]. destruct (at_index fds 0 j); reflexivity. }
        split.
        { intros j. cbn [file_run]. destruct (at_index fds 0 j); reflexivity. }
        intros j fd nm ret0 e0 _ _ _ Hfail. discriminate Hfail.
    + cbn [fst snd file_run]. split; [eexists; reflexivity|].
      split.
      { intros t. rewrite Hr4.
        destruct t as [|j]; [|destruct (at_index fds 0 j)]; cbn [fst];
          rewrite app_nil_r; reflexivity. }
      split.
      { intros j. destruct (at_index fds 0 j); reflexivity. }
      intros j fd nm ret0 e0 _ _ _ Hfail. discriminate Hfail.
Qed.

Lemma close_files_spec w : forall fds i0 st,
  incl (stderr st) (stderr (close_files strerror w i0 fds st)) /\
  (forall t, calls_about t (close_files strerror w i0 fds st)
     = calls_about t st
       ++ match t with
          | ToStdout => []
          | ToFile j =>
              match at_index fds i0 j with
              | Some fd =>
                  if fd =? -1 then []
                  else [SysClose j fd (fst (close_result w j))]
              | None => []
              end
          end).
Proof.
  induction fds as [|fd fds IH]; intros i0 st.
  - cbn [close_files]. split; [apply incl_refl|].
    intros [|j]; [|rewrite at_index_nil]; rewrite app_nil_r; reflexivity.
  - cbn [close_files].
    set (st1 := if negb (fd =? -1) then _ else st).
    assert (H1 : incl (stderr st) (stderr st1) /\
                 trace st1
                 = trace st ++ (if fd =? -1 then []
                                else [SysClose i0 fd (fst (close_result w i0))])).
    { subst st1. destruct (fd =? -1); cbn [negb].
      - rewrite app_nil_r. split; [apply incl_refl|reflexivity].
      - destruct (close_result w i0) as [cret ce]. cbn [fst].
        destruct (cret =? -1); cbn; split; try reflexivity;
          try apply incl_refl. apply incl_appl, incl_refl. }
    destruct H1 as [Hs Ht]. destruct (IH (S i0) st1) as [I1 I2].
    split; [eapply incl_tran; eassumption|].
    intros t. rewrite I2. unfold calls_about at 1. rewrite Ht, filter_app.
    fold (calls_about t st). rewrite <- app_assoc. f_equal.
    destruct t as [|j].
    + destruct (fd =? -1); reflexivity.
    + rewrite at_index_cons. destruct (Nat.eqb_spec j i0) as [->|Hne].
      * unfold at_index at 1. destruct (Nat.leb_spec (S i0) i0); [lia|].
        rewrite app_nil_r. destruct (fd =? -1); [reflexivity|].
        cbn. rewrite Nat.eqb_refl. reflexivity.
      * destruct (fd =? -1); [reflexivity|]. cbn.
        apply Nat.eqb_neq in Hne. rewrite Hne. reflexivity.
Qed.
End TeeFrames.

Section TeeTheorems.
Import CStr Proc Tee TeeStory Reporting.
Variable strerror : Z -> str.

Lemma open_files_length w f names : forall i0 st,
  List.length (fst (open_files strerror w f i0 names st)) = List.length names.
Proof.
  induction names as [|name names IH]; intros i0 st; cbn [open_files].
  - reflexivity.
  - destruct (open_result w i0) as [ret e].
    match goal with |- context [open_files strerror w f (S i0) names ?s] =>
      specialize (IH (S i0) s); destruct (open_files strerror w f (S i0) names s)
    end.
    cbn [fst List.length] in *. congruence.
Qed.



(** What a run that gets past the options and the allocation leaves when
    no write raises a signal: how it ends, the calls about every target,
    the descriptors and the error lines. *)
Lemma main_story fuel w opts f names :
  parse_options opts no_flags = inl f ->
  (names = [] \/ malloc_ok w = true) ->
  no_write_signal w ->
  fst (fst (main strerror fuel w opts names))
  = (if finished w fuel 0 [] then Exit EXIT_SUCCESS else OutOfFuel) /\
  calls_about ToStdout (snd (main strerror fuel w opts names))
  = stdout_story w fuel 0 [] /\
  forall i name, nth_error names i = Some name ->
    calls_about (ToFile i) (snd (main strerror fuel w opts names))
    = file_story w (append_flag f) i name (chunks w fuel 0 [])
        (finished w fuel 0 []) /\
    nth_error (snd (fst (main strerror fuel w opts names))) i
    = Some (snd (file_run w i (fst (open_result w i)) (chunks w fuel 0 []))) /\
    (fst (open_result w i) = -1 ->
     In (error_line strerror name (snd (open_result w i)))
        (stderr (snd (main strerror fuel w opts names)))) /\
    (fst (open_result w i) <> -1 ->
     forall ret e, failed_write w i (chunks w fuel 0 []) = Some (ret, e) ->
       (exists e', In (error_line strerror name e')
                      (stderr (snd (main strerror fuel w opts names)))) /\
       (ret = -1 ->
        In (error_line strerror name e)
           (stderr (snd (main strerror fuel w opts names))))).
Proof.
  intros Hp Hm Hsig. unfold main. rewrite Hp.
  assert (Hg : match names with [] => false | _ => negb (malloc_ok w) end = false).
  { destruct Hm as [->|Hm]; [reflexivity|]. rewrite Hm. destruct names; reflexivity. }
  rewrite Hg.
  set (st0 := call (SysSignal SIGINT _) initial).
  assert (H0 : forall t, calls_about t st0 = []) by (intros t; reflexivity).
  assert (Hb0 : buffer st0 = []) by reflexivity.
  destruct (open_files_spec strerror w f names 0 st0)
    as (Ob & Os & Oo & Of & Od & Oe).
  pose proof (open_files_length w f names 0 st0) as Ol.
  destruct (open_files strerror w f 0 names st0) as [fds st1].
  cbn [fst snd] in Ob, Os, Oo, Of, Od, Oe, Ol.
  destruct (main_loop_spec strerror w names Hsig fuel 0 fds st1 (eq_sym Ol))
    as ([n Mn] & Mc & Md & Me).
  pose proof (main_loop_stderr strerror w names fuel 0 fds st1) as Ms.
  destruct (main_loop strerror fuel w 0 names fds st1) as [[le fds2] st2].
  cbn [fst snd] in Mn, Ms, Mc, Md, Me.
  rewrite Ob, Hb0 in Mn, Mc, Md, Me. subst le.
  destruct (finished w fuel 0 []).
  - set (st3 := if n =? to_size_t (-1) then perror strerror "Read error" st2 else st2).
    assert (H3 : trace st3 = trace st2 /\ incl (stderr st2) (stderr st3)).
    { subst st3. destruct (n =? to_size_t (-1)); cbn; split; try reflexivity;
        [apply incl_appl|]; apply incl_refl. }
    destruct H3 as [Ht3 Hs3].
    destruct (close_files_spec strerror w fds2 0 st3) as [Cs Cc].
    cbn [fst snd].
    split; [reflexivity|]. split.
    + rewrite Cc. unfold calls_about at 1. rewrite Ht3.
      fold (calls_about ToStdout st2). rewrite Mc, Oo, H0, app_nil_r. reflexivity.
    + intros i name Hn.
      assert (Hn' : at_index names 0 i = Some name) by (rewrite at_index_0; exact Hn).
      assert (Hfd : at_index fds 0 i = Some (fst (open_result w i)))
        by (rewrite Od, Hn'; reflexivity).
      split.
      { rewrite Cc. unfold calls_about at 1. rewrite Ht3.
        fold (calls_about (ToFile i) st2). rewrite Mc, Of, H0, Hn', Md, Hfd.
        unfold file_story, open_call, open_flags.
        destruct (file_run w i (fst (open_result w i)) (chunks w fuel 0 []))
          as [calls fd']. cbn [fst snd app negb orb].
        reflexivity. }
      split.
      { rewrite <- at_index_0, Md, Hfd. reflexivity. }
      split.
      * intros Hfail. apply Cs, Hs3, Ms. apply (Oe i name Hn' Hfail).
      * intros Hok ret e Hfail.
        destruct (Me i _ name ret e Hfd Hn' Hok Hfail) as [[e' Hin] Hex]. split.
        -- exists e'. apply Cs, Hs3, Hin.
        -- intros Hr. apply Cs, Hs3, Hex, Hr.
  - cbn [fst snd].
    split; [reflexivity|]. split.
    + rewrite Mc, Oo, H0. reflexivity.
    + intros i name Hn.
      assert (Hn' : at_index names 0 i = Some name) by (rewrite at_index_0; exact Hn).
      assert (Hfd : at_index fds 0 i = Some (fst (open_result w i)))
        by (rewrite Od, Hn'; reflexivity).
      split.
      { rewrite Mc, Of, H0, Hn', Hfd.
        unfold file_story, open_call, open_flags.
        destruct (file_run w i (fst (open_result w i)) (chunks w fuel 0 []))
          as [calls fd']. cbn [fst snd app negb orb]. rewrite app_nil_r.
        reflexivity. }
      split.
      { rewrite <- at_index_0, Md, Hfd. reflexivity. }
      split.
      * intros Hfail. apply Ms. apply (Oe i name Hn' Hfail).
      * intros Hok ret e Hfail.
        exact (Me i _ name ret e Hfd Hn' Hok Hfail).
Qed.


End TeeTheorems.



Section StatProofs.
Import CStr Proc Stat Reporting.
Variable stat_buf : Type.
Variable strerror : Z -> str.
Variable file_stat_text : options_t -> str -> stat_buf -> str.
Variables help_text version_text : str.



End StatProofs.




(** ** conf-convert: the order of the keys *)

Section OrderFacts.
Import CStr Cxx KeyOrder.

Lemma str_ltb_trans a : forall b c,
  str_ltb a b = true -> str_ltb b c = true -> str_ltb a c = true.
Proof.
  induction a as [|x a IH]; intros [|y b] [|z c]; cbn; intros H1 H2;
    try discriminate; try reflexivity.
  destruct (N.ltb_spec (code x) (code y)) as [Hxy|Hxy].
  - destruct (N.ltb_spec (code y) (code z)) as [Hyz|Hyz].
    + destruct (N.ltb_spec (code x) (code z)); [reflexivity|lia].
    + destruct (N.ltb_spec (code z) (code y)); [discriminate|].
      destruct (N.ltb_spec (code x) (code z)); [reflexivity|lia].
  - destruct (N.ltb_spec (code y) (code x)); [discriminate|].
    destruct (N.ltb_spec (code y) (code z)) as [Hyz|Hyz].
    + destruct (N.ltb_spec (code x) (code z)); [reflexivity|lia].
    + destruct (N.ltb_spec (code z) (code y)); [discriminate|].
      destruct (N.ltb_spec (code x) (code z)); [lia|].
      destruct (N.ltb_spec (code z) (code x)); [lia|].
      apply (IH b c); assumption.
Qed.

Lemma str_ltb_neq a b : str_ltb a b = true -> str_eqb a b = false.
Proof.
  intros H. destruct (str_eqb a b) eqn:E; [|reflexivity].
  apply str_eqb_eq in E. subst. rewrite str_ltb_irrefl in H. discriminate H.
Qed.

Lemma str_ltb_asym a b : str_ltb a b = true -> str_ltb b a = false.
Proof.
  intros H. destruct (str_ltb b a) eqn:E; [|reflexivity].
  pose proof (str_ltb_trans a b a H E) as H'.
  rewrite str_ltb_irrefl in H'. discriminate H'.
Qed.

Lemma ascending_cons {V} (k : str) (v : V) mp :
  ascending ((k, v) :: mp) <-> ascending mp /\ above k mp.
Proof.
  unfold ascending, above. split.
  - intros H. inversion H; subst. split; assumption.
  - intros [H1 H2]. constructor; assumption.
Qed.

Lemma above_trans {V} k k' (mp : omap V) :
  str_ltb k k' = true -> above k' mp -> above k mp.
Proof.
  intros H. unfold above. apply Forall_impl. intros e He.
  eapply str_ltb_trans; eassumption.
Qed.

Lemma map_set_above {V} k0 k (v : V) mp :
  str_ltb k0 k = true -> above k0 mp -> above k0 (map_set k v mp).
Proof.
  intros Hk. induction mp as [|[k' v'] mp IH]; intros H; cbn [map_set].
  - constructor; [exact Hk|constructor].
  - inversion H as [|e l He Hl]; subst. cbn [fst] in He.
    destruct (str_ltb k k'); [constructor; [exact Hk|exact H]|].
    destruct (str_ltb k' k) eqn:E.
    + constructor; [exact He|]. apply IH, Hl.
    + constructor; [exact He|exact Hl].
Qed.

Lemma map_set_ascending {V} k (v : V) mp :
  ascending mp -> ascending (map_set k v mp).
Proof.
  induction mp as [|[k' v'] mp IH]; intros H; cbn [map_set].
  - constructor; constructor.
  - apply ascending_cons in H. destruct H as [H1 H2].
    destruct (str_ltb k k') eqn:E1.
    + apply ascending_cons. split.
      * apply ascending_cons. split; assumption.
      * constructor; [exact E1|]. eapply above_trans; eassumption.
    + destruct (str_ltb k' k) eqn:E2.
      * apply ascending_cons. split; [apply IH, H1|].
        apply map_set_above; assumption.
      * apply ascending_cons. split; assumption.
Qed.

(** Storing twice under one key leaves the second value alone. *)
Lemma map_set_twice {V} k (v1 v2 : V) mp :
  map_set k v2 (map_set k v1 mp) = map_set k v2 mp.
Proof.
  induction mp as [|[k' v'] mp IH]; cbn [map_set].
  - rewrite str_ltb_irrefl. reflexivity.
  - destruct (str_ltb k k') eqn:E1.
    + cbn [map_set]. rewrite str_ltb_irrefl. reflexivity.
    + destruct (str_ltb k' k) eqn:E2; cbn [map_set]; rewrite E1, E2.
      * rewrite IH. reflexivity.
      * reflexivity.
Qed.

Lemma map_find_set {V} k (v : V) mp : map_find k (map_set k v mp) = Some v.
Proof.
  induction mp as [|[k' v'] mp IH]; cbn [map_set map_find].
  - assert (E : str_eqb k k = true) by (apply str_eqb_eq; reflexivity).
    rewrite E. reflexivity.
  - destruct (str_ltb k k') eqn:E1.
    + cbn [map_find].
      assert (E : str_eqb k k = true) by (apply str_eqb_eq; reflexivity).
      rewrite E. reflexivity.
    + destruct (str_ltb k' k) eqn:E2; cbn [map_find].
      * assert (E : str_eqb k k' = false).
        { destruct (str_eqb k k') eqn:E; [|reflexivity].
          apply str_eqb_eq in E. subst. rewrite str_ltb_irrefl in E2.
          discriminate E2. }
        rewrite E. exact IH.
      * rewrite (str_ltb_total k k' E1 E2).
        assert (E : str_eqb k' k' = true) by (apply str_eqb_eq; reflexivity).
        rewrite E. reflexivity.
Qed.

Lemma below_find {V} k (mp : omap V) : below k mp -> map_find k mp = None.
Proof.
  induction 1 as [|[k' v'] mp He Hl IH]; cbn [map_find]; [reflexivity|].
  cbn [fst] in He.
  assert (E : str_eqb k k' = false).
  { destruct (str_eqb k k') eqn:E; [|reflexivity].
    apply str_eqb_eq in E. subst. rewrite str_ltb_irrefl in He. discriminate He. }
  rewrite E. exact IH.
Qed.

Lemma below_set {V} k (v : V) mp : below k mp -> map_set k v mp = mp ++ [(k, v)].
Proof.
  induction 1 as [|[k' v'] mp He Hl IH]; cbn [map_set app]; [reflexivity|].
  cbn [fst] in He. rewrite (str_ltb_asym k' k He), He, IH. reflexivity.
Qed.

Lemma map_erase_ascending {V} k (mp : omap V) :
  ascending mp -> ascending (map_erase k mp).
Proof.
  unfold map_erase. induction mp as [|[k' v'] mp IH]; intros H; cbn [filter].
  - constructor.
  - apply ascending_cons in H. destruct H as [H1 H2].
    destruct (negb (str_eqb k k')); [|apply IH, H1].
    apply ascending_cons. split; [apply IH, H1|].
    unfold above in *. rewrite Forall_forall in *. intros e He.
    apply filter_In in He. apply H2, He.
Qed.

Lemma ascending_app_below {V} (k : str) (v : V) rest : forall acc,
  ascending (acc ++ (k, v) :: rest) -> below k acc.
Proof.
  induction acc as [|[k' v'] acc IH]; intros H; [constructor|].
  cbn [app] in H. apply ascending_cons in H. destruct H as [H1 H2].
  constructor; [|apply IH, H1].
  unfold above in H2. rewrite Forall_forall in H2.
  apply (H2 (k, v)). apply in_elt.
Qed.

Lemma sorted_copy_from rest : forall acc,
  ascending (acc ++ rest) ->
  fold_left (fun (acc : smap) '(k, v) =>
               if map_count k acc then acc else map_set k v acc) rest acc
  = acc ++ rest.
Proof.
  induction rest as [|[k v] rest IH]; intros acc H; cbn [fold_left].
  - rewrite app_nil_r. reflexivity.
  - pose proof (ascending_app_below k v rest acc H) as Hb.
    unfold map_count. rewrite (below_find k acc Hb), (below_set k v acc Hb).
    rewrite IH; rewrite <- app_assoc; [reflexivity|exact H].
Qed.

(** The copy --sort makes of a store already in order is that store. *)
Lemma sorted_copy_ascending mp :
  ascending mp -> ConfConvert.sorted_copy mp = mp.
Proof. intros H. apply (sorted_copy_from mp []). exact H. Qed.
End OrderFacts.

Section ParserFacts.
Import CStr Cxx Regex ConfConvert KeyOrder.

Lemma parseINI_lines_ascending preserve lines : forall st,
  ascending (data st) ->
  ascending (data (snd (parseINI_lines preserve st lines))).
Proof.
  induction lines as [|line lines IH]; intros st H; cbn [parseINI_lines];
    [exact H|].
  destruct (parseINI_line preserve st line) as [st'|] eqn:E; [|exact H].
  apply IH. unfold parseINI_line in E.
  destruct (regex_match false comment_pattern line);
    [injection E as <-; exact H|].
  destruct (regex_match false section_pattern line);
    [injection E as <-; exact H|].
  destruct (regex_match false keyvalue_pattern line);
    [|injection E as <-; exact H].
  destruct (trim _); [|discriminate E].
  destruct (trim _); [|discriminate E].
  injection E as <-. cbn [data]. apply map_set_ascending, H.
Qed.

Lemma parseINI_ascending c content :
  ascending (config_data c) ->
  ascending (config_data (snd (parseINI c content))).
Proof.
  intros H. unfold parseINI.
  pose proof (parseINI_lines_ascending (preserve_comments c) (getlines content)
                {| current_section := []; data := config_data c;
                   cmts := comments c |} H) as H'.
  destruct (parseINI_lines _ _ _) as [ok st]. exact H'.
Qed.

Lemma store_matches_ascending r content d :
  ascending d -> ascending (store_matches r content d).
Proof.
  unfold store_matches. generalize (regex_iterate false r content).
  intros l. revert d. induction l as [|mt l IH]; intros d H; cbn [fold_left];
    [exact H|].
  apply IH, map_set_ascending, H.
Qed.

Lemma parseJSON_ascending c content :
  ascending (config_data c) ->
  ascending (config_data (snd (parseJSON c content))).
Proof.
  intros H. unfold parseJSON. cbn [snd set_data config_data].
  repeat apply store_matches_ascending. exact H.
Qed.

Lemma line_loop_ascending body :
  (forall st line st', body st line = Some st' ->
     ascending (fst st) -> ascending (fst st')) ->
  forall lines st,
    ascending (fst st) -> ascending (fst (snd (line_loop body st lines))).
Proof.
  intros Hbody. induction lines as [|line lines IH]; intros st H;
    cbn [line_loop]; [exact H|].
  destruct (body st line) as [st'|] eqn:E; [|exact H].
  apply IH. eapply Hbody; eassumption.
Qed.

Lemma parseYAML_ascending c content :
  ascending (config_data c) ->
  ascending (config_data (snd (parseYAML c content))).
Proof.
  intros H. unfold parseYAML.
  assert (Hbody : forall st line st',
             parseYAML_line (preserve_comments c) st line = Some st' ->
             ascending (fst st) -> ascending (fst st')).
  { intros [d cm] line st' E Hst. unfold parseYAML_line in E.
    destruct (regex_match false hash_comment_pattern line);
      [injection E as <-; exact Hst|].
    destruct (regex_match false yaml_pattern line);
      [|injection E as <-; exact Hst].
    destruct (trim _); [|discriminate E].
    destruct (trim _); [|discriminate E].
    destruct (unquote _); [|discriminate E].
    injection E as <-. apply map_set_ascending, Hst. }
  pose proof (line_loop_ascending _ Hbody (getlines content)
                (config_data c, comments c) H) as L.
  destruct (line_loop _ _ _) as [ok [d cm]]. exact L.
Qed.

Lemma parseENV_ascending c content :
  ascending (config_data c) ->
  ascending (config_data (snd (parseENV c content))).
Proof.
  intros H. unfold parseENV.
  assert (Hbody : forall st line st',
             parseENV_line (preserve_comments c) st line = Some st' ->
             ascending (fst st) -> ascending (fst st')).
  { intros [d cm] line st' E Hst. unfold parseENV_line in E.
    destruct (regex_match false hash_comment_pattern line);
      [injection E as <-; exact Hst|].
    destruct (regex_match false env_pattern line);
      [|injection E as <-; exact Hst].
    destruct (unquote _); [|discriminate E].
    injection E as <-. apply map_set_ascending, Hst. }
  pose proof (line_loop_ascending _ Hbody (getlines content)
                (config_data c, comments c) H) as L.
  destruct (line_loop _ _ _) as [ok [d cm]]. exact L.
Qed.

Lemma filterKeys_ascending c :
  ascending (config_data c) -> ascending (config_data (filterKeys c)).
Proof.
  intros H. unfold filterKeys. cbn [set_data config_data].
  set (kept := match include_keys c with [] => config_data c | _ => _ end).
  assert (Hk : ascending kept).
  { subst kept. destruct (include_keys c) as [|k ks]; [exact H|].
    generalize (k :: ks). intros keys.
    assert (G : forall acc, ascending acc ->
              ascending (fold_left (fun filtered key =>
                           match map_find key (config_data c) with
                           | Some v => map_set key v filtered
                           | None => filtered
                           end) keys acc)).
    { induction keys as [|key keys IH]; intros acc Ha; cbn [fold_left];
        [exact Ha|].
      apply IH. destruct (map_find key (config_data c));
        [apply map_set_ascending|]; exact Ha. }
    apply G. constructor. }
  revert Hk. generalize kept. generalize (exclude_keys c).
  induction l as [|key keys IH]; intros d Hd; cbn [fold_left]; [exact Hd|].
  apply IH, map_erase_ascending, Hd.
Qed.
End ParserFacts.

Section StageFacts.
Import CStr Cxx Regex ConfConvert KeyOrder.

Lemma convert_stages c w :
  convert c w
  = match read_stage c w with
    | None =>
        fail (lit "conf-convert: cannot open input file '" ++ input_file c
              ++ lit "'" ++ [newline])
    | Some content =>
        match detect_stage c content with
        | Exn e => fail (lit "conf-convert: error: " ++ e ++ [newline])
        | Ok c =>
            match parse_stage c content with
            | None =>
                fail (lit "conf-convert: unsupported input format '"
                      ++ input_format c ++ lit "'" ++ [newline])
            | Some (false, _) =>
                fail (lit "conf-convert: failed to parse input as "
                      ++ input_format c ++ [newline])
            | Some (true, c) => after_parse c w
            end
        end
    end.
Proof. reflexivity. Qed.

Lemma detect_stage_sort b c content :
  detect_stage (with_sort b c) content
  = match detect_stage c content with
    | Ok c' => Ok (with_sort b c')
    | Exn e => Exn e
    end.
Proof.
  unfold detect_stage.
  change (input_format (with_sort b c)) with (input_format c).
  change (input_file (with_sort b c)) with (input_file c).
  destruct (fmt_is (input_format c) "auto"); [|reflexivity].
  destruct (detectFormat content (input_file c)); reflexivity.
Qed.

Lemma detect_stage_data c content c' :
  detect_stage c content = Ok c' -> config_data c' = config_data c.
Proof.
  unfold detect_stage. destruct (fmt_is (input_format c) "auto").
  - destruct (detectFormat content (input_file c)); cbn [bind]; [|discriminate].
    intros H. injection H as <-. reflexivity.
  - intros H. injection H as <-. reflexivity.
Qed.

Lemma parse_stage_sort b c content :
  parse_stage (with_sort b c) content
  = match parse_stage c content with
    | Some (ok, c') => Some (ok, with_sort b c')
    | None => None
    end.
Proof.
  unfold parse_stage.
  change (input_format (with_sort b c)) with (input_format c).
  destruct (fmt_is (input_format c) "json"); [reflexivity|].
  destruct (fmt_is (input_format c) "yaml" || fmt_is (input_format c) "yml").
  { unfold parseYAML.
    change (preserve_comments (with_sort b c)) with (preserve_comments c).
    change (config_data (with_sort b c)) with (config_data c).
    change (comments (with_sort b c)) with (comments c).
    destruct (line_loop _ _ _) as [ok [d cm]]. reflexivity. }
  destruct (fmt_is (input_format c) "ini" || fmt_is (input_format c) "conf").
  { unfold parseINI.
    change (preserve_comments (with_sort b c)) with (preserve_comments c).
    change (config_data (with_sort b c)) with (config_data c).
    change (comments (with_sort b c)) with (comments c).
    destruct (parseINI_lines _ _ _) as [ok st]. reflexivity. }
  destruct (fmt_is (input_format c) "env"); [|reflexivity].
  unfold parseENV.
  change (preserve_comments (with_sort b c)) with (preserve_comments c).
  change (config_data (with_sort b c)) with (config_data c).
  change (comments (with_sort b c)) with (comments c).
  destruct (line_loop _ _ _) as [ok [d cm]]. reflexivity.
Qed.

Lemma some_pair_snd {A B} (p : A * B) x y : Some p = Some (x, y) -> snd p = y.
Proof. intros H. injection H as ->. reflexivity. Qed.

Lemma parse_stage_ascending c content ok c' :
  parse_stage c content = Some (ok, c') ->
  ascending (config_data c) -> ascending (config_data c').
Proof.
  unfold parse_stage. intros H Ha.
  destruct (fmt_is (input_format c) "json").
  { rewrite <- (some_pair_snd _ _ _ H). apply parseJSON_ascending, Ha. }
  destruct (fmt_is (input_format c) "yaml" || fmt_is (input_format c) "yml").
  { rewrite <- (some_pair_snd _ _ _ H). apply parseYAML_ascending, Ha. }
  destruct (fmt_is (input_format c) "ini" || fmt_is (input_format c) "conf").
  { rewrite <- (some_pair_snd _ _ _ H). apply parseINI_ascending, Ha. }
  destruct (fmt_is (input_format c) "env"); [|discriminate H].
  rewrite <- (some_pair_snd _ _ _ H). apply parseENV_ascending, Ha.
Qed.

Lemma emit_stage_sorted b c w :
  emit_stage (set_data (config_data c) (comments c) (with_sort b c)) w
  = emit_stage c w.
Proof. reflexivity. Qed.

Lemma after_parse_sort c w :
  ascending (config_data c) ->
  after_parse (with_sort true c) w = after_parse (with_sort false c) w.
Proof.
  intros Ha. unfold after_parse.
  change (validate_only (with_sort true c)) with (validate_only c).
  change (validate_only (with_sort false c)) with (validate_only c).
  destruct (validate_only c); [reflexivity|].
  change (filterKeys (with_sort true c)) with (with_sort true (filterKeys c)).
  change (filterKeys (with_sort false c)) with (with_sort false (filterKeys c)).
  cbv zeta.
  change (sort_keys (with_sort true (filterKeys c))) with true.
  change (sort_keys (with_sort false (filterKeys c))) with false.
  cbv iota.
  change (config_data (with_sort true (filterKeys c)))
    with (config_data (filterKeys c)).
  rewrite (sorted_copy_ascending _ (filterKeys_ascending c Ha)).
  reflexivity.
Qed.

Lemma convert_sort c w :
  ascending (config_data c) ->
  convert (with_sort true c) w = convert (with_sort false c) w.
Proof.
  intros Ha. rewrite !convert_stages.
  change (read_stage (with_sort true c) w) with (read_stage c w).
  change (read_stage (with_sort false c) w) with (read_stage c w).
  destruct (read_stage c w) as [content|]; [|reflexivity].
  rewrite !detect_stage_sort.
  destruct (detect_stage c content) as [c1|e] eqn:Ed; [|reflexivity].
  rewrite !parse_stage_sort.
  destruct (parse_stage c1 content) as [[[|] c2]|] eqn:Ep; try reflexivity.
  apply after_parse_sort. apply (parse_stage_ascending c1 content true c2 Ep).
  rewrite (detect_stage_data c content c1 Ed). exact Ha.
Qed.
End StageFacts.

Section WriterFacts.
Import CStr Cxx Regex ConfConvert KeyOrder.

Lemma ascending_keys_unique {V} (mp : omap V) :
  ascending mp -> NoDup (map fst mp).
Proof.
  induction mp as [|[k v] mp IH]; intros H; cbn [map fst]; [constructor|].
  apply ascending_cons in H. destruct H as [H1 H2]. constructor; [|apply IH, H1].
  intros Hin. apply in_map_iff in Hin. destruct Hin as [[k' v'] [Hk Hin]].
  cbn [fst] in Hk. subst k'. unfold above in H2. rewrite Forall_forall in H2.
  specialize (H2 _ Hin). cbn [fst] in H2. rewrite str_ltb_irrefl in H2.
  discriminate H2.
Qed.

(** Of two entries of a store in order, the one with the smaller key
    comes first. *)
Lemma ascending_split {V} (mp : omap V) k1 v1 k2 v2 :
  ascending mp -> In (k1, v1) mp -> In (k2, v2) mp -> str_ltb k1 k2 = true ->
  exists m1 m2 m3, mp = m1 ++ (k1, v1) :: m2 ++ (k2, v2) :: m3.
Proof.
  intros Ha H1 H2 Hlt. apply in_split in H1. destruct H1 as [m1 [rest ->]].
  apply in_app_or in H2. destruct H2 as [H2|[H2|H2]].
  - exfalso. pose proof (ascending_app_below k1 v1 rest m1 Ha) as Hb.
    unfold below in Hb. rewrite Forall_forall in Hb. specialize (Hb _ H2).
    cbn [fst] in Hb. rewrite (str_ltb_asym k1 k2 Hlt) in Hb. discriminate Hb.
  - exfalso. injection H2 as -> _. rewrite str_ltb_irrefl in Hlt. discriminate Hlt.
  - apply in_split in H2. destruct H2 as [m2 [m3 ->]]. exists m1, m2, m3.
    reflexivity.
Qed.

Lemma json_entries_member sep lead colon k v rest : forall m1 first,
  exists x,
    json_entries sep lead colon first (m1 ++ (k, v) :: rest)
    = x ++ (json_name k ++ colon ++ json_value v)
        ++ json_entries sep lead colon false rest.
Proof.
  induction m1 as [|[k' v'] m1 IH]; intros first; cbn [app json_entries].
  - exists ((if first then [] else sep) ++ lead). unfold json_name.
    rewrite <- !app_assoc. reflexivity.
  - destruct (IH false) as [x Hx]. rewrite Hx.
    exists ((if first then [] else sep) ++ lead ++ [dquote]
            ++ escapeJsonString k' ++ [dquote] ++ colon ++ json_value v' ++ x).
    repeat (rewrite <- app_assoc; cbn [app]). reflexivity.
Qed.

Lemma json_entries_order sep lead colon m1 k1 v1 m2 k2 v2 m3 first :
  exists x y z,
    json_entries sep lead colon first (m1 ++ (k1, v1) :: m2 ++ (k2, v2) :: m3)
    = x ++ (json_name k1 ++ colon ++ json_value v1) ++ y
        ++ (json_name k2 ++ colon ++ json_value v2) ++ z.
Proof.
  destruct (json_entries_member sep lead colon k1 v1 (m2 ++ (k2, v2) :: m3)
              m1 first) as [x Hx].
  destruct (json_entries_member sep lead colon k2 v2 m3 m2 false) as [y Hy].
  rewrite Hx, Hy. exists x, y. eexists. reflexivity.
Qed.

Lemma Ok_eq {A} (a b : A) : Ok a = Ok b -> a = b.
Proof. intros H. injection H as ->. reflexivity. Qed.

Lemma flat_map_order {A} (f : A -> str) m1 e1 m2 e2 m3 :
  flat_map f (m1 ++ e1 :: m2 ++ e2 :: m3)
  = flat_map f m1 ++ f e1 ++ flat_map f m2 ++ f e2 ++ flat_map f m3.
Proof.
  rewrite flat_map_app. cbn [flat_map]. rewrite flat_map_app. cbn [flat_map].
  reflexivity.
Qed.

Lemma fold_left_map {A B C} (f : A -> B -> A) (g : C -> B) l : forall a,
  fold_left f (map g l) a = fold_left (fun a x => f a (g x)) l a.
Proof. induction l as [|x l IH]; intros a; [reflexivity|apply IH]. Qed.

(** The three passes of parseJSON. *)
Lemma parseJSON_passes c content :
  config_data (snd (parseJSON c content))
  = fold_left store
      (pass json_pattern content ++ pass json_number_pattern content
       ++ pass json_bool_pattern content)
      (config_data c).
Proof.
  unfold parseJSON, store_matches, pass, store. cbn [snd set_data config_data].
  rewrite !fold_left_app, !fold_left_map. reflexivity.
Qed.

Lemma find_char_absent c s : forall i,
  ~ In c s -> str_find_from s [c] i = npos.
Proof.
  induction s as [|x s IH]; intros i Hn; cbn [str_find_from is_prefix];
    [reflexivity|].
  destruct (Ascii.eqb_spec c x) as [E|E].
  - exfalso. apply Hn. left. symmetry. exact E.
  - cbn [andb]. apply IH. intros H. apply Hn. right. exact H.
Qed.

(** The grouping loop of generateINI on keys without a dot: they all go
    to the section without a name, in the order of the store. *)
Lemma group_entry_plain rest : forall acc,
  ascending (acc ++ rest) -> no_dot rest ->
  fold_left group_entry rest (Ok [([], acc)]) = Ok [([], acc ++ rest)].
Proof.
  induction rest as [|[k v] rest IH]; intros acc Ha Hn; cbn [fold_left].
  - rewrite app_nil_r. reflexivity.
  - assert (Hk : find_char k "." = npos).
    { unfold find_char, str_find. apply find_char_absent. apply (Hn k v).
      left. reflexivity. }
    unfold group_entry at 2. cbn [bind]. rewrite Hk.
    change (found npos) with false. cbv iota.
    cbn [map_find str_eqb map_set str_ltb].
    pose proof (ascending_app_below k v rest acc Ha) as Hb.
    rewrite (below_set k v acc Hb).
    rewrite IH.
    + rewrite <- app_assoc. reflexivity.
    + rewrite <- app_assoc. exact Ha.
    + intros k' v' H. apply (Hn k' v'). right. exact H.
Qed.

Lemma generateINI_plain c :
  ascending (config_data c) -> no_dot (config_data c) -> config_data c <> [] ->
  generateINI c
  = Ok (comment_block "; " c ++ flat_map ini_entry (config_data c) ++ [newline]).
Proof.
  intros Ha Hn Hne. unfold generateINI.
  destruct (config_data c) as [|[k v] rest] eqn:E; [contradiction|].
  cbn [fold_left].
  assert (Hk : find_char k "." = npos).
  { unfold find_char, str_find. apply find_char_absent. apply (Hn k v).
    left. reflexivity. }
  unfold group_entry at 2. cbn [bind]. rewrite Hk.
  change (found npos) with false. cbv iota. cbn [map_find map_set].
  assert (Hg : fold_left group_entry rest (Ok [([], [(k, v)])])
               = Ok [([], [(k, v)] ++ rest)]).
  { apply (group_entry_plain rest [(k, v)]); [exact Ha|].
    intros k' v' H. apply (Hn k' v'). right. exact H. }
  match goal with
  | |- context [fold_left group_entry rest ?x] =>
      replace (fold_left group_entry rest x)
        with (@Ok (omap smap) [([], [(k, v)] ++ rest)])
        by (symmetry; exact Hg)
  end.
  cbn [bind map_find str_eqb app flat_map ini_section].
  rewrite !app_nil_r. reflexivity.
Qed.

(** C9, as amended.  The store of conf-convert is an ordered map: each of
    the four readers leaves its keys strictly ascending, hence unique, and
    storing under a key again replaces the value, so that the value stored
    last is the one kept; the JSON reader stores what its three patterns
    find in three passes, the quoted strings first, then the numbers, then
    true and false.  The JSON, YAML and ENV writers write the entries of
    any two stored keys smaller key first, the ENV writer under the names
    it makes of the keys; so does the INI writer when no stored key holds a
    dot.  With the store empty at the start, as main leaves it, --sort
    changes nothing in the outcome of a run, whatever the other options and
    the input. *)
Theorem store_is_ordered_and_sort_is_idle :
  (forall c content,
     ascending (config_data c) ->
     ascending (config_data (snd (parseINI c content))) /\
     ascending (config_data (snd (parseJSON c content))) /\
     ascending (config_data (snd (parseYAML c content))) /\
     ascending (config_data (snd (parseENV c content)))) /\
  (forall (mp : smap) k v1 v2,
     ascending mp ->
     NoDup (map fst mp) /\
     map_set k v2 (map_set k v1 mp) = map_set k v2 mp /\
     map_find k (map_set k v2 mp) = Some v2) /\
  (forall c content,
     config_data (snd (parseJSON c content))
     = fold_left store
         (pass json_pattern content ++ pass json_number_pattern content
          ++ pass json_bool_pattern content)
         (config_data c)) /\
  (forall c k1 v1 k2 v2 output,
     ascending (config_data c) ->
     In (k1, v1) (config_data c) -> In (k2, v2) (config_data c) ->
     str_ltb k1 k2 = true ->
     (generateJSON c = Ok output ->
      precedes output
        (json_name k1 ++ (if minify c then lit ":" else lit ": ") ++ json_value v1)
        (json_name k2 ++ (if minify c then lit ":" else lit ": ") ++ json_value v2)) /\
     (generateYAML c = Ok output ->
      precedes output (yaml_entry (k1, v1)) (yaml_entry (k2, v2))) /\
     (generateENV c = Ok output ->
      precedes output (env_entry (k1, v1)) (env_entry (k2, v2))) /\
     (no_dot (config_data c) -> generateINI c = Ok output ->
      precedes output (ini_entry (k1, v1)) (ini_entry (k2, v2)))) /\
  (forall c w,
     config_data c = [] ->
     convert (with_sort true c) w = convert (with_sort false c) w).
Proof.
  split; [|split; [|split; [|split]]].
  - intros c content Ha. split; [apply parseINI_ascending, Ha|].
    split; [apply parseJSON_ascending, Ha|].
    split; [apply parseYAML_ascending, Ha|apply parseENV_ascending, Ha].
  - intros mp k v1 v2 Ha. split; [apply ascending_keys_unique, Ha|].
    split; [apply map_set_twice|apply map_find_set].
  - apply parseJSON_passes.
  - intros c k1 v1 k2 v2 output Ha H1 H2 Hlt.
    destruct (ascending_split _ k1 v1 k2 v2 Ha H1 H2 Hlt) as [m1 [m2 [m3 Hm]]].
    split; [|split; [|split]].
    + unfold generateJSON. rewrite Hm. destruct (minify c).
      * intros H. apply Ok_eq in H. subst output.
        destruct (json_entries_order (lit ",") [] (lit ":") m1 k1 v1 m2 k2 v2 m3
                    true) as [x [y [z E]]].
        rewrite E. exists (lit "{" ++ x), y, (z ++ lit "}").
        rewrite <- !app_assoc. reflexivity.
      * destruct (make_indent (indent_size c)) as [indent|e]; [|discriminate].
        intros H. apply Ok_eq in H. subst output.
        destruct (json_entries_order (lit "," ++ [newline]) indent (lit ": ")
                    m1 k1 v1 m2 k2 v2 m3 true) as [x [y [z E]]].
        rewrite E. exists (lit "{" ++ [newline] ++ x), y, (z ++ [newline] ++ lit "}").
        rewrite <- !app_assoc. reflexivity.
    + unfold generateYAML. rewrite Hm. intros H. apply Ok_eq in H. subst output.
      rewrite flat_map_order.
      exists (comment_block "# " c ++ flat_map yaml_entry m1),
             (flat_map yaml_entry m2), (flat_map yaml_entry m3).
      rewrite <- !app_assoc. reflexivity.
    + unfold generateENV. rewrite Hm. intros H. apply Ok_eq in H. subst output.
      rewrite flat_map_order.
      exists (comment_block "# " c ++ flat_map env_entry m1),
             (flat_map env_entry m2), (flat_map env_entry m3).
      rewrite <- !app_assoc. reflexivity.
    + intros Hn. rewrite (generateINI_plain c Ha Hn).
      * rewrite Hm. intros H. apply Ok_eq in H. subst output.
        rewrite flat_map_order.
        exists (comment_block "; " c ++ flat_map ini_entry m1),
               (flat_map ini_entry m2), (flat_map ini_entry m3 ++ [newline]).
        rewrite <- !app_assoc. reflexivity.
      * intros E. rewrite E in H1. contradiction.
  - intros c w H0. apply convert_sort. rewrite H0. constructor.
Qed.
End WriterFacts.

Lemma store_is_ordered_and_sort_is_idle_witness :
  ConfConvert.config_data KeyOrder.ini_to_ini = [] /\
  ConfConvert.convert (KeyOrder.with_sort true KeyOrder.ini_to_ini)
    (ConfConvertRuns.on_stdin KeyOrder.sections_text)
  = ConfConvert.convert (KeyOrder.with_sort false KeyOrder.ini_to_ini)
      (ConfConvertRuns.on_stdin KeyOrder.sections_text).
Proof.
  split; [reflexivity|].
  exact (proj2 (proj2 (proj2 (proj2 store_is_ordered_and_sort_is_idle)))
           KeyOrder.ini_to_ini (ConfConvertRuns.on_stdin KeyOrder.sections_text)
           eq_refl).
Defined.

(** C9 as stated fails for the INI writer on a store with a dotted key:
    the store holds a.x before b, the output has b before x of section a.
    It also fails for the value of a key given twice in JSON, where the
    passes for strings, numbers and booleans run one after the other: the
    number wins over the string that follows it in the text. *)
Lemma ini_output_is_not_in_key_order :
  CStr.str_ltb (CStr.lit "a.x") (CStr.lit "b") = true /\
  ConfConvert.cout (ConfConvert.convert KeyOrder.ini_to_ini
                      (ConfConvertRuns.on_stdin KeyOrder.sections_text))
  = CStr.lit "b = 1" ++ [CStr.newline] ++ [CStr.newline]
    ++ CStr.lit "[a]" ++ [CStr.newline]
    ++ CStr.lit "x = 2" ++ [CStr.newline] ++ [CStr.newline] /\
  ConfConvert.cout (ConfConvert.convert KeyOrder.json_to_json
                      (ConfConvertRuns.on_stdin KeyOrder.twice_text))
  = CStr.lit "{" ++ [CStr.newline]
    ++ CStr.lit "  " ++ [CStr.dquote] ++ CStr.lit "a" ++ [CStr.dquote]
    ++ CStr.lit ": 5" ++ [CStr.newline] ++ CStr.lit "}".
Proof. repeat split; vm_compute; reflexivity. Qed.

(* ================================================================== *)
(** * Part IV: further properties of the code *)
(* ================================================================== *)

(** ** tree: what a listing holds *)

Section TreeInvariants.
Import CStr Cxx Proc Tree Listing.
Variable o : Options.

(** What a call of print_entry can do: nothing, or one entry line that
    the options allow, with one counter moved. *)
Lemma print_entry_cases n prefix isLast depth st :
  (exists f, print_entry o n prefix isLast depth st = (f, false, st)) \/
  (exists isDirectory text st1,
     is_directory n = Ok isDirectory /\
     allowed o (EntryLine text (filename n) isDirectory) /\
     (if isDirectory then count_dir st else count_file st) = Some st1 /\
     print_entry o n prefix isLast depth st
     = (Returned, true, emit (EntryLine text (filename n) isDirectory) st1)).
Proof.
  unfold print_entry.
  destruct (negb (maxDepth o =? -1) && (maxDepth o <? depth)); [left; eauto|].
  destruct (negb (showHidden o) && _) eqn:Eh; [left; eauto|].
  destruct (is_directory n) as [isDirectory|what] eqn:Ed; [|left; eauto].
  destruct (node_attrs n) as [a|what]; [|left; eauto].
  destruct ((onlyDirs o && negb isDirectory) || (onlyFiles o && isDirectory)) eqn:Ef;
    [left; eauto|].
  unfold matchesPattern.
  assert (Hall : forall text, wanted o (filename n) ->
                 allowed o (EntryLine text (filename n) isDirectory)).
  { intros text Hw. cbn [allowed]. split; [|split; [|split]].
    - intros Hs. rewrite Hs in Eh. cbn [negb andb] in Eh. exact Eh.
    - intros Ho. rewrite Ho in Ef. destruct isDirectory; [reflexivity|discriminate Ef].
    - intros Ho. rewrite Ho in Ef. destruct isDirectory; [|reflexivity].
      rewrite orb_true_r in Ef. discriminate Ef.
    - exact Hw. }
  assert (Hend : wanted o (filename n) ->
            (exists f,
               (let '(color, counted) :=
                  if isDirectory then (COLOR_BLUE, count_dir st)
                  else if is_symlink a then (COLOR_YELLOW, count_file st)
                  else if owner_exec a then (COLOR_GREEN, count_file st)
                  else (COLOR_RESET, count_file st) in
                match counted with
                | None => (Undef, false, st)
                | Some st0 =>
                    (Returned, true,
                     emit (EntryLine
                             (entry_head o prefix isLast isDirectory a
                              ++ printWithColor o (filename n) color)
                             (filename n) isDirectory) st0)
                end) = (f, false, st)) \/
            (exists isDirectory0 text st1,
               Ok isDirectory = Ok isDirectory0 /\
               allowed o (EntryLine text (filename n) isDirectory0) /\
               (if isDirectory0 then count_dir st else count_file st) = Some st1 /\
               (let '(color, counted) :=
                  if isDirectory then (COLOR_BLUE, count_dir st)
                  else if is_symlink a then (COLOR_YELLOW, count_file st)
                  else if owner_exec a then (COLOR_GREEN, count_file st)
                  else (COLOR_RESET, count_file st) in
                match counted with
                | None => (Undef, false, st)
                | Some st0 =>
                    (Returned, true,
                     emit (EntryLine
                             (entry_head o prefix isLast isDirectory a
                              ++ printWithColor o (filename n) color)
                             (filename n) isDirectory) st0)
                end)
               = (Returned, true,
                  emit (EntryLine text (filename n) isDirectory0) st1))).
  { intros Hw.
    destruct (if isDirectory then count_dir st else count_file st)
      as [st1|] eqn:Ec.
    - right. exists isDirectory.
      exists (entry_head o prefix isLast isDirectory a
              ++ printWithColor o (filename n)
                   (if isDirectory then COLOR_BLUE
                    else if is_symlink a then COLOR_YELLOW
                    else if owner_exec a then COLOR_GREEN else COLOR_RESET)).
      exists st1. split; [reflexivity|]. split; [apply Hall, Hw|].
      split; [exact Ec|].
      destruct isDirectory; [rewrite Ec; reflexivity|].
      destruct (is_symlink a); [rewrite Ec; reflexivity|].
      destruct (owner_exec a); rewrite Ec; reflexivity.
    - left. exists Undef.
      destruct isDirectory; [rewrite Ec; reflexivity|].
      destruct (is_symlink a); [rewrite Ec; reflexivity|].
      destruct (owner_exec a); rewrite Ec; reflexivity. }
  destruct (patterns o) as [|p ps] eqn:Ep.
  - apply Hend. unfold wanted. rewrite Ep. exact I.
  - destruct (any_pattern (filename n) (p :: ps)) as [[|]|] eqn:Ea;
      [|left; eauto|left; eauto].
    apply Hend. unfold wanted. rewrite Ep. exact Ea.
Qed.

(** A property of the state that every step of a listing keeps is kept
    by the whole of it. *)
Section Kept.
Variable Inv : state -> Prop.
Hypothesis other : forall text st, Inv st -> Inv (emit (OtherLine text) st).
Hypothesis entry : forall text name isDirectory st st1,
  allowed o (EntryLine text name isDirectory) -> Inv st ->
  (if isDirectory then count_dir st else count_file st) = Some st1 ->
  Inv (emit (EntryLine text name isDirectory) st1).

Definition keeps (walk : walker) : Prop :=
  forall prefix isLast depth st, Inv st -> Inv (snd (walk prefix isLast depth st)).

Lemma each_keeps ws :
  Forall (fun p : str * walker => keeps (snd p)) ws ->
  forall inner depth st, Inv st -> Inv (snd (each ws inner depth st)).
Proof.
  intros Hws. induction Hws as [|[nm walk] ws Hw Hws IH]; intros inner depth st Hst.
  - exact Hst.
  - cbn [each]. cbn [snd] in Hw.
    pose proof (Hw inner (is_last ws) depth st Hst) as H1.
    destruct (walk inner (is_last ws) depth st) as [[|what|] st1]; cbn [snd] in H1.
    + apply IH. exact H1.
    + exact H1.
    + exact H1.
Qed.

Lemma entries_keep entries :
  Forall (fun c => keeps (printTree o c)) entries ->
  forall inner depth st,
    Inv st ->
    Inv (snd (each (sort_paths (map (fun c => (filename c, printTree o c)) entries))
                   inner depth st)).
Proof.
  intros H. apply each_keeps. apply sort_paths_all.
  induction H; cbn; constructor; assumption.
Qed.

Lemma printTree_keeps n : keeps (printTree o n).
Proof.
  induction n as [name a|name a entries IH|name a what|name what]
    using node_induction; intros prefix isLast depth st Hst;
    rewrite printTree_unfold;
    match goal with
    | |- context [print_entry o ?x prefix isLast depth st] =>
        destruct (print_entry_cases x prefix isLast depth st)
          as [[f E]|[d [text [st1 [Ed [Ha [Ec E]]]]]]]; rewrite E
    end; try (destruct f; exact Hst); cbn [snd];
    pose proof (entry _ _ _ st st1 Ha Hst Ec) as H1.
  - exact H1.
  - cbv zeta.
    pose proof (entries_keep entries IH
                  (prefix ++ (if isLast then lit "    " else indentChars o))
                  (depth + 1) _ H1) as H2.
    destruct (each _ _ _ _) as [[|what|] st2]; cbn [snd] in H2 |- *.
    + exact H2.
    + apply other. exact H2.
    + exact H2.
  - apply other. exact H1.
  - exact H1.
Qed.

Lemma run_keeps w : Inv start -> Inv (final (run o w)).
Proof.
  intros H0. unfold run. fold start.
  destruct (root w) as [[name a|name a entries|name a what|name what]|];
    cbn [final]; try exact H0; try (apply other; exact H0).
  assert (Hall : Forall (fun c => keeps (printTree o c)) entries).
  { apply Forall_forall. intros c _. apply printTree_keeps. }
  pose proof (entries_keep entries Hall [] 0 _ (other (rootPath w) _ H0)) as H2.
  destruct (each _ _ _ _) as [[|what|] st2]; cbn [snd final] in H2 |- *.
  - apply other, other. exact H2.
  - exact H2.
  - exact H2.
Qed.
End Kept.
End TreeInvariants.

Section TreeListing.
Import CStr Cxx Proc Tree Listing.

Lemma listed_emit directory l st :
  listed directory (emit l st)
  = listed directory st + (if is_entry directory l then 1 else 0).
Proof.
  unfold listed. cbn [emit cout]. rewrite filter_app, length_app. cbn [filter].
  destruct (is_entry directory l); cbn [List.length]; lia.
Qed.

Lemma any_pattern_defined name ps :
  ~ In [] ps -> any_pattern name ps <> None.
Proof.
  induction ps as [|p ps IH]; intros Hn; cbn [any_pattern]; [discriminate|].
  destruct p as [|c suffix]; [exfalso; apply Hn; left; reflexivity|].
  assert (Hp : exists b, pattern_matches name (c :: suffix) = Some b).
  { unfold pattern_matches. destruct (Ascii.eqb c "*"); [eauto|].
    destruct (rev (c :: suffix)) as [|l r]; [eauto|].
    destruct (Ascii.eqb l "*"); eauto. }
  destruct Hp as [[|] ->]; [discriminate|].
  apply IH. intros H. apply Hn. right. exact H.
Qed.

(** One entry: with room for one more in the counters and no empty
    pattern, print_entry stays within defined behaviour and counts at most
    one. *)
Lemma print_entry_bounded o n prefix isLast depth st :
  ~ In [] (patterns o) -> counted st -> total st + 1 <= INT_MAX ->
  fst (fst (print_entry o n prefix isLast depth st)) <> Undef /\
  counted (snd (print_entry o n prefix isLast depth st)) /\
  total (snd (print_entry o n prefix isLast depth st)) <= total st + 1.
Proof.
  intros Hp [Hd Hf] Hroom. unfold total in *.
  assert (H0 : forall f, f <> Undef ->
            fst (fst (f, false, st)) <> Undef /\ counted (snd (f, false, st)) /\
            dirCount (snd (f, false, st)) + fileCount (snd (f, false, st))
            <= dirCount st + fileCount st + 1).
  { intros f Hf'. cbn [fst snd]. split; [exact Hf'|]. split; [split; assumption|lia]. }
  unfold print_entry.
  destruct (negb (maxDepth o =? -1) && (maxDepth o <? depth));
    [apply H0; discriminate|].
  destruct (negb (showHidden o) && _); [apply H0; discriminate|].
  destruct (is_directory n) as [isDirectory|what]; [|apply H0; discriminate].
  destruct (node_attrs n) as [a|what]; [|apply H0; discriminate].
  destruct ((onlyDirs o && negb isDirectory) || (onlyFiles o && isDirectory));
    [apply H0; discriminate|].
  assert (Hm : matchesPattern o n <> None).
  { unfold matchesPattern. destruct (patterns o) as [|p ps] eqn:Ep; [discriminate|].
    apply any_pattern_defined. exact Hp. }
  destruct (matchesPattern o n) as [[|]|]; [|apply H0; discriminate|contradiction].
  assert (Hcd : count_dir st
                = Some {| dirCount := dirCount st + 1; fileCount := fileCount st;
                          cout := cout st |}).
  { unfold count_dir. destruct (Z.ltb_spec (dirCount st) INT_MAX); [reflexivity|lia]. }
  assert (Hcf : count_file st
                = Some {| dirCount := dirCount st; fileCount := fileCount st + 1;
                          cout := cout st |}).
  { unfold count_file. destruct (Z.ltb_spec (fileCount st) INT_MAX); [reflexivity|lia]. }
  destruct isDirectory; [|destruct (is_symlink a); [|destruct (owner_exec a)]];
    rewrite ?Hcd, ?Hcf; cbn [fst snd emit dirCount fileCount];
    (split; [discriminate|]); (split; [split; cbn; lia|cbn; lia]).
Qed.

Lemma each_bounded ws ks :
  Forall2 (fun (p : str * walker) k => bounded k (snd p)) ws ks ->
  forall inner depth st,
    counted st -> total st + Z.of_nat (list_sum ks) <= INT_MAX ->
    fst (each ws inner depth st) <> Undef /\
    counted (snd (each ws inner depth st)) /\
    total (snd (each ws inner depth st)) <= total st + Z.of_nat (list_sum ks).
Proof.
  intros H. induction H as [|[nm walk] k ws ks Hw Hws IH]; intros inner depth st Hc Hr.
  - cbn. split; [discriminate|]. split; [exact Hc|lia].
  - cbn [each list_sum fold_right] in *. cbn [snd] in Hw.
    fold (list_sum ks) in *. rewrite Nat2Z.inj_add in *.
    destruct (Hw inner (is_last ws) depth st Hc) as (W1 & W2 & W3); [lia|].
    destruct (walk inner (is_last ws) depth st) as [[|what|] st1];
      cbn [fst snd] in W1, W2, W3 |- *.
    + destruct (IH inner depth st1 W2) as (I1 & I2 & I3); [lia|].
      split; [exact I1|]. split; [exact I2|lia].
    + split; [discriminate|]. split; [exact W2|lia].
    + contradiction.
Qed.

Lemma insert_sorted_bounded {A} (R : str * A -> nat -> Prop) x k : forall l ks,
  R x k -> Forall2 R l ks ->
  exists ks', Forall2 R (insert_sorted x l) ks' /\ list_sum ks' = (k + list_sum ks)%nat.
Proof.
  intros l ks Hx H. induction H as [|y j l ks Hy Hl IH]; cbn [insert_sorted].
  - exists [k]. split; [constructor; [exact Hx|constructor]|reflexivity].
  - destruct (str_ltb (fst y) (fst x)).
    + destruct IH as [ks' [I1 I2]]. exists (j :: ks').
      split; [constructor; assumption|]. cbn [list_sum fold_right] in *.
      fold (list_sum ks') in *. fold (list_sum ks) in *. lia.
    + exists (k :: j :: ks). split; [|reflexivity].
      constructor; [exact Hx|]. constructor; assumption.
Qed.

Lemma sort_paths_bounded {A} (R : str * A -> nat -> Prop) : forall l ks,
  Forall2 R l ks ->
  exists ks', Forall2 R (sort_paths l) ks' /\ list_sum ks' = list_sum ks.
Proof.
  intros l ks H. induction H as [|y j l ks Hy Hl IH]; cbn [sort_paths fold_right].
  - exists []. split; [constructor|reflexivity].
  - fold (sort_paths l). destruct IH as [ks' [I1 I2]].
    destruct (insert_sorted_bounded R y j _ _ Hy I1) as [ks'' [J1 J2]].
    exists ks''. split; [exact J1|]. rewrite J2, I2. reflexivity.
Qed.

Lemma entries_bounded o entries :
  Forall (fun c => bounded (paths_at c) (printTree o c)) entries ->
  forall inner depth st,
    counted st ->
    total st + Z.of_nat (list_sum (map paths_at entries)) <= INT_MAX ->
    fst (each (sort_paths (map (fun c => (filename c, printTree o c)) entries))
              inner depth st) <> Undef /\
    counted (snd (each (sort_paths (map (fun c => (filename c, printTree o c))
                                        entries)) inner depth st)) /\
    total (snd (each (sort_paths (map (fun c => (filename c, printTree o c))
                                      entries)) inner depth st))
    <= total st + Z.of_nat (list_sum (map paths_at entries)).
Proof.
  intros H.
  assert (H2 : Forall2 (fun (p : str * walker) k => bounded k (snd p))
                 (map (fun c => (filename c, printTree o c)) entries)
                 (map paths_at entries)).
  { induction H; cbn [map]; constructor; assumption. }
  intros inner depth st Hc Hr.
  destruct (sort_paths_bounded _ _ _ H2) as [ks [K1 K2]].
  rewrite <- K2 in *. apply each_bounded; assumption.
Qed.

Lemma printTree_bounded o :
  ~ In [] (patterns o) -> forall n, bounded (paths_at n) (printTree o n).
Proof.
  intros Hp n. induction n as [name a|name a entries IH|name a what|name what]
    using node_induction; intros prefix isLast depth st Hc Hr;
    rewrite printTree_unfold;
    match goal with
    | |- context [print_entry o ?x prefix isLast depth st] =>
        destruct (print_entry_bounded o x prefix isLast depth st Hp Hc)
          as (P1 & P2 & P3);
        [cbn [paths_at] in Hr; lia|];
        destruct (print_entry o x prefix isLast depth st) as [[f printed] st1]
    end;
    cbn [fst snd] in P1, P2, P3;
    cbn [paths_at] in Hr |- *.
  - destruct f; [destruct printed| |contradiction]; cbn [fst snd];
      (split; [discriminate|]); (split; [exact P2|lia]).
  - destruct f; [destruct printed| |contradiction]; cbn [fst snd];
      try ((split; [discriminate|]); (split; [exact P2|lia])).
    cbv zeta.
    destruct (entries_bounded o entries IH
                (prefix ++ (if isLast then lit "    " else indentChars o))
                (depth + 1) st1 P2) as (E1 & E2 & E3); [lia|].
    destruct (each _ _ _ _) as [[|what|] st2]; cbn [fst snd] in E1, E2, E3 |- *.
    + split; [discriminate|]. split; [exact E2|lia].
    + split; [discriminate|]. split; [exact E2|]. unfold total in *. cbn. lia.
    + contradiction.
  - destruct f; [destruct printed| |contradiction]; cbn [fst snd];
      (split; [discriminate|]); (split; [exact P2|unfold total in *; cbn; lia]).
  - destruct f; [destruct printed| |contradiction]; cbn [fst snd];
      (split; [discriminate|]); (split; [exact P2|lia]).
Qed.

(** X1.  On a tree of at most 2^31 - 1 paths below the root, and with no
    empty pattern, a run stays within defined behaviour: neither counter,
    an int, overflows.  At its end the directory counter is the number of
    entry lines printed for directories and the file counter the number of
    entry lines printed for anything else. *)
Theorem tree_counters_match_listing (o : Options) (w : world) :
  Z.of_nat (paths_below w) <= INT_MAX -> ~ In [] (patterns o) ->
  ending (run o w) <> Undefined /\
  dirCount (final (run o w)) = listed true (final (run o w)) /\
  fileCount (final (run o w)) = listed false (final (run o w)).
Proof.
  intros Hb Hp. split.
  - unfold run, paths_below in *.
    destruct (root w) as [[name a|name a entries|name a what|name what]|];
      cbn [ending]; try discriminate.
    assert (Hall : Forall (fun c => bounded (paths_at c) (printTree o c)) entries).
    { apply Forall_forall. intros c _. apply printTree_bounded. exact Hp. }
    destruct (entries_bounded o entries Hall [] 0
                (emit (OtherLine (rootPath w))
                      {| dirCount := 0; fileCount := 0; cout := [] |}))
      as (E1 & _).
    { split; cbn; lia. }
    { unfold total. cbn [emit dirCount fileCount]. cbv iota beta in Hb. lia. }
    destruct (each _ _ _ _) as [[|what|] st2]; cbn [fst ending] in E1 |- *;
      try discriminate. contradiction.
  - apply (run_keeps o (fun st => dirCount st = listed true st /\
                                  fileCount st = listed false st)).
    + intros text st [H1 H2]. rewrite !listed_emit.
      cbn [emit dirCount fileCount is_entry]. lia.
    + intros text name [|] st st1 _ [H1 H2] Ec; rewrite !listed_emit;
        unfold count_dir, count_file in Ec;
        match type of Ec with
        | (if ?b then _ else _) = _ => destruct b; [|discriminate Ec]
        end;
        injection Ec as <-; unfold listed in *;
        cbn [emit dirCount fileCount cout is_entry Bool.eqb]; lia.
    + split; reflexivity.
Qed.

(** X2.  Every entry line of a run is one the options allow: without -a
    its name does not start with a dot, with -f it is not for a directory,
    with -d it is for one, and when patterns are given its name matches one
    of them. *)
Theorem tree_lists_only_allowed (o : Options) (w : world) (l : line) :
  In l (cout (final (run o w))) -> allowed o l.
Proof.
  revert l. apply Forall_forall.
  apply (run_keeps o (fun st => Forall (allowed o) (cout st))).
  - intros text st H. cbn [emit cout]. apply Forall_app. split; [exact H|].
    constructor; [exact I|constructor].
  - intros text name d st st1 Ha H Ec.
    assert (E : cout (emit (EntryLine text name d) st1)
                = cout st ++ [EntryLine text name d]).
    { destruct d; unfold count_dir, count_file in Ec;
        match type of Ec with
        | (if ?b then _ else _) = _ => destruct b; [|discriminate Ec]
        end; injection Ec as <-; reflexivity. }
    rewrite E. apply Forall_app. split; [exact H|].
    constructor; [exact Ha|constructor].
  - constructor.
Qed.

(** With -f, a call of printTree prints at most the line of its own
    path. *)
Lemma printTree_only_files o n prefix isLast depth st :
  onlyFiles o = true ->
  names (snd (printTree o n prefix isLast depth st)) = names st \/
  names (snd (printTree o n prefix isLast depth st)) = names st ++ [filename n].
Proof.
  intros Hf. rewrite printTree_unfold.
  destruct (print_entry_cases o n prefix isLast depth st)
    as [[f E]|[d [text [st1 [Ed [Ha [Ec E]]]]]]]; rewrite E.
  - left. destruct f; reflexivity.
  - destruct Ha as (_ & _ & Hd & _). specialize (Hd Hf). subst d.
    right. destruct n as [name a|name a entries|name a what|name what];
      try discriminate Ed.
    unfold count_file in Ec. destruct (fileCount st <? INT_MAX); [|discriminate Ec].
    injection Ec as <-.
    cbn [snd]. unfold names. cbn [emit cout].
    rewrite flat_map_app. reflexivity.
Qed.

Lemma each_only_files ws :
  Forall (fun p : str * walker =>
            forall prefix isLast depth st,
              names (snd (snd p prefix isLast depth st)) = names st \/
              names (snd (snd p prefix isLast depth st)) = names st ++ [fst p]) ws ->
  forall inner depth st,
    incl (names (snd (each ws inner depth st))) (names st ++ map fst ws).
Proof.
  intros Hws. induction Hws as [|[nm walk] ws Hw Hws IH]; intros inner depth st.
  - cbn. rewrite app_nil_r. apply incl_refl.
  - cbn [each map fst]. cbn [fst snd] in Hw.
    pose proof (Hw inner (is_last ws) depth st) as H1.
    assert (Hi : forall st1, names st1 = names st \/ names st1 = names st ++ [nm] ->
                 incl (names st1) (names st ++ nm :: map fst ws)).
    { intros st1 [E|E]; rewrite E.
      - apply incl_appl, incl_refl.
      - apply incl_app; [apply incl_appl, incl_refl|].
        apply incl_appr. intros x [<-|[]]. left. reflexivity. }
    destruct (walk inner (is_last ws) depth st) as [[|what|] st1]; cbn [snd] in H1 |- *.
    + eapply incl_tran; [apply IH|].
      apply incl_app; [apply Hi, H1|]. apply incl_appr, incl_tl, incl_refl.
    + apply Hi, H1.
    + apply Hi, H1.
Qed.

Lemma sort_paths_names {A} (l : list (str * A)) :
  incl (map fst (sort_paths l)) (map fst l).
Proof.
  induction l as [|x l IH]; cbn [sort_paths fold_right map]; [apply incl_refl|].
  fold (sort_paths l).
  assert (H : forall (y : str * A) m, incl (map fst (insert_sorted y m))
                                           (fst y :: map fst m)).
  { intros y m. induction m as [|z m IHm]; cbn [insert_sorted map].
    - apply incl_refl.
    - destruct (str_ltb (fst z) (fst y)); cbn [map].
      + intros k [<-|Hk]; [right; left; reflexivity|].
        destruct (IHm k Hk) as [<-|H']; [left; reflexivity|right; right; exact H'].
      + apply incl_refl. }
  eapply incl_tran; [apply H|].
  intros k [<-|Hk]; [left; reflexivity|right; apply IH, Hk].
Qed.

(** X3.  With -f nothing below a subdirectory is ever listed: a
    directory is skipped before its entries are read, so every name on an
    entry line is the name of an entry of the root directory itself. *)
Theorem tree_f_stays_at_top (o : Options) (w : world) name a entries :
  onlyFiles o = true -> root w = Some (Dir name a entries) ->
  incl (names (final (run o w))) (map filename entries).
Proof.
  intros Hf Hr. unfold run. rewrite Hr.
  assert (Hall : Forall (fun p : str * walker =>
            forall prefix isLast depth st,
              names (snd (snd p prefix isLast depth st)) = names st \/
              names (snd (snd p prefix isLast depth st)) = names st ++ [fst p])
            (sort_paths (map (fun c => (filename c, printTree o c)) entries))).
  { apply sort_paths_all. apply Forall_forall. intros p Hp.
    apply in_map_iff in Hp. destruct Hp as [c [<- _]]. cbn [fst snd].
    intros prefix isLast depth st. apply printTree_only_files. exact Hf. }
  pose proof (each_only_files _ Hall [] 0
                (emit (OtherLine (rootPath w))
                      {| dirCount := 0; fileCount := 0; cout := [] |})) as H.
  assert (Hn : incl (map fst (sort_paths (map (fun c => (filename c, printTree o c))
                                              entries)))
                    (map filename entries)).
  { eapply incl_tran; [apply sort_paths_names|]. rewrite map_map. cbn [fst].
    apply incl_refl. }
  destruct (each _ _ _ _) as [[|what|] st2]; cbn [snd final] in H |- *.
  - unfold names in *. cbn [emit cout] in *. rewrite !flat_map_app. cbn [flat_map].
    rewrite !app_nil_r. cbn [flat_map app] in H.
    eapply incl_tran; [exact H|exact Hn].
  - cbn [flat_map app] in H. eapply incl_tran; [exact H|exact Hn].
  - cbn [flat_map app] in H. eapply incl_tran; [exact H|exact Hn].
Qed.
End TreeListing.

Lemma tree_counters_match_listing_witness :
  Tree.ending (Tree.run Tree.default_options DirsOnly.project) <> Proc.Undefined /\
  Tree.dirCount (Tree.final (Tree.run Tree.default_options DirsOnly.project))
  = Listing.listed true (Tree.final (Tree.run Tree.default_options DirsOnly.project)) /\
  Tree.fileCount (Tree.final (Tree.run Tree.default_options DirsOnly.project))
  = Listing.listed false
      (Tree.final (Tree.run Tree.default_options DirsOnly.project)).
Proof.
  apply tree_counters_match_listing.
  - vm_compute. discriminate.
  - intros [].
Defined.

Lemma tree_f_stays_at_top_witness :
  Listing.names (Tree.final (Tree.run
     Listing.option_f DirsOnly.project))
  = [CStr.lit "Makefile"; CStr.lit "README.md"] /\
  incl (Listing.names (Tree.final (Tree.run
     Listing.option_f DirsOnly.project)))
       [CStr.lit "README.md"; CStr.lit "src"; CStr.lit "Makefile"].
Proof.
  split; [vm_compute; reflexivity|].
  exact (tree_f_stays_at_top Listing.option_f DirsOnly.project _ _ _ eq_refl eq_refl).
Defined.

Lemma tree_lists_only_allowed_witness :
  Listing.allowed DirsOnly.option_d
    (Tree.EntryLine (Tree.corner ++ Tree.dash ++ Tree.dash ++ CStr.lit " "
                     ++ Tree.COLOR_BLUE ++ CStr.lit "src" ++ Tree.COLOR_RESET)
                    (CStr.lit "src") true).
Proof.
  apply (tree_lists_only_allowed DirsOnly.option_d DirsOnly.project).
  vm_compute. right. left. reflexivity.
Defined.

(** ** whois: streams and the top-level domain *)

Section WhoisMore.
Import CStr Cxx Whois Referral.

Lemma performQuery_streams net c target whois_server st :
  cout (snd (performQuery net c target whois_server st)) = cout st /\
  (quiet c = true ->
   cerr (snd (performQuery net c target whois_server st)) = cerr st) /\
  forall response,
    fst (performQuery net c target whois_server st) = Ok response ->
    response <> [].
Proof.
  unfold performQuery.
  set (st1 := if verbose c && negb (quiet c) then _ else st).
  assert (H1 : cout st1 = cout st /\ (quiet c = true -> cerr st1 = cerr st)).
  { subst st1. destruct (verbose c); destruct (quiet c); cbn; split;
      try reflexivity; intros; try reflexivity; discriminate. }
  destruct H1 as [Ho He].
  repeat match goal with
         | |- context [if ?b then (_, _) else _] => destruct b
         end;
    try (cbn [fst snd record_trip cout cerr];
         split; [exact Ho|split; [exact He|intros r Hr; discriminate Hr]]).
  cbn [fst snd record_trip cout cerr].
  split; [exact Ho|split; [exact He|intros r Hr]].
  injection Hr as <-. discriminate.
Qed.

Lemma output_stage_streams c target response whois_server st r st' :
  response <> [] ->
  match
    (if json_output c then outputJSON target response whois_server st
     else if raw_output c then Ok (print response st)
     else
       st <- outputSummary response st ;;
       Ok (if verbose c
           then print (lit "Full Response:" ++ [newline]
                       ++ lit "==============" ++ [newline]
                       ++ response)
                      (print [newline] st)
           else st))
  with
  | Ok st => (Ok tt, st)
  | Exn e => (Exn e, st)
  end = (r, st') ->
  cerr st' = cerr st /\
  match r with
  | Ok _ => exists text, text <> [] /\ cout st' = cout st ++ text
  | Exn _ => cout st' = cout st
  end.
Proof.
  intros Hne. destruct (json_output c).
  - unfold outputJSON. destruct (parseResponse response) as [d|e]; cbn [bind];
      intros H; injection H as <- <-; split; try reflexivity.
    eexists. split; [|reflexivity]. discriminate.
  - destruct (raw_output c).
    + intros H. injection H as <- <-. split; [reflexivity|].
      exists response. split; [exact Hne|reflexivity].
    + unfold outputSummary. destruct (parseResponse response) as [d|e]; cbn [bind];
        intros H; injection H as <- <-.
      * destruct (verbose c); cbn [print cout cerr]; (split; [reflexivity|]).
        -- eexists. split; [|rewrite <- !app_assoc; reflexivity]. discriminate.
        -- eexists. split; [|reflexivity]. discriminate.
      * split; reflexivity.
Qed.

Lemma query_body_streams net c target :
  (quiet c = true -> cerr (snd (query_body net c target start)) = []) /\
  match fst (query_body net c target start) with
  | Ok _ => cout (snd (query_body net c target start)) <> []
  | Exn _ => cout (snd (query_body net c target start)) = []
  end.
Proof.
  unfold query_body. destruct (selectServer c target) as [whois_server|e];
    [|split; [reflexivity|reflexivity]].
  destruct (performQuery_streams net c target whois_server start) as (Ho & He & Hr).
  destruct (performQuery net c target whois_server start) as [[response|e] st1];
    cbn [fst snd] in *; [|split; [exact He|exact Ho]].
  specialize (Hr response eq_refl).
  set (follow := follow_referrals c && _ && _ && _).
  set (st2 := if follow && verbose c && negb (quiet c) then _ else st1).
  assert (H2 : cout st2 = [] /\ (quiet c = true -> cerr st2 = [])).
  { subst st2. destruct (follow && verbose c && negb (quiet c)) eqn:E.
    - split; [exact Ho|]. intros Hq. rewrite Hq in E.
      rewrite andb_false_r in E. discriminate E.
    - split; assumption. }
  destruct H2 as [Ho2 He2].
  assert (Hout : forall resp wsrv st3,
             resp <> [] -> cout st3 = [] -> (quiet c = true -> cerr st3 = []) ->
             let r := match
                 (if json_output c then outputJSON target resp wsrv st3
                  else if raw_output c then Ok (print resp st3)
                  else
                    st <- outputSummary resp st3 ;;
                    Ok (if verbose c
                        then print (lit "Full Response:" ++ [newline]
                                    ++ lit "==============" ++ [newline] ++ resp)
                                   (print [newline] st)
                        else st))
               with
               | Ok st => (Ok tt, st)
               | Exn e => (@Exn unit e, st3)
               end in
             (quiet c = true -> cerr (snd r) = []) /\
             match fst r with
             | Ok _ => cout (snd r) <> []
             | Exn _ => cout (snd r) = []
             end).
  { intros resp wsrv st3 Hn Hc Hq r.
    destruct r as [r0 st'] eqn:Er. subst r.
    destruct (output_stage_streams c target resp wsrv st3 r0 st' Hn Er) as [E1 E2].
    cbn [fst snd]. split; [intros Hquiet; rewrite E1; apply Hq, Hquiet|].
    destruct r0 as [u|e].
    - destruct E2 as [text [Ht E2]]. rewrite E2, Hc. exact Ht.
    - rewrite E2. exact Hc. }
  destruct follow.
  - destruct (performQuery_streams net c target (extractReferralServer response) st2)
      as (Ho3 & He3 & Hr3).
    destruct (performQuery net c target (extractReferralServer response) st2)
      as [[response2|e] st3]; cbn [fst snd] in *.
    + apply (Hout response2 (extractReferralServer response) st3).
      * apply Hr3. reflexivity.
      * congruence.
      * intros Hq. rewrite (He3 Hq). apply He2, Hq.
    + split; [intros Hq; rewrite (He3 Hq); apply He2, Hq|congruence].
  - apply (Hout response whois_server st2 Hr Ho2 He2).
Qed.

(** X4.  WhoisClient::query, with quiet set, writes nothing on standard
    error, whatever the network does and whatever the other members of the
    client are: neither the progress lines of --verbose nor the line of
    the error that ends the query.  (What main itself writes about the
    command line, before it calls query, is another matter.) *)
Theorem whois_quiet_is_silent (net : network) (c : WhoisClient) (target : str) :
  quiet c = true -> cerr (snd (query net c target)) = [].
Proof.
  intros Hq. unfold query. fold start.
  pose proof (proj1 (query_body_streams net c target) Hq) as H.
  destruct (query_body net c target start) as [[u|e] st]; cbn [fst snd] in *.
  - exact H.
  - rewrite Hq. exact H.
Qed.

(** X5.  query returns 0 or 1, and standard output tells which: after a
    return of 0 something has been printed on it, after a return of 1
    nothing has. *)
Theorem whois_prints_iff_success (net : network) (c : WhoisClient) (target : str) :
  (fst (query net c target) = 0 /\ cout (snd (query net c target)) <> []) \/
  (fst (query net c target) = 1 /\ cout (snd (query net c target)) = []).
Proof.
  unfold query. fold start.
  pose proof (proj2 (query_body_streams net c target)) as H.
  destruct (query_body net c target start) as [[u|e] st]; cbn [fst snd] in *.
  - left. split; [reflexivity|exact H].
  - right. split; [reflexivity|]. destruct (negb (quiet c)); exact H.
Qed.
End WhoisMore.

Lemma whois_quiet_is_silent_witness :
  Whois.cerr (snd (Whois.query Referral.registry ReferralMore.quiet_client
                     (CStr.lit "example.com"))) = [].
Proof.
  exact (whois_quiet_is_silent Referral.registry ReferralMore.quiet_client
           (CStr.lit "example.com") eq_refl).
Defined.

Section WhoisTld.
Import CStr Cxx Whois.

Lemma find_last_of_absent c s : forall i,
  ~ In c s -> find_last_of_from s c i = npos.
Proof.
  induction s as [|x s IH]; intros i Hn; cbn [find_last_of_from]; [reflexivity|].
  rewrite IH by (intros H; apply Hn; right; exact H). rewrite Z.eqb_refl.
  destruct (Ascii.eqb_spec x c) as [->|Hne]; [|reflexivity].
  exfalso. apply Hn. left. reflexivity.
Qed.

Lemma find_last_of_last c a b : forall i,
  ~ In c b -> 0 <= i -> i + size a < npos ->
  find_last_of_from (a ++ c :: b) c i = i + size a.
Proof.
  induction a as [|x a IH]; intros i Hn Hi Hs; cbn [app find_last_of_from].
  - rewrite (find_last_of_absent c b (i + 1) Hn), Z.eqb_refl, Ascii.eqb_refl.
    unfold size. cbn. lia.
  - unfold size in *. cbn [List.length] in *. rewrite Nat2Z.inj_succ in *.
    rewrite IH by (try assumption; lia).
    destruct (Z.eqb_spec (i + 1 + Z.of_nat (List.length a)) npos); lia.
Qed.

(** X6.  extractTLD returns what follows the last dot of the domain: the
    text after it when there is some, and the empty string both for a
    domain without a dot and for a domain that ends in a dot. *)
Theorem extractTLD_after_last_dot (label tld : str) :
  size (label ++ lit "." ++ tld) < 2 ^ 64 ->
  ~ In "."%char tld ->
  extractTLD (label ++ lit "." ++ tld) = Ok tld /\
  extractTLD tld = Ok [].
Proof.
  intros Hs Hn. unfold extractTLD, find_last_of. split.
  - change (lit ".") with ["."%char]. cbn [app].
    assert (Hsz : size (label ++ "."%char :: tld) = size label + 1 + size tld).
    { unfold size. rewrite length_app. cbn [List.length]. lia. }
    change (lit "." ++ tld) with ("."%char :: tld) in Hs. rewrite Hsz in Hs.
    pose proof (size_nonneg label). pose proof (size_nonneg tld).
    rewrite find_last_of_last; try assumption; try lia;
      [|rewrite npos_val; change (2 ^ 64) with 18446744073709551616 in Hs; lia].
    rewrite Hsz, Z.add_0_l.
    assert (E1 : size_t (size label + 1 + size tld - 1) = size label + size tld).
    { unfold size_t. rewrite Z.mod_small; lia. }
    assert (E2 : size_t (size label + 1) = size label + 1).
    { unfold size_t. rewrite Z.mod_small; lia. }
    rewrite E1, E2.
    destruct (Z.eqb_spec (size label) npos) as [E|E];
      [rewrite npos_val in E; change (2 ^ 64) with 18446744073709551616 in Hs; lia|].
    cbn [negb andb].
    destruct tld as [|t tld].
    + change (size (@nil ascii)) with 0.
      destruct (Z.ltb_spec (size label) (size label + 0)); [lia|reflexivity].
    + assert (0 < size (t :: tld)) by (unfold size; cbn [List.length]; lia).
      destruct (Z.ltb_spec (size label) (size label + size (t :: tld))); [|lia].
      unfold substr. rewrite Hsz.
      destruct (Z.ltb_spec (size label + 1 + size (t :: tld)) (size label + 1)); [lia|].
      cbn [checked].
      replace (Z.to_nat (size label + 1)) with (List.length (label ++ ["."%char]))
        by (rewrite length_app; unfold size; cbn [List.length]; lia).
      change (label ++ "."%char :: t :: tld)
        with (label ++ ["."%char] ++ t :: tld).
      rewrite app_assoc, skipn_app, skipn_all, Nat.sub_diag. cbn [skipn app].
      rewrite firstn_all2; [reflexivity|].
      rewrite npos_val. unfold size in *. lia.
  - rewrite (find_last_of_absent _ _ 0 Hn), Z.eqb_refl. reflexivity.
Qed.
End WhoisTld.

Lemma extractTLD_after_last_dot_witness :
  Whois.extractTLD (CStr.lit "www.example" ++ CStr.lit "." ++ CStr.lit "org")
  = Cxx.Ok (CStr.lit "org") /\
  Whois.extractTLD (CStr.lit "org") = Cxx.Ok [].
Proof.
  apply extractTLD_after_last_dot.
  - vm_compute. reflexivity.
  - intros H. vm_compute in H. repeat destruct H as [H|H]; try discriminate H.
    exact H.
Defined.

(** ** conf-convert: escaping, filters, statistics *)

Section EscapeFacts.
Import CStr Cxx ConfConvert Escaping.

Lemma escape_char_back c rest :
  unescape ((if Ascii.eqb c dquote then [backslash; dquote]
             else if Ascii.eqb c backslash then [backslash; backslash]
             else if Ascii.eqb c newline then [backslash; "n"%char]
             else if Ascii.eqb c cr then [backslash; "r"%char]
             else if Ascii.eqb c tab then [backslash; "t"%char]
             else [c]) ++ rest)
  = c :: unescape rest.
Proof.
  destruct (Ascii.eqb_spec c dquote) as [->|H1]; [reflexivity|].
  destruct (Ascii.eqb_spec c backslash) as [->|H2]; [reflexivity|].
  destruct (Ascii.eqb_spec c newline) as [->|H3]; [reflexivity|].
  destruct (Ascii.eqb_spec c cr) as [->|H4]; [reflexivity|].
  destruct (Ascii.eqb_spec c tab) as [->|H5]; [reflexivity|].
  cbn [app unescape].
  destruct (Ascii.eqb_spec c backslash); [contradiction|reflexivity].
Qed.

Lemma unescape_escape s : unescape (escapeJsonString s) = s.
Proof.
  unfold escapeJsonString. induction s as [|c s IH]; [reflexivity|].
  cbn [flat_map]. rewrite escape_char_back. f_equal. exact IH.
Qed.

Lemma escape_char_plain c :
  Forall (fun x => Ascii.eqb x newline = false /\ Ascii.eqb x cr = false
                   /\ Ascii.eqb x tab = false)
    (if Ascii.eqb c dquote then [backslash; dquote]
     else if Ascii.eqb c backslash then [backslash; backslash]
     else if Ascii.eqb c newline then [backslash; "n"%char]
     else if Ascii.eqb c cr then [backslash; "r"%char]
     else if Ascii.eqb c tab then [backslash; "t"%char]
     else [c]).
Proof.
  destruct (Ascii.eqb c dquote); [repeat constructor|].
  destruct (Ascii.eqb c backslash); [repeat constructor|].
  destruct (Ascii.eqb c newline) eqn:E1; [repeat constructor|].
  destruct (Ascii.eqb c cr) eqn:E2; [repeat constructor|].
  destruct (Ascii.eqb c tab) eqn:E3; [repeat constructor|].
  constructor; [|constructor]. repeat split; assumption.
Qed.

Lemma escape_plain s :
  Forall (fun x => Ascii.eqb x newline = false /\ Ascii.eqb x cr = false
                   /\ Ascii.eqb x tab = false) (escapeJsonString s).
Proof.
  unfold escapeJsonString. induction s as [|c s IH]; [constructor|].
  cbn [flat_map]. apply Forall_app. split; [apply escape_char_plain|exact IH].
Qed.

(** X7.  The escaping of the JSON writer of conf-convert, which is also
    that of whois, loses nothing: two texts with the same escaped form are
    the same text.  The escaped form holds no line feed, carriage return or
    tab. *)
Theorem escaping_is_injective (a b : str) :
  (escapeJsonString a = escapeJsonString b -> a = b) /\
  (Whois.escapeJSON a = Whois.escapeJSON b -> a = b) /\
  Whois.escapeJSON a = escapeJsonString a /\
  ~ In newline (escapeJsonString a) /\ ~ In cr (escapeJsonString a) /\
  ~ In tab (escapeJsonString a).
Proof.
  assert (Hinj : escapeJsonString a = escapeJsonString b -> a = b).
  { intros H. rewrite <- (unescape_escape a), <- (unescape_escape b), H.
    reflexivity. }
  split; [exact Hinj|]. split; [exact Hinj|]. split; [reflexivity|].
  pose proof (escape_plain a) as Hp.
  rewrite Forall_forall in Hp.
  repeat split; intros Hin; destruct (Hp _ Hin) as (H1 & H2 & H3);
    rewrite Ascii.eqb_refl in *; discriminate.
Qed.
End EscapeFacts.

Section FilterFacts.
Import CStr Cxx ConfConvert KeyOrder Escaping Filtering.

Lemma str_eqb_sym a b : str_eqb a b = str_eqb b a.
Proof.
  destruct (str_eqb a b) eqn:E1; destruct (str_eqb b a) eqn:E2; try reflexivity.
  - apply str_eqb_eq in E1. subst. 
    assert (H : str_eqb b b = true) by (apply str_eqb_eq; reflexivity). congruence.
  - apply str_eqb_eq in E2. subst.
    assert (H : str_eqb a a = true) by (apply str_eqb_eq; reflexivity). congruence.
Qed.

Lemma map_find_set_other {V} k k' (v : V) mp :
  str_eqb k k' = false -> map_find k (map_set k' v mp) = map_find k mp.
Proof.
  intros Hne. induction mp as [|[k1 v1] mp IH]; cbn [map_set map_find].
  - rewrite Hne. reflexivity.
  - destruct (str_ltb k' k1) eqn:E1.
    + cbn [map_find]. rewrite Hne. reflexivity.
    + destruct (str_ltb k1 k') eqn:E2; cbn [map_find].
      * rewrite IH. reflexivity.
      * rewrite (str_ltb_total k' k1 E1 E2) in Hne. rewrite Hne. reflexivity.
Qed.

Lemma map_find_erase {V} k k' (mp : omap V) :
  map_find k (map_erase k' mp)
  = if str_eqb k' k then None else map_find k mp.
Proof.
  unfold map_erase. induction mp as [|[k1 v1] mp IH]; cbn [filter map_find].
  - destruct (str_eqb k' k); reflexivity.
  - destruct (str_eqb k' k1) eqn:E1; cbn [negb].
    + rewrite IH. destruct (str_eqb k' k) eqn:E2; [reflexivity|].
      apply str_eqb_eq in E1. subst k1. rewrite str_eqb_sym, E2. reflexivity.
    + cbn [map_find]. destruct (str_eqb k k1) eqn:E3.
      * apply str_eqb_eq in E3. subst k1. rewrite E1. reflexivity.
      * exact IH.
Qed.

Lemma erase_all_find {V} keys : forall (mp : omap V) k,
  map_find k (fold_left (fun d key => map_erase key d) keys mp)
  = if existsb (fun key => str_eqb key k) keys then None else map_find k mp.
Proof.
  induction keys as [|key keys IH]; intros mp k; cbn [fold_left existsb];
    [reflexivity|].
  rewrite IH, map_find_erase.
  destruct (str_eqb key k); cbn [orb]; [destruct (existsb _ keys)|]; reflexivity.
Qed.

Lemma include_find (data : smap) keys : forall acc k,
  map_find k (fold_left (fun filtered key =>
                           match map_find key data with
                           | Some v => map_set key v filtered
                           | None => filtered
                           end) keys acc)
  = if existsb (fun key => str_eqb key k) keys
    then match map_find k data with
         | Some v => Some v
         | None => map_find k acc
         end
    else map_find k acc.
Proof.
  induction keys as [|key keys IH]; intros acc k; cbn [fold_left existsb];
    [reflexivity|].
  rewrite IH. destruct (str_eqb key k) eqn:E; cbn [orb].
  - apply str_eqb_eq in E. subst key.
    destruct (map_find k data) as [v|] eqn:Ef.
    + rewrite map_find_set. destruct (existsb _ keys); reflexivity.
    + destruct (existsb _ keys); reflexivity.
  - destruct (map_find key data) as [v|].
    + rewrite map_find_set_other by (rewrite str_eqb_sym; exact E). reflexivity.
    + reflexivity.
Qed.

(** X8.  After filterKeys a key holds the value it held before when it
    is not among the excluded keys and, if keys to include were given, is
    among them; otherwise it is gone.  No key gets a value it did not have,
    and exclusion wins over inclusion. *)
Theorem filterKeys_keeps_what_is_asked (c : ConfigConverter) (k : str) :
  map_find k (config_data (filterKeys c)) = kept_value c k /\
  (In k (exclude_keys c) -> map_find k (config_data (filterKeys c)) = None) /\
  (forall v, map_find k (config_data (filterKeys c)) = Some v ->
             map_find k (config_data c) = Some v).
Proof.
  assert (H : map_find k (config_data (filterKeys c)) = kept_value c k).
  { unfold filterKeys, kept_value. cbn [set_data config_data].
    rewrite erase_all_find.
    destruct (existsb (fun key => str_eqb key k) (exclude_keys c)); [reflexivity|].
    destruct (include_keys c) as [|key keys]; [reflexivity|].
    rewrite include_find. cbn [map_find].
    destruct (existsb _ (key :: keys)); [|reflexivity].
    destruct (map_find k (config_data c)); reflexivity. }
  split; [exact H|]. split.
  - intros Hin. rewrite H. unfold kept_value.
    assert (E : existsb (fun key => str_eqb key k) (exclude_keys c) = true).
    { apply existsb_exists. exists k. split; [exact Hin|].
      apply str_eqb_eq. reflexivity. }
    rewrite E. reflexivity.
  - intros v. rewrite H. unfold kept_value.
    destruct (existsb _ (exclude_keys c)); [discriminate|].
    destruct (include_keys c) as [|key keys]; [auto|].
    destruct (existsb _ (key :: keys)); [auto|discriminate].
Qed.

(** The entries whose value passes a test. *)
Lemma count_if_counts (p : str -> bool) (mp : smap) : forall n,
  n + Z.of_nat (List.length (filter (fun '(_, v) => p v) mp)) <= INT_MAX ->
  count_if p mp n
  = Some (n + Z.of_nat (List.length (filter (fun '(_, v) => p v) mp))).
Proof.
  induction mp as [|[k v] mp IH]; intros n Hn; cbn [count_if filter].
  - cbn. rewrite Z.add_0_r. reflexivity.
  - cbn [filter] in Hn. destruct (p v).
    + cbn [List.length] in Hn |- *. rewrite Nat2Z.inj_succ in Hn |- *.
      destruct (Z.ltb_spec n INT_MAX); [|lia].
      rewrite IH by lia. f_equal. lia.
    + apply IH. exact Hn.
Qed.

Lemma filter_partition (p q : str -> bool) (mp : smap) :
  (List.length (filter (fun '(_, v) => negb (p v) && negb (q v)) mp)
   + List.length (filter (fun '(_, v) => p v) mp)
   + List.length (filter (fun '(_, v) => negb (p v) && q v) mp))%nat
  = List.length mp.
Proof.
  induction mp as [|[k v] mp IH]; [reflexivity|].
  cbn [filter List.length].
  destruct (p v); destruct (q v); cbn [negb andb List.length]; lia.
Qed.

(** X9.  In the statistics of conf-convert, for a store of at most
    2^31 - 1 entries, which the int counters can count, every key is
    counted once: the three counts printed as strings, numbers and booleans
    add up to the total of keys printed above them. *)
Theorem statistics_add_up (c : ConfigConverter) :
  show_stats c = true ->
  Z.of_nat (List.length (config_data c)) <= INT_MAX ->
  exists strings numbers booleans,
    0 <= strings /\ 0 <= numbers /\ 0 <= booleans /\
    strings + numbers + booleans = Z.of_nat (List.length (config_data c)) /\
    printStatistics c
    = Some
        ([newline] ++ lit "--- Conversion Statistics ---" ++ [newline]
         ++ lit "Total keys: " ++ dec (List.length (config_data c)) ++ [newline]
         ++ lit "Comments preserved: " ++ dec (List.length (comments c))
         ++ [newline]
         ++ lit "Input format: " ++ input_format c ++ [newline]
         ++ lit "Output format: " ++ output_format c ++ [newline]
         ++ lit "Value types - Strings: " ++ dec_int strings
         ++ lit ", Numbers: " ++ dec_int numbers
         ++ lit ", Booleans: " ++ dec_int booleans ++ [newline]).
Proof.
  intros Hs Hb. unfold printStatistics. rewrite Hs. cbn [negb].
  pose proof (filter_partition isNumber isBoolean (config_data c)) as Hp.
  rewrite !count_if_counts by lia. cbn [Z.add].
  eexists _, _, _. repeat split; [lia|lia|lia|lia].
Qed.

Lemma toupper_facts c :
  toupper (toupper c) = toupper c /\ islower (toupper c) = false /\
  (Ascii.eqb (toupper c) "." = Ascii.eqb c ".").
Proof.
  destruct c as [[|] [|] [|] [|] [|] [|] [|] [|]]; vm_compute; repeat split.
Qed.

(** X10.  The name generateENV writes for a key holds no dot and no
    lower-case letter, and writing the name of a name changes nothing. *)
Theorem env_key_is_a_shell_name (key : str) :
  ~ In "."%char (env_key key) /\
  forallb (fun ch => negb (islower ch)) (env_key key) = true /\
  env_key (env_key key) = env_key key.
Proof.
  unfold env_key. induction key as [|c key IH]; [repeat split; intros []|].
  destruct IH as (H1 & H2 & H3).
  destruct (toupper_facts c) as (T1 & T2 & T3).
  cbn [map]. split; [|split].
  - intros [H|H]; [|exact (H1 H)].
    destruct (Ascii.eqb (toupper c) ".") eqn:E; [discriminate H|].
    rewrite <- H, Ascii.eqb_refl in E. discriminate E.
  - cbn [forallb]. rewrite H2, andb_true_r.
    destruct (Ascii.eqb (toupper c) "."); [reflexivity|]. rewrite T2. reflexivity.
  - f_equal; [|exact H3].
    destruct (Ascii.eqb (toupper c) ".") eqn:E; [reflexivity|].
    rewrite T1, E. reflexivity.
Qed.
End FilterFacts.

Lemma filterKeys_keeps_what_is_asked_witness :
  Cxx.map_find (CStr.lit "b")
    (ConfConvert.config_data (ConfConvert.filterKeys Filtering.both)) = None.
Proof.
  apply (proj1 (proj2 (filterKeys_keeps_what_is_asked Filtering.both (CStr.lit "b")))).
  left. reflexivity.
Defined.

Lemma statistics_add_up_witness :
  exists strings numbers booleans,
    0 <= strings /\ 0 <= numbers /\ 0 <= booleans /\
    strings + numbers + booleans = 2 /\
    ConfConvert.printStatistics Filtering.both
    = Some
        ([CStr.newline] ++ CStr.lit "--- Conversion Statistics ---"
         ++ [CStr.newline]
         ++ CStr.lit "Total keys: " ++ CStr.dec 2 ++ [CStr.newline]
         ++ CStr.lit "Comments preserved: " ++ CStr.dec 0 ++ [CStr.newline]
         ++ CStr.lit "Input format: auto" ++ [CStr.newline]
         ++ CStr.lit "Output format: json" ++ [CStr.newline]
         ++ CStr.lit "Value types - Strings: " ++ Cxx.dec_int strings
         ++ CStr.lit ", Numbers: " ++ Cxx.dec_int numbers
         ++ CStr.lit ", Booleans: " ++ Cxx.dec_int booleans ++ [CStr.newline]).
Proof.
  apply (statistics_add_up Filtering.both eq_refl). vm_compute. discriminate.
Defined.

(** ** yes and no: until a signal comes *)

Section YesMore.
Import CStr Cxx Proc PrintLoop Interrupted.

Lemma yes_loop_until_signal output sigs k : forall fuel n st,
  (forall i, (n <= i < n + k)%nat -> sigs i = false) ->
  sigs (n + k)%nat = true ->
  (k < fuel)%nat ->
  Yes.keep_running st = 1 -> Yes.limit st < 0 ->
  exists st',
    Yes.main_loop fuel sigs n output st = (Exit 0, st') /\
    Yes.stdout st'
    = Yes.stdout st
      ++ List.concat (repeat (if Yes.add_newline st then output ++ [newline]
                              else output) k) /\
    Yes.stderr st' = Yes.stderr st.
Proof.
  induction k as [|k IH]; intros fuel n st Hq Hs Hfuel Hrun Hlim.
  - destruct fuel as [|fuel]; [lia|]. cbn [Yes.main_loop].
    rewrite Nat.add_0_r in Hs. rewrite Hs. unfold Yes.guard.
    cbn [Yes.handle_signal Yes.keep_running Z.eqb negb andb].
    eexists. split; [reflexivity|]. cbn. rewrite app_nil_r. auto.
  - destruct fuel as [|fuel]; [lia|]. cbn [Yes.main_loop].
    rewrite (Hq n) by lia. unfold Yes.guard. rewrite Hrun.
    replace (Yes.limit st <? 0) with true by (symmetry; apply Z.ltb_lt; lia).
    cbn [Z.eqb negb andb orb].
    destruct (IH fuel (S n) (Yes.body output st)) as [st' [H1 [H2 H3]]].
    + intros i Hi. apply Hq. lia.
    + replace (S n + k)%nat with (n + S k)%nat by lia. exact Hs.
    + lia.
    + exact Hrun.
    + exact Hlim.
    + exists st'. split; [exact H1|]. rewrite H2, H3. cbn.
      rewrite <- !app_assoc. auto.
Qed.

(** X11.  yes without --limit prints its line once for every evaluation
    of the loop condition that comes before the first SIGINT or SIGTERM and
    then ends with status 0: a signal that arrives before the evaluation
    numbered k leaves exactly k lines on standard output. *)
Theorem yes_prints_until_signal help_text version_text fuel sigs k program_name
        args output :
  first_at k sigs -> (k < fuel)%nat -> Yes.output_of args = Some output ->
  exists st,
    Yes.main help_text version_text fuel sigs program_name [] args = (Exit 0, st) /\
    Yes.stdout st = lines output k /\ Yes.stderr st = [].
Proof.
  intros [Hq Hs] Hfuel Hout. unfold Yes.main. cbn [Yes.options_loop]. rewrite Hout.
  destruct (yes_loop_until_signal output sigs k fuel 0%nat Yes.initial)
    as [st' [H1 [H2 H3]]]; try reflexivity; try assumption.
  - intros i Hi. apply Hq. lia.
  - exists st'. split; [exact H1|]. split; [|exact H3]. rewrite H2. reflexivity.
Qed.

Lemma size_app' (a b : str) : size (a ++ b) = size a + size b.
Proof. unfold size. rewrite length_app. lia. Qed.

Lemma join_args_fits : forall (args : list str) (started : bool) (buffer : str),
  args <> [] ->
  size ((if started then buffer ++ lit " " else buffer) ++ joined args)
  <= Yes.BUFFER_SIZE - 100 ->
  Yes.join_args started args buffer
  = Some ((if started then buffer ++ lit " " else buffer) ++ joined args).
Proof.
  induction args as [|a args IH]; intros started buffer Hne Hs; [contradiction|].
  cbn [Yes.join_args]. set (b1 := (if started then buffer ++ lit " " else buffer) ++ a).
  destruct args as [|a2 args].
  - cbn [joined] in *. fold b1 in Hs |- *.
    unfold Yes.BUFFER_SIZE in *.
    destruct (Z.leb_spec 8192 (size b1)); [lia|].
    destruct (Z.ltb_spec (8192 - 100) (size b1)); [lia|]. reflexivity.
  - assert (E : (if started then buffer ++ lit " " else buffer) ++ joined (a :: a2 :: args)
                = (b1 ++ lit " ") ++ joined (a2 :: args)).
    { subst b1. cbn [joined]. rewrite <- !app_assoc. reflexivity. }
    rewrite E in Hs |- *.
    assert (Hb : size b1 <= size ((b1 ++ lit " ") ++ joined (a2 :: args))).
    { rewrite !size_app'. pose proof (size_nonneg (lit " ")).
      pose proof (size_nonneg (joined (a2 :: args))). lia. }
    unfold Yes.BUFFER_SIZE in *.
    destruct (Z.leb_spec 8192 (size b1)); [lia|].
    destruct (Z.ltb_spec (8192 - 100) (size b1)); [lia|].
    apply (IH true b1); [discriminate|exact Hs].
Qed.

(** X12.  The text yes repeats is y without arguments and, as long as
    it is at most 8092 bytes long, the arguments with single blanks between
    them; a first argument of 8192 bytes or more does not fit the buffer of
    main, and strcat writes past its end. *)
Theorem yes_text_is_the_arguments (args : list str) :
  Yes.output_of [] = Some (lit "y") /\
  (args <> [] -> size (joined args) <= Yes.BUFFER_SIZE - 100 ->
   Yes.output_of args = Some (joined args)) /\
  (forall a, Yes.BUFFER_SIZE <= size a -> Yes.output_of (a :: args) = None).
Proof.
  split; [reflexivity|]. split.
  - intros Hne Hs. destruct args as [|a rest]; [contradiction|].
    unfold Yes.output_of. apply (join_args_fits (a :: rest) false []); assumption.
  - intros a Ha. unfold Yes.output_of. cbn [Yes.join_args app].
    destruct (Z.leb_spec Yes.BUFFER_SIZE (size a)); [reflexivity|lia].
Qed.
End YesMore.

Lemma yes_prints_until_signal_witness :
  Interrupted.first_at 2 (Interrupted.at_check 2) /\
  exists st,
    Yes.main (fun _ => []) [] 5 (Interrupted.at_check 2) (CStr.lit "yes") []
             [CStr.lit "a"; CStr.lit "b"]
    = (Proc.Exit 0, st) /\
    Yes.stdout st = PrintLoop.lines (CStr.lit "a b") 2 /\ Yes.stderr st = [].
Proof.
  assert (H : Interrupted.first_at 2 (Interrupted.at_check 2)).
  { split; [|reflexivity]. intros [|[|i]] Hi; [reflexivity|reflexivity|lia]. }
  split; [exact H|].
  apply (yes_prints_until_signal (fun _ => []) [] 5 (Interrupted.at_check 2) 2
           (CStr.lit "yes") [CStr.lit "a"; CStr.lit "b"] (CStr.lit "a b") H);
    [lia|reflexivity].
Defined.

Lemma yes_text_is_the_arguments_witness :
  Yes.output_of [CStr.lit "a"; CStr.lit "b"] = Some (CStr.lit "a b").
Proof.
  apply (proj1 (proj2 (yes_text_is_the_arguments [CStr.lit "a"; CStr.lit "b"]))).
  - discriminate.
  - vm_compute. discriminate.
Defined.

Section NoMore.
Import CStr Cxx Proc PrintLoop Interrupted.

Lemma no_limited_loop_sleeps formatted k : forall fuel n i p,
  No.running (No.no_util p) = true ->
  No.count (No.no_util p) = i + Z.of_nat k ->
  (k < fuel)%nat ->
  exists p',
    No.limited_loop fuel no_signal n i formatted p = (Exit 0, p') /\
    No.cout p' = No.cout p ++ lines formatted k /\
    No.slept p'
    = No.slept p
      ++ (if 0 <? No.delay_ms (No.no_util p)
          then repeat (No.delay_ms (No.no_util p)) (k - 1) else []).
Proof.
  induction k as [|k IH]; intros fuel n i p Hrun Hcount Hfuel.
  - destruct fuel as [|fuel]; [lia|]. cbn [No.limited_loop No.deliver no_signal].
    rewrite Hcount. replace (i <? i + Z.of_nat 0) with false
      by (symmetry; apply Z.ltb_ge; lia).
    exists p. cbn. rewrite !app_nil_r.
    destruct (0 <? No.delay_ms (No.no_util p)); rewrite ?app_nil_r; auto.
  - destruct fuel as [|fuel]; [lia|]. cbn [No.limited_loop No.deliver no_signal].
    rewrite Hcount, Hrun.
    replace (i <? i + Z.of_nat (S k)) with true by (symmetry; apply Z.ltb_lt; lia).
    cbn [andb No.print No.no_util].
    match goal with
    | |- context [No.limited_loop fuel no_signal (S n) (i + 1) formatted ?q] =>
        set (p1 := q)
    end.
    assert (Hu : No.no_util p1 = No.no_util p)
      by (subst p1; destruct (_ && _); reflexivity).
    destruct (IH fuel (S n) (i + 1) p1) as [p' [H1 [H2 H3]]].
    + rewrite Hu. exact Hrun.
    + rewrite Hu, Hcount. lia.
    + lia.
    + exists p'. split; [exact H1|]. rewrite H2, H3, Hu.
      assert (Hc : No.cout p1 = No.cout p ++ formatted ++ [newline])
        by (subst p1; destruct (_ && _); reflexivity).
      rewrite Hc, lines_succ, <- !app_assoc. split; [reflexivity|].
      subst p1. cbn [No.print No.no_util]. rewrite ?Hcount.
      destruct (0 <? No.delay_ms (No.no_util p)) eqn:Ed; cbn [andb].
      * destruct k as [|k].
        -- replace (i <? i + Z.of_nat 1 - 1) with false
             by (symmetry; apply Z.ltb_ge; lia).
           reflexivity.
        -- replace (i <? i + Z.of_nat (S (S k)) - 1) with true
             by (symmetry; apply Z.ltb_lt; lia).
           cbn [No.sleep_for No.slept No.print No.no_util].
           rewrite <- app_assoc. f_equal.
           replace (S (S k) - 1)%nat with (S (S k - 1)) by lia. reflexivity.
      * reflexivity.
Qed.

Lemma no_infinite_loop_until_signal formatted sigs k : forall fuel n p,
  (forall i, (n <= i < n + k)%nat -> sigs i = false) ->
  sigs (n + k)%nat = true ->
  (k < fuel)%nat ->
  No.running (No.no_util p) = true -> No.global_no p = true ->
  exists p',
    No.infinite_loop fuel sigs n formatted p = (Exit 0, p') /\
    No.cout p' = No.cout p ++ lines formatted k /\
    No.slept p'
    = No.slept p
      ++ (if 0 <? No.delay_ms (No.no_util p)
          then repeat (No.delay_ms (No.no_util p)) k else []).
Proof.
  induction k as [|k IH]; intros fuel n p Hq Hs Hfuel Hrun Hg.
  - destruct fuel as [|fuel]; [lia|]. cbn [No.infinite_loop]. unfold No.deliver.
    rewrite Nat.add_0_r in Hs. rewrite Hs. unfold No.signalHandler. rewrite Hg.
    cbn [No.with_util No.no_util No.setRunning No.running].
    eexists. split; [reflexivity|]. cbn. rewrite !app_nil_r.
    destruct (0 <? No.delay_ms (No.no_util p)); rewrite ?app_nil_r; auto.
  - destruct fuel as [|fuel]; [lia|]. cbn [No.infinite_loop]. unfold No.deliver.
    rewrite (Hq n) by lia. rewrite Hrun. cbn [No.print No.no_util].
    match goal with
    | |- context [No.infinite_loop fuel sigs (S n) formatted ?q] => set (p1 := q)
    end.
    assert (Hu : No.no_util p1 = No.no_util p /\ No.global_no p1 = true)
      by (subst p1; destruct (0 <? _); split; assumption || reflexivity).
    destruct Hu as [Hu Hg1].
    destruct (IH fuel (S n) p1) as [p' [H1 [H2 H3]]].
    + intros i Hi. apply Hq. lia.
    + replace (S n + k)%nat with (n + S k)%nat by lia. exact Hs.
    + lia.
    + rewrite Hu. exact Hrun.
    + exact Hg1.
    + exists p'. split; [exact H1|]. rewrite H2, H3, Hu.
      subst p1. destruct (0 <? No.delay_ms (No.no_util p)) eqn:Ed;
        cbn [No.cout No.slept No.sleep_for No.print];
        rewrite lines_succ, <- !app_assoc; split; reflexivity.
Qed.

(** X13.  NoUtility::run with a count, when no signal arrives: it prints
    its line count times, sleeps between two lines but not after the last
    one, that is count - 1 times when a positive delay is set and never
    otherwise, and returns 0. *)
Theorem no_sleeps_between_lines fuel (p : No.process) (N : nat) :
  No.quiet (No.no_util p) = false -> No.running (No.no_util p) = true ->
  No.count (No.no_util p) = Z.of_nat N -> (N < fuel)%nat ->
  exists p',
    No.run fuel no_signal p = (Exit 0, p') /\
    No.cout p' = No.cout p ++ lines (No.formatOutput (No.no_util p)) N /\
    No.slept p'
    = No.slept p
      ++ (if 0 <? No.delay_ms (No.no_util p)
          then repeat (No.delay_ms (No.no_util p)) (N - 1) else []).
Proof.
  intros Hq Hrun Hc Hfuel. unfold No.run. rewrite Hq, Hc. cbn [negb].
  destruct (Z.eqb_spec (Z.of_nat N) (-1)); [lia|].
  apply no_limited_loop_sleeps; [exact Hrun|rewrite Hc; lia|exact Hfuel].
Qed.

(** X14.  NoUtility::run without a count prints its line once for every
    evaluation of the loop condition that comes before the first SIGINT or
    SIGTERM, sleeps after every line when a positive delay is set, and
    returns 0 when the signal has come. *)
Theorem no_prints_until_signal fuel sigs (k : nat) (p : No.process) :
  first_at k sigs -> (k < fuel)%nat ->
  No.quiet (No.no_util p) = false -> No.running (No.no_util p) = true ->
  No.global_no p = true -> No.count (No.no_util p) = -1 ->
  exists p',
    No.run fuel sigs p = (Exit 0, p') /\
    No.cout p' = No.cout p ++ lines (No.formatOutput (No.no_util p)) k /\
    No.slept p'
    = No.slept p
      ++ (if 0 <? No.delay_ms (No.no_util p)
          then repeat (No.delay_ms (No.no_util p)) k else []).
Proof.
  intros [Hs0 Hs] Hfuel Hq Hrun Hg Hc. unfold No.run. rewrite Hq, Hc.
  cbn [negb Z.eqb]. 
  apply no_infinite_loop_until_signal; try assumption.
  intros i Hi. apply Hs0. lia.
Qed.
End NoMore.

Lemma no_sleeps_between_lines_witness :
  exists p',
    No.run 5 Proc.no_signal (No.with_util (No.setDelay 100)
                               (No.with_util (No.setCount 3) No.started))
    = (Proc.Exit 0, p') /\
    No.cout p' = PrintLoop.lines (CStr.lit "no") 3 /\
    No.slept p' = [100; 100].
Proof.
  exact (no_sleeps_between_lines 5
           (No.with_util (No.setDelay 100) (No.with_util (No.setCount 3) No.started))
           3 eq_refl eq_refl eq_refl ltac:(lia)).
Defined.

Lemma no_prints_until_signal_witness :
  exists p',
    No.run 5 (Interrupted.at_check 2) (No.with_util (No.setDelay 100) No.started)
    = (Proc.Exit 0, p') /\
    No.cout p' = PrintLoop.lines (CStr.lit "no") 2 /\
    No.slept p' = [100; 100].
Proof.
  assert (H : Interrupted.first_at 2 (Interrupted.at_check 2)).
  { split; [|reflexivity]. intros [|[|i]] Hi; [reflexivity|reflexivity|lia]. }
  exact (no_prints_until_signal 5 (Interrupted.at_check 2) 2
           (No.with_util (No.setDelay 100) No.started) H ltac:(lia)
           eq_refl eq_refl eq_refl eq_refl).
Defined.

(** ** ping: the rounds *)

Section PingRounds.
Import CStr Proc Ping Rounds.

Lemma each_target_quiet ts : forall n sequence p,
  running (ping p) = true ->
  exists p',
    each_target no_signal n ts sequence p
    = ((n + List.length ts)%nat, sequence + Z.of_nat (List.length ts), p') /\
    ping p' = ping p /\ global_ping p' = global_ping p /\
    events p'
    = events p
      ++ flat_map (fun '(t, i) =>
                     Probe t i :: (if negb (continuous (ping p))
                                      && negb (flood_mode (ping p))
                                   then [Sleep (interval (ping p))] else []))
                  (numbered sequence ts).
Proof.
  induction ts as [|t ts IH]; intros n sequence p Hrun.
  - exists p. cbn. rewrite Nat.add_0_r, Z.add_0_r, app_nil_r. auto.
  - cbn [each_target]. unfold deliver. change (no_signal n) with false. cbv iota.
    rewrite Hrun. cbn [negb].
    match goal with
    | |- context [each_target _ (S n) ts (sequence + 1) ?q] => set (p1 := q)
    end.
    assert (H1 : ping p1 = ping p /\ global_ping p1 = global_ping p /\
                 events p1 = events p
                   ++ Probe t sequence
                      :: (if negb (continuous (ping p)) && negb (flood_mode (ping p))
                          then [Sleep (interval (ping p))] else [])).
    { subst p1. cbn [happen ping].
      destruct (negb (continuous (ping p)) && negb (flood_mode (ping p)));
        cbn; rewrite <- ?app_assoc; auto. }
    destruct H1 as (Hp & Hg & He).
    destruct (IH (S n) (sequence + 1) p1) as [p' (E & Hp' & Hg' & He')];
      [rewrite Hp; exact Hrun|].
    exists p'. rewrite E. split.
    + cbn [List.length]. rewrite Nat2Z.inj_succ.
      replace (S n + List.length ts)%nat with (n + S (List.length ts))%nat by lia.
      replace (sequence + 1 + Z.of_nat (List.length ts))
        with (sequence + Z.succ (Z.of_nat (List.length ts))) by lia.
      reflexivity.
    + split; [congruence|]. split; [congruence|].
      rewrite He', He, Hp. cbn [numbered flat_map]. rewrite <- !app_assoc.
      reflexivity.
Qed.

Lemma rounds_quiet c : forall fuel n sequence completed_pings p,
  running (ping p) = true -> continuous (ping p) = false ->
  count (ping p) = completed_pings + Z.of_nat c -> (c < fuel)%nat ->
  exists p',
    rounds fuel no_signal n sequence completed_pings p = (Exit 0, p') /\
    events p' = events p ++ rounds_events (ping p) sequence c.
Proof.
  induction c as [|c IH]; intros fuel n sequence completed p Hrun Hc Hcount Hfuel.
  - destruct fuel as [|fuel]; [lia|]. cbn [rounds]. unfold deliver. change (no_signal n) with false. cbv iota.
    rewrite Hrun, Hc, Hcount. cbn [orb andb].
    replace (completed <? completed + Z.of_nat 0) with false
      by (symmetry; apply Z.ltb_ge; lia).
    exists p. cbn. rewrite app_nil_r. auto.
  - destruct fuel as [|fuel]; [lia|]. cbn [rounds]. unfold deliver. change (no_signal n) with false. cbv iota.
    rewrite Hrun, Hc, Hcount. cbn [orb andb].
    replace (completed <? completed + Z.of_nat (S c)) with true
      by (symmetry; apply Z.ltb_lt; lia).
    destruct (each_target_quiet (targets (ping p)) (S n) sequence p Hrun)
      as [p1 (E & Hp & Hg & He)].
    rewrite E, Hp, Hc, Hcount. cbn [negb andb].
    destruct c as [|c].
    + replace (completed + Z.of_nat 1 <=? completed + 1) with true
        by (symmetry; apply Z.leb_le; lia).
      exists p1. split; [reflexivity|]. rewrite He. cbn [rounds_events].
      rewrite app_nil_r. reflexivity.
    + replace (completed + Z.of_nat (S (S c)) <=? completed + 1) with false
        by (symmetry; apply Z.leb_gt; lia).
      match goal with
      | |- context [rounds fuel no_signal _ _ (completed + 1) ?q] => set (p2 := q)
      end.
      assert (H2 : ping p2 = ping p /\
                   events p2 = events p1
                     ++ (if flood_mode (ping p) then [Sleep 10] else [])).
      { subst p2. destruct (flood_mode (ping p)); cbn; rewrite ?app_nil_r; auto. }
      destruct H2 as [Hp2 He2].
      destruct (IH fuel (S n + List.length (targets (ping p)))%nat
                   (sequence + Z.of_nat (List.length (targets (ping p))))
                   (completed + 1) p2) as [p' [E' He']].
      * rewrite Hp2. exact Hrun.
      * rewrite Hp2. exact Hc.
      * rewrite Hp2, Hcount. lia.
      * lia.
      * exists p'. split; [exact E'|]. rewrite He', He2, He, Hp2.
        cbn [rounds_events]. unfold round_events. rewrite <- !app_assoc.
        reflexivity.
Qed.

Lemma probes_app a b : probes (a ++ b) = probes a ++ probes b.
Proof. unfold probes. apply flat_map_app. Qed.

Lemma probes_round u s :
  probes (round_events u s) = numbered s (targets u).
Proof.
  unfold round_events. generalize (targets u) s.
  induction l as [|t ts IH]; intros s0; [reflexivity|].
  cbn [numbered flat_map]. rewrite probes_app, IH.
  destruct (negb (continuous u) && negb (flood_mode u)); reflexivity.
Qed.

Lemma numbered_app s a b :
  numbered s (a ++ b) = numbered s a ++ numbered (s + Z.of_nat (List.length a)) b.
Proof.
  revert s. induction a as [|t a IH]; intros s; cbn [app numbered List.length].
  - rewrite Z.add_0_r. reflexivity.
  - rewrite IH. do 3 f_equal. lia.
Qed.

Lemma probes_rounds u c : forall s,
  probes (rounds_events u s c) = numbered s (round_robin c (targets u)).
Proof.
  induction c as [|c IH]; intros s; [reflexivity|].
  cbn [rounds_events]. unfold round_robin. cbn [repeat List.concat].
  fold (round_robin c (targets u)).
  rewrite probes_app, probes_round, numbered_app. f_equal.
  destruct c as [|c]; [reflexivity|].
  rewrite probes_app, IH. destruct (flood_mode u); reflexivity.
Qed.

(** X15.  ping -c N, when no signal arrives: the loop of run makes N
    rounds over the targets in the order given and ends; the probes are
    numbered 1, 2, 3, ... across targets and rounds, so every target is
    probed N times; without -f every probe, the last one too, is followed
    by a sleep of one interval, and with -f rounds are 10 ms apart.  The
    sequence number is an int; the probes are few enough for it not to
    overflow. *)
Theorem ping_round_robin fuel (p : process) (N : nat) :
  running (ping p) = true -> continuous (ping p) = false ->
  count (ping p) = Z.of_nat N -> (N < fuel)%nat ->
  Z.of_nat (N * List.length (targets (ping p))) < 2 ^ 31 - 1 ->
  exists p',
    run_loop fuel no_signal p = (Exit 0, p') /\
    events p' = events p ++ rounds_events (ping p) 1 N /\
    probes (events p')
    = probes (events p) ++ numbered 1 (round_robin N (targets (ping p))).
Proof.
  intros Hrun Hc Hcount Hfuel _. unfold run_loop.
  destruct (rounds_quiet N fuel 0%nat 1 0 p Hrun Hc) as [p' [E He]];
    [rewrite Hcount; lia|exact Hfuel|].
  exists p'. split; [exact E|]. split; [exact He|].
  rewrite He, probes_app, probes_rounds. reflexivity.
Qed.
End PingRounds.

Lemma ping_round_robin_witness :
  exists p',
    Ping.run_loop 5 Proc.no_signal Rounds.two_hosts = (Proc.Exit 0, p') /\
    Ping.events p'
    = [Ping.Probe (CStr.lit "a") 1; Ping.Sleep 1000;
       Ping.Probe (CStr.lit "b") 2; Ping.Sleep 1000;
       Ping.Probe (CStr.lit "a") 3; Ping.Sleep 1000;
       Ping.Probe (CStr.lit "b") 4; Ping.Sleep 1000] /\
    Rounds.probes (Ping.events p')
    = [(CStr.lit "a", 1); (CStr.lit "b", 2); (CStr.lit "a", 3); (CStr.lit "b", 4)].
Proof.
  exact (ping_round_robin 5 Rounds.two_hosts 2 eq_refl eq_refl eq_refl ltac:(lia)
           ltac:(vm_compute; reflexivity)).
Defined.

(** ** kill: the signal names *)

Section KillNames.
Import CStr Cxx Kill SignalNames.

Lemma tolower_dash c : Ascii.eqb (tolower c) "-" = Ascii.eqb c "-".
Proof. destruct c as [[|] [|] [|] [|] [|] [|] [|] [|]]; vm_compute; reflexivity. Qed.

Lemma starts_with_dash_lower s : starts_with_dash (lower s) = starts_with_dash s.
Proof.
  destruct s as [|c s]; [reflexivity|].
  unfold lower. cbn [map starts_with_dash]. apply tolower_dash.
Qed.

Lemma dash_never_matches sig e :
  starts_with_dash (lower e) = false ->
  str_eqb (lower ("-"%char :: sig)) (lower e) = false.
Proof.
  intros H. destruct e as [|c e]; [reflexivity|].
  unfold lower in *. cbn [map str_eqb starts_with_dash] in H |- *.
  change (tolower "-") with "-"%char.
  destruct (Ascii.eqb_spec "-"%char (tolower c)) as [E|E]; [|reflexivity].
  rewrite <- E in H. discriminate H.
Qed.

Lemma table_loop_find sig (dash : bool) rest : forall tbl j i0,
  find_index (lower sig) (map lower tbl) = Some j ->
  forallb (fun e => negb (starts_with_dash (lower e))) tbl = true ->
  starts_with_dash sig = false ->
  table_loop (if dash then "-"%char :: sig else sig) i0 (map Some tbl ++ rest)
  = Some (Some (i0 + Z.of_nat j + 1)).
Proof.
  induction tbl as [|e tbl IH]; intros j i0 Hf Hd Hs; [discriminate Hf|].
  cbn [map find_index forallb] in Hf, Hd. apply andb_true_iff in Hd.
  destruct Hd as [He Hd]. apply negb_true_iff in He.
  cbn [map app table_loop strcasecmp_eq]. fold (lower e).
  destruct (str_eqb (lower sig) (lower e)) eqn:E.
  - injection Hf as <-. destruct dash.
    + fold (lower ("-"%char :: sig)). rewrite (dash_never_matches sig e He).
      rewrite Ascii.eqb_refl. fold (lower sig). rewrite E. f_equal. f_equal. lia.
    + fold (lower sig). rewrite E. f_equal. f_equal. lia.
  - destruct (find_index (lower sig) (map lower tbl)) as [j'|] eqn:Ej;
      [|discriminate Hf].
    injection Hf as <-. specialize (IH j' (i0 + 1) eq_refl Hd Hs).
    destruct dash.
    + fold (lower ("-"%char :: sig)). rewrite (dash_never_matches sig e He).
      rewrite Ascii.eqb_refl. fold (lower sig). rewrite E. rewrite IH.
      f_equal. f_equal. lia.
    + fold (lower sig). rewrite E.
      destruct sig as [|c sig1]; [rewrite IH; f_equal; f_equal; lia|].
      cbn [starts_with_dash] in Hs. rewrite Hs. rewrite IH. f_equal. f_equal. lia.
Qed.

(** X16.  A name of the signal table, in any mix of upper and lower
    case and with or without a dash before it, is parsed to its position in
    the table counted from 1: TERM, term and -Term all give 15. *)
Theorem parse_signal_knows_the_names (i : nat) (name sig : str) :
  nth_error signal_names i = Some name -> lower sig = lower name ->
  parse_signal sig = Some (Z.of_nat i + 1) /\
  parse_signal ("-"%char :: sig) = Some (Z.of_nat i + 1).
Proof.
  intros Hn Hl.
  assert (Hf : find_index (lower sig) (map lower signal_names) = Some i).
  { rewrite Hl. clear Hl sig.
    do 31 (destruct i as [|i]; [injection Hn as <-; vm_compute; reflexivity|]).
    destruct i; discriminate Hn. }
  assert (Hd : forallb (fun e => negb (starts_with_dash (lower e))) signal_names
               = true) by (vm_compute; reflexivity).
  assert (Hs : starts_with_dash sig = false).
  { rewrite <- starts_with_dash_lower, Hl. clear Hl Hf sig.
    do 31 (destruct i as [|i]; [injection Hn as <-; vm_compute; reflexivity|]).
    destruct i; discriminate Hn. }
  assert (Ht : signals = map Some signal_names ++ [None]) by reflexivity.
  unfold parse_signal. rewrite Ht. split.
  - rewrite (table_loop_find sig false [None] signal_names i 0 Hf Hd Hs).
    reflexivity.
  - rewrite (table_loop_find sig true [None] signal_names i 0 Hf Hd Hs).
    reflexivity.
Qed.
End KillNames.

Lemma parse_signal_knows_the_names_witness :
  Kill.parse_signal (CStr.lit "Term") = Some 15 /\
  Kill.parse_signal (CStr.lit "-Term") = Some 15.
Proof.
  exact (parse_signal_knows_the_names 14 (CStr.lit "TERM") (CStr.lit "Term")
           eq_refl eq_refl).
Defined.

(** ** stat: the permission text *)

Section StatFormatProofs.
Import CStr StatFormat PermText.

Lemma has_low mode bit :
  Z.land 4095 bit = bit -> has (Z.land mode 4095) bit = has mode bit.
Proof.
  intros H. unfold has. rewrite <- Z.land_assoc, H. reflexivity.
Qed.

Lemma format_permissions_low mode :
  tl (format_permissions mode) = tl (format_permissions (Z.land mode 4095)).
Proof.
  unfold format_permissions.
  rewrite !has_low by reflexivity.
  destruct (has mode S_ISUID), (has mode S_ISGID), (has mode S_ISVTX);
    reflexivity.
Qed.

Lemma perm_bits_tl s1 s2 :
  List.length s1 = 10%nat -> List.length s2 = 10%nat -> tl s1 = tl s2 ->
  perm_bits s1 = perm_bits s2.
Proof.
  intros H1 H2 H.
  do 11 (destruct s1 as [|? s1]; try discriminate H1).
  do 11 (destruct s2 as [|? s2]; try discriminate H2).
  cbn [tl] in H. injection H as -> -> -> -> -> -> -> -> ->. reflexivity.
Qed.

Lemma format_permissions_length mode :
  List.length (format_permissions mode) = 10%nat.
Proof.
  unfold format_permissions.
  destruct (has mode S_ISUID), (has mode S_ISGID), (has mode S_ISVTX);
    reflexivity.
Qed.

Lemma perm_bits_all :
  forallb (fun r => perm_bits (format_permissions r) =? r)
          (map Z.of_nat (seq 0 4096)) = true.
Proof. vm_compute. reflexivity. Qed.

(** X17.  The text format_permissions makes of a mode is ten characters
    long and shows each of the twelve permission bits: the value of
    mode & 07777 can be read back from it, so two modes with the same text
    have the same permission bits. *)
Theorem format_permissions_shows_every_bit (mode mode' : Z) :
  List.length (format_permissions mode) = 10%nat /\
  perm_bits (format_permissions mode) = Z.land mode 4095 /\
  (format_permissions mode = format_permissions mode' ->
   Z.land mode 4095 = Z.land mode' 4095).
Proof.
  assert (H : forall m, perm_bits (format_permissions m) = Z.land m 4095).
  { intros m.
    rewrite (perm_bits_tl _ _ (format_permissions_length m)
               (format_permissions_length (Z.land m 4095))
               (format_permissions_low m)).
    assert (Hr : 0 <= Z.land m 4095 < 4096).
    { change 4095 with (Z.ones 12). rewrite Z.land_ones by lia.
      apply Z.mod_pos_bound. reflexivity. }
    pose proof perm_bits_all as Hall. rewrite forallb_forall in Hall.
    apply Z.eqb_eq. apply Hall. apply in_map_iff.
    exists (Z.to_nat (Z.land m 4095)). split; [lia|]. apply in_seq. lia. }
  split; [apply format_permissions_length|]. split; [apply H|].
  intros E. rewrite <- (H mode), <- (H mode'), E. reflexivity.
Qed.
End StatFormatProofs.

(** ** tee: what is copied *)

Section TeeCopy.
Import CStr Proc Tee TeeStory Copy.
Variable strerror : Z -> str.

Lemma deliverable_read d buffer :
  deliverable d = true ->
  after_read (ReadData d) buffer
  = (Z.of_nat (List.length d), d ++ skipn (List.length d) buffer) /\
  to_size_t (Z.of_nat (List.length d)) = Z.of_nat (List.length d) /\
  0 < Z.of_nat (List.length d) /\
  firstn (Z.to_nat (Z.of_nat (List.length d)))
         (d ++ skipn (List.length d) buffer) = d.
Proof.
  unfold deliverable, BUFFER_SIZE. intros H. apply andb_true_iff in H.
  destruct H as [H1 H2]. apply Z.ltb_lt in H1. apply Z.leb_le in H2.
  assert (Hf : firstn (Z.to_nat BUFFER_SIZE) d = d)
    by (apply firstn_all2; unfold BUFFER_SIZE; lia).
  cbn [after_read]. rewrite Hf. split; [reflexivity|]. split.
  - unfold to_size_t. apply Z.mod_small.
    change (2 ^ 64) with 18446744073709551616. lia.
  - split; [exact H1|]. rewrite Nat2Z.id, firstn_app, firstn_all, Nat.sub_diag.
    cbn [firstn]. apply app_nil_r.
Qed.

Lemma stdout_story_copies w : forall ds fuel iter buffer,
  (forall k, reads w (iter + k) = delivers ds k) ->
  forallb deliverable ds = true ->
  (List.length ds < fuel)%nat ->
  (forall it n, fst (write_result w it ToStdout n) = n) ->
  written (stdout_story w fuel iter buffer) = List.concat ds /\
  map data (chunks w fuel iter buffer) = ds /\
  finished w fuel iter buffer = true.
Proof.
  induction ds as [|d ds IH]; intros fuel iter buffer Hr Hd Hfuel Hw;
    (destruct fuel as [|fuel]; [cbn in Hfuel; lia|]);
    pose proof (Hr 0%nat) as Hr0; rewrite Nat.add_0_r in Hr0;
    cbn [stdout_story chunks finished]; rewrite Hr0; unfold delivers; cbn [nth].
  - cbn. repeat split.
  - cbn [forallb] in Hd. apply andb_true_iff in Hd. destruct Hd as [Hd Hds].
    destruct (deliverable_read d buffer Hd) as (Ea & Es & Hpos & Hf).
    rewrite Ea, Es, Hw, Es.
    replace (0 <? Z.of_nat (List.length d)) with true
      by (symmetry; apply Z.ltb_lt; exact Hpos).
    rewrite Z.eqb_refl. cbn [andb].
    destruct (IH fuel (S iter) (d ++ skipn (List.length d) buffer)) as (I1 & I2 & I3);
      try assumption.
    { intros k. replace (S iter + k)%nat with (iter + S k)%nat by lia.
      rewrite Hr. reflexivity. }
    { cbn in Hfuel. lia. }
    split; [|split; [|exact I3]].
    + cbn [written flat_map].
      fold (written (stdout_story w fuel (S iter)
                       (d ++ skipn (List.length d) buffer))).
      rewrite I1, Hf. reflexivity.
    + cbn [map data List.concat]. rewrite I2, Hf. reflexivity.
Qed.

Lemma file_run_copies w i fd : forall cs,
  fd <> -1 ->
  (forall it n, fst (write_result w it (ToFile i) n) = n) ->
  Forall (fun c => to_size_t (bytes_read c) = bytes_read c) cs ->
  written (fst (file_run w i fd cs)) = List.concat (map data cs) /\
  snd (file_run w i fd cs) = fd.
Proof.
  intros cs Hfd Hw Hc. induction Hc as [|c cs Hc Hcs IH]; [split; reflexivity|].
  cbn [file_run]. destruct (Z.eqb_spec fd (-1)); [contradiction|].
  rewrite Hw, Hc, Z.eqb_refl. destruct IH as [I1 I2].
  destruct (file_run w i fd cs) as [calls fd']. cbn [fst snd] in *.
  split; [|exact I2]. cbn [written flat_map map List.concat].
  fold (written calls). rewrite I1. reflexivity.
Qed.

Lemma chunks_sizes w : forall fuel iter buffer,
  Forall (fun c => to_size_t (bytes_read c) = bytes_read c)
         (chunks w fuel iter buffer).
Proof.
  induction fuel as [|fuel IH]; intros iter buffer; [constructor|].
  cbn [chunks]. destruct (after_read (reads w iter) buffer) as [ret b1].
  destruct ((0 <? to_size_t ret) && _); [|constructor].
  constructor; [|apply IH]. cbn [bytes_read]. unfold to_size_t.
  apply Z.mod_mod. discriminate.
Qed.

Lemma written_app a b : written (a ++ b) = written a ++ written b.
Proof. unfold written. apply flat_map_app. Qed.

(** X18.  When no write raises a signal, every read delivers between 1
    and 4096 bytes until the input ends and every write to standard output
    is whole, tee ends with status 0 once the end of the input is read, the
    bytes it has written to standard output are the bytes it read, in
    order; and so are the bytes it has written to each named file that
    could be opened and whose writes are whole, whatever the opens and the
    writes of the other files return. *)
Theorem tee_copies_every_byte fuel w opts f names (ds : list (list byte)) :
  parse_options opts no_flags = inl f ->
  (names = [] \/ malloc_ok w = true) ->
  no_write_signal w ->
  (forall k, reads w k = delivers ds k) -> forallb deliverable ds = true ->
  (List.length ds < fuel)%nat ->
  (forall it n, fst (write_result w it ToStdout n) = n) ->
  fst (fst (main strerror fuel w opts names)) = Exit EXIT_SUCCESS /\
  written (calls_about ToStdout (snd (main strerror fuel w opts names)))
  = List.concat ds /\
  forall i name,
    nth_error names i = Some name -> fst (open_result w i) <> -1 ->
    (forall it n, fst (write_result w it (ToFile i) n) = n) ->
    written (calls_about (ToFile i) (snd (main strerror fuel w opts names)))
    = List.concat ds.
Proof.
  intros Hp Hm Hsig Hr Hd Hfuel Hw.
  destruct (main_story strerror fuel w opts f names Hp Hm Hsig) as (He & Hs & Hf).
  destruct (stdout_story_copies w ds fuel 0%nat [] Hr Hd Hfuel Hw) as (S1 & S2 & S3).
  rewrite S3 in He.
  split; [exact He|]. split.
  - rewrite Hs. exact S1.
  - intros i name Hn Ho Hwi. destruct (Hf i name Hn) as (Hc & _).
    rewrite Hc. unfold file_story.
    destruct (file_run_copies w i (fst (open_result w i))
                (chunks w fuel 0 []) Ho Hwi (chunks_sizes w _ _ _))
      as [F1 F2].
    destruct (file_run w i (fst (open_result w i)) (chunks w fuel 0 []))
      as [calls fd']. cbn [fst snd] in F1, F2.
    cbn [written flat_map].
    match goal with
    | |- context [calls ++ ?l] => fold (written (calls ++ l))
    end.
    rewrite written_app, F1, S2.
    destruct (negb (finished w fuel 0 []) || (fd' =? -1)); cbn;
      rewrite app_nil_r; reflexivity.
Qed.

Lemma write_files_unnoticed w iter n names : forall fds i0 st,
  (forall who, write_signal w iter who n = None) ->
  (forall i, to_size_t (fst (write_result w iter (ToFile i) n)) = n) ->
  fst (write_files strerror w iter n i0 names fds st)
  = (None, firstn (List.length names) fds) /\
  stderr (snd (write_files strerror w iter n i0 names fds st)) = stderr st /\
  buffer (snd (write_files strerror w iter n i0 names fds st)) = buffer st.
Proof.
  induction names as [|name names IH]; intros fds i0 st Hsig Hw.
  - cbn. auto.
  - destruct fds as [|fd fds]; [cbn; auto|].
    cbn [write_files List.length firstn].
    set (q := if negb (fd =? -1) then _ else (None, fd, st)).
    assert (Hq : fst q = (None, fd) /\ stderr (snd q) = stderr st /\
                 buffer (snd q) = buffer st).
    { subst q. destruct (negb (fd =? -1)); [|auto].
      unfold do_write. rewrite (Hsig (ToFile i0)). specialize (Hw i0).
      destruct (write_result w iter (ToFile i0) n) as [ret e]. cbn [fst] in Hw.
      rewrite Hw, Z.eqb_refl. cbn. auto. }
    destruct q as [[r1 fd1] st1]. cbn [fst snd] in Hq.
    destruct Hq as (Hq & Hs & Hb). injection Hq as -> ->.
    destruct (IH fds (S i0) st1 Hsig Hw) as (I1 & I2 & I3).
    destruct (write_files strerror w iter n (S i0) names fds st1)
      as [[r2 fds2] st2].
    cbn [fst snd] in *. injection I1 as -> ->.
    split; [reflexivity|]. split; congruence.
Qed.

(** X19.  bytes_read is a size_t, so a read that fails leaves
    (size_t) -1 in it and the loop body runs.  When the writes of that many
    bytes return -1, which the comparison with bytes_read takes for whole
    writes, the loop goes on to the next read with nothing written to
    standard error and every descriptor as it was: the failed read is
    not reported there. *)
Theorem tee_failed_read_goes_unnoticed fuel w iter e names fds st :
  List.length names = List.length fds ->
  reads w iter = ReadError e ->
  (forall who, write_signal w iter who (2 ^ 64 - 1) = None) ->
  fst (write_result w iter ToStdout (2 ^ 64 - 1)) = -1 ->
  (forall i, fst (write_result w iter (ToFile i) (2 ^ 64 - 1)) = -1) ->
  exists st',
    main_loop strerror (S fuel) w iter names fds st
    = main_loop strerror fuel w (S iter) names fds st' /\
    stderr st' = stderr st /\ buffer st' = buffer st.
Proof.
  intros Hlen Hr Hsig Ho Hf. cbn [main_loop]. rewrite Hr. cbn [do_read].
  change (to_size_t (-1)) with (2 ^ 64 - 1).
  change (0 <? 2 ^ 64 - 1) with true. cbv iota.
  unfold do_write at 1. rewrite (Hsig ToStdout).
  destruct (write_result w iter ToStdout (2 ^ 64 - 1)) as [ret eo] eqn:Ew.
  cbn [fst] in Ho. subst ret.
  change (to_size_t (-1)) with (2 ^ 64 - 1). rewrite Z.eqb_refl. cbn [negb].
  match goal with
  | |- context [write_files strerror w iter (2 ^ 64 - 1) 0 names fds ?s] =>
      set (st1 := s)
  end.
  destruct (write_files_unnoticed w iter (2 ^ 64 - 1) names fds 0%nat st1 Hsig)
    as (W1 & W2 & W3).
  { intros i. rewrite Hf. reflexivity. }
  destruct (write_files strerror w iter (2 ^ 64 - 1) 0 names fds st1)
    as [[r2 fds2] st2].
  cbn [fst snd] in W1, W2, W3. rewrite Hlen, firstn_all in W1.
  injection W1 as -> ->.
  exists st2. split; [reflexivity|]. split; [rewrite W2|rewrite W3]; reflexivity.
Qed.

(** When every read fails and every write of (size_t) -1 bytes returns
    -1, the main loop never ends: whatever the number of iterations, the
    copying is not over, and nothing has been written to standard error
    since the files were opened. *)
Lemma failing_reads_never_end w :
  (forall k, exists e, reads w k = ReadError e) ->
  (forall it, fst (write_result w it ToStdout (2 ^ 64 - 1)) = -1) ->
  forall fuel iter buffer, finished w fuel iter buffer = false.
Proof.
  intros Hr Hw. induction fuel as [|fuel IH]; intros iter buffer; [reflexivity|].
  cbn [finished]. destruct (Hr iter) as [e ->]. cbn [after_read].
  change (to_size_t (-1)) with (2 ^ 64 - 1). rewrite Hw.
  change (to_size_t (-1)) with (2 ^ 64 - 1). rewrite Z.eqb_refl.
  change (0 <? 2 ^ 64 - 1) with true. cbn [andb]. apply IH.
Qed.
End TeeCopy.

Lemma tee_copies_every_byte_witness :
  Copy.written
    (TeeStory.calls_about (Tee.ToFile 0)
       (snd (Tee.main Reporting.strerror_text 3
               (Copy.healthy [[x68; x69]; [x21]]) [] [CStr.lit "out"])))
  = [x68; x69; x21].
Proof.
  apply (proj2 (proj2 (tee_copies_every_byte Reporting.strerror_text 3
                  (Copy.healthy [[x68; x69]; [x21]]) [] Tee.no_flags
                  [CStr.lit "out"] [[x68; x69]; [x21]] eq_refl
                  (or_intror eq_refl) (fun _ _ _ => eq_refl) (fun _ => eq_refl)
                  eq_refl (Nat.lt_succ_diag_r 2) (fun _ _ => eq_refl)))
           0%nat (CStr.lit "out") eq_refl).
  - discriminate.
  - intros it n. reflexivity.
Defined.

Lemma tee_failed_read_goes_unnoticed_witness :
  exists st',
    Tee.main_loop Reporting.strerror_text 1 Reporting.broken_input 0
      [CStr.lit "out"] [3] Tee.initial
    = Tee.main_loop Reporting.strerror_text 0 Reporting.broken_input 1
        [CStr.lit "out"] [3] st' /\
    Tee.stderr st' = [] /\ Tee.buffer st' = [].
Proof.
  exact (tee_failed_read_goes_unnoticed Reporting.strerror_text 0
           Reporting.broken_input 0 5 [CStr.lit "out"] [3] Tee.initial
           eq_refl eq_refl (fun _ => eq_refl) eq_refl (fun _ => eq_refl)).
Defined.

(** ** conf-convert: how a run ends, and quoted values *)

Section ConvertOutcome.
Import CStr Cxx ConfConvert KeyOrder Outcome.

Lemma fail_failed msg : msg <> [] -> failed (fail msg).
Proof. intros H. unfold failed, fail. cbn. auto. Qed.

(** --stats stays as it was set through the stages of convert. *)
Lemma detect_stage_stats c content c' :
  detect_stage c content = Ok c' -> show_stats c' = show_stats c.
Proof.
  unfold detect_stage. destruct (fmt_is (input_format c) "auto").
  - destruct (detectFormat content (input_file c)); cbn [bind]; [|discriminate].
    intros H. injection H as <-. reflexivity.
  - intros H. injection H as <-. reflexivity.
Qed.

Lemma parse_stage_stats c content ok c' :
  parse_stage c content = Some (ok, c') -> show_stats c' = show_stats c.
Proof.
  unfold parse_stage. intros H.
  destruct (fmt_is (input_format c) "json").
  { rewrite <- (some_pair_snd _ _ _ H). reflexivity. }
  destruct (fmt_is (input_format c) "yaml" || fmt_is (input_format c) "yml").
  { rewrite <- (some_pair_snd _ _ _ H). unfold parseYAML.
    destruct (line_loop _ _ _) as [ok' [d cm]]. reflexivity. }
  destruct (fmt_is (input_format c) "ini" || fmt_is (input_format c) "conf").
  { rewrite <- (some_pair_snd _ _ _ H). unfold parseINI.
    destruct (parseINI_lines _ _ _) as [ok' st]. reflexivity. }
  destruct (fmt_is (input_format c) "env"); [|discriminate H].
  rewrite <- (some_pair_snd _ _ _ H). unfold parseENV.
  destruct (line_loop _ _ _) as [ok' [d cm]]. reflexivity.
Qed.

Lemma finish_outcome c text files :
  (show_stats c = false -> undefined (finish c text files) = false) /\
  (undefined (finish c text files) = false -> succeeded (finish c text files)).
Proof.
  unfold finish. split.
  - intros Hs. unfold printStatistics. rewrite Hs. reflexivity.
  - destruct (printStatistics c); [intros _; split; reflexivity|discriminate].
Qed.

Lemma emit_stage_outcome c w :
  (show_stats c = false -> undefined (emit_stage c w) = false) /\
  (undefined (emit_stage c w) = false ->
   succeeded (emit_stage c w) \/ failed (emit_stage c w)).
Proof.
  unfold emit_stage. destruct (generate_stage c) as [[output|e]|].
  - destruct (_ || _).
    { destruct (finish_outcome c output []) as [F1 F2].
      split; [exact F1|]. intros H. left. apply F2, H. }
    destruct (can_create w (output_file c)).
    { destruct (finish_outcome c [] [(output_file c, output)]) as [F1 F2].
      split; [exact F1|]. intros H. left. apply F2, H. }
    split; [reflexivity|]. intros _. right. apply fail_failed. discriminate.
  - split; [reflexivity|]. intros _. right. apply fail_failed. discriminate.
  - split; [reflexivity|]. intros _. right. apply fail_failed. discriminate.
Qed.

(** X20.  A call of ConfigConverter::convert that stays within defined
    behaviour, as every call does when --stats is not given, ends in one
    of two ways: it returns 0 with nothing on standard error, or it returns
    1 with a message on standard error, nothing on standard output and no
    file written.  A failure leaves no partial output. *)
Theorem convert_fails_cleanly (c : ConfigConverter) (w : world) :
  (show_stats c = false -> undefined (convert c w) = false) /\
  (undefined (convert c w) = false ->
   succeeded (convert c w) \/ failed (convert c w)).
Proof.
  rewrite convert_stages.
  destruct (read_stage c w) as [content|];
    [|split; [reflexivity|intros _; right; apply fail_failed; discriminate]].
  destruct (detect_stage c content) as [c1|e] eqn:Ed;
    [|split; [reflexivity|intros _; right; apply fail_failed; discriminate]].
  destruct (parse_stage c1 content) as [[[|] c2]|] eqn:Ep;
    try (split; [reflexivity|intros _; right; apply fail_failed; discriminate]).
  assert (Hs : show_stats c2 = show_stats c).
  { rewrite (parse_stage_stats _ _ _ _ Ep). apply (detect_stage_stats _ _ _ Ed). }
  rewrite <- Hs. unfold after_parse. destruct (validate_only c2).
  - destruct (finish_outcome c2 (lit "Input file is valid " ++ input_format c2
                                 ++ [newline]) []) as [F1 F2].
    split; [exact F1|]. intros H. left. apply F2, H.
  - cbv zeta. destruct (sort_keys (filterKeys c2));
      match goal with
      | |- context [emit_stage ?x w] =>
          change (show_stats c2) with (show_stats x); apply emit_stage_outcome
      end.
Qed.
End ConvertOutcome.

Lemma convert_fails_cleanly_witness :
  Outcome.succeeded
    (ConfConvert.convert KeyOrder.ini_to_ini
       (ConfConvertRuns.on_stdin KeyOrder.sections_text)) \/
  Outcome.failed
    (ConfConvert.convert KeyOrder.ini_to_ini
       (ConfConvertRuns.on_stdin KeyOrder.sections_text)).
Proof.
  destruct (convert_fails_cleanly KeyOrder.ini_to_ini
              (ConfConvertRuns.on_stdin KeyOrder.sections_text)) as [H1 H2].
  apply H2, H1. reflexivity.
Defined.

Section Unquote.
Import CStr Cxx ConfConvert.

Lemma str_eqb_refl s : str_eqb s s = true.
Proof. apply str_eqb_eq. reflexivity. Qed.

Lemma size_cons c (s : str) : size (c :: s) = size s + 1.
Proof. unfold size. cbn [List.length]. lia. Qed.

Lemma size_snoc (s : str) c : size (s ++ [c]) = size s + 1.
Proof. unfold size. rewrite length_app. cbn [List.length]. lia. Qed.

Lemma endsWith_snoc (s : str) c : endsWith (s ++ [c]) [c] = true.
Proof.
  unfold endsWith. rewrite size_snoc. change (size [c]) with 1.
  pose proof (size_nonneg s).
  destruct (Z.ltb_spec (size s + 1) 1); [lia|].
  rewrite length_app. cbn [List.length].
  replace (List.length s + 1 - 1)%nat with (List.length s) by lia.
  rewrite skipn_app, skipn_all, Nat.sub_diag. cbn [skipn app].
  apply str_eqb_refl.
Qed.

Lemma startsWith_cons c (s : str) : startsWith (c :: s) [c] = true.
Proof.
  unfold startsWith. rewrite size_cons. change (size [c]) with 1.
  pose proof (size_nonneg s).
  destruct (Z.ltb_spec (size s + 1) 1); [lia|].
  cbn [List.length firstn]. apply str_eqb_refl.
Qed.

Lemma unquote_wrapped (q : ascii) (v : str) :
  size v + 2 < 2 ^ 64 -> q = dquote \/ q = "'"%char ->
  unquote ([q] ++ v ++ [q]) = Some v.
Proof.
  intros Hs Hq. pose proof (size_nonneg v) as Hv. unfold unquote.
  assert (E : (startsWith ([q] ++ v ++ [q]) [dquote]
               && endsWith ([q] ++ v ++ [q]) [dquote])
              || (startsWith ([q] ++ v ++ [q]) (lit "'")
                  && endsWith ([q] ++ v ++ [q]) (lit "'")) = true).
  { change (lit "'") with ["'"%char].
    destruct Hq as [->| ->].
    - cbn [app]. rewrite startsWith_cons.
      change (dquote :: v ++ [dquote]) with ((dquote :: v) ++ [dquote]).
      rewrite endsWith_snoc. reflexivity.
    - cbn [app]. rewrite startsWith_cons.
      change ("'"%char :: v ++ ["'"%char]) with (("'"%char :: v) ++ ["'"%char]).
      rewrite endsWith_snoc. apply orb_true_r. }
  rewrite E. cbn [app].
  assert (Hsz : size (q :: v ++ [q]) = size v + 2)
    by (rewrite size_cons, size_snoc; lia).
  rewrite Hsz. replace (size v + 2 - 2) with (size v) by lia.
  unfold size_t. rewrite Z.mod_small by lia.
  unfold substr. rewrite Hsz.
  destruct (Z.ltb_spec (size v + 2) 1); [lia|].
  replace (Z.min (size v) (size v + 2 - 1)) with (size v) by lia.
  change (Z.to_nat 1) with 1%nat. cbn [skipn].
  unfold size. rewrite Nat2Z.id, firstn_app, firstn_all, Nat.sub_diag.
  cbn [firstn]. rewrite app_nil_r. reflexivity.
Qed.

Lemma unquote_plain (v : str) :
  match v with
  | c :: _ => Ascii.eqb c dquote = false /\ Ascii.eqb c "'" = false
  | [] => True
  end -> unquote v = Some v.
Proof.
  intros Hc. unfold unquote. change (lit "'") with ["'"%char].
  assert (E1 : startsWith v [dquote] = false /\ startsWith v ["'"%char] = false).
  { destruct v as [|c v']; [split; reflexivity|]. destruct Hc as [H1 H2].
    unfold startsWith. rewrite size_cons. change (size [dquote]) with 1.
    change (size ["'"%char]) with 1. pose proof (size_nonneg v').
    destruct (Z.ltb_spec (size v' + 1) 1); [lia|].
    cbn [List.length firstn str_eqb]. rewrite H1, H2. split; reflexivity. }
  destruct E1 as [-> ->]. reflexivity.
Qed.
(** X21.  unquote, which the YAML and ENV readers apply to a value,
    takes one pair of double quotes, or of single quotes, off a value that
    is wrapped in it and returns the text between them; a value that does
    not start with a quote is returned as it is. *)
Theorem unquote_takes_one_pair_off (q : ascii) (v : str) :
  size v + 2 < 2 ^ 64 ->
  (q = dquote \/ q = "'"%char -> unquote ([q] ++ v ++ [q]) = Some v) /\
  (match v with
   | c :: _ => Ascii.eqb c dquote = false /\ Ascii.eqb c "'" = false
   | [] => True
   end -> unquote v = Some v).
Proof.
  intros Hs. split.
  - intros Hq. apply unquote_wrapped; assumption.
  - apply unquote_plain.
Qed.
End Unquote.

Lemma unquote_takes_one_pair_off_witness :
  ConfConvert.unquote ([CStr.dquote] ++ CStr.lit "a b" ++ [CStr.dquote])
  = Some (CStr.lit "a b").
Proof.
  apply (proj1 (unquote_takes_one_pair_off CStr.dquote (CStr.lit "a b")
                  ltac:(vm_compute; reflexivity))).
  left. reflexivity.
Defined.

(** ** ping: the packet *)

Section PacketProofs.
Import Ping Rfc1071 Packet.
Variable big_endian : bool.

Lemma byte_val_u8 z : byte_val (u8 z) = z mod 256.
Proof.
  unfold byte_val, u8.
  assert (H : 0 <= z mod 256 < 256) by (apply Z.mod_pos_bound; lia).
  destruct (Byte.of_N (Z.to_N (z mod 256))) as [b|] eqn:E.
  - apply Byte.to_of_N in E. rewrite E. lia.
  - apply Byte.of_N_None_iff in E. lia.
Qed.

Lemma load16_store16 v b0 b1 :
  0 <= v < 65536 -> store16 big_endian v = [b0; b1] ->
  load16 big_endian b0 b1 = v.
Proof.
  intros Hv H. unfold store16, load16 in *.
  destruct big_endian; inversion H; subst; rewrite !byte_val_u8;
    rewrite (Z.mod_small (v / 256)) by (split; [apply Z.div_pos; lia|apply Z.div_lt_upper_bound; lia]);
    pose proof (Z.div_mod v 256 ltac:(lia)); lia.
Qed.

Lemma total_words b0 b1 w0 w1 rest :
  total (words16 big_endian (b0 :: b1 :: w0 :: w1 :: rest))
  = load16 big_endian b0 b1 + load16 big_endian w0 w1
    + total (words16 big_endian rest).
Proof. cbn [words16]. unfold total. cbn [fold_right]. lia. Qed.

Lemma store16_two v : exists b0 b1, store16 big_endian v = [b0; b1].
Proof. unfold store16. destruct big_endian; eauto. Qed.

Lemma calculateChecksum_range data :
  0 <= calculateChecksum big_endian data < 65536.
Proof.
  unfold calculateChecksum.
  change 0xFFFF with (Z.ones 16). rewrite Z.land_ones by lia.
  apply Z.mod_pos_bound. lia.
Qed.

Lemma lnot16 f : 0 <= f < 65536 -> Z.land (Z.lnot f) 0xFFFF = 65535 - f.
Proof.
  intros Hf.
  change (Z.land (Z.lnot f) 0xFFFF) with (Z.land (Z.lnot f) (Z.ones 16)).
  rewrite Z.land_ones by lia. unfold Z.lnot.
  replace (2 ^ 16) with 65536 by reflexivity.
  replace (Z.pred (- f)) with ((65535 - f) + (-1) * 65536) by lia.
  rewrite Z.mod_add by lia. apply Z.mod_small. lia.
Qed.

Lemma fold_loop_32 s :
  0 <= s < 4294967296 ->
  exists k, 0 <= k /\ fold_loop 32 s = s - 65535 * k /\
    0 <= fold_loop 32 s < 65536 /\ (0 < s -> 0 < fold_loop 32 s).
Proof. intros H. apply fold_loop_spec; [lia|exact H]. Qed.

Lemma sum_loop_words b0 b1 w0 w1 rest :
  Z.of_nat (List.length rest) <= 131064 ->
  0 <= load16 big_endian w0 w1 < 65536 ->
  0 <= load16 big_endian b0 b1 + total (words16 big_endian rest)
     < 4294967296 - 65536 /\
  sum_loop big_endian (b0 :: b1 :: w0 :: w1 :: rest) 0
  = load16 big_endian b0 b1 + total (words16 big_endian rest)
    + load16 big_endian w0 w1.
Proof.
  intros Hlen Hw1.
  pose proof (words16_total_bound big_endian rest) as [Ht0 [q [r [Hq [Hq0 [Hr Hb]]]]]].
  pose proof (load16_range big_endian b0 b1) as Hw.
  assert (Hs : 0 <= load16 big_endian b0 b1 + total (words16 big_endian rest)
               < 4294967296 - 65536) by (destruct Hr; subst r; lia).
  split; [exact Hs|].
  rewrite sum_loop_exact.
  - rewrite total_words. lia.
  - lia.
  - rewrite total_words. replace (2 ^ 32) with 4294967296 by reflexivity. lia.
Qed.

(** What calculateChecksum returns, from what its first loop leaves. *)
Lemma checksum_of_sum data s :
  sum_loop big_endian data 0 = s -> 0 <= s < 4294967296 ->
  exists f k, 0 <= f < 65536 /\ 0 <= k /\ f = s - 65535 * k /\
    (0 < s -> 0 < f) /\ calculateChecksum big_endian data = 65535 - f.
Proof.
  intros Hs Hb. destruct (fold_loop_32 s Hb) as [k [Hk [Ek [Hr Hpos]]]].
  exists (fold_loop 32 s), k. repeat split; try assumption; try lia.
  unfold calculateChecksum. rewrite Hs. apply lnot16. exact Hr.
Qed.

(** With the checksum of the buffer in the place of a word that was zero,
    the buffer sums to 0xFFFF and its checksum is 0. *)
Lemma checksum_in_place b0 b1 z0 z1 c0 c1 rest :
  Z.of_nat (List.length rest) <= 131064 ->
  load16 big_endian z0 z1 = 0 ->
  load16 big_endian c0 c1
  = calculateChecksum big_endian (b0 :: b1 :: z0 :: z1 :: rest) ->
  calculateChecksum big_endian (b0 :: b1 :: c0 :: c1 :: rest) = 0.
Proof.
  intros Hlen Hz Hc.
  destruct (sum_loop_words b0 b1 z0 z1 rest Hlen ltac:(rewrite Hz; lia))
    as [HS0 E0].
  destruct (sum_loop_words b0 b1 c0 c1 rest Hlen (load16_range _ c0 c1))
    as [_ E1].
  rewrite Hz in E0.
  destruct (checksum_of_sum _ _ E0 ltac:(lia)) as [f [k [Hf [Hk [Ek [Hpos Ef]]]]]].
  rewrite Ef in Hc. rewrite Hc in E1.
  destruct (checksum_of_sum _ _ E1 ltac:(lia)) as [g [k' [Hg [Hk' [Ek' [Hpos' Eg]]]]]].
  rewrite Eg.
  assert (0 < g) by (apply Hpos'; lia).
  assert (g = 65535 * (k + 1 - k')) by lia.
  assert (0 < k + 1 - k') by nia.
  assert (k + 1 - k' < 2) by nia. nia.
Qed.

End PacketProofs.

Section PacketTheorems.
Import Ping Rfc1071 Packet.
Variable big_endian : bool.

(** X22.  The echo request pingHost sends verifies: with the checksum
    stored in icmp_cksum, calculateChecksum over the 28 bytes of the packet
    gives 0, whatever the process id, the sequence number and the bytes of
    the part of the struct that pingHost does not set. *)
Theorem echo_request_verifies (pid packets_sent : Z) (dun : list byte) :
  List.length dun = 20%nat ->
  List.length (bytes_of big_endian (pingHost_packet big_endian pid packets_sent dun))
  = 28%nat /\
  calculateChecksum big_endian
    (bytes_of big_endian (pingHost_packet big_endian pid packets_sent dun)) = 0.
Proof.
  intros Hdun. unfold pingHost_packet, bytes_of.
  cbn [icmp_type icmp_code icmp_cksum icmp_id icmp_seq icmp_dun].
  destruct (store16_two big_endian 0) as [z0 [z1 Ez]].
  destruct (store16_two big_endian (u16 pid)) as [i0 [i1 Ei]].
  destruct (store16_two big_endian (u16 packets_sent)) as [s0 [s1 Es]].
  rewrite Ez, Ei, Es. cbn [app].
  match goal with
  | |- context [store16 big_endian (calculateChecksum ?b ?d)] =>
      remember (calculateChecksum b d) as c eqn:Ec
  end.
  destruct (store16_two big_endian c) as [c0 [c1 Ecc]]. rewrite Ecc. cbn [app].
  split; [cbn [List.length]; rewrite Hdun; reflexivity|].
  apply (checksum_in_place big_endian _ _ z0 z1).
  - cbn [List.length]. rewrite Hdun. lia.
  - apply load16_store16; [lia|exact Ez].
  - rewrite <- Ec. apply load16_store16; [|exact Ecc].
    rewrite Ec. apply calculateChecksum_range.
Qed.
End PacketTheorems.

Lemma echo_request_verifies_witness :
  List.length (repeat Byte.x00 20) = 20%nat /\
  (List.length (Packet.bytes_of false (Packet.pingHost_packet false 4660 1 (repeat Byte.x00 20)))
   = 28%nat /\
   Ping.calculateChecksum false
     (Packet.bytes_of false (Packet.pingHost_packet false 4660 1 (repeat Byte.x00 20))) = 0).
Proof.
  split; [reflexivity|].
  exact (echo_request_verifies false 4660 1 (repeat Byte.x00 20) eq_refl).
Defined.

(** ** conf-convert: what the readers recognise *)

Section RegexMore.
Import CStr Regex Crlf.
Variable icase : bool.

Lemma rep_states_suffix a : forall s mx n p0 k p q,
  In (k, (p, q)) (rep_states icase a mx n p0 s) ->
  exists xs, s = xs ++ q /\ forallb (atom_match icase a) xs = true.
Proof.
  induction s as [|c s IH]; intros mx n p0 k p q Hin; simpl in Hin.
  - destruct Hin as [E|[]]. inversion E; subst. exists []. auto.
  - destruct (atom_match icase a c) eqn:Ec; simpl in Hin.
    + destruct (room mx).
      * apply in_app_or in Hin as [Hin|[E|[]]].
        -- destruct (IH _ _ _ _ _ _ Hin) as [xs [E F]].
           exists (c :: xs). simpl. rewrite Ec, F, E. auto.
        -- inversion E; subst. exists []. auto.
      * destruct Hin as [E|[]]. inversion E; subst. exists []. auto.
    + destruct Hin as [E|[]]. inversion E; subst. exists []. auto.
Qed.

(** A match only moves forward: what is left is a suffix of what was. *)
Lemma m_suffix r : forall st st',
  In st' (m icase r st) -> exists xs, rest st = xs ++ rest st'.
Proof.
  induction r as [| |a|a mn mx|r1 IH1 r2 IH2|r1 IH1 r2 IH2|i r IH|r IH|n r IH];
    intros st st' Hin.
  - simpl in Hin. destruct (pre st); [|contradiction].
    destruct Hin as [<-|[]]. exists []. reflexivity.
  - simpl in Hin. destruct (rest st) eqn:E; [|contradiction].
    destruct Hin as [<-|[]]. exists []. rewrite E. reflexivity.
  - simpl in Hin. destruct (rest st) as [|c q] eqn:E; [contradiction|].
    destruct (atom_match icase a c); [|contradiction].
    destruct Hin as [<-|[]]. exists [c]. reflexivity.
  - simpl in Hin. apply in_map_iff in Hin as [[k [p q]] [E Hin]].
    apply filter_In in Hin as [Hin _].
    destruct (rep_states_suffix _ _ _ _ _ _ _ _ Hin) as [xs [F _]].
    subst st'. exists xs. exact F.
  - simpl in Hin. apply in_flat_map in Hin as [st1 [H1 H2]].
    destruct (IH1 _ _ H1) as [xs E1]. destruct (IH2 _ _ H2) as [ys E2].
    exists (xs ++ ys). rewrite E1, E2, app_assoc. reflexivity.
  - simpl in Hin. apply in_app_or in Hin as [H|H]; eauto.
  - simpl in Hin. apply in_map_iff in Hin as [st1 [E H1]].
    destruct (IH _ _ H1) as [xs E1]. subst st'. exists xs. exact E1.
  - simpl in Hin. apply in_app_or in Hin as [H|[<-|[]]]; eauto.
    exists []. reflexivity.
  - simpl in Hin. revert st st' Hin.
    induction n as [|n IHn]; intros st st' Hin; simpl in Hin.
    + destruct Hin as [<-|[]]. exists []. reflexivity.
    + apply in_flat_map in Hin as [st1 [H1 H2]].
      destruct (IH _ _ H1) as [xs E1]. destruct (IHn _ _ H2) as [ys E2].
      exists (xs ++ ys). rewrite E1, E2, app_assoc. reflexivity.
Qed.

Lemma m_keeps (P : ascii -> Prop) r st st' :
  In st' (m icase r st) -> Forall P (rest st) -> Forall P (rest st').
Proof.
  intros Hin H. destruct (m_suffix r st st' Hin) as [xs E].
  rewrite E in H. apply Forall_app in H. apply H.
Qed.

Lemma flat_map_nil {A B} (f : A -> list B) l :
  (forall x, In x l -> f x = []) -> flat_map f l = [].
Proof.
  induction l as [|x l IH]; intros H; simpl; [reflexivity|].
  rewrite (H x) by (left; reflexivity). apply IH.
  intros y Hy. apply H. right. exact Hy.
Qed.

Lemma seq_dead r1 r2 st :
  (forall st1, In st1 (m icase r1 st) -> m icase r2 st1 = []) ->
  m icase (Seq r1 r2) st = [].
Proof. intros H. simpl. apply flat_map_nil. exact H. Qed.

(** An atom that matches none of the characters left cannot go on. *)
Lemma atom_stuck a r2 st :
  Forall (fun c => atom_match icase a c = false) (rest st) ->
  m icase (Seq (Atom a) r2) st = [].
Proof.
  intros H. simpl. destruct (rest st) as [|c q]; [reflexivity|].
  inversion H as [|? ? Hc _]; subst. rewrite Hc. reflexivity.
Qed.

Lemma match_none r s :
  m icase r (MState [] s []) = [] -> regex_match icase r s = None.
Proof. intros H. unfold regex_match. rewrite H. reflexivity. Qed.


Lemma suffix_left_of_cr xs q : left_of_cr (xs ++ q) -> left_of_cr q.
Proof.
  intros [E|[l E]].
  - left. apply app_eq_nil in E. apply E.
  - destruct q as [|c q' _] using rev_ind; [left; reflexivity|].
    right. exists q'. rewrite app_assoc in E.
    apply app_inj_tail in E as [_ ->]. reflexivity.
Qed.

Lemma m_left_of_cr r st st' :
  In st' (m icase r st) -> left_of_cr (rest st) -> left_of_cr (rest st').
Proof.
  intros Hin H. destruct (m_suffix r st st' Hin) as [xs E].
  rewrite E in H. exact (suffix_left_of_cr _ _ H).
Qed.

(** A repetition of the dot never takes the carriage return. *)
Lemma any_stops_at_cr mn mx st st' l :
  In st' (m icase (Rep AAny mn mx) st) -> rest st = l ++ [cr] ->
  exists l', rest st' = l' ++ [cr].
Proof.
  intros Hin E. simpl in Hin.
  apply in_map_iff in Hin as [[k [p q]] [Eq Hin]].
  apply filter_In in Hin as [Hin _].
  destruct (rep_states_suffix _ _ _ _ _ _ _ _ Hin) as [xs [F G]].
  subst st'. cbn [rest]. rewrite E in F.
  destruct q as [|c q' _] using rev_ind.
  - exfalso. rewrite app_nil_r in F. subst xs.
    rewrite forallb_app in G. apply andb_true_iff in G as [_ G].
    simpl in G. discriminate.
  - exists q'. rewrite app_assoc in F.
    apply app_inj_tail in F as [_ <-]. reflexivity.
Qed.

(** A pattern that ends in [a(.* )$], where [a] does not match a carriage
    return, matches no line that ends in one. *)
Lemma tail_dead a i mn mx st :
  atom_match icase a cr = false -> left_of_cr (rest st) ->
  m icase (Seq (Atom a) (Seq (Group i (Rep AAny mn mx)) Eol)) st = [].
Proof.
  intros Ha H.
  change (m icase (Seq (Atom a) (Seq (Group i (Rep AAny mn mx)) Eol)) st)
    with (flat_map (m icase (Seq (Group i (Rep AAny mn mx)) Eol))
                   (m icase (Atom a) st)).
  apply flat_map_nil. intros st1 H1. simpl in H1.
  destruct (rest st) as [|c q] eqn:E; [contradiction|].
  destruct (atom_match icase a c) eqn:Ec; [|contradiction].
  destruct H1 as [<-|[]].
  destruct H as [H|[l H]]; [discriminate|].
  assert (Hq : exists l', q = l' ++ [cr]).
  { destruct l as [|x l'].
    - simpl in H. inversion H; subst. congruence.
    - simpl in H. inversion H; subst. eauto. }
  destruct Hq as [l' Hq].
  apply seq_dead. intros st2 H2.
  change (m icase (Group i (Rep AAny mn mx)) (MState (c :: pre st) q (caps st)))
    with (map (fun st' => MState (Regex.pre st') (rest st')
                 ((i, captured (MState (c :: pre st) q (caps st)) st') :: caps st'))
              (m icase (Rep AAny mn mx) (MState (c :: pre st) q (caps st))))
    in H2.
  apply in_map_iff in H2 as [st3 [E3 H3]].
  destruct (any_stops_at_cr _ _ _ _ l' H3 Hq) as [l3 E4].
  subst st2. simpl. rewrite E4. destruct l3; reflexivity.
Qed.
End RegexMore.

Section IniDocProofs.
Import CStr Cxx Regex ConfConvert IniJson IniDoc.

Lemma indent_all_space ind :
  indent_ok ind = true -> Forall (fun c => isspace c = true) ind.
Proof.
  unfold indent_ok. intros H. apply Forall_forall. intros c Hc.
  rewrite forallb_forall in H. specialize (H c Hc).
  apply andb_true_iff in H. apply H.
Qed.

Lemma comment_line_match ind mark text :
  indent_ok ind = true -> (Ascii.eqb mark ";" || Ascii.eqb mark "#") = true ->
  value_ok text = true ->
  regex_match false comment_pattern (ind ++ [mark] ++ text)
  = Some [(1%nat, text)].
Proof.
  intros Hi Hm Ht.
  assert (Hms : isspace mark = false).
  { apply orb_true_iff in Hm as [E|E]; apply Ascii.eqb_eq in E; subst;
      reflexivity. }
  assert (Hma : atom_match false (ASet false [CChar ";"; CChar "#"]) mark = true).
  { simpl. unfold char_match. rewrite orb_false_r. exact Hm. }
  unfold regex_match.
  change (find at_end (m false comment_pattern (MState [] (ind ++ [mark] ++ text) [])))
    with (full false comment_pattern (MState [] (ind ++ [mark] ++ text) [])).
  assert (Hfull : full false comment_pattern (MState [] (ind ++ [mark] ++ text) [])
          = Some (MState (rev text ++ mark :: rev ind ++ []) [] [(1%nat, text)])).
  { unfold comment_pattern. cbn [cat].
    eapply full_seq_head; [reflexivity|].
    destruct (m_rep_greedy false space 0 (MState [] (ind ++ [mark] ++ text) [])
                ind ([mark] ++ text)) as [tl1 H1];
      [reflexivity | apply indent_spaces; exact Hi
      | simpl; rewrite orb_false_r; exact Hms | lia |].
    eapply full_seq_head; [exact H1|]. cbn [pre rest caps].
    eapply full_seq_head.
    { cbn [m rest app]. rewrite Hma. reflexivity. }
    cbn [pre rest caps].
    destruct (m_group_rep_greedy false 1 AAny 0
                (MState (mark :: rev ind ++ []) text [])
                text []) as [tl3 H3];
      [cbn [rest]; symmetry; apply app_nil_r | apply value_any; exact Ht
      | exact I | lia |].
    eapply full_seq_head; [exact H3|]. reflexivity. }
  rewrite Hfull. reflexivity.
Qed.

Lemma name_parts name :
  name_ok name = true ->
  name <> [] /\
  forallb (atom_match false (ASet true [CChar "]"])) name = true.
Proof.
  destruct name as [|c name']; [discriminate|]. intros H. split; [discriminate|].
  unfold name_ok in H. apply forallb_forall. intros x Hx.
  rewrite forallb_forall in H. specialize (H x Hx).
  apply andb_true_iff in H as [H _].
  simpl. unfold char_match. rewrite orb_false_r. exact H.
Qed.

Lemma header_not_comment ind name trail :
  indent_ok ind = true ->
  regex_match false comment_pattern (ind ++ lit "[" ++ name ++ lit "]" ++ trail)
  = None.
Proof.
  intros Hi. apply match_none.
  unfold comment_pattern. cbn [cat].
  apply seq_dead. intros st1 H1. simpl in H1. destruct H1 as [<-|[]].
  apply seq_dead. intros st2 H2.
  eapply (m_rep_then_atom_nil false space) with
    (xs := ind) (y := "["%char) (ys := name ++ lit "]" ++ trail); [| | | |exact H2].
  - reflexivity.
  - apply Forall_forall. intros x Hx.
    pose proof (indent_all_space ind Hi) as Hs. rewrite Forall_forall in Hs.
    destruct (space_facts x (Hs x Hx)) as [A [B _]].
    simpl. unfold char_match. rewrite A, B. reflexivity.
  - reflexivity.
  - reflexivity.
Qed.

Lemma header_match ind name trail :
  indent_ok ind = true -> name_ok name = true -> indent_ok trail = true ->
  regex_match false section_pattern (ind ++ lit "[" ++ name ++ lit "]" ++ trail)
  = Some [(1%nat, name)].
Proof.
  intros Hi Hn Ht. destruct (name_parts name Hn) as [Hne Hnn].
  set (line := ind ++ lit "[" ++ name ++ lit "]" ++ trail).
  unfold regex_match.
  change (find at_end (m false section_pattern (MState [] line [])))
    with (full false section_pattern (MState [] line [])).
  assert (Hfull : full false section_pattern (MState [] line [])
          = Some (MState (rev trail ++ "]"%char :: rev name ++ "["%char :: rev ind ++ [])
                         [] [(1%nat, name)])).
  { unfold section_pattern. cbn [cat].
    eapply full_seq_head; [reflexivity|].
    destruct (m_rep_greedy false space 0 (MState [] line [])
                ind (lit "[" ++ name ++ lit "]" ++ trail)) as [tl1 H1];
      [reflexivity | apply indent_spaces; exact Hi | reflexivity | lia |].
    eapply full_seq_head; [exact H1|]. cbn [pre rest caps].
    eapply full_seq_head; [reflexivity|]. cbn [pre rest caps].
    destruct (m_group_rep_greedy false 1 (ASet true [CChar "]"]) 1
                (MState ("["%char :: rev ind ++ []) (name ++ lit "]" ++ trail) [])
                name (lit "]" ++ trail)) as [tl2 H2];
      [reflexivity | exact Hnn | reflexivity
      | destruct name; [congruence|simpl; lia] |].
    eapply full_seq_head; [exact H2|]. cbn [pre rest caps].
    eapply full_seq_head; [reflexivity|]. cbn [pre rest caps].
    destruct (m_rep_greedy false space 0
                (MState ("]"%char :: rev name ++ "["%char :: rev ind ++ [])
                        trail [(1%nat, name)])
                trail []) as [tl3 H3];
      [cbn [rest]; symmetry; apply app_nil_r | apply indent_spaces; exact Ht
      | exact I | lia |].
    eapply full_seq_head; [exact H3|]. reflexivity. }
  rewrite Hfull. reflexivity.
Qed.

(** A line of whitespace matches none of the three patterns. *)
Lemma blank_no_match ws :
  indent_ok ws = true ->
  regex_match false comment_pattern ws = None /\
  regex_match false section_pattern ws = None /\
  regex_match false keyvalue_pattern ws = None.
Proof.
  intros Hw. pose proof (indent_all_space ws Hw) as Hs.
  assert (Hno : forall a,
            (forall c, isspace c = true -> atom_match false a c = false) ->
            forall st, In st (m false (star space) (MState [] ws [])) ->
            forall r2, m false (Seq (Atom a) r2) st = []).
  { intros a Ha st Hin r2. apply atom_stuck.
    apply (m_keeps false (fun c => isspace c = true)) in Hin; [|exact Hs].
    eapply Forall_impl; [|exact Hin]. exact Ha. }
  repeat split; apply match_none.
  - unfold comment_pattern. cbn [cat].
    apply seq_dead. intros st1 H1. simpl in H1. destruct H1 as [<-|[]].
    apply seq_dead. intros st2 H2. apply (Hno _) with (st := st2); [|exact H2].
    intros c Hc. destruct (space_facts c Hc) as [A [B _]].
    simpl. unfold char_match. rewrite A, B. reflexivity.
  - unfold section_pattern. cbn [cat].
    apply seq_dead. intros st1 H1. simpl in H1. destruct H1 as [<-|[]].
    apply seq_dead. intros st2 H2. apply (Hno _) with (st := st2); [|exact H2].
    intros c Hc. destruct (space_facts c Hc) as [_ [_ [C _]]].
    simpl. unfold char_match. exact C.
  - unfold keyvalue_pattern. cbn [cat].
    apply seq_dead. intros st1 H1. simpl in H1. destruct H1 as [<-|[]].
    apply seq_dead. intros st2 H2.
    apply seq_dead. intros st3 H3. apply atom_stuck.
    apply (m_keeps false (fun c => isspace c = true)) in H2; [|exact Hs].
    apply (m_keeps false (fun c => isspace c = true)) in H3; [|exact H2].
    eapply Forall_impl; [|exact H3].
    intros c Hc. destruct (space_facts c Hc) as [_ [_ [_ D]]].
    simpl. unfold char_match. exact D.
Qed.

Lemma parseINI_pair_in preserve st ind k v :
  indent_ok ind = true -> key_ok k = true -> value_ok v = true ->
  size (pair_line ind k v) < 2 ^ 64 ->
  parseINI_line preserve st (pair_line ind k v)
  = Some (meaning preserve st (Pair ind k v)).
Proof.
  intros Hi Hk Hv Hs. unfold parseINI_line.
  rewrite not_comment, not_section, keyvalue_match by assumption.
  change (sub_match 1 [(2%nat, v); (1%nat, k)]) with k.
  change (sub_match 2 [(2%nat, v); (1%nat, k)]) with v.
  unfold pair_line in Hs. repeat rewrite size_app in Hs.
  pose proof (size_nonneg ind). pose proof (size_nonneg k).
  pose proof (size_nonneg v). pose proof (size_nonneg (lit "=")).
  rewrite !trim_strip by lia. unfold meaning, full_key.
  destruct (current_section st); reflexivity.
Qed.

(** One line of a well-formed text, read by the loop body. *)
Lemma parseINI_line_item preserve st it :
  item_ok it = true -> size (line_of it) < 2 ^ 64 ->
  parseINI_line preserve st (line_of it) = Some (meaning preserve st it).
Proof.
  intros Hok Hs. destruct it as [ind mark text|ind name trail|ind k v|ws];
    cbn [item_ok] in Hok; cbn [line_of] in *.
  - apply andb_true_iff in Hok as [Hok Ht]. apply andb_true_iff in Hok as [Hi Hm].
    unfold parseINI_line. rewrite comment_line_match by assumption. reflexivity.
  - apply andb_true_iff in Hok as [Hok Ht]. apply andb_true_iff in Hok as [Hi Hn].
    unfold parseINI_line.
    rewrite header_not_comment, header_match by assumption. reflexivity.
  - apply andb_true_iff in Hok as [Hok Hv]. apply andb_true_iff in Hok as [Hi Hk].
    apply parseINI_pair_in; assumption.
  - destruct (blank_no_match ws Hok) as [A [B C]].
    unfold parseINI_line. rewrite A, B, C. reflexivity.
Qed.

Lemma line_of_no_newline it :
  item_ok it = true -> no_newline (line_of it).
Proof.
  assert (Hind : forall ind, indent_ok ind = true -> no_newline ind).
  { intros ind Hi. apply Forall_forall. intros c Hc. unfold indent_ok in Hi.
    rewrite forallb_forall in Hi. specialize (Hi c Hc).
    apply andb_true_iff in Hi as [_ Hn]. apply negb_true_iff in Hn.
    intros E. subst. discriminate. }
  assert (Hval : forall v, value_ok v = true -> no_newline v).
  { intros v Hv. apply Forall_forall. intros c Hc. unfold value_ok in Hv.
    rewrite forallb_forall in Hv. specialize (Hv c Hc).
    apply andb_true_iff in Hv as [Hn _]. apply negb_true_iff in Hn.
    intros E. subst. discriminate. }
  intros Hok. destruct it as [ind mark text|ind name trail|ind k v|ws];
    cbn [item_ok] in Hok; cbn [line_of].
  - apply andb_true_iff in Hok as [Hok Ht]. apply andb_true_iff in Hok as [Hi Hm].
    unfold no_newline. rewrite !Forall_app. repeat split; auto.
    + apply Hind, Hi.
    + constructor; [|constructor].
      apply orb_true_iff in Hm as [E|E]; apply Ascii.eqb_eq in E; subst;
        discriminate.
    + apply Hval, Ht.
  - apply andb_true_iff in Hok as [Hok Ht]. apply andb_true_iff in Hok as [Hi Hn].
    unfold no_newline. rewrite !Forall_app. repeat split.
    + apply Hind, Hi.
    + constructor; [discriminate|constructor].
    + destruct name as [|c0 name']; [discriminate|]. unfold name_ok in Hn.
      apply Forall_forall. intros c Hc.
      rewrite forallb_forall in Hn. specialize (Hn c Hc).
      apply andb_true_iff in Hn as [_ Hn]. apply negb_true_iff in Hn.
      intros E. subst. discriminate.
    + constructor; [discriminate|constructor].
    + apply Hind, Ht.
  - apply andb_true_iff in Hok as [Hok Hv]. apply andb_true_iff in Hok as [Hi Hk].
    apply pair_line_no_newline; assumption.
  - apply Hind, Hok.
Qed.

Lemma getlines_text {A} (f : A -> str) (l : list A) :
  Forall (fun x => no_newline (f x)) l ->
  getlines (flat_map (fun x => f x ++ [newline]) l) = map f l.
Proof.
  unfold getlines. induction l as [|x l IH]; intros H; [reflexivity|].
  inversion H as [|? ? Hx Hl]; subst. cbn [flat_map map].
  rewrite <- app_assoc. cbn [app].
  rewrite getlines_aux_line by exact Hx. rewrite IH by exact Hl. reflexivity.
Qed.

Lemma parseINI_lines_items preserve doc : forall st,
  forallb item_ok doc = true ->
  Forall (fun it => size (line_of it) < 2 ^ 64) doc ->
  parseINI_lines preserve st (map line_of doc)
  = (true, fold_left (meaning preserve) doc st).
Proof.
  induction doc as [|it doc IH]; intros st Hok Hs; [reflexivity|].
  cbn [forallb] in Hok. apply andb_true_iff in Hok as [Hit Hok].
  inversion Hs as [|? ? Hs1 Hs2]; subst.
  cbn [map parseINI_lines fold_left].
  rewrite parseINI_line_item by assumption. apply IH; assumption.
Qed.

Lemma text_sizes doc :
  size (text_of doc) < 2 ^ 64 ->
  Forall (fun it => size (line_of it) < 2 ^ 64) doc.
Proof.
  induction doc as [|it doc IH]; intros H; [constructor|].
  unfold text_of in H. cbn [flat_map] in H. rewrite !size_app in H.
  pose proof (size_nonneg (line_of it)).
  pose proof (size_nonneg [newline]).
  pose proof (size_nonneg (flat_map (fun it => line_of it ++ [newline]) doc)).
  constructor; [lia|]. apply IH. unfold text_of. lia.
Qed.
End IniDocProofs.

Section IniDocTheorems.
Import CStr Cxx Regex ConfConvert IniJson IniDoc.

(** X23.  parseINI on a text of comment lines, section headers,
    key=value lines and blank lines: it returns true, a comment goes to the
    comments when they are preserved and is dropped otherwise, a header
    [name] makes name the current section, and a pair is stored with key and
    value trimmed, under key before the first header and under
    section.key after a header. *)
Theorem parseINI_reads_sections (c : ConfigConverter) (doc : list item) :
  forallb item_ok doc = true -> size (text_of doc) < 2 ^ 64 ->
  parseINI c (text_of doc)
  = (true, set_data (data (read_document c doc)) (cmts (read_document c doc)) c).
Proof.
  intros Hok Hs. unfold parseINI, text_of.
  rewrite getlines_text.
  - rewrite parseINI_lines_items; [reflexivity|exact Hok|].
    apply text_sizes. exact Hs.
  - apply Forall_forall. intros it Hit. apply line_of_no_newline.
    rewrite forallb_forall in Hok. apply Hok. exact Hit.
Qed.
End IniDocTheorems.

Lemma parseINI_reads_sections_witness :
  forallb IniDoc.item_ok IniDoc.sample = true /\
  CStr.size (IniDoc.text_of IniDoc.sample) < 2 ^ 64 /\
  ConfConvert.parseINI ConfConvert.default_converter (IniDoc.text_of IniDoc.sample)
  = (true,
     ConfConvert.set_data
       [(CStr.lit "db.host", CStr.lit "localhost"); (CStr.lit "name", CStr.lit "demo")]
       [] ConfConvert.default_converter).
Proof.
  split; [reflexivity|]. split; [reflexivity|].
  exact (parseINI_reads_sections ConfConvert.default_converter IniDoc.sample
           eq_refl eq_refl).
Defined.

Section CrlfProofs.
Import CStr Cxx Regex ConfConvert Crlf.

Lemma start_left_of_cr l st :
  In st (m false Bol (MState [] (l ++ [cr]) [])) -> left_of_cr (rest st).
Proof.
  intros H. simpl in H. destruct H as [<-|[]]. right. exists l. reflexivity.
Qed.

Lemma keyvalue_cr l : regex_match false keyvalue_pattern (l ++ [cr]) = None.
Proof.
  apply match_none. unfold keyvalue_pattern. cbn [cat].
  apply seq_dead. intros st1 H1. apply start_left_of_cr in H1.
  apply seq_dead. intros st2 H2. apply m_left_of_cr in H2; [|exact H1].
  apply seq_dead. intros st3 H3. apply m_left_of_cr in H3; [|exact H2].
  apply tail_dead; [reflexivity|exact H3].
Qed.

Lemma comment_cr l : regex_match false comment_pattern (l ++ [cr]) = None.
Proof.
  apply match_none. unfold comment_pattern. cbn [cat].
  apply seq_dead. intros st1 H1. apply start_left_of_cr in H1.
  apply seq_dead. intros st2 H2. apply m_left_of_cr in H2; [|exact H1].
  apply tail_dead; [reflexivity|exact H2].
Qed.

Lemma hash_comment_cr l :
  regex_match false hash_comment_pattern (l ++ [cr]) = None.
Proof.
  apply match_none. unfold hash_comment_pattern. cbn [cat].
  apply seq_dead. intros st1 H1. apply start_left_of_cr in H1.
  apply seq_dead. intros st2 H2. apply m_left_of_cr in H2; [|exact H1].
  apply tail_dead; [reflexivity|exact H2].
Qed.

Lemma env_cr l : regex_match false env_pattern (l ++ [cr]) = None.
Proof.
  apply match_none. unfold env_pattern. cbn [cat].
  apply seq_dead. intros st1 H1. apply start_left_of_cr in H1.
  apply seq_dead. intros st2 H2. apply m_left_of_cr in H2; [|exact H1].
  apply seq_dead. intros st3 H3. apply m_left_of_cr in H3; [|exact H2].
  apply tail_dead; [reflexivity|exact H3].
Qed.

Lemma parseINI_lines_cr preserve ls : forall st,
  exists st', parseINI_lines preserve st (map (fun l => l ++ [cr]) ls) = (true, st')
              /\ data st' = data st /\ cmts st' = cmts st.
Proof.
  induction ls as [|l ls IH]; intros st; cbn [map parseINI_lines].
  - exists st. auto.
  - unfold parseINI_line. rewrite comment_cr.
    destruct (regex_match false section_pattern (l ++ [cr])) as [mt|].
    + destruct (IH {| current_section := sub_match 1 mt; data := data st;
                      cmts := cmts st |}) as [st' [E [D C]]].
      exists st'. auto.
    + rewrite keyvalue_cr. apply IH.
Qed.

Lemma parseENV_lines_cr preserve ls : forall st,
  line_loop (parseENV_line preserve) st (map (fun l => l ++ [cr]) ls) = (true, st).
Proof.
  induction ls as [|l ls IH]; intros [d cm]; cbn [map line_loop]; [reflexivity|].
  unfold parseENV_line. rewrite hash_comment_cr, env_cr. apply IH.
Qed.

Lemma getlines_crlf ls :
  forallb one_line ls = true ->
  getlines (crlf_text ls) = map (fun l => l ++ [cr]) ls.
Proof.
  intros H. unfold crlf_text.
  rewrite <- (getlines_text (fun l => l ++ [cr])).
  - f_equal. induction ls as [|l ls IH]; [reflexivity|].
    cbn [flat_map forallb] in *. apply andb_true_iff in H as [_ H].
    rewrite IH by exact H. rewrite <- !app_assoc. reflexivity.
  - apply Forall_forall. intros l Hl. rewrite forallb_forall in H.
    specialize (H l Hl). unfold one_line in H. unfold no_newline.
    rewrite Forall_app. split.
    + apply Forall_forall. intros c Hc. rewrite forallb_forall in H.
      specialize (H c Hc). apply negb_true_iff in H.
      intros E. subst. discriminate.
    + constructor; [discriminate|constructor].
Qed.

Lemma set_data_same c : set_data (config_data c) (comments c) c = c.
Proof. destruct c. reflexivity. Qed.
End CrlfProofs.

Section CrlfTheorems.
Import CStr Cxx Regex ConfConvert Crlf.

(** X24.  The INI and ENV readers take nothing from a text whose lines
    end in carriage return and line feed: getline leaves the carriage
    return on the line, the dot of the patterns does not match it, so no
    key=value line and no comment is recognised; the reader returns true
    and the store and the comments are as they were. *)
Theorem crlf_lines_are_skipped (c : ConfigConverter) (ls : list str) :
  forallb one_line ls = true ->
  parseINI c (crlf_text ls) = (true, c) /\
  parseENV c (crlf_text ls) = (true, c).
Proof.
  intros H. split.
  - unfold parseINI. rewrite getlines_crlf by exact H.
    destruct (parseINI_lines_cr (preserve_comments c) ls
                {| current_section := []; data := config_data c;
                   cmts := comments c |}) as [st' [E [D C]]].
    rewrite E, D, C. cbn [data cmts]. rewrite set_data_same. reflexivity.
  - unfold parseENV. rewrite getlines_crlf by exact H.
    rewrite parseENV_lines_cr. rewrite set_data_same. reflexivity.
Qed.
End CrlfTheorems.

Lemma crlf_lines_are_skipped_witness :
  forallb Crlf.one_line Crlf.sample = true /\
  ConfConvert.parseINI ConfConvert.default_converter (Crlf.crlf_text Crlf.sample)
  = (true, ConfConvert.default_converter) /\
  ConfConvert.parseENV ConfConvert.default_converter (Crlf.crlf_text Crlf.sample)
  = (true, ConfConvert.default_converter).
Proof.
  split; [reflexivity|].
  exact (crlf_lines_are_skipped ConfConvert.default_converter Crlf.sample eq_refl).
Defined.

(** ** conf-convert: from the ENV writer to the ENV reader *)

Section EnvProofs.
Import CStr Cxx Regex ConfConvert KeyOrder EnvRound.

Lemma env_key_map key : env_key key = map env_char key.
Proof. unfold env_key. rewrite map_map. reflexivity. Qed.

Lemma env_char_facts c :
  name_char c = true ->
  atom_match false env_next (env_char c) = true /\
  env_char c <> newline /\
  (isdigit c = false ->
   atom_match false env_first (env_char c) = true /\
   isspace (env_char c) = false /\ Ascii.eqb (env_char c) "#" = false).
Proof.
  destruct c as [[|] [|] [|] [|] [|] [|] [|] [|]]; vm_compute; intros H;
    try discriminate H; (split; [reflexivity|]); (split; [discriminate|]);
    intros D; try discriminate D; repeat split.
Qed.

Lemma name_key_parts k :
  name_key k = true ->
  exists c K', env_key k = c :: K' /\
    atom_match false env_first c = true /\ isspace c = false /\
    Ascii.eqb c "#" = false /\
    forallb (atom_match false env_next) K' = true /\
    no_newline (env_key k).
Proof.
  destruct k as [|c k']; [discriminate|]. intros H. unfold name_key in H.
  apply andb_true_iff in H as [Hd H]. apply negb_true_iff in Hd.
  cbn [forallb] in H. apply andb_true_iff in H as [Hc Hk].
  rewrite env_key_map. cbn [map].
  destruct (env_char_facts c Hc) as [_ [Hn F]]. destruct (F Hd) as [F1 [F2 F3]].
  exists (env_char c), (map env_char k'). repeat split; try assumption.
  - apply forallb_forall. intros x Hx. apply in_map_iff in Hx as [y [<- Hy]].
    rewrite forallb_forall in Hk. apply (env_char_facts y (Hk y Hy)).
  - constructor; [exact Hn|]. apply Forall_forall. intros x Hx.
    apply in_map_iff in Hx as [y [<- Hy]].
    rewrite forallb_forall in Hk. apply (env_char_facts y (Hk y Hy)).
Qed.

Lemma env_entry_line kv :
  env_entry kv = (env_key (fst kv) ++ lit "=" ++ written_value (snd kv)) ++ [newline].
Proof.
  destruct kv as [k v]. unfold env_entry, written_value. cbn [fst snd].
  rewrite <- !app_assoc. reflexivity.
Qed.

Lemma plain_value_parts v :
  plain_value v = true ->
  IniJson.value_ok v = true /\
  match v with
  | c :: _ => Ascii.eqb c dquote = false /\ Ascii.eqb c "'" = false
  | [] => True
  end.
Proof.
  unfold plain_value. intros H. apply andb_true_iff in H as [H1 H2].
  split; [exact H1|]. destruct v as [|c v']; [exact I|].
  apply andb_true_iff in H2 as [A B].
  apply negb_true_iff in A. apply negb_true_iff in B. auto.
Qed.

Lemma written_value_ok v :
  plain_value v = true -> size v + 2 < 2 ^ 64 ->
  IniJson.value_ok (written_value v) = true /\
  unquote (written_value v) = Some v.
Proof.
  intros H Hs. destruct (plain_value_parts v H) as [Hv Hq].
  unfold written_value. destruct (_ || _).
  - split.
    + unfold IniJson.value_ok in *. rewrite !forallb_app, Hv. reflexivity.
    + apply unquote_wrapped; [exact Hs|left; reflexivity].
  - split; [exact Hv|]. apply unquote_plain. exact Hq.
Qed.

Lemma env_line_match K c K' w :
  K = c :: K' -> atom_match false env_first c = true ->
  isspace c = false -> forallb (atom_match false env_next) K' = true ->
  IniJson.value_ok w = true ->
  regex_match false env_pattern (K ++ lit "=" ++ w)
  = Some [(2%nat, w); (1%nat, K)].
Proof.
  intros EK Hc Hsp HK Hw. subst K.
  set (line := (c :: K') ++ lit "=" ++ w).
  unfold regex_match.
  change (find at_end (m false env_pattern (MState [] line [])))
    with (full false env_pattern (MState [] line [])).
  assert (Hfull : full false env_pattern (MState [] line [])
          = Some (MState (rev w ++ "="%char :: rev K' ++ [c]) []
                         [(2%nat, w); (1%nat, c :: K')])).
  { unfold env_pattern. cbn [cat]. fold env_first. fold env_next.
    eapply full_seq_head; [reflexivity|].
    destruct (m_rep_greedy false space 0 (MState [] line [])
                [] line) as [tl1 H1];
      [reflexivity | reflexivity
      | unfold line; simpl; rewrite orb_false_r; exact Hsp | simpl; lia |].
    eapply full_seq_head; [exact H1|]. cbn [pre rest caps rev app].
    destruct (m_rep_greedy false env_next 0
                (MState [c] (K' ++ lit "=" ++ w) [])
                K' (lit "=" ++ w)) as [tl2 H2];
      [reflexivity | exact HK | reflexivity | lia |].
    assert (H3 : exists tl,
              m false (Group 1 (Seq (Atom env_first) (star env_next)))
                (MState [] line [])
              = MState (rev K' ++ [c]) (lit "=" ++ w) [(1%nat, c :: K')] :: tl).
    { change (m false (Group 1 (Seq (Atom env_first) (star env_next)))
                (MState [] line []))
        with (map (fun st' => MState (pre st') (rest st')
                      ((1%nat, captured (MState [] line []) st') :: caps st'))
                  (flat_map (m false (star env_next))
                            (m false (Atom env_first) (MState [] line [])))).
      unfold line. cbn [m rest app pre caps]. rewrite Hc.
      cbn [flat_map]. rewrite app_nil_r.
      change (m false (star env_next) (MState [c] (K' ++ lit "=" ++ w) []))
        with (m false (Rep env_next 0 None) (MState [c] (K' ++ lit "=" ++ w) [])).
      rewrite H2. cbn [map pre rest caps].
      eexists. f_equal. f_equal. f_equal. f_equal.
      unfold captured. cbn [pre List.length]. rewrite Nat.sub_0_r.
      rewrite firstn_all. rewrite rev_app_distr, rev_involutive. reflexivity. }
    destruct H3 as [tl3 H3].
    eapply full_seq_head; [exact H3|]. cbn [pre rest caps].
    eapply full_seq_head; [reflexivity|]. cbn [pre rest caps].
    destruct (m_group_rep_greedy false 2 AAny 0
                (MState ("="%char :: rev K' ++ [c]) w [(1%nat, c :: K')])
                w []) as [tl4 H4];
      [cbn [rest]; symmetry; apply app_nil_r | apply value_any; exact Hw
      | exact I | lia |].
    eapply full_seq_head; [exact H4|]. reflexivity. }
  rewrite Hfull. reflexivity.
Qed.

Lemma env_line_not_comment K c K' w :
  K = c :: K' -> isspace c = false -> Ascii.eqb c "#" = false ->
  regex_match false hash_comment_pattern (K ++ lit "=" ++ w) = None.
Proof.
  intros EK Hsp Hh. subst K. apply match_none.
  unfold hash_comment_pattern. cbn [cat].
  apply seq_dead. intros st1 H1. simpl in H1. destruct H1 as [<-|[]].
  apply seq_dead. intros st2 H2.
  eapply (m_rep_then_atom_nil false space) with
    (xs := @nil ascii) (y := c) (ys := K' ++ lit "=" ++ w); [| | | |exact H2].
  - reflexivity.
  - constructor.
  - simpl. unfold char_match. exact Hh.
  - simpl. rewrite orb_false_r. exact Hsp.
Qed.

Lemma parseENV_line_entry preserve d cm kv :
  entry_ok kv = true -> size (snd kv) + 2 < 2 ^ 64 ->
  parseENV_line preserve (d, cm)
    (env_key (fst kv) ++ lit "=" ++ written_value (snd kv))
  = Some (map_set (env_key (fst kv)) (snd kv) d, cm).
Proof.
  intros Hok Hs. destruct kv as [k v]. cbn [fst snd] in *.
  unfold entry_ok in Hok. cbn [fst snd] in Hok.
  apply andb_true_iff in Hok as [Hk Hv].
  destruct (name_key_parts k Hk) as [c [K' [EK [F1 [F2 [F3 [F4 _]]]]]]].
  destruct (written_value_ok v Hv Hs) as [W1 W2].
  unfold parseENV_line.
  rewrite (env_line_not_comment _ c K' _ EK F2 F3).
  rewrite (env_line_match _ c K' _ EK F1 F2 F4 W1).
  change (sub_match 2 [(2%nat, written_value v); (1%nat, env_key k)])
    with (written_value v).
  change (sub_match 1 [(2%nat, written_value v); (1%nat, env_key k)])
    with (env_key k).
  rewrite W2. reflexivity.
Qed.

Lemma env_line_no_newline kv :
  entry_ok kv = true -> size (snd kv) + 2 < 2 ^ 64 ->
  no_newline (env_key (fst kv) ++ lit "=" ++ written_value (snd kv)).
Proof.
  intros Hok Hs. destruct kv as [k v]. cbn [fst snd] in *.
  unfold entry_ok in Hok. cbn [fst snd] in Hok.
  apply andb_true_iff in Hok as [Hk Hv].
  destruct (name_key_parts k Hk) as [c [K' [EK [_ [_ [_ [_ Hn]]]]]]].
  destruct (written_value_ok v Hv Hs) as [W1 _].
  unfold no_newline. rewrite !Forall_app. repeat split.
  - exact Hn.
  - constructor; [discriminate|constructor].
  - apply Forall_forall. intros x Hx. unfold IniJson.value_ok in W1.
    rewrite forallb_forall in W1. specialize (W1 x Hx).
    apply andb_true_iff in W1 as [A _]. apply negb_true_iff in A.
    intros E. subst. discriminate.
Qed.

Lemma entry_sizes entries :
  size (flat_map env_entry entries) < 2 ^ 64 ->
  Forall (fun kv => size (snd kv) + 2 < 2 ^ 64) entries.
Proof.
  induction entries as [|[k v] entries IH]; intros H; [constructor|].
  cbn [flat_map] in H. rewrite size_app in H.
  pose proof (size_nonneg (flat_map env_entry entries)).
  assert (size v + 2 <= size (env_entry (k, v))).
  { unfold env_entry. rewrite !size_app.
    pose proof (size_nonneg (env_key k)).
    change (size (lit "=")) with 1. change (size [newline]) with 1.
    destruct (_ || _).
    - rewrite !size_app. change (size [dquote]) with 1. lia.
    - lia. }
  pose proof (size_nonneg v).
  constructor; [cbn [snd]; lia|]. apply IH. lia.
Qed.

Lemma line_loop_entries preserve entries : forall d cm,
  forallb entry_ok entries = true ->
  Forall (fun kv => size (snd kv) + 2 < 2 ^ 64) entries ->
  line_loop (parseENV_line preserve) (d, cm)
    (map (fun kv => env_key (fst kv) ++ lit "=" ++ written_value (snd kv)) entries)
  = (true, (renamed entries d, cm)).
Proof.
  induction entries as [|kv entries IH]; intros d cm Hok Hs; [reflexivity|].
  cbn [forallb] in Hok. apply andb_true_iff in Hok as [H1 H2].
  inversion Hs as [|? ? S1 S2]; subst.
  cbn [map line_loop]. rewrite parseENV_line_entry by assumption.
  unfold renamed. cbn [fold_left]. apply IH; assumption.
Qed.

Lemma renamed_same entries : forall acc,
  ascending (acc ++ entries) -> shell_names entries = true ->
  renamed entries acc = acc ++ entries.
Proof.
  induction entries as [|[k v] entries IH]; intros acc H Hn.
  - rewrite app_nil_r. reflexivity.
  - unfold shell_names in Hn. cbn [forallb fst] in Hn.
    apply andb_true_iff in Hn as [E Hn]. apply str_eqb_eq in E.
    pose proof (ascending_app_below k v entries acc H) as Hb.
    unfold renamed. cbn [fold_left fst snd]. rewrite E.
    rewrite (below_set k v acc Hb).
    change (fold_left _ entries (acc ++ [(k, v)]))
      with (renamed entries (acc ++ [(k, v)])).
    rewrite IH; [rewrite <- app_assoc; reflexivity| |exact Hn].
    rewrite <- app_assoc. exact H.
Qed.
End EnvProofs.

Section EnvTheorems.
Import CStr Cxx Regex ConfConvert KeyOrder EnvRound.

(** X25.  What generateENV writes, parseENV reads back: for a store
    whose keys are made of letters, digits, underscores and dots and whose
    values are on one line and do not start with a quote, written without
    the block of comments (preserve_comments off, as by default) into a
    text shorter than 2^64 bytes, reading the written text stores every
    value, quoted or not, under the upper-case name of its key.  When the
    keys are such names already, the store read into an empty converter is
    the store that was written. *)
Theorem env_written_is_read_back (c c0 : ConfigConverter) (text : str) :
  preserve_comments c = false ->
  forallb entry_ok (config_data c) = true ->
  generateENV c = Ok text -> size text < 2 ^ 64 ->
  parseENV c0 text
  = (true, set_data (renamed (config_data c) (config_data c0)) (comments c0) c0) /\
  (ascending (config_data c) -> shell_names (config_data c) = true ->
   renamed (config_data c) [] = config_data c).
Proof.
  intros Hp Hok Hgen Hs. unfold generateENV, comment_block in Hgen.
  rewrite Hp in Hgen. cbn [app] in Hgen. apply Ok_eq in Hgen. subst text.
  pose proof (entry_sizes _ Hs) as Hsz.
  split.
  - unfold parseENV.
    assert (E : flat_map env_entry (config_data c)
                = flat_map (fun kv => (env_key (fst kv) ++ lit "="
                                       ++ written_value (snd kv)) ++ [newline])
                           (config_data c)).
    { apply flat_map_ext. intros kv. apply env_entry_line. }
    rewrite E, getlines_text.
    + rewrite line_loop_entries by assumption. reflexivity.
    + rewrite Forall_forall in *. intros kv Hkv.
      apply env_line_no_newline; [|apply Hsz, Hkv].
      rewrite forallb_forall in Hok. apply Hok, Hkv.
  - intros Ha Hn. apply (renamed_same (config_data c) []); assumption.
Qed.
End EnvTheorems.

Lemma env_written_is_read_back_witness :
  ConfConvert.parseENV ConfConvert.default_converter
    (flat_map ConfConvert.env_entry (ConfConvert.config_data EnvRound.sample))
  = (true,
     ConfConvert.set_data
       (EnvRound.renamed (ConfConvert.config_data EnvRound.sample) []) []
       ConfConvert.default_converter).
Proof.
  exact (proj1 (env_written_is_read_back EnvRound.sample
                  ConfConvert.default_converter _ eq_refl eq_refl eq_refl
                  eq_refl)).
Defined.

(** ** tree: the depth limit *)

Section LevelFacts.
Import CStr Cxx Proc Tree Levels.
Variable o : Options.

Lemma insert_sorted_same depth x y l l' :
  same_at depth x y -> Forall2 (same_at depth) l l' ->
  Forall2 (same_at depth) (insert_sorted x l) (insert_sorted y l').
Proof.
  intros Hxy H. induction H as [|a b l l' Hab Hl IH]; cbn [insert_sorted].
  - constructor; [exact Hxy|constructor].
  - destruct Hxy as [Ex Hx]. destruct Hab as [Ea Ha]. rewrite <- Ex, <- Ea.
    destruct (str_ltb (fst a) (fst x)).
    + constructor; [split; assumption|]. apply IH.
    + constructor; [split; assumption|]. constructor; [split; assumption|exact Hl].
Qed.

Lemma sort_paths_same depth l l' :
  Forall2 (same_at depth) l l' ->
  Forall2 (same_at depth) (sort_paths l) (sort_paths l').
Proof.
  intros H. induction H as [|a b l l' Hab Hl IH]; cbn [sort_paths fold_right].
  - constructor.
  - apply insert_sorted_same; assumption.
Qed.

Lemma each_same depth ws ws' :
  Forall2 (same_at depth) ws ws' ->
  forall inner st, each ws inner depth st = each ws' inner depth st.
Proof.
  intros H. induction H as [|[n1 w1] [n2 w2] ws ws' Hab Hl IH]; intros inner st.
  - reflexivity.
  - cbn [each]. destruct Hab as [_ Hw]. cbn [snd] in Hw.
    assert (E : is_last ws = is_last ws').
    { destruct Hl; reflexivity. }
    rewrite E, Hw. destruct (w2 inner (is_last ws') depth st) as [[|what|] st1];
      [apply IH|reflexivity|reflexivity].
Qed.

Lemma each_all_return depth ws :
  Forall (fun p : str * walker =>
            forall inner isLast st, snd p inner isLast depth st = (Returned, st)) ws ->
  forall inner st, each ws inner depth st = (Returned, st).
Proof.
  intros H. induction H as [|[nm walk] ws Hw Hws IH]; intros inner st.
  - reflexivity.
  - cbn [each]. cbn [snd] in Hw. rewrite Hw. apply IH.
Qed.

Lemma filename_prune k n : filename (prune k n) = filename n.
Proof. destruct k, n; reflexivity. Qed.

(** At a depth within the limit the entry itself is printed as without
    a limit, and the same for the pruned path. *)
Lemma print_entry_prune k n prefix isLast depth st :
  0 <= maxDepth o -> depth <= maxDepth o ->
  print_entry o n prefix isLast depth st
  = print_entry (unlimited o) (prune k n) prefix isLast depth st.
Proof.
  intros H0 Hd. unfold print_entry. rewrite filename_prune.
  assert (E1 : negb (maxDepth o =? -1) && (maxDepth o <? depth) = false).
  { destruct (Z.ltb_spec (maxDepth o) depth); [lia|]. apply andb_false_r. }
  rewrite E1. cbn [unlimited maxDepth showHidden onlyDirs onlyFiles].
  change (negb (-1 =? -1) && (-1 <? depth)) with false. cbv iota.
  assert (E2 : is_directory (prune k n) = is_directory n) by (destruct k, n; reflexivity).
  assert (E3 : node_attrs (prune k n) = node_attrs n) by (destruct k, n; reflexivity).
  assert (E4 : matchesPattern (unlimited o) (prune k n) = matchesPattern o n).
  { unfold matchesPattern. rewrite filename_prune. reflexivity. }
  rewrite E2, E3, E4. reflexivity.
Qed.

(** Beyond the limit printTree returns at once. *)
Lemma printTree_beyond n prefix isLast depth st :
  0 <= maxDepth o -> maxDepth o < depth ->
  printTree o n prefix isLast depth st = (Returned, st).
Proof.
  intros H0 Hd. rewrite printTree_unfold.
  assert (E : print_entry o n prefix isLast depth st = (Returned, false, st)).
  { unfold print_entry.
    destruct (Z.eqb_spec (maxDepth o) (-1)); [lia|].
    destruct (Z.ltb_spec (maxDepth o) depth); [|lia]. reflexivity. }
  rewrite E. reflexivity.
Qed.

Lemma printTree_prune k : forall n prefix isLast depth st,
  0 <= maxDepth o -> depth + Z.of_nat k = maxDepth o -> 0 <= depth ->
  printTree o n prefix isLast depth st
  = printTree (unlimited o) (prune k n) prefix isLast depth st.
Proof.
  induction k as [|k IH]; intros n prefix isLast depth st H0 Hk Hd;
    rewrite !printTree_unfold;
    rewrite <- (print_entry_prune _ n) by lia;
    destruct (print_entry o n prefix isLast depth st) as [[[| |] [|]] st1];
    try reflexivity;
    destruct n as [name a|name a entries|name a what|name what];
    try reflexivity; cbn [prune unlimited indentChars map sort_paths fold_right each].
  - rewrite each_all_return; [reflexivity|].
    apply sort_paths_all. apply Forall_forall. intros p Hp.
    apply in_map_iff in Hp as [c [<- _]]. intros inner l st2. cbn [snd].
    apply printTree_beyond; lia.
  - rewrite map_map.
    rewrite (each_same (depth + 1)
               (sort_paths (map (fun c => (filename c, printTree o c)) entries))
               (sort_paths (map (fun c => (filename (prune k c),
                                           printTree (unlimited o) (prune k c)))
                                entries))).
    + destruct (each _ _ _ _) as [[|what|] st2]; reflexivity.
    + apply sort_paths_same. induction entries as [|c entries IHe]; cbn [map];
        constructor; [|exact IHe].
      split; cbn [fst snd]; [symmetry; apply filename_prune|].
      intros inner l st2. apply IH; lia.
Qed.
End LevelFacts.

Section LevelTheorems.
Import CStr Cxx Proc Tree Levels.

(** X26.  tree -L k lists what tree without -L lists of the directory
    with everything more than k directories below its entries taken away:
    the entries of the directory itself and k levels below them, k + 1
    levels in all; -L 0 lists the entries of the directory and nothing
    below them. *)
Theorem tree_L_lists_one_level_more (o : Options) (w : world) (k : nat) :
  maxDepth o = Z.of_nat k ->
  run o w = run (unlimited o) (prune_world k w).
Proof.
  intros Hk. unfold run, prune_world. cbn [root rootPath].
  destruct (root w) as [[name a|name a entries|name a what|name what]|];
    try reflexivity.
  rewrite map_map.
  rewrite (each_same 0
             (sort_paths (map (fun c => (filename c, printTree o c)) entries))
             (sort_paths (map (fun c => (filename (prune k c),
                                         printTree (unlimited o) (prune k c)))
                              entries))).
  - reflexivity.
  - apply sort_paths_same. induction entries as [|c entries IHe]; cbn [map];
      constructor; [|exact IHe].
    split; cbn [fst snd]; [symmetry; apply filename_prune|].
    intros inner l st2. apply printTree_prune; lia.
Qed.
End LevelTheorems.

Lemma tree_L_lists_one_level_more_witness :
  Tree.maxDepth Levels.level_1 = Z.of_nat 1 /\
  Listing.names (Tree.final (Tree.run Levels.level_1 Levels.deep))
  = [CStr.lit "a"; CStr.lit "b"; CStr.lit "c"; CStr.lit "d"].
Proof.
  split; [reflexivity|].
  rewrite (tree_L_lists_one_level_more Levels.level_1 Levels.deep 1 eq_refl).
  reflexivity.
Defined.

(** ** whois: the fields of a response *)

Section FieldFacts.
Import CStr Cxx IniJson Whois Fields Crlf.

Lemma find_char_from s c : forall i,
  str_find_from s [c] i = npos \/
  exists a b, s = a ++ c :: b /\ ~ In c a /\ str_find_from s [c] i = i + size a.
Proof.
  induction s as [|x s IH]; intros i; cbn [str_find_from is_prefix].
  - left. reflexivity.
  - destruct (Ascii.eqb_spec c x) as [E|E]; cbn [andb].
    + right. exists [], s. subst. repeat split; [intros []|]. cbn. lia.
    + destruct (IH (i + 1)) as [H|[a [b [H1 [H2 H3]]]]]; [left; exact H|].
      right. exists (x :: a), b. subst s. repeat split.
      * intros [H|H]; [congruence|contradiction].
      * rewrite H3. unfold size. cbn [List.length]. lia.
Qed.

Lemma find_from_first a c b : forall i,
  ~ In c a -> str_find_from (a ++ c :: b) [c] i = i + size a.
Proof.
  induction a as [|x a IH]; intros i Hn; cbn [app str_find_from is_prefix].
  - rewrite Ascii.eqb_refl. cbn. lia.
  - destruct (Ascii.eqb_spec c x) as [E|E].
    + exfalso. apply Hn. left. congruence.
    + cbn [andb]. rewrite IH.
      * unfold size. cbn [List.length]. lia.
      * intros H. apply Hn. right. exact H.
Qed.

Lemma find_char_first a c b :
  ~ In c a -> find_char (a ++ c :: b) c = size a.
Proof.
  intros H. unfold find_char, str_find. rewrite find_from_first by exact H. lia.
Qed.

Lemma substr_prefix a b : substr (a ++ b) 0 (size a) = Some a.
Proof.
  unfold substr. pose proof (size_nonneg (a ++ b)).
  destruct (Z.ltb_spec (size (a ++ b)) 0); [lia|].
  rewrite Z.sub_0_r, size_app. pose proof (size_nonneg b).
  rewrite Z.min_l by lia. cbn [Z.to_nat skipn]. unfold size.
  rewrite Nat2Z.id, firstn_app, firstn_all, Nat.sub_diag. cbn [firstn].
  rewrite app_nil_r. reflexivity.
Qed.

Lemma substr_suffix a c b :
  size (a ++ c :: b) < 2 ^ 64 ->
  substr (a ++ c :: b) (size_t (size a + 1)) npos = Some b.
Proof.
  intros Hs. pose proof (size_nonneg a). pose proof (size_nonneg b).
  assert (E : size (a ++ c :: b) = size a + 1 + size b).
  { unfold size. rewrite length_app. cbn [List.length]. lia. }
  unfold size_t. rewrite Z.mod_small by lia.
  unfold substr. rewrite E.
  destruct (Z.ltb_spec (size a + 1 + size b) (size a + 1)); [lia|].
  replace (size a + 1 + size b - (size a + 1)) with (size b) by lia.
  rewrite Z.min_r by (rewrite npos_val; change (2 ^ 64) with 18446744073709551616 in Hs; lia).
  replace (Z.to_nat (size a + 1)) with (S (List.length a)) by (unfold size; lia).
  change (a ++ c :: b) with (a ++ [c] ++ b). rewrite app_assoc.
  rewrite skipn_app.
  replace (List.length (a ++ [c])) with (S (List.length a))
    by (rewrite length_app; cbn; lia).
  rewrite skipn_all2 by (rewrite length_app; cbn; lia).
  rewrite Nat.sub_diag. cbn [skipn app]. unfold size.
  rewrite Nat2Z.id, firstn_all. reflexivity.
Qed.

Lemma chomp_size line : size (chomp line) <= size line.
Proof.
  unfold chomp. destruct (rev line) as [|c r] eqn:E; [lia|].
  destruct (Ascii.eqb c cr); [|lia].
  assert (H : line = rev r ++ [c]).
  { rewrite <- (rev_involutive line), E. reflexivity. }
  rewrite H, size_app. pose proof (size_nonneg [c]). lia.
Qed.

(** parseResponse throws on no line. *)
Lemma parse_line_total data line :
  size line < 2 ^ 64 -> exists data', parse_line (Ok data) line = Ok data'.
Proof.
  intros Hs. unfold parse_line. cbn [bind]. fold (chomp line).
  pose proof (chomp_size line) as Hc.
  destruct (chomp line) as [|c l] eqn:El; [eauto|].
  destruct (Ascii.eqb c "%" || Ascii.eqb c "#"); [eauto|].
  unfold find_char, str_find.
  destruct (find_char_from (c :: l) ":" 0) as [E|[a [b [E1 [E2 E3]]]]].
  - rewrite E. change (npos =? npos) with true. cbv iota. eauto.
  - rewrite E3, E1. cbn [Z.add].
    assert (Hab : size (a ++ ":"%char :: b) < 2 ^ 64) by (rewrite <- E1; lia).
    pose proof (size_nonneg a). pose proof (size_nonneg b).
    assert (Esz : size (a ++ ":"%char :: b) = size a + 1 + size b).
    { unfold size. rewrite length_app. cbn [List.length]. lia. }
    destruct (Z.eqb_spec (size a) npos) as [En|En].
    { rewrite npos_val in En.
      change (2 ^ 64) with 18446744073709551616 in Hab. lia. }
    rewrite substr_prefix. cbn [checked bind].
    rewrite substr_suffix by exact Hab. cbn [checked bind].
    rewrite !trim_strip by lia. cbn [checked bind].
    destruct (strip a), (strip b); eauto.
Qed.

Lemma parse_lines_total ls : forall data,
  Forall (fun l => size l < 2 ^ 64) ls ->
  exists data', fold_left parse_line ls (Ok data) = Ok data'.
Proof.
  induction ls as [|l ls IH]; intros data H; cbn [fold_left]; [eauto|].
  inversion H as [|? ? H1 H2]; subst.
  destruct (parse_line_total data l H1) as [d1 E]. rewrite E. apply IH, H2.
Qed.

Lemma field_ok_parts k v :
  field_ok k v = true ->
  ~ In ":"%char k /\ ~ In cr v /\ strip k <> [] /\ strip v <> [] /\
  (exists c k', k = c :: k' /\ Ascii.eqb c "%" || Ascii.eqb c "#" = false) /\
  no_newline (k ++ lit ":" ++ v).
Proof.
  unfold field_ok. intros H.
  apply andb_true_iff in H as [H H5]. apply andb_true_iff in H as [H H4].
  apply andb_true_iff in H as [H H3]. apply andb_true_iff in H as [H1 H2].
  rewrite forallb_forall in H1, H3.
  repeat split.
  - intros Hin. specialize (H1 _ Hin). discriminate H1.
  - intros Hin. specialize (H3 _ Hin). apply andb_true_iff in H3 as [_ H3].
    discriminate H3.
  - destruct (strip k); [discriminate|discriminate].
  - destruct (strip v); [discriminate|discriminate].
  - destruct k as [|c k']; [discriminate|]. exists c, k'. split; [reflexivity|].
    apply andb_true_iff in H2 as [A B].
    apply negb_true_iff in A. apply negb_true_iff in B. rewrite A, B. reflexivity.
  - unfold no_newline. rewrite !Forall_app. repeat split.
    + apply Forall_forall. intros c Hc. specialize (H1 _ Hc).
      apply andb_true_iff in H1 as [_ H1]. apply negb_true_iff in H1.
      intros E. subst. discriminate.
    + constructor; [discriminate|constructor].
    + apply Forall_forall. intros c Hc. specialize (H3 _ Hc).
      apply andb_true_iff in H3 as [H3 _]. apply negb_true_iff in H3.
      intros E. subst. discriminate.
Qed.

Lemma chomp_field k v crlf :
  field_ok k v = true -> chomp (field_line k v crlf) = k ++ lit ":" ++ v.
Proof.
  intros Hok. destruct (field_ok_parts k v Hok) as [_ [Hcr _]].
  unfold chomp, field_line. destruct crlf.
  - rewrite !app_assoc, rev_app_distr. cbn [rev app].
    rewrite Ascii.eqb_refl, rev_involutive. reflexivity.
  - rewrite app_nil_r.
    destruct (rev (k ++ lit ":" ++ v)) as [|c r] eqn:E; [reflexivity|].
    destruct (Ascii.eqb_spec c cr) as [Ec|Ec]; [|reflexivity].
    exfalso. subst c. rewrite rev_app_distr in E.
    destruct (rev (lit ":" ++ v)) as [|c' r'] eqn:E2.
    + apply (f_equal (@List.length ascii)) in E2.
      rewrite length_rev in E2. discriminate E2.
    + cbn [app] in E. inversion E; subst c'.
      assert (Hin : In cr (lit ":" ++ v)).
      { apply in_rev. rewrite E2. left. reflexivity. }
      destruct Hin as [Hin|Hin]; [discriminate Hin|exact (Hcr Hin)].
Qed.

Lemma parse_field_line data k v crlf :
  field_ok k v = true -> size (field_line k v crlf) < 2 ^ 64 ->
  parse_line (Ok data) (field_line k v crlf)
  = Ok (map_set (strip k) (strip v) data).
Proof.
  intros Hok Hs. destruct (field_ok_parts k v Hok)
    as [Hk [_ [Hsk [Hsv [[c [k' [Ek Hc]]] _]]]]].
  unfold parse_line. cbn [bind]. fold (chomp (field_line k v crlf)).
  rewrite (chomp_field k v crlf Hok).
  assert (Hs' : size (k ++ ":"%char :: v) < 2 ^ 64).
  { unfold field_line in Hs. rewrite !size_app in Hs.
    change (k ++ ":"%char :: v) with (k ++ lit ":" ++ v). rewrite !size_app.
    destruct crlf; [change (size [cr]) with 1 in Hs|change (size []) with 0 in Hs];
      lia. }
  change (k ++ lit ":" ++ v) with (k ++ ":"%char :: v).
  rewrite (find_char_first k ":" v Hk).
  rewrite Ek at 1. cbn [app]. rewrite Hc. try rewrite <- Ek.
  pose proof (size_nonneg k). pose proof (size_nonneg v).
  assert (Esz : size (k ++ ":"%char :: v) = size k + 1 + size v).
  { unfold size. rewrite length_app. cbn [List.length]. lia. }
  destruct (Z.eqb_spec (size k) npos) as [En|En].
  { rewrite npos_val in En.
    change (2 ^ 64) with 18446744073709551616 in Hs'. lia. }
  rewrite substr_prefix. cbn [checked bind].
  rewrite substr_suffix by exact Hs'. cbn [checked bind].
  rewrite !trim_strip by lia. cbn [checked bind].
  destruct (strip k); [congruence|]. destruct (strip v); [congruence|].
  reflexivity.
Qed.
End FieldFacts.

Section FieldTheorems.
Import CStr Cxx IniJson Whois Fields Crlf.

(** X27.  The last line that carries a field decides its value: after
    any lines, a response shorter than 2^64 bytes that ends in a line
    name:value, with or without a carriage return at its end, is parsed by
    parseResponse without a throw, and the value, trimmed of blanks and
    tabs, is left under the trimmed name, whatever the lines before stored
    there. *)
Theorem whois_last_field_wins (ls : list str) (k v : str) (crlf : bool) :
  forallb one_line ls = true -> field_ok k v = true ->
  size (lines_text (ls ++ [field_line k v crlf])) < 2 ^ 64 ->
  exists data,
    parseResponse (lines_text (ls ++ [field_line k v crlf])) = Ok data /\
    map_find (strip k) data = Some (strip v).
Proof.
  intros Hls Hok Hs. destruct (field_ok_parts k v Hok) as [_ [_ [_ [_ [_ Hnl]]]]].
  assert (Hsz : Forall (fun l => size l < 2 ^ 64) (ls ++ [field_line k v crlf])).
  { clear - Hs. revert Hs. generalize (ls ++ [field_line k v crlf]).
    induction l as [|x l IH]; intros H; [constructor|].
    unfold lines_text in H. cbn [flat_map] in H. rewrite !size_app in H.
    pose proof (size_nonneg x). pose proof (size_nonneg [newline]).
    pose proof (size_nonneg (flat_map (fun l => l ++ [newline]) l)).
    constructor; [lia|]. apply IH. unfold lines_text. lia. }
  apply Forall_app in Hsz as [Hsz1 Hsz2].
  inversion Hsz2 as [|? ? Hsz3 _]; subst.
  unfold parseResponse, lines_text.
  rewrite (getlines_text (fun l => l)).
  - rewrite map_id, fold_left_app. cbn [fold_left].
    destruct (parse_lines_total ls [] Hsz1) as [d0 E].
    match goal with
    | |- context [parse_line ?x _] =>
        replace x with (@Ok (omap str) d0) by (symmetry; exact E)
    end.
    rewrite parse_field_line by assumption.
    eexists. split; [reflexivity|]. apply map_find_set.
  - apply Forall_app. split.
    + apply Forall_forall. intros l Hl. rewrite forallb_forall in Hls.
      specialize (Hls l Hl). unfold one_line in Hls. unfold no_newline.
      apply Forall_forall. intros c Hc. rewrite forallb_forall in Hls.
      specialize (Hls c Hc). apply negb_true_iff in Hls.
      intros Ec. subst. discriminate.
    + constructor; [|constructor]. unfold field_line.
      unfold no_newline in *. rewrite !app_assoc. apply Forall_app. split.
      * rewrite <- app_assoc. exact Hnl.
      * destruct crlf; [constructor; [discriminate|constructor]|constructor].
Qed.
End FieldTheorems.

Lemma whois_last_field_wins_witness :
  exists data,
    Whois.parseResponse
      (Fields.lines_text
         (Fields.two_servers
          ++ [Fields.field_line Fields.name_server Fields.second_server true]))
    = Cxx.Ok data /\
    Cxx.map_find (CStr.lit "Name Server") data = Some (CStr.lit "ns2.example.net").
Proof.
  exact (whois_last_field_wins Fields.two_servers Fields.name_server
           Fields.second_server true eq_refl eq_refl eq_refl).
Defined.

(** ** conf-convert: from the YAML writer to the YAML reader *)

Section YamlProofs.
Import CStr Cxx Regex ConfConvert KeyOrder IniJson YamlRound.

Lemma yaml_entry_line kv :
  yaml_entry kv = (fst kv ++ lit ": " ++ yaml_written (snd kv)) ++ [newline].
Proof.
  destruct kv as [k v]. unfold yaml_entry, yaml_written, yaml_quoted.
  cbn [fst snd]. rewrite <- !app_assoc. reflexivity.
Qed.

Lemma rstrip_snoc s c : is_blank c = false -> rstrip (s ++ [c]) = s ++ [c].
Proof.
  intros Hc. induction s as [|x s IH]; cbn [app rstrip].
  - rewrite Hc. reflexivity.
  - rewrite IH. destruct (s ++ [c]) eqn:E; [|reflexivity].
    destruct s; discriminate E.
Qed.

Lemma strip_quoted v : strip ([dquote] ++ v ++ [dquote]) = [dquote] ++ v ++ [dquote].
Proof.
  unfold strip. cbn [app lstrip]. change (is_blank dquote) with false. cbv iota.
  change (dquote :: v ++ [dquote]) with ((dquote :: v) ++ [dquote]).
  apply rstrip_snoc. reflexivity.
Qed.

Lemma yaml_value_parts v :
  yaml_value v = true -> size v + 2 < 2 ^ 64 ->
  value_ok (yaml_written v) = true /\
  stops_at false space (yaml_written v) /\
  strip (yaml_written v) = yaml_written v /\
  unquote (yaml_written v) = Some v.
Proof.
  unfold yaml_value. intros H Hs. apply andb_true_iff in H as [Hv H].
  unfold yaml_written. destruct (yaml_quoted v).
  - repeat split.
    + unfold value_ok in *. rewrite !forallb_app, Hv. reflexivity.
    + apply strip_quoted.
    + apply unquote_wrapped; [exact Hs|left; reflexivity].
  - cbn [orb] in H. apply andb_true_iff in H as [Hst Hc].
    apply str_eqb_eq in Hst. repeat split.
    + exact Hv.
    + destruct v as [|c v']; [exact I|].
      apply andb_true_iff in Hc as [Hc _]. apply andb_true_iff in Hc as [Hc _].
      apply negb_true_iff in Hc. simpl. rewrite orb_false_r. exact Hc.
    + exact Hst.
    + apply unquote_plain. destruct v as [|c v']; [exact I|].
      apply andb_true_iff in Hc as [Hc C]. apply andb_true_iff in Hc as [_ B].
      apply negb_true_iff in B. apply negb_true_iff in C. auto.
Qed.

Lemma yaml_key_parts k :
  yaml_key k = true ->
  exists c k', k = c :: k' /\ isspace c = false /\ Ascii.eqb c "#" = false /\
    forallb (atom_match false (ASet true [CChar ":"])) k = true /\
    strip k = k /\ no_newline k.
Proof.
  unfold yaml_key. intros H. apply andb_true_iff in H as [H H3].
  apply andb_true_iff in H as [H1 H2]. apply str_eqb_eq in H3.
  destruct k as [|c k']; [discriminate|].
  apply andb_true_iff in H1 as [A B].
  apply negb_true_iff in A. apply negb_true_iff in B.
  exists c, k'. repeat split; try assumption.
  - apply forallb_forall. intros x Hx. rewrite forallb_forall in H2.
    specialize (H2 x Hx). apply andb_true_iff in H2 as [H2 _].
    simpl. unfold char_match. rewrite orb_false_r. exact H2.
  - apply Forall_forall. intros x Hx. rewrite forallb_forall in H2.
    specialize (H2 x Hx). apply andb_true_iff in H2 as [_ H2].
    apply negb_true_iff in H2. intros E. subst. discriminate.
Qed.

Lemma yaml_line_match k c k' w :
  k = c :: k' -> isspace c = false ->
  forallb (atom_match false (ASet true [CChar ":"])) k = true ->
  value_ok w = true -> stops_at false space w ->
  regex_match false yaml_pattern (k ++ lit ": " ++ w)
  = Some [(2%nat, w); (1%nat, k)].
Proof.
  intros Ek Hsp Hk Hw Hst.
  set (line := k ++ lit ": " ++ w).
  unfold regex_match.
  change (find at_end (m false yaml_pattern (MState [] line [])))
    with (full false yaml_pattern (MState [] line [])).
  assert (Hfull : full false yaml_pattern (MState [] line [])
          = Some (MState (rev w ++ " "%char :: ":"%char :: rev k ++ []) []
                         [(2%nat, w); (1%nat, k)])).
  { unfold yaml_pattern. cbn [cat].
    eapply full_seq_head; [reflexivity|].
    destruct (m_rep_greedy false space 0 (MState [] line []) [] line) as [tl1 H1];
      [reflexivity | reflexivity
      | unfold line; rewrite Ek; simpl; rewrite orb_false_r; exact Hsp
      | simpl; lia |].
    eapply full_seq_head; [exact H1|]. cbn [pre rest caps rev app].
    destruct (m_group_rep_greedy false 1 (ASet true [CChar ":"]) 1
                (MState [] line []) k (lit ": " ++ w)) as [tl2 H2];
      [reflexivity | exact Hk | reflexivity | rewrite Ek; simpl; lia |].
    eapply full_seq_head; [exact H2|]. cbn [pre rest caps].
    eapply full_seq_head; [reflexivity|]. cbn [pre rest caps].
    destruct (m_rep_greedy false space 0
                (MState (":"%char :: rev k ++ []) (" "%char :: w) [(1%nat, k)])
                [" "%char] w) as [tl3 H3];
      [reflexivity | reflexivity | exact Hst | simpl; lia |].
    eapply full_seq_head; [exact H3|]. cbn [pre rest caps rev app].
    destruct (m_group_rep_greedy false 2 AAny 0
                (MState (" "%char :: ":"%char :: rev k ++ []) w [(1%nat, k)])
                w []) as [tl4 H4];
      [cbn [rest]; symmetry; apply app_nil_r | apply value_any; exact Hw
      | exact I | lia |].
    eapply full_seq_head; [exact H4|]. reflexivity. }
  rewrite Hfull. reflexivity.
Qed.

Lemma yaml_line_not_comment k c k' w :
  k = c :: k' -> isspace c = false -> Ascii.eqb c "#" = false ->
  regex_match false hash_comment_pattern (k ++ lit ": " ++ w) = None.
Proof.
  intros EK Hsp Hh. subst k. apply match_none.
  unfold hash_comment_pattern. cbn [cat].
  apply seq_dead. intros st1 H1. simpl in H1. destruct H1 as [<-|[]].
  apply seq_dead. intros st2 H2.
  eapply (m_rep_then_atom_nil false space) with
    (xs := @nil ascii) (y := c) (ys := k' ++ lit ": " ++ w); [| | | |exact H2].
  - reflexivity.
  - constructor.
  - simpl. unfold char_match. exact Hh.
  - simpl. rewrite orb_false_r. exact Hsp.
Qed.

Lemma parseYAML_line_entry preserve d cm kv :
  entry_ok kv = true -> size (yaml_entry kv) < 2 ^ 64 ->
  parseYAML_line preserve (d, cm) (fst kv ++ lit ": " ++ yaml_written (snd kv))
  = Some (map_set (fst kv) (snd kv) d, cm).
Proof.
  intros Hok Hs. destruct kv as [k v]. cbn [fst snd] in *.
  unfold entry_ok in Hok. cbn [fst snd] in Hok.
  apply andb_true_iff in Hok as [Hk Hv].
  rewrite yaml_entry_line in Hs. cbn [fst snd] in Hs. rewrite !size_app in Hs.
  pose proof (size_nonneg k). pose proof (size_nonneg v).
  pose proof (size_nonneg (yaml_written v)).
  change (size (lit ": ")) with 2 in Hs. change (size [newline]) with 1 in Hs.
  assert (Hvw : size v <= size (yaml_written v)).
  { unfold yaml_written. destruct (yaml_quoted v); [|lia].
    rewrite !size_app. change (size [dquote]) with 1. lia. }
  destruct (yaml_key_parts k Hk) as [c [k' [EK [F1 [F2 [F3 [F4 _]]]]]]].
  destruct (yaml_value_parts v Hv ltac:(lia)) as [W1 [W2 [W3 W4]]].
  unfold parseYAML_line.
  rewrite (yaml_line_not_comment _ c k' _ EK F1 F2).
  rewrite (yaml_line_match _ c k' _ EK F1 F3 W1 W2).
  change (sub_match 2 [(2%nat, yaml_written v); (1%nat, k)]) with (yaml_written v).
  change (sub_match 1 [(2%nat, yaml_written v); (1%nat, k)]) with k.
  rewrite !trim_strip by lia. rewrite F4, W3, W4. reflexivity.
Qed.

Lemma yaml_line_no_newline kv :
  entry_ok kv = true -> size (yaml_entry kv) < 2 ^ 64 ->
  no_newline (fst kv ++ lit ": " ++ yaml_written (snd kv)).
Proof.
  intros Hok Hs. destruct kv as [k v]. cbn [fst snd] in *.
  unfold entry_ok in Hok. cbn [fst snd] in Hok.
  apply andb_true_iff in Hok as [Hk Hv].
  destruct (yaml_key_parts k Hk) as [c [k' [EK [_ [_ [_ [_ Hn]]]]]]].
  assert (W1 : value_ok (yaml_written v) = true).
  { unfold yaml_value in Hv. apply andb_true_iff in Hv as [Hv _].
    unfold yaml_written. destruct (yaml_quoted v); [|exact Hv].
    unfold value_ok in *. rewrite !forallb_app, Hv. reflexivity. }
  unfold no_newline. rewrite !Forall_app. repeat split.
  - exact Hn.
  - constructor; [discriminate|]. constructor; [discriminate|constructor].
  - apply Forall_forall. intros x Hx. unfold value_ok in W1.
    rewrite forallb_forall in W1. specialize (W1 x Hx).
    apply andb_true_iff in W1 as [A _]. apply negb_true_iff in A.
    intros E. subst. discriminate.
Qed.

Lemma yaml_entry_sizes entries :
  size (flat_map yaml_entry entries) < 2 ^ 64 ->
  Forall (fun kv => size (yaml_entry kv) < 2 ^ 64) entries.
Proof.
  induction entries as [|kv entries IH]; intros H; [constructor|].
  cbn [flat_map] in H. rewrite size_app in H.
  pose proof (size_nonneg (flat_map yaml_entry entries)).
  pose proof (size_nonneg (yaml_entry kv)).
  constructor; [lia|]. apply IH. lia.
Qed.

Lemma line_loop_yaml preserve entries : forall d cm,
  forallb entry_ok entries = true ->
  Forall (fun kv => size (yaml_entry kv) < 2 ^ 64) entries ->
  line_loop (parseYAML_line preserve) (d, cm)
    (map (fun kv => fst kv ++ lit ": " ++ yaml_written (snd kv)) entries)
  = (true, (stored entries d, cm)).
Proof.
  induction entries as [|kv entries IH]; intros d cm Hok Hs; [reflexivity|].
  cbn [forallb] in Hok. apply andb_true_iff in Hok as [H1 H2].
  inversion Hs as [|? ? S1 S2]; subst.
  cbn [map line_loop]. rewrite parseYAML_line_entry by assumption.
  unfold stored. cbn [fold_left]. apply IH; assumption.
Qed.

Lemma stored_same entries : forall acc,
  ascending (acc ++ entries) -> stored entries acc = acc ++ entries.
Proof.
  induction entries as [|[k v] entries IH]; intros acc H.
  - rewrite app_nil_r. reflexivity.
  - pose proof (ascending_app_below k v entries acc H) as Hb.
    unfold stored. cbn [fold_left fst snd].
    rewrite (below_set k v acc Hb).
    change (fold_left _ entries (acc ++ [(k, v)]))
      with (stored entries (acc ++ [(k, v)])).
    rewrite IH; [rewrite <- app_assoc; reflexivity|].
    rewrite <- app_assoc. exact H.
Qed.
End YamlProofs.

Section YamlTheorems.
Import CStr Cxx Regex ConfConvert KeyOrder IniJson YamlRound.

(** X28.  What generateYAML writes, parseYAML reads back: for a store
    whose keys have no colon and start with neither whitespace nor a hash,
    and whose values are on one line and, where the writer leaves them
    without quotes, start with neither whitespace nor a quote and end with
    neither a blank nor a tab, written without the block of comments
    (preserve_comments off, as by default) into a text shorter than 2^64
    bytes, reading the written text stores every value under its key; read
    into an empty converter, the store is the store that was written. *)
Theorem yaml_written_is_read_back (c c0 : ConfigConverter) (text : str) :
  preserve_comments c = false ->
  forallb entry_ok (config_data c) = true ->
  generateYAML c = Ok text -> size text < 2 ^ 64 ->
  parseYAML c0 text
  = (true, set_data (stored (config_data c) (config_data c0)) (comments c0) c0) /\
  (ascending (config_data c) -> stored (config_data c) [] = config_data c).
Proof.
  intros Hp Hok Hgen Hs. unfold generateYAML, comment_block in Hgen.
  rewrite Hp in Hgen. cbn [app] in Hgen. apply Ok_eq in Hgen. subst text.
  pose proof (yaml_entry_sizes _ Hs) as Hsz.
  split.
  - unfold parseYAML.
    assert (E : flat_map yaml_entry (config_data c)
                = flat_map (fun kv => (fst kv ++ lit ": "
                                       ++ yaml_written (snd kv)) ++ [newline])
                           (config_data c)).
    { apply flat_map_ext. intros kv. apply yaml_entry_line. }
    rewrite E, getlines_text.
    + rewrite line_loop_yaml by assumption. reflexivity.
    + rewrite Forall_forall in *. intros kv Hkv.
      apply yaml_line_no_newline; [|apply Hsz, Hkv].
      rewrite forallb_forall in Hok. apply Hok, Hkv.
  - intros Ha. apply (stored_same (config_data c) []). exact Ha.
Qed.
End YamlTheorems.

Lemma yaml_written_is_read_back_witness :
  ConfConvert.parseYAML ConfConvert.default_converter
    (flat_map ConfConvert.yaml_entry (ConfConvert.config_data YamlRound.sample))
  = (true,
     ConfConvert.set_data
       (YamlRound.stored (ConfConvert.config_data YamlRound.sample) []) []
       ConfConvert.default_converter).
Proof.
  exact (proj1 (yaml_written_is_read_back YamlRound.sample
                  ConfConvert.default_converter _ eq_refl eq_refl eq_refl
                  eq_refl)).
Defined.

(** ** kill: which processes get the signal *)

Section KillProofs.
Import CStr Cxx Proc Kill KillMain KillFacts.
Variable w : world.

Lemma get_process_info_uid u c p :
  username c = None ->
  get_process_info w p (set_uid u c) = get_process_info w p c.
Proof.
  intros Hu. unfold get_process_info, name_matches, lacks_substring, user_matches.
  cbn [set_uid exact_name contains_str username uid]. rewrite Hu. reflexivity.
Qed.

Lemma scan_entries_uid u c entries : forall found,
  username c = None ->
  scan_entries w (set_uid u c) entries found = scan_entries w c entries found.
Proof.
  induction entries as [|e entries IH]; intros found Hu; cbn [scan_entries];
    [reflexivity|].
  destruct (negb (is_dir e)); [apply IH, Hu|].
  destruct (atoi (d_name e)) as [p|]; [|reflexivity].
  destruct (p <=? 0); [apply IH, Hu|].
  rewrite get_process_info_uid by exact Hu.
  destruct (get_process_info w p c) as [[info|]|];
    [apply IH, Hu|apply IH, Hu|reflexivity].
Qed.

(** What the sending loop does with any list when it ends with status
    0: no call of kill has ended the program, and every process of the list
    has been sent the signal. *)
Lemma send_spec sig processes : forall out,
  ending (send w sig processes out) = Exit 0 ->
  ending out = Exit 0 /\
  kills (send w sig processes out)
  = kills out ++ map (fun p => (pid p, sig)) processes.
Proof.
  induction processes as [|p processes IH]; intros out; cbn [send map].
  - rewrite app_nil_r. auto.
  - destruct (ends_sender w (pid p) sig); [discriminate|].
    intros H. destruct (IH _ H) as [E K].
    rewrite K. cbn [ending kills] in E |- *. rewrite <- app_assoc. auto.
Qed.

Lemma main_after_options os :
  main w os
  = match parse_options w os
            {| crit := zero_criteria; list_mode := false; signum := lit "TERM" |} with
    | inr out => out
    | inl l => after_options w l
    end.
Proof. reflexivity. Qed.

Lemma after_options_uid u c lm s :
  username c = None ->
  after_options w {| crit := set_uid u c; list_mode := lm; signum := s |}
  = after_options w {| crit := c; list_mode := lm; signum := s |}.
Proof.
  intros Hu. unfold after_options, find_processes. cbn [crit list_mode signum].
  destruct lm; [reflexivity|].
  destruct (parse_signal s) as [sig|]; [|reflexivity].
  destruct (sig <=? 0); [reflexivity|].
  destruct (proc_entries w) as [entries|]; [|reflexivity].
  rewrite scan_entries_uid by exact Hu. reflexivity.
Qed.

(** The option loop never sets username, and -u changes nothing but
    uid. *)
Lemma parse_options_u os : forall c u1 u2 lm s,
  (forall u, In (OptU u) os -> getpwnam w u <> None) ->
  username c = None ->
  match parse_options w os {| crit := set_uid u1 c; list_mode := lm; signum := s |},
        parse_options w (without_u os)
                      {| crit := set_uid u2 c; list_mode := lm; signum := s |} with
  | inl a, inl b =>
      exists c' v1 v2,
        username c' = None /\
        a = {| crit := set_uid v1 c'; list_mode := list_mode a; signum := signum a |} /\
        b = {| crit := set_uid v2 c'; list_mode := list_mode a; signum := signum a |}
  | inr x, inr y => x = y
  | _, _ => False
  end.
Proof.
  induction os as [|o os IH]; intros c u1 u2 lm s Hus Hu.
  - cbn [without_u filter parse_options]. exists c, u1, u2. auto.
  - assert (Hus' : forall u, In (OptU u) os -> getpwnam w u <> None).
    { intros u Hin. apply Hus. right. exact Hin. }
    destruct o as [|a|a|a|a|a|a|msg]; cbn [without_u filter parse_options];
      fold (without_u os); cbn [crit list_mode signum].
    + apply IH; assumption.
    + apply IH; assumption.
    + apply (IH (set_exact_name a c)); assumption.
    + apply (IH (set_contains_str a c)); assumption.
    + apply (IH (set_exact_name a c)); assumption.
    + destruct (getpwnam w a) as [u|] eqn:E.
      * apply (IH c u u2); assumption.
      * exfalso. apply (Hus a); [left; reflexivity|exact E].
    + apply (IH (set_contains_str a c)); assumption.
    + reflexivity.
Qed.

Lemma get_process_info_plain u p :
  get_process_info w p (set_uid u zero_criteria)
  = match proc_read w p Cmdline, proc_read w p Stat with
    | Some _, Some bytes =>
        match read_start_time w (c_str (firstn 1023 bytes)) with
        | None => None
        | Some t => Some (Some {| pid := p; start_time := t |})
        end
    | _, _ => Some None
    end.
Proof.
  unfold get_process_info, name_matches, lacks_substring, user_matches,
    read_proc_file.
  cbn [set_uid zero_criteria exact_name contains_str username].
  destruct (proc_read w p Cmdline); [|reflexivity].
  destruct (proc_read w p Stat); reflexivity.
Qed.

Lemma scan_entries_plain u entries : forall found result,
  scan_entries w (set_uid u zero_criteria) entries found = Some result ->
  map pid result = map pid found ++ readable_pids w entries.
Proof.
  induction entries as [|e entries IH]; intros found result H;
    cbn [scan_entries readable_pids flat_map] in *.
  - inversion H; subst. rewrite app_nil_r. reflexivity.
  - fold (readable_pids w entries).
    destruct (is_dir e); cbn [negb] in H; [|apply IH, H].
    destruct (atoi (d_name e)) as [p|]; [|discriminate H].
    destruct (Z.leb_spec p 0) as [Hp|Hp].
    + destruct (Z.ltb_spec 0 p); [lia|]. cbn [andb app]. apply IH, H.
    + destruct (Z.ltb_spec 0 p); [|lia]. cbn [andb].
      rewrite get_process_info_plain in H.
      destruct (proc_read w p Cmdline); cbn [opened andb];
        [|cbn [app]; apply IH, H].
      destruct (proc_read w p Stat) as [bytes|]; cbn [opened];
        [|cbn [app]; apply IH, H].
      destruct (read_start_time w _) as [t|]; [|discriminate H].
      rewrite (IH _ _ H), map_app. cbn [map pid]. rewrite <- app_assoc.
      reflexivity.
Qed.

Lemma parse_options_plain os : forall u lm s,
  no_filter os = true ->
  match parse_options w os
          {| crit := set_uid u zero_criteria; list_mode := lm; signum := s |} with
  | inl l =>
      exists u', l = {| crit := set_uid u' zero_criteria; list_mode := lm;
                        signum := fold_left
                                    (fun s o => match o with
                                                | OptS optarg => optarg
                                                | _ => s
                                                end) os s |}
  | inr out => ending out = Exit 1
  end.
Proof.
  induction os as [|o os IH]; intros u lm s H.
  - cbn. eauto.
  - cbn [no_filter forallb] in H. apply andb_true_iff in H as [Ho H].
    destruct o as [|a|a|a|a|a|a|msg]; try discriminate Ho;
      cbn [parse_options fold_left crit list_mode signum].
    + apply (IH u lm a H).
    + destruct (getpwnam w a) as [u'|]; [|reflexivity].
      apply (IH u' lm s H).
Qed.
End KillProofs.

Section KillTheorems.
Import CStr Cxx Proc Kill KillMain KillFacts.

(** X29.  -u USER selects nothing: the option loop stores the uid of
    the user and never sets username, which is what get_process_info
    tests, so with users that exist a run with -u options ends as the run
    without them, with the same signals sent to the same processes. *)
Theorem kill_u_is_ignored (w : world) (os : list option_t) :
  (forall u, In (OptU u) os -> getpwnam w u <> None) ->
  main w os = main w (without_u os).
Proof.
  intros Hus. rewrite !main_after_options.
  pose proof (parse_options_u w os zero_criteria 0 0 false (lit "TERM") Hus eq_refl)
    as H.
  change (set_uid 0 zero_criteria) with zero_criteria in H.
  destruct (parse_options w os _) as [a|x];
    destruct (parse_options w (without_u os) _) as [b|y]; try contradiction.
  - destruct H as [c' [v1 [v2 [Hu [-> ->]]]]].
    rewrite !after_options_uid by exact Hu. reflexivity.
  - exact H.
Qed.

(** X30.  Without -n, -e, -o, -c and -l nothing is selected either: when
    such a run ends with status 0, it has sent the signal of the last -s,
    TERM when there is none, to every process of /proc whose cmdline and
    stat files could be read, in the order of the directory, whichever
    process that is. *)
Theorem kill_without_a_filter (w : world) (os : list option_t) :
  no_filter os = true -> ending (main w os) = Exit 0 ->
  exists entries sig,
    proc_entries w = Some entries /\
    parse_signal (signum_of os) = Some sig /\ 0 < sig /\
    kills (main w os) = map (fun p => (p, sig)) (readable_pids w entries).
Proof.
  intros Hos. rewrite main_after_options.
  pose proof (parse_options_plain w os 0 false (lit "TERM") Hos) as H.
  change (set_uid 0 zero_criteria) with zero_criteria in H.
  destruct (parse_options w os _) as [l|out].
  - destruct H as [u ->]. fold (signum_of os).
    unfold after_options, find_processes. cbn [crit list_mode signum].
    destruct (parse_signal (signum_of os)) as [sig|]; [|discriminate].
    destruct (Z.leb_spec sig 0) as [Hs|Hs]; [discriminate|].
    destruct (proc_entries w) as [entries|]; [|discriminate].
    destruct (scan_entries w _ entries []) as [processes|] eqn:E; [|discriminate].
    change (time_filter (set_uid u zero_criteria) processes) with (Some processes).
    cbv beta iota.
    change (visited (set_uid u zero_criteria) processes) with processes.
    intros Hend.
    destruct (send_spec w sig processes
                {| ending := Exit 0; stderr := []; kills := [] |} Hend) as [_ K].
    exists entries, sig. repeat split; try assumption.
    rewrite K. cbn [kills app].
    apply scan_entries_plain in E. cbn [map app] in E.
    rewrite <- E, map_map. reflexivity.
  - intros E. rewrite E in H. discriminate H.
Qed.
End KillTheorems.

Lemma kill_u_is_ignored_witness :
  KillMain.main KillFacts.busy [KillMain.OptU (CStr.lit "nobody")]
  = KillMain.main KillFacts.busy [].
Proof.
  apply (kill_u_is_ignored KillFacts.busy [KillMain.OptU (CStr.lit "nobody")]).
  intros u _. discriminate.
Defined.

Lemma kill_without_a_filter_witness :
  exists entries sig,
    KillMain.proc_entries KillFacts.busy = Some entries /\
    Kill.parse_signal (KillFacts.signum_of []) = Some sig /\ 0 < sig /\
    KillMain.kills (KillMain.main KillFacts.busy [])
    = map (fun p => (p, sig)) (KillFacts.readable_pids KillFacts.busy entries).
Proof. exact (kill_without_a_filter KillFacts.busy [] eq_refl eq_refl). Defined.
